(** * VoxFlow real-time audio pipeline: a shallow embedding.

    The development follows the pieces of the streaming core:

    - [AudioProcessor]  (src/services/audioProcessor.js): the per-call PCM
      accumulator, the flush policy and the WAV encoder;
    - [StreamServer]    (src/services/streamServer.js): outbound audio
      shaping (DC-offset removal, crossfade, fade-out padding) and
      packetisation; [StreamServer64] is the same in binary64 arithmetic;
    - [StreamingClient] (src/services/streamingClient.js): the per-call
      session orchestrator with its [isTranscribing]/[isPlayingBack] guards;
    - [StreamClient]    (the stream client of the hearing route, found in
      src/routes/designer.js): the handler that drops the first 16 kHz packet.

    Modelling conventions.

    - PCM samples are integers ([Z]); arrays are lists.
    - A JavaScript number that is not an integer by construction (a mean, a
      fade factor, a duration) is an exact rational ([Q]); a division whose
      divisor may be zero yields a [JS.number] with infinities and NaN.
      Integer-valued sums of int16 samples are exact in IEEE doubles, so the
      idealisation only concerns the last-bit rounding of quotients.
    - Where that last bit decides an output sample (the crossfade and the
      fade-out round a product that can sit on a tie), the shaping is also
      given in binary64: [Binary64] rounds every operation to the nearest
      double, and [StreamServer64] is [StreamServer] with its arithmetic
      rounded that way.
    - [Date.now()] is the [now] component of the state that a handler reads.
    - [Map]s keyed by call id are [gmap string _]; objects that are captured
      by a continuation across an [await] live in a store and are referred
      to by address.
    - An [async] function is a resumption: it runs until it finishes or
      suspends on an external call, handing back a continuation that is
      resumed with the collaborator's answer in whatever state the event
      loop has reached by then. *)

From Stdlib Require Import ZArith QArith Qround Qabs Qpower Lia Lqa Bool String Ascii.
From Stdlib Require Floats.
From stdpp Require Import gmap strings list fin_maps.

Local Open Scope Z_scope.

(** ** JavaScript values and library functions *)

Module JS.

(** Errors a modelled function can throw. *)
Inductive Error : Type :=
| RangeError
| TypeError
| ExternalError (reason : string).

(** The outcome of evaluating a function body: a value or a thrown error. *)
Inductive completion (A : Type) : Type :=
| Normal (a : A)
| Throw (e : Error).
Arguments Normal {A} a.
Arguments Throw {A} e.

#[global] Instance completion_ret : MRet completion := fun A a => Normal a.
#[global] Instance completion_bind : MBind completion := fun A B f m =>
  match m with
  | Normal a => f a
  | Throw e => Throw e
  end.

(** Numbers produced by a division whose divisor may be zero. *)
Inductive number : Type :=
| Finite (q : Q)
| PosInfinity
| NegInfinity
| NaN.

Definition Qltb (x y : Q) : bool := negb (Qle_bool y x).

(** [a / b] for integer-valued [a] and [b]. *)
Definition div (a b : Z) : number :=
  if b =? 0 then
    if 0 <? a then PosInfinity else if a <? 0 then NegInfinity else NaN
  else Finite (inject_Z a / inject_Z b).

(** [x * k] for a positive integer constant [k]. *)
Definition mul_pos (x : number) (k : positive) : number :=
  match x with
  | Finite q => Finite (q * inject_Z (Z.pos k))
  | other => other
  end.

Definition add (x y : number) : number :=
  match x, y with
  | Finite p, Finite q => Finite (p + q)
  | NaN, _ | _, NaN => NaN
  | PosInfinity, NegInfinity | NegInfinity, PosInfinity => NaN
  | PosInfinity, _ | _, PosInfinity => PosInfinity
  | NegInfinity, _ | _, NegInfinity => NegInfinity
  end.

(** [x >= y] and [x < y] against an integer [y]; both are false on NaN. *)
Definition geb (x : number) (y : Z) : bool :=
  match x with
  | Finite q => Qle_bool (inject_Z y) q
  | PosInfinity => true
  | NegInfinity | NaN => false
  end.

Definition ltb (x : number) (y : Z) : bool :=
  match x with
  | Finite q => Qltb q (inject_Z y)
  | NegInfinity => true
  | PosInfinity | NaN => false
  end.

(** [Math.round]: nearest integer, halves towards plus infinity. *)
Definition Math_round (x : Q) : Z := Qfloor (x + (1 # 2)).

(** [samples.reduce((acc, s) => acc + s * s, 0)]. *)
Definition sumSquares (samples : list Z) : Z :=
  fold_left (fun acc s => acc + s * s) samples 0.

(** [samples.reduce((sum, val) => sum + val, 0)]. *)
Definition sum (samples : list Z) : Z :=
  fold_left (fun acc s => acc + s) samples 0.

(** [Math.sqrt(sum / samples.length) > a] and [... < a], with the square
    root eliminated: the root of a non-negative [q] exceeds [a] iff [a] is
    negative or [q > a*a].  On an empty array the quotient is NaN and both
    comparisons are false. *)
Definition rms_gt (samples : list Z) (a : Z) : bool :=
  match samples with
  | [] => false
  | _ => (a <? 0)
         || Qltb (inject_Z (a * a))
                 (inject_Z (sumSquares samples) / inject_Z (Z.of_nat (length samples)))
  end.

Definition rms_lt (samples : list Z) (a : Z) : bool :=
  match samples with
  | [] => false
  | _ => (0 <? a)
         && Qltb (inject_Z (sumSquares samples) / inject_Z (Z.of_nat (length samples)))
                 (inject_Z (a * a))
  end.

(** *** Node.js [Buffer] *)

(** A buffer is a list of bytes, each in [0, 255]. *)
Definition Buffer : Type := list Z.

(** The [k]-th little-endian byte of [v] (two's complement for negatives). *)
Definition byte_of (v : Z) (k : nat) : Z :=
  Z.land (Z.shiftr v (8 * Z.of_nat k)) 255.

Definition le_bytes (n : nat) (v : Z) : list Z := map (byte_of v) (seq 0 n).

(** [Buffer.allocUnsafe(size)]: [size] bytes of whatever memory held before,
    given by [uninit]. *)
Definition allocUnsafe (uninit : nat -> Z) (size : Z) : completion Buffer :=
  if size <? 0 then Throw RangeError
  else Normal (map uninit (seq 0 (Z.to_nat size))).

(** The fixed-width writers throw when the value is out of range or the
    bytes do not fit; they return the offset past the bytes written. *)
Definition writeBytes (bs : list Z) (offset : nat) (buf : Buffer)
  : completion (Buffer * nat) :=
  if (offset + length bs <=? length buf)%nat
  then Normal (list_inserts offset bs buf, (offset + length bs)%nat)
  else Throw RangeError.

Definition writeUInt32LE (value : Z) (offset : nat) (buf : Buffer)
  : completion (Buffer * nat) :=
  if (0 <=? value) && (value <=? 4294967295)
  then writeBytes (le_bytes 4 value) offset buf
  else Throw RangeError.

Definition writeUInt16LE (value : Z) (offset : nat) (buf : Buffer)
  : completion (Buffer * nat) :=
  if (0 <=? value) && (value <=? 65535)
  then writeBytes (le_bytes 2 value) offset buf
  else Throw RangeError.

Definition writeInt16LE (value : Z) (offset : nat) (buf : Buffer)
  : completion (Buffer * nat) :=
  if (-32768 <=? value) && (value <=? 32767)
  then writeBytes (le_bytes 2 value) offset buf
  else Throw RangeError.

(** [buf.write(str, offset)] for an ASCII string: writes what fits. *)
Definition ascii_bytes (s : string) : list Z :=
  map (fun a => Z.of_nat (nat_of_ascii a)) (list_ascii_of_string s).

Definition write (s : string) (offset : nat) (buf : Buffer)
  : completion (Buffer * nat) :=
  if (offset <=? length buf)%nat
  then let bs := take (length buf - offset) (ascii_bytes s) in
       Normal (list_inserts offset bs buf, (offset + length bs)%nat)
  else Throw RangeError.

End JS.

(** ** IEEE 754 binary64

    The numbers of the engine are doubles.  A finite double is a rational,
    and every arithmetic operation returns the double nearest to the exact
    result, halves going to the neighbour with an even significand.  The
    module covers the finite range (magnitudes below [2^1024]); the shaping
    of integer samples never leaves it. *)

Module Binary64.

(** [floor(log2 |x|)] of a rational that is not zero. *)
Definition ilog2 (x : Q) : Z :=
  let k := Z.log2 (Z.abs (Qnum x)) - Z.log2 (Z.pos (Qden x)) in
  if Qle_bool (2 ^ k) (Qabs x) then k else k - 1.

(** The nearest integer, halves to the even neighbour. *)
Definition nearestEven (y : Q) : Z :=
  let f := Qfloor y in
  match (y - inject_Z f ?= 1 # 2)%Q with
  | Lt => f
  | Gt => f + 1
  | Eq => if Z.even f then f else f + 1
  end.

(** The exponent of the last place of the double nearest to [x]: 53
    significant bits, and never below the last place of the subnormal
    numbers. *)
Definition lastPlace (x : Q) : Z := Z.max (ilog2 x - 52) (-1074).

(** Round to nearest, ties to even. *)
Definition round (x : Q) : Q :=
  if Qeq_bool x 0 then 0%Q
  else (inject_Z (nearestEven (x / 2 ^ lastPlace x)) * 2 ^ lastPlace x)%Q.

Definition add (x y : Q) : Q := round (x + y).
Definition sub (x y : Q) : Q := round (x - y).
Definition mul (x y : Q) : Q := round (x * y).
Definition div (x y : Q) : Q := round (x / y).

(** Half a unit in the last place of a number of magnitude one, and half
    the spacing of the subnormal numbers: the relative and the absolute
    part of the rounding error. *)
Definition unitRoundoff : Q := 1 # 9007199254740992.
Definition tiny : Q := 2 ^ (-1075).

End Binary64.

(** *** The kernel's doubles

    Rocq's primitive floats are binary64 numbers computed by the machine;
    they serve to check the rounding of [Binary64] on concrete operations. *)

Module Hardware.

(** The rational a finite primitive float stands for. *)
Definition value (f : PrimFloat.float) : option Q :=
  match FloatOps.Prim2SF f with
  | SpecFloat.S754_zero _ => Some 0%Q
  | SpecFloat.S754_finite s m e =>
    Some ((if s then -1 else 1) * inject_Z (Z.pos m) * 2 ^ e)%Q
  | _ => None
  end.

(** The model and the primitive operation give the same number. *)
Definition agree (x : Q) (f : PrimFloat.float) : bool :=
  match value f with
  | Some y => Qeq_bool x y
  | None => false
  end.

End Hardware.

(** ** AudioProcessor (src/services/audioProcessor.js) *)

Module AudioProcessor.
Import JS.

Record Config : Type := mkConfig {
  minAudioDuration : Z;
  maxAudioDuration : Z;
  silenceThreshold : Z;
  silenceAmplitude : Z;
  sampleRate : Z;
  bitsPerSample : Z;
  channels : Z
}.

(** The [config] argument of the constructor: every key may be absent. *)
Record Options : Type := mkOptions {
  opt_minAudioDuration : option Z;
  opt_maxAudioDuration : option Z;
  opt_silenceThreshold : option Z;
  opt_silenceAmplitude : option Z;
  opt_sampleRate : option Z;
  opt_bitsPerSample : option Z;
  opt_channels : option Z
}.

(** [v || d] on an optional integer: absent and zero are both falsy. *)
Definition or_default (v : option Z) (d : Z) : Z :=
  match v with
  | Some x => if x =? 0 then d else x
  | None => d
  end.

Record t : Type := mkProcessor {
  ucid : string;
  config : Config;
  samples : list Z;
  totalSamples : Z;
  startTime : Z;
  lastAudioTime : Z;
  consecutiveSilentPackets : Z
}.

Definition new (ucid : string) (o : Options) (now : Z) : t :=
  {| ucid := ucid;
     config := {| minAudioDuration := or_default (opt_minAudioDuration o) 1000;
                  maxAudioDuration := or_default (opt_maxAudioDuration o) 5000;
                  silenceThreshold := or_default (opt_silenceThreshold o) 1000;
                  silenceAmplitude := or_default (opt_silenceAmplitude o) 100;
                  sampleRate := or_default (opt_sampleRate o) 8000;
                  bitsPerSample := or_default (opt_bitsPerSample o) 16;
                  channels := or_default (opt_channels o) 1 |};
     samples := [];
     totalSamples := 0;
     startTime := now;
     lastAudioTime := now;
     consecutiveSilentPackets := 0 |}.

Definition detectAudioActivity (p : t) (packet : list Z) : bool :=
  rms_gt packet (silenceAmplitude (config p)).

(** [addSamples(samples, sampleRate)]; the second argument is not used by
    the source and is omitted. *)
Definition addSamples (now : Z) (packet : list Z) (p : t) : t :=
  match packet with
  | [] => p
  | _ =>
    let isAudioPresent := detectAudioActivity p packet in
    {| ucid := ucid p;
       config := config p;
       samples := samples p ++ packet;
       totalSamples := totalSamples p + Z.of_nat (length packet);
       startTime := startTime p;
       lastAudioTime := if isAudioPresent then now else lastAudioTime p;
       consecutiveSilentPackets :=
         if isAudioPresent then 0 else consecutiveSilentPackets p + 1 |}
  end.

Definition getDurationMs (p : t) : number :=
  mul_pos (div (totalSamples p) (sampleRate (config p))) 1000.

Definition isSilent (now : Z) (p : t) : bool :=
  let silenceDuration := now - lastAudioTime p in
  silenceThreshold (config p) <=? silenceDuration.

Definition shouldSendToAPI (now : Z) (p : t) : bool :=
  let duration := getDurationMs p in
  let hasMinAudio := geb duration (minAudioDuration (config p)) in
  let hasMaxAudio := geb duration (maxAudioDuration (config p)) in
  let silenceDetected := isSilent now p in
  if hasMaxAudio then true
  else if silenceDetected && hasMinAudio then true
  else if silenceDetected && negb hasMinAudio then false
  else false.

(** The loop [for (i = 0; i < samples.length; i++) writeInt16LE(...)]. *)
Fixpoint writeSamples (l : list Z) (offset : nat) (buf : Buffer)
  : completion (Buffer * nat) :=
  match l with
  | [] => Normal (buf, offset)
  | s :: rest =>
    '(buf, offset) ← writeInt16LE s offset buf;
    writeSamples rest offset buf
  end.

(** [toWAVBuffer()]: [None] is JavaScript's [null].  [bitsPerSample / 8] is
    taken as an integer quotient; it is exact for every configuration the
    repository builds (16 bits). *)
Definition toWAVBuffer (uninit : nat -> Z) (p : t) : completion (option Buffer) :=
  if (length (samples p) =? 0)%nat then Normal None
  else
    let sampleRate := sampleRate (config p) in
    let numChannels := channels (config p) in
    let bitsPerSample := bitsPerSample (config p) in
    let bytesPerSample := bitsPerSample / 8 in
    let dataSize := Z.of_nat (length (samples p)) * bytesPerSample in
    let fileSize := 44 + dataSize in
    buffer ← allocUnsafe uninit fileSize;
    let offset := 0%nat in
    '(buffer, offset) ← write "RIFF" offset buffer;
    '(buffer, offset) ← writeUInt32LE (fileSize - 8) offset buffer;
    '(buffer, offset) ← write "WAVE" offset buffer;
    '(buffer, offset) ← write "fmt " offset buffer;
    '(buffer, offset) ← writeUInt32LE 16 offset buffer;
    '(buffer, offset) ← writeUInt16LE 1 offset buffer;
    '(buffer, offset) ← writeUInt16LE numChannels offset buffer;
    '(buffer, offset) ← writeUInt32LE sampleRate offset buffer;
    '(buffer, offset) ← writeUInt32LE (sampleRate * numChannels * bytesPerSample) offset buffer;
    '(buffer, offset) ← writeUInt16LE (numChannels * bytesPerSample) offset buffer;
    '(buffer, offset) ← writeUInt16LE bitsPerSample offset buffer;
    '(buffer, offset) ← write "data" offset buffer;
    '(buffer, offset) ← writeUInt32LE dataSize offset buffer;
    '(buffer, _) ← writeSamples (samples p) offset buffer;
    Normal (Some buffer).

(** The part of [getInfo()] the orchestrator reads. *)
Definition info_durationMs (p : t) : number := getDurationMs p.

Definition reset (now : Z) (p : t) : t :=
  {| ucid := ucid p;
     config := config p;
     samples := [];
     totalSamples := 0;
     startTime := now;
     lastAudioTime := now;
     consecutiveSilentPackets := 0 |}.

End AudioProcessor.

(** ** StreamServer (src/services/streamServer.js): outbound audio *)

Module StreamServer.
Import JS.

(** The outbound [media] event, as [sendAudioToOzonetel] builds it. *)
Record MediaPacket : Type := mkPacket {
  p_type : string;
  p_ucid : string;
  p_samples : list Z;
  p_bitsPerSample : Z;
  p_sampleRate : Z;
  p_channelCount : Z;
  p_numberOfFrames : Z;
  p_dataType : string
}.

(** A gateway connection: its ready state and what has been sent on it. *)
Record WebSocket : Type := mkWebSocket {
  readyState : Z;
  sent : list MediaPacket
}.

Definition CONNECTING : Z := 0.
Definition OPEN : Z := 1.
Definition CLOSING : Z := 2.
Definition CLOSED : Z := 3.

(** [ws.send(JSON.stringify(packet))] on an open socket. *)
Definition send (packet : MediaPacket) (ws : WebSocket) : WebSocket :=
  {| readyState := readyState ws; sent := sent ws ++ [packet] |}.

(** The server: sockets are objects shared by every call id mapped to them,
    so they live in a store and [ucidToConnection] holds their addresses.
    [_lastSamples] is created lazily, hence optional. *)
Record t : Type := mkServer {
  sockets : gmap nat WebSocket;
  ucidToConnection : gmap string nat;
  _lastSamples : option (gmap string Z)
}.

(** [this.ucidToConnection.get(ucid)], dereferenced. *)
Definition connection (st : t) (ucid : string) : option (nat * WebSocket) :=
  addr ← ucidToConnection st !! ucid;
  ws ← sockets st !! addr;
  Some (addr, ws).

Definition mean (samples : list Z) : Q :=
  (inject_Z (sum samples) / inject_Z (Z.of_nat (length samples)))%Q.

Definition _removeDCOffset (samples : list Z) : list Z :=
  match samples with
  | [] => samples
  | _ =>
    let mean := mean samples in
    map (fun sample => Math_round (inject_Z sample - mean)) samples
  end.

(** The value the crossfade writes at index [i], in exact arithmetic
    ([StreamServer64.blend] rounds each operation to binary64). *)
Definition blend (lastSample : Z) (samples : list Z) (fadeLength i : nat) : Z :=
  let t := (inject_Z (Z.of_nat i) / inject_Z (Z.of_nat fadeLength))%Q in
  Math_round (inject_Z lastSample * (1 - t)
              + inject_Z (default 0%Z (samples !! i)) * t)%Q.

Definition _applyCrossfade (ucid : string) (samples : list Z) (st : t)
  : list Z * t :=
  match samples with
  | [] => (samples, st)
  | _ =>
    let lastSamples := default ∅ (_lastSamples st) in
    let st := {| sockets := sockets st;
                 ucidToConnection := ucidToConnection st;
                 _lastSamples := Some lastSamples |} in
    let lastSample := default 0 (lastSamples !! ucid) in
    if lastSample =? 0 then (samples, st)
    else
      let fadeLength := Nat.min 20 (length samples) in
      let result :=
        fold_left (fun result i => <[i := blend lastSample samples fadeLength i]> result)
                  (seq 0 fadeLength) samples in
      (result, st)
  end.

(** The value the fade-out pushes at pad index [i], in exact arithmetic
    ([StreamServer64.faded] rounds each operation to binary64). *)
Definition faded (lastValue : Z) (paddingNeeded i : nat) : Z :=
  let t := (inject_Z (Z.of_nat i) / inject_Z (Z.of_nat paddingNeeded))%Q in
  Math_round (inject_Z lastValue * (1 - t))%Q.

Definition _applyFadeoutPadding (samples : list Z) (targetSize : nat) : list Z :=
  if (targetSize <=? length samples)%nat then samples
  else
    let paddingNeeded := (targetSize - length samples)%nat in
    let lastValue := default 0 (last samples) in
    fold_left (fun result i => result ++ [faded lastValue paddingNeeded i])
              (seq 0 paddingNeeded) samples.

Definition PACKET_SIZE : nat := 400.

(** [samples.slice(i, j)]. *)
Definition slice (i j : nat) (l : list Z) : list Z := take (j - i) (drop i l).

Definition mediaPacket (ucid : string) (chunk : list Z) : MediaPacket :=
  {| p_type := "media";
     p_ucid := ucid;
     p_samples := chunk;
     p_bitsPerSample := 16;
     p_sampleRate := 8000;
     p_channelCount := 1;
     p_numberOfFrames := Z.of_nat (length chunk);
     p_dataType := "data" |}.

(** The packet loop [for (i = 0; i < length; i += PACKET_SIZE)].  Every
    iteration consumes one unit of [fuel]; [None] means the fuel ran out
    before the loop condition failed. *)
Fixpoint sendLoop (fuel : nat) (ucid : string) (smoothedSamples : list Z)
  (i : nat) (ws : WebSocket) (packetsSent : Z) : option (WebSocket * Z) :=
  if (i <? length smoothedSamples)%nat then
    match fuel with
    | O => None
    | S fuel =>
      let chunk := slice i (i + PACKET_SIZE) smoothedSamples in
      let chunk := if (length chunk <? PACKET_SIZE)%nat
                   then _applyFadeoutPadding chunk PACKET_SIZE else chunk in
      if (length chunk =? PACKET_SIZE)%nat
      then sendLoop fuel ucid smoothedSamples (i + PACKET_SIZE)
                    (send (mediaPacket ucid chunk) ws) (packetsSent + 1)
      else sendLoop fuel ucid smoothedSamples (i + PACKET_SIZE) ws packetsSent
    end
  else Some (ws, packetsSent).

(** [sendAudioToOzonetel(ucid, samples)].  The whole body sits in a
    [try]/[catch] that turns any exception into [false], so the function
    returns a boolean on every path.  The outer [option] is [None] only if
    the packet loop were to exhaust its fuel. *)
Definition sendAudioToOzonetel (ucid : string) (samples : list Z) (st : t)
  : option (bool * t) :=
  match connection st ucid with
  | None => Some (false, st)
  | Some (addr, ws) =>
    if negb (readyState ws =? OPEN) then Some (false, st)
    else
      let cleanedSamples := _removeDCOffset samples in
      let '(smoothedSamples, st) := _applyCrossfade ucid cleanedSamples st in
      '(ws, packetsSent) ← sendLoop (length smoothedSamples) ucid smoothedSamples 0 ws 0;
      let st := {| sockets := <[addr := ws]> (sockets st);
                   ucidToConnection := ucidToConnection st;
                   _lastSamples := _lastSamples st |} in
      let st :=
        if (0 <? length smoothedSamples)%nat then
          {| sockets := sockets st;
             ucidToConnection := ucidToConnection st;
             _lastSamples :=
               Some (<[ucid := default 0 (last smoothedSamples)]>
                       (default ∅ (_lastSamples st))) |}
        else st in
      Some (true, st)
  end.

End StreamServer.

(** ** The audio shaping in binary64

    [StreamServer] above evaluates the mean, the crossfade and the fade-out
    in exact arithmetic.  The engine evaluates them in doubles: every
    division, subtraction, multiplication and addition is rounded to
    binary64 before [Math.round] sees the result.  The functions below are
    the same functions with each operation rounded as the engine rounds
    it; the records, the connection lookup and the packet format are those
    of [StreamServer]. *)

Module StreamServer64.
Import JS StreamServer.

(** [samples.reduce((sum, val) => sum + val, 0)]. *)
Definition total (samples : list Z) : Q :=
  fold_left (fun sum val => Binary64.add sum (inject_Z val)) samples 0%Q.

Definition mean (samples : list Z) : Q :=
  Binary64.div (total samples) (inject_Z (Z.of_nat (length samples))).

Definition _removeDCOffset (samples : list Z) : list Z :=
  match samples with
  | [] => samples
  | _ =>
    let mean := mean samples in
    map (fun sample => Math_round (Binary64.sub (inject_Z sample) mean)) samples
  end.

(** The value the crossfade writes at index [i]:
    [Math.round(lastSample * (1 - t) + samples[i] * t)], [t = i / fadeLength]. *)
Definition blend (lastSample : Z) (samples : list Z) (fadeLength i : nat) : Z :=
  let t := Binary64.div (inject_Z (Z.of_nat i)) (inject_Z (Z.of_nat fadeLength)) in
  Math_round
    (Binary64.add
       (Binary64.mul (inject_Z lastSample) (Binary64.sub 1 t))
       (Binary64.mul (inject_Z (default 0%Z (samples !! i))) t)).

Definition _applyCrossfade (ucid : string) (samples : list Z) (st : StreamServer.t)
  : list Z * StreamServer.t :=
  match samples with
  | [] => (samples, st)
  | _ =>
    let lastSamples := default ∅ (_lastSamples st) in
    let st := {| sockets := sockets st;
                 ucidToConnection := ucidToConnection st;
                 _lastSamples := Some lastSamples |} in
    let lastSample := default 0 (lastSamples !! ucid) in
    if lastSample =? 0 then (samples, st)
    else
      let fadeLength := Nat.min 20 (length samples) in
      let result :=
        fold_left (fun result i => <[i := blend lastSample samples fadeLength i]> result)
                  (seq 0 fadeLength) samples in
      (result, st)
  end.

(** The value the fade-out pushes at pad index [i]:
    [Math.round(lastValue * (1 - t))], [t = i / paddingNeeded]. *)
Definition faded (lastValue : Z) (paddingNeeded i : nat) : Z :=
  let t := Binary64.div (inject_Z (Z.of_nat i)) (inject_Z (Z.of_nat paddingNeeded)) in
  Math_round (Binary64.mul (inject_Z lastValue) (Binary64.sub 1 t)).

Definition _applyFadeoutPadding (samples : list Z) (targetSize : nat) : list Z :=
  if (targetSize <=? length samples)%nat then samples
  else
    let paddingNeeded := (targetSize - length samples)%nat in
    let lastValue := default 0 (last samples) in
    fold_left (fun result i => result ++ [faded lastValue paddingNeeded i])
              (seq 0 paddingNeeded) samples.

(** The packet loop, one unit of [fuel] per iteration. *)
Fixpoint sendLoop (fuel : nat) (ucid : string) (smoothedSamples : list Z)
  (i : nat) (ws : WebSocket) (packetsSent : Z) : option (WebSocket * Z) :=
  if (i <? length smoothedSamples)%nat then
    match fuel with
    | O => None
    | S fuel =>
      let chunk := slice i (i + PACKET_SIZE) smoothedSamples in
      let chunk := if (length chunk <? PACKET_SIZE)%nat
                   then _applyFadeoutPadding chunk PACKET_SIZE else chunk in
      if (length chunk =? PACKET_SIZE)%nat
      then sendLoop fuel ucid smoothedSamples (i + PACKET_SIZE)
                    (send (mediaPacket ucid chunk) ws) (packetsSent + 1)
      else sendLoop fuel ucid smoothedSamples (i + PACKET_SIZE) ws packetsSent
    end
  else Some (ws, packetsSent).

(** [sendAudioToOzonetel(ucid, samples)]; the outer [option] is [None]
    only if the packet loop were to exhaust its fuel. *)
Definition sendAudioToOzonetel (ucid : string) (samples : list Z) (st : StreamServer.t)
  : option (bool * StreamServer.t) :=
  match connection st ucid with
  | None => Some (false, st)
  | Some (addr, ws) =>
    if negb (readyState ws =? OPEN) then Some (false, st)
    else
      let cleanedSamples := _removeDCOffset samples in
      let '(smoothedSamples, st) := _applyCrossfade ucid cleanedSamples st in
      '(ws, packetsSent) ← sendLoop (length smoothedSamples) ucid smoothedSamples 0 ws 0;
      let st := {| sockets := <[addr := ws]> (sockets st);
                   ucidToConnection := ucidToConnection st;
                   _lastSamples := _lastSamples st |} in
      let st :=
        if (0 <? length smoothedSamples)%nat then
          {| sockets := sockets st;
             ucidToConnection := ucidToConnection st;
             _lastSamples :=
               Some (<[ucid := default 0 (last smoothedSamples)]>
                       (default ∅ (_lastSamples st))) |}
        else st in
      Some (true, st)
  end.

End StreamServer64.

(** ** JavaScript strings and the regular expressions of the filter *)

Module JSString.

(** A string is its sequence of UTF-16 code units. *)
Definition t : Type := list N.

Definition lit (s : string) : t := map N_of_ascii (list_ascii_of_string s).

(** [s.length]. *)
Definition length (s : t) : nat := List.length s.

(** WhiteSpace and LineTerminator code units: what [trim] strips and what
    the class [\s] matches. *)
Definition isWhiteSpace (c : N) : bool :=
  match c with
  | 9 | 10 | 11 | 12 | 13 | 32 | 160 | 5760 | 8232 | 8233 | 8239 | 8287
  | 12288 | 65279 => true
  | _ => (8192 <=? c) && (c <=? 8202)
  end%N.

Fixpoint trimStart (s : t) : t :=
  match s with
  | [] => []
  | c :: rest => if isWhiteSpace c then trimStart rest else s
  end.

Definition trimEnd (s : t) : t := rev (trimStart (rev s)).

Definition trim (s : t) : t := trimEnd (trimStart s).

(** Regular expressions, matched against a whole string ([^...$]). *)
Inductive regex : Type :=
| Fail_re
| Eps
| Class (p : N -> bool)
| Seq (r1 r2 : regex)
| Alt (r1 r2 : regex)
| Star (r : regex).

Fixpoint nullable (r : regex) : bool :=
  match r with
  | Fail_re => false
  | Eps => true
  | Class _ => false
  | Seq r1 r2 => nullable r1 && nullable r2
  | Alt r1 r2 => nullable r1 || nullable r2
  | Star _ => true
  end.

(** Brzozowski derivative of [r] by the code unit [c]. *)
Fixpoint deriv (c : N) (r : regex) : regex :=
  match r with
  | Fail_re => Fail_re
  | Eps => Fail_re
  | Class p => if p c then Eps else Fail_re
  | Seq r1 r2 =>
    if nullable r1 then Alt (Seq (deriv c r1) r2) (deriv c r2)
    else Seq (deriv c r1) r2
  | Alt r1 r2 => Alt (deriv c r1) (deriv c r2)
  | Star r1 => Seq (deriv c r1) (Star r1)
  end.

(** [/^r$/.test(s)]. *)
Definition test (r : regex) (s : t) : bool :=
  nullable (fold_left (fun r c => deriv c r) s r).

Definition char (a : ascii) : regex := Class (N.eqb (N_of_ascii a)).

Definition toLowerASCII (c : N) : N :=
  if (65 <=? c)%N && (c <=? 90)%N then (c + 32)%N else c.

(** One pattern character under the [i] flag: only the two ASCII cases of
    a letter canonicalise to the same code unit. *)
Definition char_i (a : ascii) : regex :=
  Class (fun c => N.eqb (toLowerASCII c) (toLowerASCII (N_of_ascii a))).

Definition word_i (s : string) : regex :=
  fold_right (fun a r => Seq (char_i a) r) Eps (list_ascii_of_string s).

Definition opt (r : regex) : regex := Alt r Eps.

End JSString.

(** ** StreamingClient (src/services/streamingClient.js) *)

Module StreamingClient.
Import JS.

Record Session : Type := mkSession {
  s_ucid : string;
  language : string;
  voice : string;
  s_startTime : Z;
  totalAudioMs : number;
  transcriptionChunks : Z;
  playbackChunks : Z
}.

Record TranscriptionBuffer : Type := mkTBuffer {
  partialText : JSString.t;
  finalText : JSString.t;
  b_language : string
}.

(** Events handed to [this.emit]. *)
Inductive Emitted : Type :=
| stream_started (ucid language voice : string)
| transcription (ucid : string) (text : JSString.t) (language : string)
                (isPartial : bool) (timestamp : Z)
| response_played (ucid : string) (userText : JSString.t) (success : bool)
| stream_ended (ucid : string) (duration : Z) (totalAudioMs : number)
               (transcriptionChunks playbackChunks : Z)
               (finalTranscription : JSString.t).

Record Config : Type := mkConfig {
  streamingBufferMs : Z;
  silenceThreshold : Z;
  minSpeechDuration : Z
}.

(** The client.  [now] is the reading of [Date.now()].  The session and
    processor objects are held by address: a pipeline that suspended on an
    external call keeps the objects it started with, even if the maps have
    been given new ones in the meantime. *)
Record t : Type := mkClient {
  now : Z;
  config : Config;
  nextAddress : nat;
  sessionStore : gmap nat Session;
  processorStore : gmap nat AudioProcessor.t;
  streamingSessions : gmap string nat;
  audioProcessors : gmap string nat;
  transcriptionBuffers : gmap string TranscriptionBuffer;
  playbackQueues : gmap string (list unit);
  isTranscribing : gmap string bool;
  isPlayingBack : gmap string bool;
  emitted : list Emitted
}.

(** Field updates. *)
Definition set_sessionStore (f : gmap nat Session -> gmap nat Session) (st : t) : t :=
  {| now := now st; config := config st; nextAddress := nextAddress st;
     sessionStore := f (sessionStore st); processorStore := processorStore st;
     streamingSessions := streamingSessions st; audioProcessors := audioProcessors st;
     transcriptionBuffers := transcriptionBuffers st; playbackQueues := playbackQueues st;
     isTranscribing := isTranscribing st; isPlayingBack := isPlayingBack st;
     emitted := emitted st |}.

Definition set_processorStore
  (f : gmap nat AudioProcessor.t -> gmap nat AudioProcessor.t) (st : t) : t :=
  {| now := now st; config := config st; nextAddress := nextAddress st;
     sessionStore := sessionStore st; processorStore := f (processorStore st);
     streamingSessions := streamingSessions st; audioProcessors := audioProcessors st;
     transcriptionBuffers := transcriptionBuffers st; playbackQueues := playbackQueues st;
     isTranscribing := isTranscribing st; isPlayingBack := isPlayingBack st;
     emitted := emitted st |}.

Definition set_transcriptionBuffers
  (f : gmap string TranscriptionBuffer -> gmap string TranscriptionBuffer) (st : t) : t :=
  {| now := now st; config := config st; nextAddress := nextAddress st;
     sessionStore := sessionStore st; processorStore := processorStore st;
     streamingSessions := streamingSessions st; audioProcessors := audioProcessors st;
     transcriptionBuffers := f (transcriptionBuffers st); playbackQueues := playbackQueues st;
     isTranscribing := isTranscribing st; isPlayingBack := isPlayingBack st;
     emitted := emitted st |}.

Definition set_isTranscribing (f : gmap string bool -> gmap string bool) (st : t) : t :=
  {| now := now st; config := config st; nextAddress := nextAddress st;
     sessionStore := sessionStore st; processorStore := processorStore st;
     streamingSessions := streamingSessions st; audioProcessors := audioProcessors st;
     transcriptionBuffers := transcriptionBuffers st; playbackQueues := playbackQueues st;
     isTranscribing := f (isTranscribing st); isPlayingBack := isPlayingBack st;
     emitted := emitted st |}.

Definition set_isPlayingBack (f : gmap string bool -> gmap string bool) (st : t) : t :=
  {| now := now st; config := config st; nextAddress := nextAddress st;
     sessionStore := sessionStore st; processorStore := processorStore st;
     streamingSessions := streamingSessions st; audioProcessors := audioProcessors st;
     transcriptionBuffers := transcriptionBuffers st; playbackQueues := playbackQueues st;
     isTranscribing := isTranscribing st; isPlayingBack := f (isPlayingBack st);
     emitted := emitted st |}.

(** The clock advances. *)
Definition set_now (time : Z) (st : t) : t :=
  {| now := time; config := config st; nextAddress := nextAddress st;
     sessionStore := sessionStore st; processorStore := processorStore st;
     streamingSessions := streamingSessions st; audioProcessors := audioProcessors st;
     transcriptionBuffers := transcriptionBuffers st; playbackQueues := playbackQueues st;
     isTranscribing := isTranscribing st; isPlayingBack := isPlayingBack st;
     emitted := emitted st |}.

(** [this.emit(...)]. *)
Definition emit (e : Emitted) (st : t) : t :=
  {| now := now st; config := config st; nextAddress := nextAddress st;
     sessionStore := sessionStore st; processorStore := processorStore st;
     streamingSessions := streamingSessions st; audioProcessors := audioProcessors st;
     transcriptionBuffers := transcriptionBuffers st; playbackQueues := playbackQueues st;
     isTranscribing := isTranscribing st; isPlayingBack := isPlayingBack st;
     emitted := emitted st ++ [e] |}.

(** [this.audioProcessors.get(ucid)] and [this.streamingSessions.get(ucid)]:
    the object's address together with its current contents. *)
Definition getProcessor (st : t) (ucid : string) : option (nat * AudioProcessor.t) :=
  a ← audioProcessors st !! ucid;
  p ← processorStore st !! a;
  Some (a, p).

Definition getSession (st : t) (ucid : string) : option (nat * Session) :=
  a ← streamingSessions st !! ucid;
  s ← sessionStore st !! a;
  Some (a, s).

(** Truthiness of [map.get(ucid)] for a map of booleans. *)
Definition truthy (v : option bool) : bool := default false v.

(** *** External collaborators *)

(** The arguments of [openai.audio.transcriptions.create]. *)
Record TranscriptionRequest : Type := mkTRequest {
  file : Buffer;
  model : string;
  r_language : option string;
  response_format : string;
  prompt : string
}.

(** Its answer: [text] and [language] may be missing. *)
Record Transcription : Type := mkTranscription {
  text : option JSString.t;
  detected : option string
}.

(** The arguments of [flowEngine.executeConversationalFlow]. *)
Record FlowRequest : Type := mkFRequest {
  f_ucid : string;
  f_userText : JSString.t;
  f_language : string;
  f_voice : string
}.

(** *** Resumptions *)

(** Running an [async] function from a state: it is done (with a value or a
    thrown error), or it has suspended on an external call.  The
    continuation receives the collaborator's completion and the state the
    client is in when the promise settles. *)
Inductive Step (A : Type) : Type :=
| Done (r : completion A) (st : t)
| AwaitTranscription (st : t) (req : TranscriptionRequest)
                     (k : completion Transcription -> t -> Step A)
| AwaitFlow (st : t) (req : FlowRequest)
            (k : completion bool -> t -> Step A).
Arguments Done {A} r st.
Arguments AwaitTranscription {A} st req k.
Arguments AwaitFlow {A} st req k.

Definition Async (A : Type) : Type := t -> Step A.

(** [await s; f]. *)
Fixpoint andThen {A B : Type} (s : Step A) (f : A -> Async B) : Step B :=
  match s with
  | Done (Normal a) st => f a st
  | Done (Throw e) st => Done (Throw e) st
  | AwaitTranscription st req k =>
    AwaitTranscription st req (fun r st' => andThen (k r st') f)
  | AwaitFlow st req k =>
    AwaitFlow st req (fun r st' => andThen (k r st') f)
  end.

(** [try { s } catch (error) { handler }]. *)
Fixpoint tryCatch {A : Type} (s : Step A) (handler : Error -> Async A) : Step A :=
  match s with
  | Done (Normal a) st => Done (Normal a) st
  | Done (Throw e) st => handler e st
  | AwaitTranscription st req k =>
    AwaitTranscription st req (fun r st' => tryCatch (k r st') handler)
  | AwaitFlow st req k =>
    AwaitFlow st req (fun r st' => tryCatch (k r st') handler)
  end.

(** [try { s } finally { fin }] for a [finally] block that only updates
    the state. *)
Fixpoint tryFinally {A : Type} (s : Step A) (fin : t -> t) : Step A :=
  match s with
  | Done r st => Done r (fin st)
  | AwaitTranscription st req k =>
    AwaitTranscription st req (fun r st' => tryFinally (k r st') fin)
  | AwaitFlow st req k =>
    AwaitFlow st req (fun r st' => tryFinally (k r st') fin)
  end.

(** A run to completion: each external call is answered with some
    completion, and the continuation resumes in some state. *)
Inductive Completes {A : Type} : Step A -> completion A -> t -> Prop :=
| Completes_Done r st : Completes (Done r st) r st
| Completes_Transcription st req k answer st' r final :
    Completes (k answer st') r final ->
    Completes (AwaitTranscription st req k) r final
| Completes_Flow st req k answer st' r final :
    Completes (k answer st') r final ->
    Completes (AwaitFlow st req k) r final.

(** An environment answers the external calls and says in which state the
    caller resumes. *)
Record Environment : Type := mkEnvironment {
  transcribe : t -> TranscriptionRequest -> completion Transcription * t;
  executeConversationalFlow : t -> FlowRequest -> completion bool * t
}.

Fixpoint run {A : Type} (env : Environment) (s : Step A) : completion A * t :=
  match s with
  | Done r st => (r, st)
  | AwaitTranscription st req k =>
    let '(answer, st') := transcribe env st req in run env (k answer st')
  | AwaitFlow st req k =>
    let '(answer, st') := executeConversationalFlow env st req in run env (k answer st')
  end.

(** *** Handlers *)

Record StartMessage : Type := mkStart {
  start_ucid : string;
  start_language : option string;
  start_voice : option string
}.

(** A [media] / [audio_chunk] message: [data.samples] and [data.sampleRate]
    may be missing. *)
Record MediaMessage : Type := mkMedia {
  m_ucid : string;
  m_samples : option (list Z);
  m_sampleRate : option Z
}.

Inductive Command : Type :=
| set_language (language : string)
| set_voice (voice : string)
| pause_transcription
| resume_transcription
| unknown_command.

Definition handleStreamStart (message : StartMessage) (st : t) : t :=
  let ucid := start_ucid message in
  let language := default "en"%string (start_language message) in
  let voice := default "alloy"%string (start_voice message) in
  let sessionAddress := nextAddress st in
  let processorAddress := S (nextAddress st) in
  let session :=
    {| s_ucid := ucid; language := language; voice := voice;
       s_startTime := now st; totalAudioMs := Finite 0;
       transcriptionChunks := 0; playbackChunks := 0 |} in
  let processor :=
    AudioProcessor.new ucid
      {| AudioProcessor.opt_minAudioDuration := Some (minSpeechDuration (config st));
         AudioProcessor.opt_maxAudioDuration := Some (streamingBufferMs (config st) * 2);
         AudioProcessor.opt_silenceThreshold := Some (silenceThreshold (config st));
         AudioProcessor.opt_silenceAmplitude := Some 300;
         AudioProcessor.opt_sampleRate := Some 8000;
         AudioProcessor.opt_bitsPerSample := None;
         AudioProcessor.opt_channels := None |}
      (now st) in
  emit (stream_started ucid language voice)
    {| now := now st; config := config st;
       nextAddress := S (S (nextAddress st));
       sessionStore := <[sessionAddress := session]> (sessionStore st);
       processorStore := <[processorAddress := processor]> (processorStore st);
       streamingSessions := <[ucid := sessionAddress]> (streamingSessions st);
       audioProcessors := <[ucid := processorAddress]> (audioProcessors st);
       transcriptionBuffers :=
         <[ucid := {| partialText := []; finalText := []; b_language := language |}]>
           (transcriptionBuffers st);
       playbackQueues := <[ucid := []]> (playbackQueues st);
       isTranscribing := <[ucid := false]> (isTranscribing st);
       isPlayingBack := <[ucid := false]> (isPlayingBack st);
       emitted := emitted st |}.

Definition validateAudioChunk (processor : AudioProcessor.t) : bool :=
  if ltb (AudioProcessor.info_durationMs processor) 1000 then false
  else
    let MIN_RMS := 250 in
    if rms_lt (AudioProcessor.samples processor) MIN_RMS then false
    else true.

Definition hallucinations : list JSString.regex :=
  let dot := JSString.char "." in
  let space := JSString.Class JSString.isWhiteSpace in
  let punctuation :=
    JSString.Class (fun c => JSString.isWhiteSpace c
                             || existsb (N.eqb c) (JSString.lit ".,!?")) in
  [ JSString.Seq (JSString.word_i "thank you") (JSString.opt dot);
    JSString.Seq (JSString.word_i "thanks") (JSString.opt dot);
    JSString.word_i "you";
    JSString.Seq dot (JSString.Seq dot (JSString.Seq dot (JSString.Star dot)));
    JSString.Star space;
    JSString.Seq punctuation (JSString.Star punctuation) ].

Definition isValidTranscription (text : JSString.t) : bool :=
  if (JSString.length text =? 0)%nat
     || (JSString.length (JSString.trim text) <? 2)%nat
  then false
  else negb (existsb (fun pattern => JSString.test pattern (JSString.trim text))
                     hallucinations).

Definition generateAndPlayResponse (ucid : string) (userText : JSString.t)
  : Async unit := fun st =>
  match getSession st ucid with
  | None => Done (Normal tt) st
  | Some (sessionAddress, session) =>
    if truthy (isPlayingBack st !! ucid) then Done (Normal tt) st
    else
      tryFinally
        (tryCatch
           (let st := set_isPlayingBack <[ucid := true]> st in
            AwaitFlow st
              {| f_ucid := ucid; f_userText := userText;
                 f_language := language session; f_voice := voice session |}
              (fun answer st =>
                 match answer with
                 | Throw e => Done (Throw e) st
                 | Normal success =>
                   if success then
                     let st :=
                       set_sessionStore
                         (alter (fun s =>
                                   {| s_ucid := s_ucid s; language := language s;
                                      voice := voice s; s_startTime := s_startTime s;
                                      totalAudioMs := totalAudioMs s;
                                      transcriptionChunks := transcriptionChunks s;
                                      playbackChunks := playbackChunks s + 1 |})
                                sessionAddress) st in
                     Done (Normal tt) (emit (response_played ucid userText true) st)
                   else Done (Normal tt) st
                 end))
           (fun error st => Done (Normal tt) st))
        (set_isPlayingBack <[ucid := false]>)
  end.

Definition streamTranscription (ucid : string) (audioBuffer : Buffer)
  (language : string) : Async unit := fun st =>
  tryCatch
    (AwaitTranscription st
       {| file := audioBuffer;
          model := "whisper-1";
          r_language := if String.eqb language "auto" then None else Some language;
          response_format := "verbose_json";
          prompt := "This is a phone conversation. Please transcribe clearly." |}
       (fun answer st =>
          match answer with
          | Throw e => Done (Throw e) st
          | Normal result =>
            let text := JSString.trim (default [] (text result)) in
            let detectedLanguage :=
              match detected result with
              | Some l => if String.eqb l "" then language else l
              | None => language
              end in
            if negb (isValidTranscription text) then Done (Normal tt) st
            else
              let st :=
                match transcriptionBuffers st !! ucid with
                | Some buffer =>
                  set_transcriptionBuffers
                    <[ucid := {| partialText := partialText buffer;
                                 finalText :=
                                   finalText buffer
                                   ++ (match finalText buffer with
                                       | [] => []
                                       | _ => JSString.lit " "
                                       end)
                                   ++ text;
                                 b_language := detectedLanguage |}]> st
                | None => st
                end in
              let st := emit (transcription ucid text detectedLanguage false (now st)) st in
              if negb (JSString.length text =? 0)%nat
                 && negb (truthy (isPlayingBack st !! ucid))
              then generateAndPlayResponse ucid text st
              else Done (Normal tt) st
          end))
    (fun error st => Done (Throw error) st).

Section Pipeline.

(** What the memory handed out by [Buffer.allocUnsafe] contains. *)
Variable uninit : nat -> Z.

(** The body of the [try] block of [processAudioChunk]. *)
Definition transcribeAndRespond (ucid : string)
  (processorAddress : nat) (processor : AudioProcessor.t)
  (sessionAddress : nat) (session : Session) : Async unit := fun st =>
  let st := set_isTranscribing <[ucid := true]> st in
  match AudioProcessor.toWAVBuffer uninit processor with
  | Throw e => Done (Throw e) st
  | Normal None => Done (Normal tt) st
  | Normal (Some wavBuffer) =>
    if negb (validateAudioChunk processor) then
      Done (Normal tt)
           (set_processorStore
              (alter (AudioProcessor.reset (now st)) processorAddress) st)
    else
      andThen (streamTranscription ucid wavBuffer (language session) st)
        (fun _ st =>
           let st := set_processorStore
                       (alter (AudioProcessor.reset (now st)) processorAddress) st in
           let st := set_sessionStore
                       (alter (fun s =>
                                 {| s_ucid := s_ucid s; language := language s;
                                    voice := voice s; s_startTime := s_startTime s;
                                    totalAudioMs := totalAudioMs s;
                                    transcriptionChunks := transcriptionChunks s + 1;
                                    playbackChunks := playbackChunks s |})
                              sessionAddress) st in
           Done (Normal tt) st)
  end.

Definition processAudioChunk (ucid : string) : Async unit := fun st =>
  match getProcessor st ucid, getSession st ucid, transcriptionBuffers st !! ucid with
  | Some (processorAddress, processor), Some (sessionAddress, session), Some buffer =>
    if truthy (isTranscribing st !! ucid) then Done (Normal tt) st
    else
      tryFinally
        (tryCatch
           (transcribeAndRespond ucid processorAddress processor
                                 sessionAddress session st)
           (fun error st => Done (Normal tt) st))
        (set_isTranscribing <[ucid := false]>)
  | _, _, _ => Done (Normal tt) st
  end.

(** The state after [processor.addSamples(...)] and
    [session.totalAudioMs += ...]. *)
Definition accumulate (processorAddress sessionAddress : nat)
  (samples : list Z) (sampleRate : Z) (st : t) : t :=
  let st := set_processorStore
              (alter (AudioProcessor.addSamples (now st) samples) processorAddress) st in
  set_sessionStore
    (alter (fun s =>
              {| s_ucid := s_ucid s; language := language s;
                 voice := voice s; s_startTime := s_startTime s;
                 totalAudioMs :=
                   add (totalAudioMs s)
                       (mul_pos (div (Z.of_nat (length samples)) sampleRate) 1000);
                 transcriptionChunks := transcriptionChunks s;
                 playbackChunks := playbackChunks s |})
           sessionAddress) st.

Definition handleAudioChunk (message : MediaMessage) : Async unit := fun st =>
  let ucid := m_ucid message in
  match getProcessor st ucid, getSession st ucid with
  | Some (processorAddress, processor), Some (sessionAddress, session) =>
    match m_samples message with
    | None | Some [] => Done (Normal tt) st
    | Some samples =>
      let sampleRate := default 8000 (m_sampleRate message) in
      let st := accumulate processorAddress sessionAddress samples sampleRate st in
      let processor := AudioProcessor.addSamples (now st) samples processor in
      if AudioProcessor.shouldSendToAPI (now st) processor
         && negb (truthy (isTranscribing st !! ucid))
      then processAudioChunk ucid st
      else Done (Normal tt) st
    end
  | _, _ => Done (Normal tt) st
  end.

End Pipeline.

(** [cleanupSession(ucid)].  [processor.destroy()] nulls the sample array;
    a destroyed processor is reachable only from a pipeline that suspended
    before the call ended, which does nothing with it but [reset()], so the
    null array is modelled as the empty one. *)
Definition cleanupSession (ucid : string) (st : t) : t :=
  let st :=
    match audioProcessors st !! ucid with
    | Some processorAddress =>
      let destroy p :=
        {| AudioProcessor.ucid := AudioProcessor.ucid p;
           AudioProcessor.config := AudioProcessor.config p;
           AudioProcessor.samples := [];
           AudioProcessor.totalSamples := 0;
           AudioProcessor.startTime := AudioProcessor.startTime p;
           AudioProcessor.lastAudioTime := AudioProcessor.lastAudioTime p;
           AudioProcessor.consecutiveSilentPackets :=
             AudioProcessor.consecutiveSilentPackets p |} in
      let st := set_processorStore (alter destroy processorAddress) st in
      {| now := now st; config := config st; nextAddress := nextAddress st;
         sessionStore := sessionStore st; processorStore := processorStore st;
         streamingSessions := streamingSessions st;
         audioProcessors := delete ucid (audioProcessors st);
         transcriptionBuffers := transcriptionBuffers st;
         playbackQueues := playbackQueues st;
         isTranscribing := isTranscribing st; isPlayingBack := isPlayingBack st;
         emitted := emitted st |}
    | None => st
    end in
  {| now := now st; config := config st; nextAddress := nextAddress st;
     sessionStore := sessionStore st; processorStore := processorStore st;
     streamingSessions := delete ucid (streamingSessions st);
     audioProcessors := audioProcessors st;
     transcriptionBuffers := delete ucid (transcriptionBuffers st);
     playbackQueues := delete ucid (playbackQueues st);
     isTranscribing := delete ucid (isTranscribing st);
     isPlayingBack := delete ucid (isPlayingBack st);
     emitted := emitted st |}.

(** [handleStreamEnd(message)]. *)
Definition handleStreamEnd (ucid : string) (st : t) : t :=
  let st :=
    match getSession st ucid, transcriptionBuffers st !! ucid with
    | Some (_, session), Some buffer =>
      let duration := now st - s_startTime session in
      emit (stream_ended ucid duration (totalAudioMs session)
                         (transcriptionChunks session) (playbackChunks session)
                         (finalText buffer)) st
    | _, _ => st
    end in
  cleanupSession ucid st.

(** A freshly constructed client. *)
Definition new (config : Config) (now : Z) : t :=
  {| now := now; config := config; nextAddress := 0;
     sessionStore := ∅; processorStore := ∅;
     streamingSessions := ∅; audioProcessors := ∅;
     transcriptionBuffers := ∅; playbackQueues := ∅;
     isTranscribing := ∅; isPlayingBack := ∅; emitted := [] |}.

Definition handleControl (ucid : string) (command : Command) (st : t)
  : completion t :=
  match command with
  | set_language l =>
    match getSession st ucid with
    | Some (sessionAddress, _) =>
      let st := set_sessionStore
                  (alter (fun s =>
                            {| s_ucid := s_ucid s; language := l;
                               voice := voice s; s_startTime := s_startTime s;
                               totalAudioMs := totalAudioMs s;
                               transcriptionChunks := transcriptionChunks s;
                               playbackChunks := playbackChunks s |})
                         sessionAddress) st in
      match transcriptionBuffers st !! ucid with
      | Some buffer =>
        Normal (set_transcriptionBuffers
                  <[ucid := {| partialText := partialText buffer;
                               finalText := finalText buffer;
                               b_language := l |}]> st)
      | None => Throw TypeError
      end
    | None => Normal st
    end
  | set_voice v =>
    match getSession st ucid with
    | Some (sessionAddress, _) =>
      Normal (set_sessionStore
                (alter (fun s =>
                          {| s_ucid := s_ucid s; language := language s;
                             voice := v; s_startTime := s_startTime s;
                             totalAudioMs := totalAudioMs s;
                             transcriptionChunks := transcriptionChunks s;
                             playbackChunks := playbackChunks s |})
                       sessionAddress) st)
    | None => Normal st
    end
  | pause_transcription => Normal (set_isTranscribing <[ucid := true]> st)
  | resume_transcription => Normal (set_isTranscribing <[ucid := false]> st)
  | unknown_command => Normal st
  end.

End StreamingClient.

(** ** StreamClient: the gateway-facing client of the hearing route
    (src/routes/designer.js, [class StreamClient]) *)

Module StreamClient.
Import JS.

Record Call : Type := mkCall {
  c_ucid : string;
  c_did : string;
  c_startTime : Z;
  mediaPackets : Z;
  firstMediaReceived : bool
}.

(** The [data] object of a [media] event. *)
Record MediaData : Type := mkData {
  samples : option (list Z);
  bitsPerSample : option Z;
  sampleRate : option Z;
  channelCount : option Z;
  numberOfFrames : option Z;
  type : option string
}.

(** What [handleMediaEvent] pushes on the call's audio buffer. *)
Record Buffered : Type := mkBuffered {
  timestamp : Z;
  payload : MediaData
}.

(** A stored chunk; its text is
    "Mock transcription for audio chunk <chunk_number>". *)
Record Chunk : Type := mkChunk {
  chunk_timestamp : Z;
  chunk_number : Z;
  chunk_language : string;
  chunk_durationMs : Z
}.

Record TranscriptionSession : Type := mkTSession {
  ts_startTime : Z;
  chunks : list Chunk;
  totalChunks : Z;
  errors : Z;
  ts_language : string
}.

(** Entries appended by [logEvent]. *)
Inductive LogEntry : Type :=
| log_start (ucid did : string)
| log_media_first_ignored (ucid : string) (sampleRate numberOfFrames : option Z)
| log_media (ucid : string) (packetNumber : Z)
| log_transcription_chunk (ucid : string) (chunkNumber : Z).

Record t : Type := mkClient {
  now : Z;
  defaultLanguage : string;
  currentCall : option Call;
  audioBuffers : gmap string (list Buffered);
  transcriptionSessions : gmap string TranscriptionSession;
  transcriptionInProgress : gmap string bool;
  eventLog : list LogEntry
}.

Definition logEvent (e : LogEntry) (st : t) : t :=
  {| now := now st; defaultLanguage := defaultLanguage st;
     currentCall := currentCall st; audioBuffers := audioBuffers st;
     transcriptionSessions := transcriptionSessions st;
     transcriptionInProgress := transcriptionInProgress st;
     eventLog := eventLog st ++ [e] |}.

Definition set_currentCall (c : option Call) (st : t) : t :=
  {| now := now st; defaultLanguage := defaultLanguage st;
     currentCall := c; audioBuffers := audioBuffers st;
     transcriptionSessions := transcriptionSessions st;
     transcriptionInProgress := transcriptionInProgress st;
     eventLog := eventLog st |}.

Definition set_audioBuffers
  (f : gmap string (list Buffered) -> gmap string (list Buffered)) (st : t) : t :=
  {| now := now st; defaultLanguage := defaultLanguage st;
     currentCall := currentCall st; audioBuffers := f (audioBuffers st);
     transcriptionSessions := transcriptionSessions st;
     transcriptionInProgress := transcriptionInProgress st;
     eventLog := eventLog st |}.

Definition set_transcriptionSessions
  (f : gmap string TranscriptionSession -> gmap string TranscriptionSession)
  (st : t) : t :=
  {| now := now st; defaultLanguage := defaultLanguage st;
     currentCall := currentCall st; audioBuffers := audioBuffers st;
     transcriptionSessions := f (transcriptionSessions st);
     transcriptionInProgress := transcriptionInProgress st;
     eventLog := eventLog st |}.

Definition set_transcriptionInProgress
  (f : gmap string bool -> gmap string bool) (st : t) : t :=
  {| now := now st; defaultLanguage := defaultLanguage st;
     currentCall := currentCall st; audioBuffers := audioBuffers st;
     transcriptionSessions := transcriptionSessions st;
     transcriptionInProgress := f (transcriptionInProgress st);
     eventLog := eventLog st |}.

Definition handleStartEvent (ucid did : string) (st : t) : t :=
  let st := set_currentCall
              (Some {| c_ucid := ucid; c_did := did; c_startTime := now st;
                       mediaPackets := 0; firstMediaReceived := false |}) st in
  let st := set_audioBuffers <[ucid := []]> st in
  let st := set_transcriptionSessions
              <[ucid := {| ts_startTime := now st; chunks := []; totalChunks := 0;
                           errors := 0; ts_language := defaultLanguage st |}]> st in
  logEvent (log_start ucid did) st.

(** [processAudioForTranscription]: the mock transcription of every 50th
    packet.  Nothing in its [try] block can throw in this model, so the
    [catch] branch is not reached; the [finally] block deletes the flag. *)
Definition processAudioForTranscription (ucid : string) (packet : list Z)
  (st : t) : t :=
  match transcriptionSessions st !! ucid with
  | None => st
  | Some session =>
    if default false (transcriptionInProgress st !! ucid) then st
    else
      let st := set_transcriptionInProgress <[ucid := true]> st in
      let MIN_SPEECH_RMS := 300 in
      let st :=
        if rms_lt packet MIN_SPEECH_RMS then st
        else
          let chunk := {| chunk_timestamp := now st;
                          chunk_number := totalChunks session + 1;
                          chunk_language := ts_language session;
                          chunk_durationMs := 2000 |} in
          let st := set_transcriptionSessions
                      <[ucid := {| ts_startTime := ts_startTime session;
                                   chunks := chunks session ++ [chunk];
                                   totalChunks := totalChunks session + 1;
                                   errors := errors session;
                                   ts_language := ts_language session |}]> st in
          logEvent (log_transcription_chunk ucid (totalChunks session + 1)) st in
      set_transcriptionInProgress (delete ucid) st
  end.

Definition handleMediaEvent (ucid : string) (data : MediaData) (st : t) : t :=
  match currentCall st with
  | None => st
  | Some call =>
    if negb (String.eqb (c_ucid call) ucid) then st
    else if negb (firstMediaReceived call)
            && bool_decide (sampleRate data = Some 16000)
    then
      let st := set_currentCall
                  (Some {| c_ucid := c_ucid call; c_did := c_did call;
                           c_startTime := c_startTime call;
                           mediaPackets := mediaPackets call;
                           firstMediaReceived := true |}) st in
      logEvent (log_media_first_ignored ucid (sampleRate data) (numberOfFrames data)) st
    else
      let call := {| c_ucid := c_ucid call; c_did := c_did call;
                     c_startTime := c_startTime call;
                     mediaPackets := mediaPackets call;
                     firstMediaReceived := true |} in
      let st := set_currentCall (Some call) st in
      if bool_decide (sampleRate data = Some 8000) then
        let call := {| c_ucid := c_ucid call; c_did := c_did call;
                       c_startTime := c_startTime call;
                       mediaPackets := mediaPackets call + 1;
                       firstMediaReceived := firstMediaReceived call |} in
        let st := set_currentCall (Some call) st in
        let st :=
          match audioBuffers st !! ucid with
          | Some buffer =>
            set_audioBuffers
              <[ucid := buffer ++ [{| timestamp := now st; payload := data |}]]> st
          | None => st
          end in
        let st :=
          match samples data with
          | Some (s :: rest) =>
            if mediaPackets call mod 50 =? 0
            then processAudioForTranscription ucid (s :: rest) st
            else st
          | _ => st
          end in
        if mediaPackets call mod 100 =? 0
        then match samples data with
             | Some _ => logEvent (log_media ucid (mediaPackets call)) st
             | None => st (* [samples.length] throws; [handleMessage] catches *)
             end
        else st
      else st
  end.

End StreamClient.

(** ** Vocabulary of the specification *)

Module Spec.
Import JS.

(** The accumulated duration of [p] is at least [m] milliseconds. *)
Definition durationAtLeast (p : AudioProcessor.t) (m : Z) : Prop :=
  geb (AudioProcessor.getDurationMs p) m = true.

(** Silence has lasted at least the configured threshold at time [now]. *)
Definition silencePersisted (now : Z) (p : AudioProcessor.t) : Prop :=
  AudioProcessor.silenceThreshold (AudioProcessor.config p)
  <= now - AudioProcessor.lastAudioTime p.

(** The last-emitted sample the server has stored for a call, if any. *)
Definition storedLastSample (st : StreamServer.t) (ucid : string) : option Z :=
  lastSamples ← StreamServer._lastSamples st; lastSamples !! ucid.

(** The point at parameter [t] on the line from [a] (at 0) to [b] (at 1),
    rounded to the nearest integer. *)
Definition onLine (a b : Z) (t : Q) : Z :=
  Math_round (inject_Z a * (1 - t) + inject_Z b * t)%Q.

(** [ceil(n / d)] on natural numbers. *)
Definition ceilDiv (n d : nat) : nat := ((n + d - 1) / d)%nat.

(** A live connection is mapped for the call: an open socket. *)
Definition liveConnection (st : StreamServer.t) (ucid : string) : Prop :=
  exists addr ws,
    StreamServer.connection st ucid = Some (addr, ws)
    /\ StreamServer.readyState ws = StreamServer.OPEN.

(** The real samples of the [k]-th 400-sample packet of a chunk. *)
Definition realSamples (shaped : list Z) (k : nat) : list Z :=
  take 400 (drop (400 * k) shaped).

(** The fade [pad[i] = round(lastValue * (1 - i / padLength))]. *)
Definition fadePad (lastValue : Z) (padLength : nat) : list Z :=
  map (fun i => Math_round (inject_Z lastValue
                            * (1 - inject_Z (Z.of_nat i) / inject_Z (Z.of_nat padLength)))%Q)
      (seq 0 padLength).

(** The packets a shaped chunk is cut into. *)
Definition packetSamples (shaped : list Z) (k : nat) : list Z :=
  realSamples shaped k
  ++ fadePad (default 0 (last shaped)) (400 - length (realSamples shaped k)).

(** A 16-bit PCM sample. *)
Definition int16 (s : Z) : Prop := -32768 <= s <= 32767.

(** A 32-bit integer. *)
Definition int32 (s : Z) : Prop := -2147483648 <= s <= 2147483647.

(** [x] lies exactly halfway between two integers. *)
Definition halfway (x : Q) : Prop := (inject_Z (Math_round x) == x + (1 # 2))%Q.

(** The arithmetic mean of an array: its total divided by its length. *)
Definition arithmeticMean (l : list Z) : Q :=
  (inject_Z (foldr Z.add 0%Z l) / inject_Z (Z.of_nat (length l)))%Q.

(** The fade [pad[i] = round(lastValue * (1 - i / padLength))], each
    operation rounded to binary64. *)
Definition fadePad64 (lastValue : Z) (padLength : nat) : list Z :=
  map (fun i =>
         Math_round
           (Binary64.mul (inject_Z lastValue)
              (Binary64.sub 1 (Binary64.div (inject_Z (Z.of_nat i))
                                            (inject_Z (Z.of_nat padLength))))))
      (seq 0 padLength).

(** The packets a shaped chunk is cut into when the fade is evaluated in
    binary64. *)
Definition packetSamples64 (shaped : list Z) (k : nat) : list Z :=
  realSamples shaped k
  ++ fadePad64 (default 0 (last shaped)) (400 - length (realSamples shaped k)).

(** [round(a * (1 - t) + b * t)] with [t = i / n], each operation rounded
    to binary64. *)
Definition onLine64 (a b : Z) (i n : nat) : Z :=
  let t := Binary64.div (inject_Z (Z.of_nat i)) (inject_Z (Z.of_nat n)) in
  Math_round (Binary64.add (Binary64.mul (inject_Z a) (Binary64.sub 1 t))
                           (Binary64.mul (inject_Z b) t)).

(** *** A reader for the WAV container written by [toWAVBuffer] *)

(** The fields of the canonical 44-byte RIFF/WAVE header and the samples of
    the [data] chunk. *)
Record WavFile : Type := mkWav {
  audioFormat : Z;
  numChannels : Z;
  wavSampleRate : Z;
  byteRate : Z;
  blockAlign : Z;
  wavBitsPerSample : Z;
  wavSamples : list Z
}.

Definition readUInt16LE (buf : Buffer) (offset : nat) : option Z :=
  match drop offset buf with
  | b0 :: b1 :: _ => Some (b0 + 256 * b1)
  | _ => None
  end.

Definition readUInt32LE (buf : Buffer) (offset : nat) : option Z :=
  match drop offset buf with
  | b0 :: b1 :: b2 :: b3 :: _ => Some (b0 + 256 * b1 + 65536 * b2 + 16777216 * b3)
  | _ => None
  end.

(** Two's-complement reading of a 16-bit little-endian word. *)
Definition int16_of_bytes (b0 b1 : Z) : Z :=
  let u := b0 + 256 * b1 in
  if 32768 <=? u then u - 65536 else u.

Fixpoint readSamples (data : list Z) : option (list Z) :=
  match data with
  | [] => Some []
  | b0 :: b1 :: rest => cons (int16_of_bytes b0 b1) <$> readSamples rest
  | [_] => None
  end.

(** The bytes of a sample array: two little-endian bytes per sample. *)
Definition sampleBytes (l : list Z) : list Z := concat (map (le_bytes 2) l).

(** A buffer being filled from the left: [pre] has been written over the
    first bytes of the allocation [buf0]. *)
Definition growing (buf0 : Buffer) (pre : list Z) : Buffer * nat :=
  (pre ++ drop (length pre) buf0, length pre).

(** The canonical header for [n] samples of mono 16-bit PCM at [rate] Hz. *)
Definition header (rate : Z) (n : nat) : list Z :=
  ascii_bytes "RIFF" ++ le_bytes 4 (44 + Z.of_nat n * 2 - 8)
  ++ ascii_bytes "WAVE" ++ ascii_bytes "fmt " ++ le_bytes 4 16
  ++ le_bytes 2 1 ++ le_bytes 2 1 ++ le_bytes 4 rate ++ le_bytes 4 (rate * 1 * 2)
  ++ le_bytes 2 (1 * 2) ++ le_bytes 2 16
  ++ ascii_bytes "data" ++ le_bytes 4 (Z.of_nat n * 2).

Definition tag (buf : Buffer) (offset : nat) (s : string) : bool :=
  bool_decide (take 4 (drop offset buf) = ascii_bytes s).

(** Decode a buffer holding one [fmt ] chunk of 16 bytes followed by one
    [data] chunk that extends to the end of the buffer. *)
Definition decodeWAV (buf : Buffer) : option WavFile :=
  if tag buf 0 "RIFF" && tag buf 8 "WAVE" && tag buf 12 "fmt " && tag buf 36 "data"
  then
    riffSize ← readUInt32LE buf 4;
    fmtSize ← readUInt32LE buf 16;
    format ← readUInt16LE buf 20;
    nch ← readUInt16LE buf 22;
    rate ← readUInt32LE buf 24;
    brate ← readUInt32LE buf 28;
    align ← readUInt16LE buf 32;
    bits ← readUInt16LE buf 34;
    dataSize ← readUInt32LE buf 40;
    if (riffSize =? Z.of_nat (length buf) - 8) && (fmtSize =? 16)
       && (dataSize =? Z.of_nat (length buf) - 44)
    then
      samples ← readSamples (drop 44 buf);
      Some {| audioFormat := format; numChannels := nch; wavSampleRate := rate;
              byteRate := brate; blockAlign := align; wavBitsPerSample := bits;
              wavSamples := samples |}
    else None
  else None.

End Spec.


(** ** The event loop around the orchestrator *)

Module EventLoop.
Import JS StreamingClient.

(** A pipeline of call [ucid] that is suspended on a collaborator. *)
Inductive Pending : Type :=
| PendingTranscription (ucid : string)
    (k : completion Transcription -> StreamingClient.t -> Step unit)
| PendingFlow (ucid : string)
    (k : completion bool -> StreamingClient.t -> Step unit).

Definition owner (p : Pending) : string :=
  match p with
  | PendingTranscription ucid _ => ucid
  | PendingFlow ucid _ => ucid
  end.

Definition isTranscription (p : Pending) : bool :=
  match p with
  | PendingTranscription _ _ => true
  | PendingFlow _ _ => false
  end.

(** The client together with the promises that have not settled yet. *)
Record t : Type := mkLoop {
  client : StreamingClient.t;
  pending : list Pending
}.

(** A handler of call [ucid] has run as far as it can. *)
Definition park (ucid : string) (s : Step unit) (waiting : list Pending) : t :=
  match s with
  | Done _ st => {| client := st; pending := waiting |}
  | AwaitTranscription st _ k =>
    {| client := st; pending := waiting ++ [PendingTranscription ucid k] |}
  | AwaitFlow st _ k =>
    {| client := st; pending := waiting ++ [PendingFlow ucid k] |}
  end.

(** What the event loop can do next: deliver a media message, settle the
    [i]-th pending promise with an answer, or let time pass. *)
Inductive Event : Type :=
| Media (message : MediaMessage)
| TranscriptionSettles (i : nat) (answer : completion Transcription)
| FlowSettles (i : nat) (answer : completion bool)
| Tick (time : Z).

Definition step (uninit : nat -> Z) (l : t) (e : Event) : t :=
  match e with
  | Media message =>
    park (m_ucid message) (handleAudioChunk uninit message (client l)) (pending l)
  | TranscriptionSettles i answer =>
    match pending l !! i with
    | Some (PendingTranscription ucid k) =>
      park ucid (k answer (client l)) (delete i (pending l))
    | _ => l
    end
  | FlowSettles i answer =>
    match pending l !! i with
    | Some (PendingFlow ucid k) =>
      park ucid (k answer (client l)) (delete i (pending l))
    | _ => l
    end
  | Tick time => {| client := set_now time (client l); pending := pending l |}
  end.

Definition run (uninit : nat -> Z) (events : list Event) (l : t) : t :=
  fold_left (step uninit) events l.

(** The pipelines of [ucid] that are in flight, and those among them that
    wait for the transcription collaborator. *)
Definition inFlight (ucid : string) (waiting : list Pending) : nat :=
  length (List.filter (fun p => String.eqb (owner p) ucid) waiting).

Definition transcriptionsInFlight (ucid : string) (waiting : list Pending) : nat :=
  length (List.filter (fun p => isTranscription p && String.eqb (owner p) ucid)
                      waiting).

(** A step that never writes [isTranscribing]: at every point where it
    stops, the flags are those it (re)started with. *)
Fixpoint Untouched {A : Type} (flags : gmap string bool) (s : Step A) : Prop :=
  match s with
  | Done _ st => isTranscribing st = flags
  | AwaitTranscription st _ k =>
    isTranscribing st = flags /\ forall a st', Untouched (isTranscribing st') (k a st')
  | AwaitFlow st _ k =>
    isTranscribing st = flags /\ forall a st', Untouched (isTranscribing st') (k a st')
  end.

(** A resumed pipeline of [ucid]: it keeps the flags while it waits, and
    when it is done it has changed at most the flag of [ucid]. *)
Fixpoint Resumed {A : Type} (ucid : string) (flags : gmap string bool)
  (s : Step A) : Prop :=
  match s with
  | Done _ st => forall v, v <> ucid -> isTranscribing st !! v = flags !! v
  | AwaitTranscription st _ k =>
    isTranscribing st = flags /\ forall a st', Resumed ucid (isTranscribing st') (k a st')
  | AwaitFlow st _ k =>
    isTranscribing st = flags /\ forall a st', Resumed ucid (isTranscribing st') (k a st')
  end.

(** A handler of [ucid] that was started with the flag clear: if it
    suspends, it has raised the flag of [ucid] and nothing else. *)
Definition Started {A : Type} (ucid : string) (flags : gmap string bool)
  (s : Step A) : Prop :=
  match s with
  | Done _ st => forall v, v <> ucid -> isTranscribing st !! v = flags !! v
  | AwaitTranscription st _ k =>
    isTranscribing st = <[ucid := true]> flags
    /\ forall a st', Resumed ucid (isTranscribing st') (k a st')
  | AwaitFlow st _ k =>
    isTranscribing st = <[ucid := true]> flags
    /\ forall a st', Resumed ucid (isTranscribing st') (k a st')
  end.

Definition WellFormed (p : Pending) : Prop :=
  match p with
  | PendingTranscription ucid k =>
    forall a st, Resumed ucid (isTranscribing st) (k a st)
  | PendingFlow ucid k =>
    forall a st, Resumed ucid (isTranscribing st) (k a st)
  end.

(** The invariant of the loop: every call has at most one pipeline in
    flight, and while it has one its flag is set. *)
Definition Invariant (l : t) : Prop :=
  Forall WellFormed (pending l)
  /\ forall ucid,
       (inFlight ucid (pending l) <= 1)%nat
       /\ (inFlight ucid (pending l) = 1%nat ->
           isTranscribing (client l) !! ucid = Some true).

End EventLoop.

(** ** A call used in the examples *)

Module Scenario.
Import JS StreamingClient.

Definition config : Config :=
  {| streamingBufferMs := 2000; silenceThreshold := 1000; minSpeechDuration := 1000 |}.

Definition uninit : nat -> Z := fun _ => 0.

Definition media (ucid : string) (samples : list Z) (rate : Z) : MediaMessage :=
  {| m_ucid := ucid; m_samples := Some samples; m_sampleRate := Some rate |}.

(** The state in which a step finished or suspended. *)
Definition stateOf {A : Type} (s : Step A) : StreamingClient.t :=
  match s with
  | Done _ st => st
  | AwaitTranscription st _ _ => st
  | AwaitFlow st _ _ => st
  end.

(** Call "A" has just started. *)
Definition started : StreamingClient.t :=
  handleStreamStart {| start_ucid := "A"; start_language := None; start_voice := None |}
                    (StreamingClient.new config 0).

(** One second of loud audio, then a silent packet two seconds later. *)
Definition loud : list Z := repeat 1000 (Z.to_nat 8000).
Definition quiet : list Z := repeat 0 400.

(** One second of speech is buffered and two seconds have passed. *)
Definition spoken : StreamingClient.t :=
  set_now 2000 (stateOf (handleAudioChunk uninit (media "A" loud 8000) started)).


(** The state [handleAudioChunk] hands to [processAudioChunk] when the
    silent packet arrives: session object 0, processor object 1. *)
Definition flushing : StreamingClient.t := accumulate 1 0 quiet 8000 spoken.

(** The call's processor, if any. *)
Definition processorOf (st : StreamingClient.t) (ucid : string)
  : option AudioProcessor.t := snd <$> getProcessor st ucid.

(** Does the step wait for the transcription collaborator? *)
Definition awaitsTranscription {A : Type} (s : Step A) : bool :=
  match s with
  | AwaitTranscription _ _ _ => true
  | _ => false
  end.

(** A transcription service that is down, and a flow engine that plays. *)
Definition failing : Environment :=
  {| transcribe := fun st _ => (Throw (ExternalError "503"), set_now (now st + 300) st);
     executeConversationalFlow := fun st _ => (Normal true, set_now (now st + 900) st) |}.

End Scenario.
(** ** The life of a processor: calls made on it after construction *)

Module ProcessorHistory.

(** The two mutators the orchestrator calls, with the reading of
    [Date.now()] at the call. *)
Inductive Call : Type :=
| AddSamples (now : Z) (packet : list Z)
| Reset (now : Z).

Definition perform (p : AudioProcessor.t) (c : Call) : AudioProcessor.t :=
  match c with
  | AddSamples now packet => AudioProcessor.addSamples now packet p
  | Reset now => AudioProcessor.reset now p
  end.

Definition after (calls : list Call) (p : AudioProcessor.t) : AudioProcessor.t :=
  fold_left perform calls p.

(** The packets added since the last reset, concatenated. *)
Definition sinceReset (calls : list Call) : list Z :=
  fold_left (fun acc c => match c with
                          | AddSamples _ packet => acc ++ packet
                          | Reset _ => []
                          end) calls [].

(** [addSamples] spreads the packet into the arguments of one [push]
    call, which an engine refuses beyond its argument limit; packets of at
    most 65536 samples are within it. *)
Definition spreadable (c : Call) : Prop :=
  match c with
  | AddSamples _ packet => (Z.of_nat (length packet) <= 65536)%Z
  | Reset _ => True
  end.

(** Can a sample array be written as 16-bit PCM into a container whose
    size fields are 32 bits wide? *)
Definition fits16 (s : Z) : bool := (-32768 <=? s) && (s <=? 32767).

Definition encodable (samples : list Z) : bool :=
  forallb fits16 samples
  && (Z.of_nat (length samples) * 2 + 36 <=? 4294967295).

End ProcessorHistory.
(** ** Vocabulary for the shaped audio *)

Module Shaping.
Import JS.

(** The integer [_removeDCOffset] takes off every sample: the mean rounded
    to the nearest integer, a tie going down. *)
Definition dcShift (samples : list Z) : Z :=
  - Math_round (- StreamServer.mean samples).

(** [x] lies between [a] and [b], whichever is the larger. *)
Definition between (a b x : Z) : Prop := Z.min a b <= x <= Z.max a b.

(** Sending one array after the other for the same call. *)
Fixpoint sendAll (ucid : string) (chunks : list (list Z)) (st : StreamServer.t)
  : option (list bool * StreamServer.t) :=
  match chunks with
  | [] => Some ([], st)
  | samples :: rest =>
    '(ok, st) ← StreamServer.sendAudioToOzonetel ucid samples st;
    '(oks, st) ← sendAll ucid rest st;
    Some (ok :: oks, st)
  end.

(** The packets a shaped array is cut into. *)
Definition packetsOf (ucid : string) (shaped : list Z)
  : list StreamServer.MediaPacket :=
  map (fun j => StreamServer.mediaPacket ucid (Spec.packetSamples shaped j))
      (seq 0 (Spec.ceilDiv (length shaped) 400)).

(** The packets a call has been sent so far. *)
Definition sentTo (st : StreamServer.t) (ucid : string)
  : list StreamServer.MediaPacket :=
  match StreamServer.connection st ucid with
  | Some (_, ws) => StreamServer.sent ws
  | None => []
  end.

End Shaping.
(** ** The language of the transcription filter *)

Module Filter.
Import JSString.

(** The strings a regular expression matches as a whole. *)
Inductive matches : regex -> JSString.t -> Prop :=
| matches_Eps : matches Eps []
| matches_Class p c : p c = true -> matches (Class p) [c]
| matches_Seq r1 r2 s1 s2 :
    matches r1 s1 -> matches r2 s2 -> matches (Seq r1 r2) (s1 ++ s2)
| matches_Alt_l r1 r2 s : matches r1 s -> matches (Alt r1 r2) s
| matches_Alt_r r1 r2 s : matches r2 s -> matches (Alt r1 r2) s
| matches_Star_nil r : matches (Star r) []
| matches_Star_app r s1 s2 :
    matches r s1 -> matches (Star r) s2 -> matches (Star r) (s1 ++ s2).

(** The text with its ASCII capitals lowered. *)
Definition lower (s : JSString.t) : JSString.t := map toLowerASCII s.

(** The characters of the class [[\s\.,!?]]. *)
Definition isPunctuation (c : N) : bool :=
  isWhiteSpace c || existsb (N.eqb c) (lit ".,!?").

(** The phrases the filter drops in any letter case. *)
Definition fillers : list JSString.t :=
  [lit "thank you"; lit "thank you."; lit "thanks"; lit "thanks."; lit "you"].

End Filter.
(** ** StreamServer: inbound messages of the gateway
    (src/services/streamServer.js, [handleMessage]) *)

Module Gateway.
Import JS StreamServer.

(** The fields [handleMessage] reads from a parsed message.  A call id is
    a string when it is present. *)
Record Message : Type := mkMessage {
  event : option string;
  type : option string;
  ucid : option string
}.

(** What [JSON.parse(data.toString())] does: it throws, or yields [null],
    or a value whose properties can be read (absent ones are [None]). *)
Inductive Parsed : Type :=
| SyntaxError
| Null
| Value (message : Message).

(** The server with what the inbound path adds to it: the [currentUcid]
    property set on socket objects, the pending ten-second timers with the
    time they are due and the call id they will unmap, the clock, and the
    raw messages handed to the stream client ([None] when the server was
    built without one).  The packet counter that only throttles a log line
    is left out, like the log. *)
Record t : Type := mkGateway {
  server : StreamServer.t;
  currentUcid : gmap nat string;
  timers : list (Z * string);
  now : Z;
  streamClient : option (list string)
}.

Definition set_server (f : StreamServer.t -> StreamServer.t) (st : t) : t :=
  {| server := f (server st); currentUcid := currentUcid st;
     timers := timers st; now := now st; streamClient := streamClient st |}.

(** Truthiness of [message.ucid]. *)
Definition present (ucid : option string) : option string :=
  match ucid with
  | Some s => if String.eqb s "" then None else Some s
  | None => None
  end.

Section WithParser.

Variable JSON_parse : string -> Parsed.

Definition handleMessage (ws : nat) (data : string) (st : t) : t :=
  match JSON_parse data with
  | SyntaxError => st
  | Null => st (* reading [message.event] throws; the [catch] logs *)
  | Value message =>
    let st :=
      match present (ucid message) with
      | Some ucid =>
        if bool_decide (event message = Some "start"%string) then
          {| server :=
               {| sockets := sockets (server st);
                  ucidToConnection := <[ucid := ws]> (ucidToConnection (server st));
                  _lastSamples :=
                    Some (<[ucid := 0]> (default ∅ (_lastSamples (server st)))) |};
             currentUcid := <[ws := ucid]> (currentUcid st);
             timers := timers st; now := now st; streamClient := streamClient st |}
        else st
      | None => st
      end in
    let st :=
      match present (ucid message) with
      | Some ucid =>
        if bool_decide (event message = Some "stop"%string) then
          {| server :=
               {| sockets := sockets (server st);
                  ucidToConnection := ucidToConnection (server st);
                  _lastSamples := delete ucid <$> _lastSamples (server st) |};
             currentUcid := currentUcid st;
             timers := timers st ++ [(now st + 10000, ucid)];
             now := now st; streamClient := streamClient st |}
        else st
      | None => st
      end in
    {| server := server st; currentUcid := currentUcid st;
       timers := timers st; now := now st;
       streamClient := (fun received => received ++ [data]) <$> streamClient st |}
  end.

(** The callback of a timer set by a [stop]. *)
Definition unmap (ucid : string) (s : StreamServer.t) : StreamServer.t :=
  {| sockets := sockets s;
     ucidToConnection := delete ucid (ucidToConnection s);
     _lastSamples := _lastSamples s |}.

Definition due (time : Z) (timer : Z * string) : bool := fst timer <=? time.

(** The clock reaches [time]: the timers that are due fire in the order
    they were set. *)
Definition tick (time : Z) (st : t) : t :=
  {| server := fold_left (fun s timer => unmap (snd timer) s)
                         (List.filter (due time) (timers st)) (server st);
     currentUcid := currentUcid st;
     timers := List.filter (fun timer => negb (due time timer)) (timers st);
     now := Z.max (now st) time;
     streamClient := streamClient st |}.

(** What happens at the gateway: a message arrives on a socket, the clock
    moves, or the application sends audio for a call. *)
Inductive Action : Type :=
| Inbound (ws : nat) (data : string)
| Tick (time : Z)
| Outbound (ucid : string) (samples : list Z).

Definition act (st : t) (a : Action) : t :=
  match a with
  | Inbound ws data => handleMessage ws data st
  | Tick time => tick time st
  | Outbound ucid samples =>
    match sendAudioToOzonetel ucid samples (server st) with
    | Some (_, s) => set_server (fun _ => s) st
    | None => st
    end
  end.

Definition run (actions : list Action) (st : t) : t := fold_left act actions st.

(** Is the message one the stream client gets to see? *)
Definition readable (data : string) : bool :=
  match JSON_parse data with
  | Value _ => true
  | _ => false
  end.

Definition inbound (a : Action) : option string :=
  match a with
  | Inbound _ data => Some data
  | _ => None
  end.

(** No clock reading of the actions reaches [time]. *)
Definition before (time : Z) (a : Action) : Prop :=
  match a with
  | Tick t => t < time
  | _ => True
  end.

End WithParser.

End Gateway.

(** ** A gateway used in the examples *)

Module GatewayExample.
Import StreamServer Gateway.

(** A parser that knows three messages. *)
Definition parseExample (data : string) : Parsed :=
  if String.eqb data "start A" then
    Value {| event := Some "start"%string; type := None; ucid := Some "A"%string |}
  else if String.eqb data "stop A" then
    Value {| event := Some "stop"%string; type := None; ucid := Some "A"%string |}
  else if String.eqb data "null" then Null
  else SyntaxError.

Definition idle : Gateway.t :=
  {| server := {| sockets := {[ 0%nat := {| readyState := OPEN; sent := [] |} ]};
                  ucidToConnection := ∅;
                  _lastSamples := Some {[ "A"%string := 77 ]} |};
     currentUcid := ∅; timers := []; now := 0; streamClient := Some [] |}.

End GatewayExample.
(** ** FlowEngine (src/services/flowEngine.js): the response collaborator *)

Module FlowEngine.
Import JS.

(** An entry of [conversationHistory]. *)
Record Turn : Type := mkTurn {
  role : string;
  content : JSString.t
}.

(** A session object; [context] is flattened into its two properties. *)
Record Session : Type := mkSession {
  callId : string;
  startTime : Z;
  currentStep : string;
  conversationHistory : list Turn;
  lastIntent : option string;
  lastConfidence : option Q
}.

(** The engine: [sessions] maps call ids to session objects, which live
    in a store because a flow keeps the object it started with across its
    [await]s even if the session is cleared meanwhile.  [echoMode] is the
    reading of [process.env.ECHO_MODE === 'true']. *)
Record t : Type := mkEngine {
  now : Z;
  echoMode : bool;
  nextAddress : nat;
  store : gmap nat Session;
  sessions : gmap string nat
}.

Definition set_store (f : gmap nat Session -> gmap nat Session) (st : t) : t :=
  {| now := now st; echoMode := echoMode st; nextAddress := nextAddress st;
     store := f (store st); sessions := sessions st |}.

Definition new (now : Z) (echoMode : bool) : t :=
  {| now := now; echoMode := echoMode; nextAddress := 0; store := ∅; sessions := ∅ |}.

(** [getSession(callId)]: the session object of the call, created on first
    use. *)
Definition getSession (callId : string) (st : t) : nat * t :=
  match sessions st !! callId with
  | Some address => (address, st)
  | None =>
    let address := nextAddress st in
    (address,
     {| now := now st; echoMode := echoMode st; nextAddress := S address;
        store := <[address := {| callId := callId; startTime := now st;
                                 currentStep := "start"; conversationHistory := [];
                                 lastIntent := None; lastConfidence := None |}]>
                   (store st);
        sessions := <[callId := address]> (sessions st) |})
  end.

Definition clearSession (callId : string) (st : t) : t :=
  {| now := now st; echoMode := echoMode st; nextAddress := nextAddress st;
     store := store st; sessions := delete callId (sessions st) |}.

(** What [openaiService.detectIntent] resolves to, when it is an object. *)
Record IntentResult : Type := mkIntent {
  intent : string;
  confidence : Q
}.

(** The system prompt is a fixed text around these three values. *)
Record SystemContext : Type := mkContext {
  ctx_intent : string;
  ctx_confidence : Q;
  ctx_language : string
}.

Record Options : Type := mkOptions {
  opt_language : option string;
  opt_voice : option string
}.

Definition intents : list string :=
  ["greeting"; "help"; "complaint"; "query"; "goodbye"; "unknown"]%string.

(** Running the flow: done, or suspended on one of the two calls to the
    language model.  An answer of [Normal None] is a promise resolved with
    [null] or [undefined]. *)
Inductive Step : Type :=
| Done (r : completion bool) (st : t)
| AwaitIntent (st : t) (userText : JSString.t) (labels : list string)
              (k : completion (option IntentResult) -> t -> Step)
| AwaitResponse (st : t) (userText : JSString.t) (history : list Turn)
                (context : SystemContext)
                (k : completion (option JSString.t) -> t -> Step).

(** [history.slice(-10)]. *)
Definition lastTen (history : list Turn) : list Turn :=
  drop (length history - 10) history.

Definition historyOf (st : t) (address : nat) : list Turn :=
  default [] (conversationHistory <$> store st !! address).

(** [executeConversationalFlow(ucid, transcriptionText, options)].  The
    whole body is inside [try]/[catch]: a rejected promise of the model, or
    a [TypeError] on reading a property of [null], ends in [return false]. *)
Definition executeConversationalFlow (ucid : string) (transcriptionText : JSString.t)
  (options : Options) (st : t) : Step :=
  let language := default "en"%string (opt_language options) in
  let '(session, st) := getSession ucid st in
  if echoMode st then Done (Normal true) st
  else
    AwaitIntent st transcriptionText intents
      (fun answer st =>
         match answer with
         | Throw _ | Normal None => Done (Normal false) st
         | Normal (Some intentResult) =>
           let st :=
             set_store
               (alter (fun s =>
                         {| callId := callId s; startTime := startTime s;
                            currentStep := currentStep s;
                            conversationHistory := conversationHistory s;
                            lastIntent := Some (intent intentResult);
                            lastConfidence := Some (confidence intentResult) |})
                      session) st in
           AwaitResponse st transcriptionText (historyOf st session)
             {| ctx_intent := intent intentResult;
                ctx_confidence := confidence intentResult;
                ctx_language := language |}
             (fun answer st =>
                match answer with
                | Throw _ | Normal None => Done (Normal false) st
                | Normal (Some responseText) =>
                  let st :=
                    set_store
                      (alter (fun s =>
                                let history :=
                                  conversationHistory s
                                  ++ [ {| role := "user"; content := transcriptionText |};
                                       {| role := "assistant"; content := responseText |} ] in
                                {| callId := callId s; startTime := startTime s;
                                   currentStep := currentStep s;
                                   conversationHistory :=
                                     if (10 <? length history)%nat
                                     then lastTen history else history;
                                   lastIntent := lastIntent s;
                                   lastConfidence := lastConfidence s |})
                             session) st in
                  Done (Normal true) st
                end)
         end).

(** *** The engine in the event loop *)

Inductive Pending : Type :=
| PendingIntent (k : completion (option IntentResult) -> t -> Step)
| PendingResponse (k : completion (option JSString.t) -> t -> Step).

Record Loop : Type := mkLoop {
  engine : t;
  pending : list Pending;
  results : list (completion bool)
}.

Definition park (s : Step) (waiting : list Pending)
  (results : list (completion bool)) : Loop :=
  match s with
  | Done r st => {| engine := st; pending := waiting; results := results ++ [r] |}
  | AwaitIntent st _ _ k =>
    {| engine := st; pending := waiting ++ [PendingIntent k]; results := results |}
  | AwaitResponse st _ _ _ k =>
    {| engine := st; pending := waiting ++ [PendingResponse k]; results := results |}
  end.

Inductive Event : Type :=
| Execute (ucid : string) (transcriptionText : JSString.t) (options : Options)
| IntentSettles (i : nat) (answer : completion (option IntentResult))
| ResponseSettles (i : nat) (answer : completion (option JSString.t))
| Clear (callId : string)
| Environment (now : Z) (echoMode : bool).

Definition step (l : Loop) (e : Event) : Loop :=
  match e with
  | Execute ucid text options =>
    park (executeConversationalFlow ucid text options (engine l))
         (pending l) (results l)
  | IntentSettles i answer =>
    match pending l !! i with
    | Some (PendingIntent k) =>
      park (k answer (engine l)) (delete i (pending l)) (results l)
    | _ => l
    end
  | ResponseSettles i answer =>
    match pending l !! i with
    | Some (PendingResponse k) =>
      park (k answer (engine l)) (delete i (pending l)) (results l)
    | _ => l
    end
  | Clear callId =>
    {| engine := clearSession callId (engine l); pending := pending l;
       results := results l |}
  | Environment time echo =>
    {| engine := {| now := time; echoMode := echo;
                    nextAddress := nextAddress (engine l);
                    store := store (engine l); sessions := sessions (engine l) |};
       pending := pending l; results := results l |}
  end.

Definition run (events : list Event) (l : Loop) : Loop := fold_left step events l.

(** A history of user/assistant pairs. *)
Fixpoint paired (history : list Turn) : Prop :=
  match history with
  | [] => True
  | user :: assistant :: rest =>
    role user = "user"%string /\ role assistant = "assistant"%string /\ paired rest
  | [_] => False
  end.

(** Every state a step stops in satisfies [P], provided every state it
    is resumed in does; and when it is done it has returned a boolean. *)
Fixpoint Keeps (P : t -> Prop) (s : Step) : Prop :=
  match s with
  | Done r st => P st /\ exists b, r = Normal b
  | AwaitIntent st _ _ k => P st /\ forall a st', P st' -> Keeps P (k a st')
  | AwaitResponse st _ _ _ k => P st /\ forall a st', P st' -> Keeps P (k a st')
  end.

Definition KeepsPending (P : t -> Prop) (p : Pending) : Prop :=
  match p with
  | PendingIntent k => forall a st', P st' -> Keeps P (k a st')
  | PendingResponse k => forall a st', P st' -> Keeps P (k a st')
  end.

(** Histories are short and made of pairs. *)
Definition Tidy (st : t) : Prop :=
  forall address s, store st !! address = Some s ->
    (length (conversationHistory s) <= 10)%nat /\ paired (conversationHistory s).

Definition LoopInvariant (l : Loop) : Prop :=
  Tidy (engine l) /\ Forall (KeepsPending Tidy) (pending l)
  /\ Forall (fun r => exists b, r = Normal b) (results l).

End FlowEngine.
(** ** StreamingClient: the message dispatcher and the whole client in the
    event loop *)

Module Dispatcher.
Import JS StreamingClient.

(** A message as [handleMessage] tells it apart by [message.type ||
    message.event]; [Unreadable] is data on which [JSON.parse] throws. *)
Inductive Message : Type :=
| StreamStart (message : StartMessage)
| AudioChunk (message : MediaMessage)
| StreamEnd (ucid : string)
| Control (ucid : string) (command : Command)
| Unknown
| Unreadable.

Section WithMemory.

Variable uninit : nat -> Z.

(** [handleMessage(data)]: the [switch] inside a [try] whose [catch] only
    logs.  When [set_language] throws on a missing transcription buffer the
    session has already been given the language. *)
Definition handleMessage (message : Message) : Async unit := fun st =>
  match message with
  | StreamStart m => Done (Normal tt) (handleStreamStart m st)
  | AudioChunk m =>
    tryCatch (handleAudioChunk uninit m st) (fun error st => Done (Normal tt) st)
  | StreamEnd ucid => Done (Normal tt) (handleStreamEnd ucid st)
  | Control ucid command =>
    match handleControl ucid command st with
    | Normal st => Done (Normal tt) st
    | Throw _ =>
      match command, getSession st ucid with
      | set_language l, Some (sessionAddress, _) =>
        Done (Normal tt)
             (set_sessionStore
                (alter (fun s =>
                          {| s_ucid := s_ucid s; language := l;
                             voice := voice s; s_startTime := s_startTime s;
                             totalAudioMs := totalAudioMs s;
                             transcriptionChunks := transcriptionChunks s;
                             playbackChunks := playbackChunks s |})
                       sessionAddress) st)
      | _, _ => Done (Normal tt) st
      end
    end
  | Unknown | Unreadable => Done (Normal tt) st
  end.

(** The call a message is about. *)
Definition about (message : Message) : string :=
  match message with
  | StreamStart m => start_ucid m
  | AudioChunk m => m_ucid m
  | StreamEnd ucid => ucid
  | Control ucid _ => ucid
  | Unknown | Unreadable => ""
  end.

Inductive Event : Type :=
| Receive (message : Message)
| TranscriptionSettles (i : nat) (answer : completion Transcription)
| FlowSettles (i : nat) (answer : completion bool)
| Tick (time : Z).

Definition step (l : EventLoop.t) (e : Event) : EventLoop.t :=
  match e with
  | Receive message =>
    EventLoop.park (about message) (handleMessage message (EventLoop.client l))
                   (EventLoop.pending l)
  | TranscriptionSettles i answer =>
    match EventLoop.pending l !! i with
    | Some (EventLoop.PendingTranscription ucid k) =>
      EventLoop.park ucid (k answer (EventLoop.client l))
                     (delete i (EventLoop.pending l))
    | _ => l
    end
  | FlowSettles i answer =>
    match EventLoop.pending l !! i with
    | Some (EventLoop.PendingFlow ucid k) =>
      EventLoop.park ucid (k answer (EventLoop.client l))
                     (delete i (EventLoop.pending l))
    | _ => l
    end
  | Tick time =>
    {| EventLoop.client := set_now time (EventLoop.client l);
       EventLoop.pending := EventLoop.pending l |}
  end.

Definition run (events : list Event) (l : EventLoop.t) : EventLoop.t :=
  fold_left step events l.

End WithMemory.

(** A processor as [handleStreamStart] configures it, with a sample count
    that agrees with its buffer. *)
Definition Streaming (p : AudioProcessor.t) : Prop :=
  AudioProcessor.sampleRate (AudioProcessor.config p) = 8000
  /\ AudioProcessor.bitsPerSample (AudioProcessor.config p) = 16
  /\ AudioProcessor.channels (AudioProcessor.config p) = 1
  /\ AudioProcessor.silenceAmplitude (AudioProcessor.config p) = 300
  /\ AudioProcessor.totalSamples p = Z.of_nat (length (AudioProcessor.samples p)).

(** The per-call maps agree on which calls exist. *)
Definition Consistent (st : StreamingClient.t) : Prop :=
  (forall u, is_Some (streamingSessions st !! u) <-> is_Some (audioProcessors st !! u))
  /\ (forall u, is_Some (streamingSessions st !! u)
                <-> is_Some (transcriptionBuffers st !! u))
  /\ (forall u, is_Some (streamingSessions st !! u) <-> is_Some (playbackQueues st !! u))
  /\ (forall u, is_Some (streamingSessions st !! u) ->
                is_Some (isTranscribing st !! u) /\ is_Some (isPlayingBack st !! u))
  /\ (forall u a, streamingSessions st !! u = Some a -> is_Some (sessionStore st !! a))
  /\ (forall u a, audioProcessors st !! u = Some a -> is_Some (processorStore st !! a))
  /\ (forall a p, processorStore st !! a = Some p -> Streaming p).

(** Every state a step stops in satisfies [P], provided every state it is
    resumed in does. *)
Fixpoint Keeps {A : Type} (P : StreamingClient.t -> Prop) (s : Step A) : Prop :=
  match s with
  | Done _ st => P st
  | AwaitTranscription st _ k => P st /\ forall a st', P st' -> Keeps P (k a st')
  | AwaitFlow st _ k => P st /\ forall a st', P st' -> Keeps P (k a st')
  end.

Definition KeepsPending (P : StreamingClient.t -> Prop) (p : EventLoop.Pending) : Prop :=
  match p with
  | EventLoop.PendingTranscription _ k => forall a st', P st' -> Keeps P (k a st')
  | EventLoop.PendingFlow _ k => forall a st', P st' -> Keeps P (k a st')
  end.

(** The loop keeps the client consistent. *)
Definition LoopConsistent (l : EventLoop.t) : Prop :=
  Consistent (EventLoop.client l)
  /\ Forall (KeepsPending Consistent) (EventLoop.pending l).

End Dispatcher.
(** ** The stream client of the hearing route over a call *)

Module Hearing.
Import StreamClient.

(** The client as its constructor leaves it. *)
Definition fresh (now : Z) (defaultLanguage : string) : StreamClient.t :=
  {| now := now; defaultLanguage := defaultLanguage; currentCall := None;
     audioBuffers := ∅; transcriptionSessions := ∅;
     transcriptionInProgress := ∅; eventLog := [] |}.

(** The gateway events the model covers, and the passing of time. *)
Inductive Event : Type :=
| Start (ucid did : string)
| Media (ucid : string) (data : MediaData)
| Tick (time : Z).

Definition step (st : StreamClient.t) (e : Event) : StreamClient.t :=
  match e with
  | Start ucid did => handleStartEvent ucid did st
  | Media ucid data => handleMediaEvent ucid data st
  | Tick time =>
    {| now := time; defaultLanguage := defaultLanguage st;
       currentCall := currentCall st; audioBuffers := audioBuffers st;
       transcriptionSessions := transcriptionSessions st;
       transcriptionInProgress := transcriptionInProgress st;
       eventLog := eventLog st |}
  end.

Definition run (events : list Event) (st : StreamClient.t) : StreamClient.t :=
  fold_left step events st.

(** The books of the current call are in order. *)
Definition Bookkept (st : StreamClient.t) : Prop :=
  (forall u, transcriptionInProgress st !! u = None)
  /\ forall call, currentCall st = Some call ->
       exists buffer session,
         audioBuffers st !! c_ucid call = Some buffer
         /\ Z.of_nat (length buffer) = mediaPackets call
         /\ Forall (fun b => sampleRate (payload b) = Some 8000) buffer
         /\ transcriptionSessions st !! c_ucid call = Some session
         /\ totalChunks session = Z.of_nat (length (chunks session))
         /\ 50 * totalChunks session <= mediaPackets call
         /\ map chunk_number (chunks session)
            = map Z.of_nat (seq 1 (length (chunks session))).

End Hearing.
(** ** What one call can see of the client *)

Module Isolation.
Import JS StreamingClient.

(** Everything the client holds for a call: its session and processor
    objects (with their addresses), its transcription buffer and playback
    queue, and its two flags. *)
Definition view (st : StreamingClient.t) (ucid : string)
  : option (nat * Session) * option (nat * AudioProcessor.t)
    * option TranscriptionBuffer * option (list unit)
    * option bool * option bool :=
  (getSession st ucid, getProcessor st ucid, transcriptionBuffers st !! ucid,
   playbackQueues st !! ucid, isTranscribing st !! ucid, isPlayingBack st !! ucid).

(** The call an event of the loop belongs to: the call a message names, or
    the call whose pipeline is resumed. *)
Definition concerns (l : EventLoop.t) (e : Dispatcher.Event) : option string :=
  match e with
  | Dispatcher.Receive (Dispatcher.StreamStart m) => Some (start_ucid m)
  | Dispatcher.Receive (Dispatcher.AudioChunk m) => Some (m_ucid m)
  | Dispatcher.Receive (Dispatcher.StreamEnd ucid) => Some ucid
  | Dispatcher.Receive (Dispatcher.Control ucid _) => Some ucid
  | Dispatcher.Receive _ => None
  | Dispatcher.TranscriptionSettles i _ => EventLoop.owner <$> EventLoop.pending l !! i
  | Dispatcher.FlowSettles i _ => EventLoop.owner <$> EventLoop.pending l !! i
  | Dispatcher.Tick _ => None
  end.

(** Objects belong to the call they were created for, mapped objects
    exist and belong to the call they are mapped to, and addresses not yet
    handed out hold nothing. *)
Definition Good (st : StreamingClient.t) : Prop :=
  (forall v a, streamingSessions st !! v = Some a ->
     exists s, sessionStore st !! a = Some s /\ s_ucid s = v)
  /\ (forall v a, audioProcessors st !! v = Some a ->
        exists p, processorStore st !! a = Some p /\ AudioProcessor.ucid p = v)
  /\ (forall a, is_Some (sessionStore st !! a) -> (a < nextAddress st)%nat)
  /\ (forall a, is_Some (processorStore st !! a) -> (a < nextAddress st)%nat).

(** Objects persist and keep their owner. *)
Definition Persist (st0 st : StreamingClient.t) : Prop :=
  (forall a s, sessionStore st0 !! a = Some s ->
     exists s', sessionStore st !! a = Some s' /\ s_ucid s' = s_ucid s)
  /\ (forall a p, processorStore st0 !! a = Some p ->
        exists p', processorStore st !! a = Some p'
                   /\ AudioProcessor.ucid p' = AudioProcessor.ucid p).

(** A piece of work done for call [u] between two states. *)
Definition Respects (u : string) (st0 st : StreamingClient.t) : Prop :=
  Good st /\ Persist st0 st /\ forall v, v <> u -> view st v = view st0 v.

(** The objects at these addresses belong to call [u]. *)
Definition Owned (u : string) (sessions processors : list nat)
  (st : StreamingClient.t) : Prop :=
  Forall (fun a => exists s, sessionStore st !! a = Some s /\ s_ucid s = u) sessions
  /\ Forall (fun a => exists p, processorStore st !! a = Some p
                                /\ AudioProcessor.ucid p = u) processors.

(** A step of call [u]: each stretch between two suspensions respects the
    other calls, given that the objects it holds on to are still its own
    when it is resumed. *)
Fixpoint Local {A : Type} (u : string) (st0 : StreamingClient.t) (s : Step A) : Prop :=
  match s with
  | Done _ st => Respects u st0 st
  | AwaitTranscription st _ k =>
    Respects u st0 st
    /\ exists sessions processors,
         Owned u sessions processors st
         /\ forall a st', Good st' -> Owned u sessions processors st' ->
                          Local u st' (k a st')
  | AwaitFlow st _ k =>
    Respects u st0 st
    /\ exists sessions processors,
         Owned u sessions processors st
         /\ forall a st', Good st' -> Owned u sessions processors st' ->
                          Local u st' (k a st')
  end.

Definition LocalPending (st : StreamingClient.t) (p : EventLoop.Pending) : Prop :=
  match p with
  | EventLoop.PendingTranscription u k =>
    exists sessions processors,
      Owned u sessions processors st
      /\ forall a st', Good st' -> Owned u sessions processors st' ->
                       Local u st' (k a st')
  | EventLoop.PendingFlow u k =>
    exists sessions processors,
      Owned u sessions processors st
      /\ forall a st', Good st' -> Owned u sessions processors st' ->
                       Local u st' (k a st')
  end.

Definition LoopIsolated (l : EventLoop.t) : Prop :=
  Good (EventLoop.client l)
  /\ Forall (LocalPending (EventLoop.client l)) (EventLoop.pending l).

End Isolation.
(** * Properties *)

(** ** The flush policy of the AudioProcessor *)

Section FlushPolicy.
Import JS AudioProcessor Spec.

Lemma isSilent_spec now p : isSilent now p = true <-> silencePersisted now p.
Proof. unfold isSilent, silencePersisted. apply Z.leb_le. Qed.

(** For a positive sample rate the duration test is the expected
    comparison of integers: [m <= 1000 * totalSamples / sampleRate]. *)
Lemma durationAtLeast_arith p m :
  0 < sampleRate (config p) ->
  durationAtLeast p m <->
  m * sampleRate (config p) <= 1000 * totalSamples p.
Proof.
  intros Hr. unfold durationAtLeast, getDurationMs, div.
  destruct (Z.eqb_spec (sampleRate (config p)) 0) as [E|_]; [lia|].
  cbn [mul_pos geb]. rewrite Qle_bool_iff.
  unfold Qle, Qmult, Qdiv, Qinv, inject_Z; cbn.
  destruct (sampleRate (config p)) as [|r|r] eqn:E; try lia.
  cbn. lia.
Qed.

Lemma shouldSendToAPI_unfold now p :
  shouldSendToAPI now p =
  geb (getDurationMs p) (maxAudioDuration (config p))
  || (isSilent now p && geb (getDurationMs p) (minAudioDuration (config p))).
Proof.
  unfold shouldSendToAPI.
  destruct (geb _ (maxAudioDuration _)), (isSilent now p), (geb _ (minAudioDuration _));
    reflexivity.
Qed.

Lemma durationAtLeast_mono p m1 m2 :
  m1 <= m2 -> durationAtLeast p m2 -> durationAtLeast p m1.
Proof.
  unfold durationAtLeast. intros Hm. destruct (getDurationMs p) as [q| | |]; cbn; try done.
  rewrite !Qle_bool_iff. intros Hq.
  apply Qle_trans with (inject_Z m2); [|done]. by rewrite <- Zle_Qle.
Qed.

(** C2. [shouldSendToAPI] is true when the accumulated duration has reached
    [maxAudioDuration], whatever the voice activity ([now] and
    [lastAudioTime] are arbitrary); otherwise it is true when silence has
    persisted for [silenceThreshold] and the duration has reached
    [minAudioDuration]; otherwise it is false, in particular when silence
    has persisted but the duration is below [minAudioDuration].  With
    [minAudioDuration <= maxAudioDuration], a duration below the minimum is
    below the maximum too, so silence alone never flushes. *)
Theorem shouldSendToAPI_flush_policy (now : Z) (p : AudioProcessor.t) :
  (durationAtLeast p (maxAudioDuration (config p)) ->
     shouldSendToAPI now p = true)
  /\ (~ durationAtLeast p (maxAudioDuration (config p)) ->
      silencePersisted now p ->
      durationAtLeast p (minAudioDuration (config p)) ->
      shouldSendToAPI now p = true)
  /\ (~ durationAtLeast p (maxAudioDuration (config p)) ->
      ~ (silencePersisted now p
         /\ durationAtLeast p (minAudioDuration (config p))) ->
      shouldSendToAPI now p = false)
  /\ (~ durationAtLeast p (maxAudioDuration (config p)) ->
      silencePersisted now p ->
      ~ durationAtLeast p (minAudioDuration (config p)) ->
      shouldSendToAPI now p = false)
  /\ (minAudioDuration (config p) <= maxAudioDuration (config p) ->
      silencePersisted now p ->
      ~ durationAtLeast p (minAudioDuration (config p)) ->
      shouldSendToAPI now p = false).
Proof.
  assert (Hmono : minAudioDuration (config p) <= maxAudioDuration (config p) ->
                  durationAtLeast p (maxAudioDuration (config p)) ->
                  durationAtLeast p (minAudioDuration (config p)))
    by apply durationAtLeast_mono.
  revert Hmono.
  rewrite shouldSendToAPI_unfold. unfold durationAtLeast.
  rewrite <- isSilent_spec.
  destruct (geb _ (maxAudioDuration _)), (isSilent now p), (geb _ (minAudioDuration _));
    cbn; intuition congruence.
Qed.

(** Five seconds of uninterrupted voice are flushed; half a second of
    audio followed by two seconds of silence is not; one second of audio
    followed by one second of silence is. *)
Lemma shouldSendToAPI_flush_policy_witness :
  let cfg := {| minAudioDuration := 1000; maxAudioDuration := 5000;
                silenceThreshold := 1000; silenceAmplitude := 100;
                sampleRate := 8000; bitsPerSample := 16; channels := 1 |} in
  let buffer n last :=
    {| ucid := "A"; config := cfg; samples := []; totalSamples := n;
       startTime := 0; lastAudioTime := last; consecutiveSilentPackets := 0 |} in
  shouldSendToAPI 5000 (buffer 40000 5000) = true
  /\ shouldSendToAPI 2500 (buffer 4000 500) = false
  /\ shouldSendToAPI 2000 (buffer 8000 1000) = true.
Proof.
  intros cfg buffer.
  destruct (shouldSendToAPI_flush_policy 5000 (buffer 40000 5000)) as (Hmax & _).
  destruct (shouldSendToAPI_flush_policy 2500 (buffer 4000 500))
    as (_ & _ & _ & Hshort & _).
  destruct (shouldSendToAPI_flush_policy 2000 (buffer 8000 1000)) as (_ & Hsilence & _).
  split; [apply Hmax; vm_compute; reflexivity|].
  split.
  - apply Hshort.
    + intros H. vm_compute in H. discriminate.
    + unfold silencePersisted. cbn. lia.
    + intros H. vm_compute in H. discriminate.
  - apply Hsilence.
    + intros H. vm_compute in H. discriminate.
    + unfold silencePersisted. cbn. lia.
    + vm_compute. reflexivity.
Defined.

End FlushPolicy.

(** ** The WAV encoder *)

Section WavEncoding.
Import JS AudioProcessor Spec.

Lemma byte_of_div_mod v k : byte_of v k = (v / 2 ^ (8 * Z.of_nat k)) mod 256.
Proof.
  unfold byte_of. rewrite Z.shiftr_div_pow2 by lia.
  change 255 with (Z.ones 8). rewrite Z.land_ones by lia. reflexivity.
Qed.

Lemma read_write_uint16 v :
  0 <= v <= 65535 -> byte_of v 0 + 256 * byte_of v 1 = v.
Proof.
  intros Hv. rewrite !byte_of_div_mod.
  change (2 ^ (8 * Z.of_nat 0)) with 1. change (2 ^ (8 * Z.of_nat 1)) with 256.
  rewrite Z.div_1_r.
  rewrite (Z.mod_small (v / 256) 256) by (split; [apply Z.div_pos; lia | apply Z.div_lt_upper_bound; lia]).
  pose proof (Z.div_mod v 256 ltac:(lia)). lia.
Qed.

Lemma read_write_uint32 v :
  0 <= v <= 4294967295 ->
  byte_of v 0 + 256 * byte_of v 1 + 65536 * byte_of v 2 + 16777216 * byte_of v 3 = v.
Proof.
  intros Hv. rewrite !byte_of_div_mod.
  change (2 ^ (8 * Z.of_nat 0)) with 1. change (2 ^ (8 * Z.of_nat 1)) with 256.
  change (2 ^ (8 * Z.of_nat 2)) with 65536. change (2 ^ (8 * Z.of_nat 3)) with 16777216.
  rewrite Z.div_1_r.
  pose proof (Z.div_mod v 256 ltac:(lia)).
  pose proof (Z.div_mod (v / 256) 256 ltac:(lia)).
  pose proof (Z.div_mod (v / 256 / 256) 256 ltac:(lia)).
  rewrite !Z.div_div in * by lia.
  change (256 * 256) with 65536 in *. change (65536 * 256) with 16777216 in *.
  pose proof (Z.mod_pos_bound v 256 ltac:(lia)).
  pose proof (Z.mod_pos_bound (v / 256) 256 ltac:(lia)).
  pose proof (Z.mod_pos_bound (v / 65536) 256 ltac:(lia)).
  assert (0 <= v / 16777216 < 256)
    by (split; [apply Z.div_pos; lia | apply Z.div_lt_upper_bound; lia]).
  rewrite (Z.mod_small (v / 16777216) 256) by lia.
  lia.
Qed.

Lemma read_write_int16 v :
  int16 v -> int16_of_bytes (byte_of v 0) (byte_of v 1) = v.
Proof.
  unfold int16, int16_of_bytes. intros Hv. rewrite !byte_of_div_mod.
  change (2 ^ (8 * Z.of_nat 0)) with 1. change (2 ^ (8 * Z.of_nat 1)) with 256.
  rewrite Z.div_1_r.
  pose proof (Z.div_mod v 256 ltac:(lia)).
  pose proof (Z.mod_pos_bound v 256 ltac:(lia)).
  pose proof (Z.mod_pos_bound (v / 256) 256 ltac:(lia)).
  pose proof (Z.div_mod (v / 256) 256 ltac:(lia)).
  assert (-128 <= v / 256 < 128)
    by (split; [apply Z.div_le_lower_bound; lia | apply Z.div_lt_upper_bound; lia]).
  destruct (Z.leb_spec 32768 (v mod 256 + 256 * ((v / 256) mod 256))); lia.
Qed.

Lemma writeBytes_growing buf0 pre bs :
  (length pre + length bs <= length buf0)%nat ->
  writeBytes bs (length pre) (pre ++ drop (length pre) buf0)
  = Normal (growing buf0 (pre ++ bs)).
Proof.
  intros Hfit. unfold writeBytes, growing.
  rewrite length_app, length_drop.
  destruct (Nat.leb_spec (length pre + length bs) (length pre + (length buf0 - length pre)));
    [|lia].
  f_equal. f_equal; [|by rewrite length_app].
  rewrite <- (take_drop (length bs) (drop (length pre) buf0)).
  rewrite <- (Nat.add_0_r (length pre)) at 1.
  rewrite list_inserts_app_r, list_inserts_0_r
    by (rewrite length_take, length_drop; lia).
  rewrite drop_drop, length_app, <- app_assoc. reflexivity.
Qed.

Lemma write_growing buf0 pre s :
  (length pre + length (ascii_bytes s) <= length buf0)%nat ->
  write s (length pre) (pre ++ drop (length pre) buf0)
  = Normal (growing buf0 (pre ++ ascii_bytes s)).
Proof.
  intros Hfit. unfold write.
  rewrite length_app, length_drop.
  destruct (Nat.leb_spec (length pre) (length pre + (length buf0 - length pre))); [|lia].
  rewrite take_ge by lia.
  pose proof (writeBytes_growing buf0 pre (ascii_bytes s) Hfit) as Hw.
  unfold writeBytes in Hw. rewrite length_app, length_drop in Hw.
  destruct (Nat.leb_spec (length pre + length (ascii_bytes s))
                         (length pre + (length buf0 - length pre))); [|lia].
  unfold growing in *. injection Hw as Hb. rewrite Hb, length_app. reflexivity.
Qed.

Lemma writeUInt32LE_growing buf0 pre v :
  0 <= v <= 4294967295 ->
  (length pre + 4 <= length buf0)%nat ->
  writeUInt32LE v (length pre) (pre ++ drop (length pre) buf0)
  = Normal (growing buf0 (pre ++ le_bytes 4 v)).
Proof.
  intros Hv Hfit. unfold writeUInt32LE.
  destruct (Z.leb_spec 0 v); [|lia].
  destruct (Z.leb_spec v 4294967295); [|lia].
  cbn [andb]. by apply writeBytes_growing.
Qed.

Lemma writeUInt16LE_growing buf0 pre v :
  0 <= v <= 65535 ->
  (length pre + 2 <= length buf0)%nat ->
  writeUInt16LE v (length pre) (pre ++ drop (length pre) buf0)
  = Normal (growing buf0 (pre ++ le_bytes 2 v)).
Proof.
  intros Hv Hfit. unfold writeUInt16LE.
  destruct (Z.leb_spec 0 v); [|lia].
  destruct (Z.leb_spec v 65535); [|lia].
  cbn [andb]. by apply writeBytes_growing.
Qed.

Lemma writeInt16LE_growing buf0 pre v :
  int16 v ->
  (length pre + 2 <= length buf0)%nat ->
  writeInt16LE v (length pre) (pre ++ drop (length pre) buf0)
  = Normal (growing buf0 (pre ++ le_bytes 2 v)).
Proof.
  unfold int16. intros Hv Hfit. unfold writeInt16LE.
  destruct (Z.leb_spec (-32768) v); [|lia].
  destruct (Z.leb_spec v 32767); [|lia].
  cbn [andb]. by apply writeBytes_growing.
Qed.

Lemma length_sampleBytes l : length (sampleBytes l) = (2 * length l)%nat.
Proof.
  unfold sampleBytes. induction l as [|s l IH]; [reflexivity|].
  cbn [map concat]. rewrite length_app, IH. cbn. lia.
Qed.

Lemma writeSamples_growing buf0 l : forall pre,
  Forall int16 l ->
  (length pre + 2 * length l <= length buf0)%nat ->
  writeSamples l (length pre) (pre ++ drop (length pre) buf0)
  = Normal (growing buf0 (pre ++ sampleBytes l)).
Proof.
  induction l as [|s l IH]; intros pre Hl Hfit.
  - cbn. unfold growing. by rewrite app_nil_r.
  - apply Forall_cons in Hl as [Hs Hl]. cbn [writeSamples].
    rewrite writeInt16LE_growing by (cbn in Hfit; first [done | lia]).
    cbn [mbind completion_bind growing].
    rewrite IH; [|done|rewrite length_app; cbn in *; lia].
    unfold sampleBytes. cbn [map concat]. by rewrite <- app_assoc.
Qed.

Lemma readSamples_sampleBytes l :
  Forall int16 l -> readSamples (sampleBytes l) = Some l.
Proof.
  induction 1 as [|s l Hs Hl IH]; [reflexivity|].
  unfold sampleBytes in *. cbn [map concat le_bytes seq app].
  cbn [readSamples]. rewrite IH. cbn. by rewrite read_write_int16.
Qed.

Lemma bind_not_null {A B} (m : completion A) (f : A -> completion (option B)) :
  (forall a, f a <> Normal None) -> m ≫= f <> Normal None.
Proof. intros Hf. destruct m; cbn; [apply Hf | discriminate]. Qed.

Lemma toWAVBuffer_null_iff uninit p :
  toWAVBuffer uninit p = Normal None <-> samples p = [].
Proof.
  unfold toWAVBuffer. destruct (samples p) as [|s l]; [done|].
  cbn [length Nat.eqb]. split; [|discriminate]. intros H. exfalso. revert H.
  repeat (apply bind_not_null; intros ?; try case_match).
  discriminate.
Qed.

Lemma toWAVBuffer_encodes uninit p :
  sampleRate (config p) = 8000 ->
  bitsPerSample (config p) = 16 ->
  channels (config p) = 1 ->
  samples p <> [] ->
  Forall int16 (samples p) ->
  Z.of_nat (length (samples p)) * 2 + 36 <= 4294967295 ->
  toWAVBuffer uninit p
  = Normal (Some (header 8000 (length (samples p)) ++ sampleBytes (samples p))).
Proof.
  intros Hr Hb Hc Hne Hs Hn. unfold toWAVBuffer. rewrite Hr, Hb, Hc.
  destruct (Nat.eqb_spec (length (samples p)) 0) as [E|_];
    [by destruct (samples p)|].
  change (16 / 8) with 2.
  set (n := length (samples p)) in *.
  unfold allocUnsafe. destruct (Z.ltb_spec (44 + Z.of_nat n * 2) 0); [lia|].
  set (buf0 := map uninit (seq 0 (Z.to_nat (44 + Z.of_nat n * 2)))).
  assert (Hlen : length buf0 = (44 + 2 * n)%nat)
    by (unfold buf0; rewrite length_map, length_seq; lia).
  cbn [mbind completion_bind].
  change buf0 with ([] ++ drop (length (@nil Z)) buf0) at 1.
  change 0%nat with (length (@nil Z)) at 1.
  rewrite write_growing by (cbn; lia). cbn [mbind completion_bind growing].
  rewrite writeUInt32LE_growing by (rewrite ?length_app; cbn; lia).
  cbn [mbind completion_bind growing].
  rewrite write_growing by (rewrite ?length_app; cbn; lia).
  cbn [mbind completion_bind growing].
  rewrite write_growing by (rewrite ?length_app; cbn; lia).
  cbn [mbind completion_bind growing].
  rewrite writeUInt32LE_growing by (rewrite ?length_app; cbn; lia).
  cbn [mbind completion_bind growing].
  rewrite writeUInt16LE_growing by (rewrite ?length_app; cbn; lia).
  cbn [mbind completion_bind growing].
  rewrite writeUInt16LE_growing by (rewrite ?length_app; cbn; lia).
  cbn [mbind completion_bind growing].
  rewrite writeUInt32LE_growing by (rewrite ?length_app; cbn; lia).
  cbn [mbind completion_bind growing].
  rewrite writeUInt32LE_growing by (rewrite ?length_app; cbn; lia).
  cbn [mbind completion_bind growing].
  rewrite writeUInt16LE_growing by (rewrite ?length_app; cbn; lia).
  cbn [mbind completion_bind growing].
  rewrite writeUInt16LE_growing by (rewrite ?length_app; cbn; lia).
  cbn [mbind completion_bind growing].
  rewrite write_growing by (rewrite ?length_app; cbn; lia).
  cbn [mbind completion_bind growing].
  rewrite writeUInt32LE_growing by (rewrite ?length_app; cbn; lia).
  cbn [mbind completion_bind growing].
  rewrite writeSamples_growing; [|done|rewrite ?length_app; cbn; fold n; lia].
  cbn [mbind completion_bind growing].
  rewrite drop_ge
    by (rewrite !length_app, length_sampleBytes; cbn; fold n; lia).
  rewrite app_nil_r. unfold header. rewrite <- !app_assoc. reflexivity.
Qed.

Lemma decodeWAV_encoded l :
  Forall int16 l ->
  Z.of_nat (length l) * 2 + 36 <= 4294967295 ->
  decodeWAV (header 8000 (length l) ++ sampleBytes l)
  = Some {| audioFormat := 1; numChannels := 1; wavSampleRate := 8000;
            byteRate := 16000; blockAlign := 2; wavBitsPerSample := 16;
            wavSamples := l |}.
Proof.
  intros Hl Hn. unfold decodeWAV.
  assert (Hlen : length (header 8000 (length l) ++ sampleBytes l)
                 = (44 + 2 * length l)%nat)
    by (rewrite length_app, length_sampleBytes; reflexivity).
  rewrite Hlen.
  unfold header, tag, readUInt32LE, readUInt16LE.
  cbn [ascii_bytes list_ascii_of_string map nat_of_ascii le_bytes seq app drop take].
  rewrite !bool_decide_eq_true_2 by reflexivity. cbn [andb].
  rewrite !read_write_uint32, !read_write_uint16 by lia.
  cbn [mbind option_bind].
  destruct (Z.eqb_spec (44 + Z.of_nat (length l) * 2 - 8)
                       (Z.of_nat (44 + 2 * length l) - 8)); [|lia].
  destruct (Z.eqb_spec (Z.of_nat (length l) * 2)
                       (Z.of_nat (44 + 2 * length l) - 44)); [|lia].
  cbn [andb Z.eqb Pos.eqb]. rewrite drop_0, readSamples_sampleBytes by done.
  reflexivity.
Qed.

(** C6. [toWAVBuffer] returns [null] exactly when the buffer is empty.  For
    a non-empty buffer of [N] int16 samples under the 8000 Hz / 16-bit /
    mono configuration ([N] within the 32-bit size fields of the container)
    it returns [44 + 2 N] bytes; decoding them yields a header describing
    PCM (format 1), one channel, 16 bits, 8000 Hz, and the very same
    samples. *)
Theorem toWAVBuffer_roundtrip (uninit : nat -> Z) (p : AudioProcessor.t) :
  sampleRate (config p) = 8000 ->
  bitsPerSample (config p) = 16 ->
  channels (config p) = 1 ->
  (toWAVBuffer uninit p = Normal None <-> samples p = [])
  /\ (samples p <> [] ->
      Forall int16 (samples p) ->
      Z.of_nat (length (samples p)) * 2 + 36 <= 4294967295 ->
      exists buf,
        toWAVBuffer uninit p = Normal (Some buf)
        /\ length buf = (44 + length (samples p) * 2)%nat
        /\ decodeWAV buf
           = Some {| audioFormat := 1; numChannels := 1; wavSampleRate := 8000;
                     byteRate := 16000; blockAlign := 2; wavBitsPerSample := 16;
                     wavSamples := samples p |}).
Proof.
  intros Hr Hb Hc. split; [apply toWAVBuffer_null_iff|].
  intros Hne Hs Hn.
  exists (header 8000 (length (samples p)) ++ sampleBytes (samples p)).
  split; [by apply toWAVBuffer_encodes|].
  split; [|by apply decodeWAV_encoded].
  rewrite length_app, length_sampleBytes. cbn. lia.
Qed.

(** A three-sample buffer at the streaming configuration. *)
Lemma toWAVBuffer_roundtrip_witness :
  let p := addSamples 5 [1; -2; 300]
             (new "A" (mkOptions None None None None None None None) 0) in
  (toWAVBuffer (fun _ => 7) p = Normal None <-> samples p = [])
  /\ exists buf,
       toWAVBuffer (fun _ => 7) p = Normal (Some buf)
       /\ length buf = 50%nat
       /\ decodeWAV buf
          = Some {| audioFormat := 1; numChannels := 1; wavSampleRate := 8000;
                    byteRate := 16000; blockAlign := 2; wavBitsPerSample := 16;
                    wavSamples := [1; -2; 300] |}.
Proof.
  intros p.
  destruct (toWAVBuffer_roundtrip (fun _ => 7) p eq_refl eq_refl eq_refl)
    as [Hnull Hbuf].
  split; [exact Hnull|].
  apply Hbuf.
  - discriminate.
  - repeat constructor; unfold int16; lia.
  - cbn. lia.
Defined.

End WavEncoding.

(** ** Outbound audio shaping *)

Section DCOffset.
Import JS StreamServer Spec.

Lemma Qfloor_unique (x : Q) (z : Z) :
  (inject_Z z <= x)%Q -> (x < inject_Z (z + 1))%Q -> Qfloor x = z.
Proof.
  intros Hlo Hhi.
  pose proof (Qfloor_le x) as H1. pose proof (Qlt_floor x) as H2.
  assert (Hlt1 : (inject_Z (Qfloor x) < inject_Z (z + 1))%Q) by lra.
  assert (Hlt2 : (inject_Z z < inject_Z (Qfloor x + 1))%Q) by lra.
  rewrite <- Zlt_Qlt in Hlt1, Hlt2. lia.
Qed.

Lemma Math_round_bounds (x : Q) :
  (inject_Z (Math_round x) <= x + (1 # 2))%Q
  /\ (x + (1 # 2) < inject_Z (Math_round x) + 1)%Q.
Proof.
  unfold Math_round. split; [apply Qfloor_le|].
  pose proof (Qlt_floor (x + (1 # 2))) as H.
  rewrite inject_Z_plus in H. exact H.
Qed.

(** Rounding commutes with an integer shift. *)
Lemma Math_round_shift (s : Z) (q : Q) :
  Math_round (inject_Z s + q) = s + Math_round q.
Proof.
  destruct (Math_round_bounds q) as [Hlo Hhi].
  unfold Math_round at 1. apply Qfloor_unique.
  - rewrite inject_Z_plus. fold (Math_round q). lra.
  - rewrite !inject_Z_plus. fold (Math_round q). change (inject_Z 1) with 1%Q. lra.
Qed.

Lemma sum_acc (l : list Z) (a : Z) :
  fold_left (fun acc s => acc + s) l a = a + sum l.
Proof.
  unfold sum. revert a. induction l as [|x l IH]; intros a; cbn [fold_left]; [lia|].
  rewrite (IH (a + x)), (IH (0 + x)). lia.
Qed.

Lemma sum_cons (x : Z) (l : list Z) : sum (x :: l) = x + sum l.
Proof. unfold sum at 1. cbn [fold_left]. rewrite sum_acc. lia. Qed.

Lemma sum_map_shift (c : Z) (l : list Z) :
  sum (map (fun s => s + c) l) = sum l + Z.of_nat (length l) * c.
Proof.
  induction l as [|x l IH]; [reflexivity|].
  cbn [map length]. rewrite !sum_cons, IH. lia.
Qed.

(** Every output sample is the input sample shifted by one and the same
    integer, the rounded negated mean. *)
Lemma _removeDCOffset_shift (samples : list Z) :
  _removeDCOffset samples
  = map (fun s => s + Math_round (- mean samples)) samples.
Proof.
  unfold _removeDCOffset. destruct samples as [|x l]; [reflexivity|].
  apply map_ext. intros s. apply Math_round_shift.
Qed.

Lemma foldr_add_acc (l : list Z) (a : Z) :
  fold_left (fun acc s => acc + s) l a = a + foldr Z.add 0 l.
Proof.
  revert a. induction l as [|x l IH]; intros a; cbn [fold_left foldr]; [lia|].
  rewrite IH. lia.
Qed.

(** The mean the code computes is the arithmetic mean. *)
Lemma mean_arithmeticMean (samples : list Z) : mean samples = arithmeticMean samples.
Proof.
  unfold mean, arithmeticMean, sum. rewrite foldr_add_acc.
  by rewrite Z.add_0_l.
Qed.

End DCOffset.

Section Crossfade.
Import JS StreamServer Spec.

(** Writing [f i] at every index below [n] of an array that long. *)
Lemma fold_insert_lookup (f : nat -> Z) (n : nat) (l : list Z) :
  (n <= length l)%nat ->
  let r := fold_left (fun result i => <[i := f i]> result) (seq 0 n) l in
  length r = length l
  /\ forall i, r !! i = if (i <? n)%nat then Some (f i) else l !! i.
Proof.
  induction n as [|n IH]; intros Hn; cbn zeta.
  - split; [reflexivity|]. intros i. reflexivity.
  - rewrite seq_S, fold_left_app. cbn [fold_left Nat.add].
    destruct IH as [Hlen Hget]; [lia|].
    split; [by rewrite length_insert|].
    intros i. destruct (decide (i = n)) as [->|Hin].
    + rewrite list_lookup_insert_eq by (rewrite Hlen; lia).
      destruct (Nat.ltb_spec n (S n)); [done|lia].
    + rewrite list_lookup_insert_ne by done. rewrite Hget.
      destruct (Nat.ltb_spec i n), (Nat.ltb_spec i (S n)); first [done|lia].
Qed.

End Crossfade.

Section Packetization.
Import JS StreamServer Spec.

Lemma removeDCOffset_length (samples : list Z) :
  length (_removeDCOffset samples) = length samples.
Proof. unfold _removeDCOffset. destruct samples; [done|]. by rewrite length_map. Qed.

Lemma applyCrossfade_length (ucid : string) (samples : list Z) (st : StreamServer.t) :
  length (fst (_applyCrossfade ucid samples st)) = length samples.
Proof.
  unfold _applyCrossfade. destruct samples as [|x rest]; [done|].
  destruct (_ =? 0); [done|]. cbn [fst].
  by apply (fold_insert_lookup _ _ (x :: rest)); lia.
Qed.

(** The crossfade only ever creates the map of last samples. *)
Lemma applyCrossfade_state (ucid : string) (samples : list Z) (st : StreamServer.t) :
  samples <> [] ->
  snd (_applyCrossfade ucid samples st)
  = {| sockets := sockets st; ucidToConnection := ucidToConnection st;
       _lastSamples := Some (default ∅ (_lastSamples st)) |}.
Proof.
  unfold _applyCrossfade. destruct samples as [|x rest]; [done|]. intros _.
  by destruct (_ =? 0).
Qed.

Lemma fold_push (f : nat -> Z) (n : nat) (l : list Z) :
  fold_left (fun result i => result ++ [f i]) (seq 0 n) l = l ++ map f (seq 0 n).
Proof.
  induction n as [|n IH]; [by rewrite app_nil_r|].
  rewrite seq_S, fold_left_app, map_app, IH. cbn. by rewrite app_assoc.
Qed.

Lemma applyFadeoutPadding_short (chunk : list Z) :
  (length chunk < 400)%nat ->
  _applyFadeoutPadding chunk 400
  = chunk ++ fadePad (default 0 (last chunk)) (400 - length chunk).
Proof.
  intros Hlen. unfold _applyFadeoutPadding.
  destruct (Nat.leb_spec 400 (length chunk)); [lia|].
  rewrite fold_push. reflexivity.
Qed.

Lemma length_fadePad v n : length (fadePad v n) = n.
Proof. unfold fadePad. by rewrite length_map, length_seq. Qed.

Lemma length_realSamples shaped k :
  length (realSamples shaped k) = Nat.min 400 (length shaped - 400 * k).
Proof. unfold realSamples. by rewrite length_take, length_drop. Qed.

Lemma length_packetSamples shaped k : length (packetSamples shaped k) = 400%nat.
Proof.
  unfold packetSamples. rewrite length_app, length_fadePad, length_realSamples. lia.
Qed.

Lemma ceilDiv_spec (n k : nat) : (k < ceilDiv n 400 <-> 400 * k < n)%nat.
Proof.
  unfold ceilDiv.
  pose proof (Nat.div_mod_eq (n + 400 - 1) 400).
  pose proof (Nat.mod_upper_bound (n + 400 - 1) 400 ltac:(lia)).
  lia.
Qed.

(** The last real sample of a short final chunk is the last sample of the
    whole shaped array. *)
Lemma last_realSamples shaped k :
  (400 * k < length shaped)%nat ->
  (length shaped - 400 * k < 400)%nat ->
  last (realSamples shaped k) = last shaped.
Proof.
  intros Hk Hshort. unfold realSamples.
  rewrite take_ge by (rewrite length_drop; lia).
  rewrite !last_lookup, lookup_drop, length_drop. f_equal. lia.
Qed.

(** The chunk the loop sends in the iteration that starts at [400 * k]. *)
Lemma loop_chunk shaped k :
  (400 * k < length shaped)%nat ->
  let chunk := slice (400 * k) (400 * k + PACKET_SIZE) shaped in
  (if (length chunk <? PACKET_SIZE)%nat
   then _applyFadeoutPadding chunk PACKET_SIZE else chunk)
  = packetSamples shaped k.
Proof.
  intros Hk. cbn zeta. unfold slice, PACKET_SIZE.
  replace (400 * k + 400 - 400 * k)%nat with 400%nat by lia.
  fold (realSamples shaped k). unfold packetSamples.
  pose proof (length_realSamples shaped k) as Hlen.
  destruct (Nat.ltb_spec (length (realSamples shaped k)) 400) as [Hshort|Hfull].
  - rewrite applyFadeoutPadding_short by done.
    rewrite last_realSamples by lia. reflexivity.
  - replace (400 - length (realSamples shaped k))%nat with 0%nat by lia.
    cbn. by rewrite app_nil_r.
Qed.

(** The socket after the [k]-th and later packets have been sent. *)
Lemma sendLoop_spec ucid shaped : forall fuel k ws count,
  (ceilDiv (length shaped) 400 - k <= fuel)%nat ->
  sendLoop fuel ucid shaped (400 * k) ws count
  = Some ({| readyState := readyState ws;
             sent := sent ws
                     ++ map (fun j => mediaPacket ucid (packetSamples shaped j))
                            (seq k (ceilDiv (length shaped) 400 - k)) |},
          count + Z.of_nat (ceilDiv (length shaped) 400 - k)).
Proof.
  induction fuel as [|fuel IH]; intros k ws count Hfuel.
  - assert (Hk : ~ (k < ceilDiv (length shaped) 400)%nat) by lia.
    rewrite ceilDiv_spec in Hk. cbn [sendLoop].
    destruct (Nat.ltb_spec (400 * k) (length shaped)); [lia|].
    replace (ceilDiv (length shaped) 400 - k)%nat with 0%nat by lia.
    cbn. rewrite app_nil_r, Z.add_0_r. by destruct ws.
  - cbn [sendLoop].
    destruct (Nat.ltb_spec (400 * k) (length shaped)) as [Hk|Hk].
    + rewrite loop_chunk by done. rewrite length_packetSamples.
      change (400 =? PACKET_SIZE)%nat with true. cbn iota.
      replace (400 * k + PACKET_SIZE)%nat with (400 * S k)%nat
        by (unfold PACKET_SIZE; lia).
      apply ceilDiv_spec in Hk.
      rewrite IH by lia. cbn [send readyState sent].
      replace (ceilDiv (length shaped) 400 - k)%nat
        with (S (ceilDiv (length shaped) 400 - S k)) by lia.
      cbn [seq map]. rewrite <- app_assoc. cbn [app].
      do 2 f_equal. lia.
    + assert (Hk' : ~ (k < ceilDiv (length shaped) 400)%nat)
        by (rewrite ceilDiv_spec; lia).
      replace (ceilDiv (length shaped) 400 - k)%nat with 0%nat by lia.
      cbn. rewrite app_nil_r, Z.add_0_r. by destruct ws.
Qed.

Lemma ceilDiv_le (n : nat) : (ceilDiv n 400 <= n)%nat.
Proof.
  destruct (Nat.le_gt_cases (ceilDiv n 400) n) as [|Hgt]; [done|].
  apply ceilDiv_spec in Hgt. lia.
Qed.

(** X3. After a successful send of a non-empty array the server has
    stored the last sample of the shaped output as the crossfade seed of
    that call; the seeds of the other calls and the call-to-connection map
    are as before. *)
Theorem sendAudio_stores_last_sample (ucid : string) (samples : list Z)
  (st : StreamServer.t) (addr : nat) (ws : WebSocket) :
  samples <> [] ->
  connection st ucid = Some (addr, ws) ->
  readyState ws = OPEN ->
  exists st',
    sendAudioToOzonetel ucid samples st = Some (true, st')
    /\ storedLastSample st' ucid
       = last (fst (_applyCrossfade ucid (_removeDCOffset samples) st))
    /\ (forall other, other <> ucid ->
          storedLastSample st' other = storedLastSample st other)
    /\ ucidToConnection st' = ucidToConnection st.
Proof.
  intros Hne Hconn Hopen.
  assert (Hclean : _removeDCOffset samples <> []).
  { intros E. apply (f_equal length) in E.
    rewrite removeDCOffset_length in E. by destruct samples. }
  unfold sendAudioToOzonetel. rewrite Hconn, Hopen.
  change (negb (OPEN =? OPEN)) with false. cbn iota.
  pose proof (applyCrossfade_length ucid (_removeDCOffset samples) st) as Hlen.
  pose proof (applyCrossfade_state ucid (_removeDCOffset samples) st Hclean) as Hst.
  destruct (_applyCrossfade ucid (_removeDCOffset samples) st) as [shaped st1].
  cbn [fst snd] in *. subst st1.
  rewrite removeDCOffset_length in Hlen.
  pose proof (sendLoop_spec ucid shaped (length shaped) 0 ws 0) as Hloop.
  change (400 * 0)%nat with 0%nat in Hloop.
  rewrite Hloop by (pose proof (ceilDiv_le (length shaped)); lia). clear Hloop.
  cbn [mbind option_bind].
  destruct (Nat.ltb_spec 0 (length shaped)) as [Hpos|Hz];
    [|destruct samples; [done|cbn in Hlen; lia]].
  eexists. split; [reflexivity|].
  unfold storedLastSample. cbn [_lastSamples ucidToConnection mbind option_bind].
  split; [|split; [|done]].
  - rewrite lookup_insert_eq. destruct (last shaped) as [x|] eqn:E; [done|].
    apply last_None in E. subst shaped. cbn in Hpos. lia.
  - intros other Hother. rewrite lookup_insert_ne by done.
    destruct (_lastSamples st); cbn; [done|]. by rewrite lookup_empty.
Qed.

Lemma sendAudio_stores_last_sample_witness :
  let ws := {| readyState := OPEN; sent := [] |} in
  let st := {| sockets := {[ 0%nat := ws ]};
               ucidToConnection := {[ "A"%string := 0%nat ]};
               _lastSamples := Some {[ "A"%string := 0; "B"%string := 9 ]} |} in
  exists st',
    sendAudioToOzonetel "A" [1; 2; 6] st = Some (true, st')
    /\ storedLastSample st' "A" = Some 3
    /\ storedLastSample st' "B" = Some 9.
Proof.
  intros ws st.
  destruct (sendAudio_stores_last_sample "A" [1; 2; 6] st 0 ws)
    as (st' & Hsend & Hlast & Hothers & _); [discriminate|reflexivity|reflexivity|].
  exists st'. split; [exact Hsend|]. split.
  - rewrite Hlast. reflexivity.
  - rewrite Hothers by discriminate. reflexivity.
Defined.

(** C8. Without a live connection for [ucid], [sendAudioToOzonetel]
    returns [false] and leaves the server as it was: nothing is sent on
    any socket and the stored last samples are untouched. *)
Theorem sendAudio_no_connection (ucid : string) (samples : list Z)
  (st : StreamServer.t) :
  ~ liveConnection st ucid ->
  sendAudioToOzonetel ucid samples st = Some (false, st).
Proof.
  intros Hno. unfold sendAudioToOzonetel.
  destruct (connection st ucid) as [[addr ws]|] eqn:Hconn; [|reflexivity].
  destruct (Z.eqb_spec (readyState ws) OPEN) as [Hopen|Hclosed]; [|reflexivity].
  exfalso. apply Hno. by exists addr, ws.
Qed.

(** An unknown call id, and a call id whose socket is closing. *)
Lemma sendAudio_no_connection_witness :
  let st := {| sockets := {[ 0%nat := {| readyState := CLOSING; sent := [] |} ]};
               ucidToConnection := {[ "A"%string := 0%nat ]};
               _lastSamples := Some {[ "A"%string := 7 ]} |} in
  sendAudioToOzonetel "B" [1; 2; 3] st = Some (false, st)
  /\ sendAudioToOzonetel "A" [1; 2; 3] st = Some (false, st).
Proof.
  intros st. split; apply sendAudio_no_connection.
  - intros (addr & ws & Hconn & _). vm_compute in Hconn. discriminate.
  - intros (addr & ws & Hconn & Hopen). vm_compute in Hconn.
    injection Hconn as <- <-. discriminate.
Defined.

End Packetization.

(** ** The session orchestrator *)

Section Guard.
Import JS StreamingClient.

Variable uninit : nat -> Z.

(** The result of [run] is a run to completion. *)
Lemma run_Completes {A} (env : Environment) (s : Step A) :
  Completes s (fst (run env s)) (snd (run env s)).
Proof.
  induction s as [r st|st req k IH|st req k IH]; cbn [run].
  - constructor.
  - destruct (transcribe env st req) as [answer st'] eqn:E.
    eapply Completes_Transcription, IH.
  - destruct (executeConversationalFlow env st req) as [answer st'] eqn:E.
    eapply Completes_Flow, IH.
Qed.

(** A [finally] block runs last on every path. *)
Lemma Completes_tryFinally {A} (s : Step A) (fin : StreamingClient.t -> StreamingClient.t) r final :
  Completes (tryFinally s fin) r final ->
  exists final0, Completes s r final0 /\ final = fin final0.
Proof.
  revert r final.
  induction s as [r0 st|st req k IH|st req k IH]; intros r final Hc; cbn in Hc.
  - inversion Hc; subst. eexists. split; [constructor|done].
  - inversion Hc as [|? ? ? answer st' ? ? Hk|]; subst.
    apply IH in Hk as (final0 & Hk & ->).
    eexists. split; [|done]. eapply Completes_Transcription, Hk.
  - inversion Hc as [| |? ? ? answer st' ? ? Hk]; subst.
    apply IH in Hk as (final0 & Hk & ->).
    eexists. split; [|done]. eapply Completes_Flow, Hk.
Qed.

(** A [catch] block that swallows the error leaves no error behind. *)
Lemma Completes_tryCatch_swallow (s : Step unit) r final :
  Completes (tryCatch s (fun _ st => Done (Normal tt) st)) r final ->
  r = Normal tt.
Proof.
  revert r final.
  induction s as [[[]|e] st|st req k IH|st req k IH]; intros r final Hc; cbn in Hc.
  - by inversion Hc.
  - by inversion Hc.
  - inversion Hc as [|? ? ? answer st' ? ? Hk|]; subst. by eapply IH.
  - inversion Hc as [| |? ? ? answer st' ? ? Hk]; subst. by eapply IH.
Qed.

(** What [accumulate] leaves in the two object stores. *)
Lemma getProcessor_accumulate st ucid pa p sa samples rate :
  getProcessor st ucid = Some (pa, p) ->
  getProcessor (accumulate pa sa samples rate st) ucid
  = Some (pa, AudioProcessor.addSamples (now st) samples p).
Proof.
  unfold getProcessor. intros H.
  change (audioProcessors (accumulate pa sa samples rate st))
    with (audioProcessors st).
  change (processorStore (accumulate pa sa samples rate st))
    with (alter (AudioProcessor.addSamples (now st) samples) pa (processorStore st)).
  destruct (audioProcessors st !! ucid) as [a|]; [|done]. cbn in *.
  destruct (processorStore st !! a) as [q|] eqn:E; [|done]. cbn in H.
  injection H as -> ->. by rewrite lookup_alter_eq, E.
Qed.

Lemma getSession_accumulate st ucid pa sa s samples rate :
  getSession st ucid = Some (sa, s) ->
  exists s', getSession (accumulate pa sa samples rate st) ucid = Some (sa, s')
             /\ language s' = language s.
Proof.
  unfold getSession. intros H.
  change (streamingSessions (accumulate pa sa samples rate st))
    with (streamingSessions st).
  destruct (streamingSessions st !! ucid) as [a|]; [|done]. cbn in *.
  destruct (sessionStore st !! a) as [q|] eqn:E; [|done]. cbn in H.
  injection H as -> ->. unfold accumulate. cbn [sessionStore set_sessionStore].
  rewrite lookup_alter_eq.
  change (sessionStore (set_processorStore _ st)) with (sessionStore st).
  rewrite E. cbn. by eexists.
Qed.

(** A pipeline that is entered with an encodable chunk that passes the
    quality gate suspends on a transcription request for that chunk. *)
Lemma processAudioChunk_requests ucid st pa p sa s b wav :
  getProcessor st ucid = Some (pa, p) ->
  getSession st ucid = Some (sa, s) ->
  transcriptionBuffers st !! ucid = Some b ->
  truthy (isTranscribing st !! ucid) = false ->
  AudioProcessor.toWAVBuffer uninit p = Normal (Some wav) ->
  validateAudioChunk p = true ->
  exists k,
    processAudioChunk uninit ucid st
    = AwaitTranscription (set_isTranscribing <[ucid := true]> st)
        {| file := wav; model := "whisper-1";
           r_language := if String.eqb (language s) "auto" then None
                         else Some (language s);
           response_format := "verbose_json";
           prompt := "This is a phone conversation. Please transcribe clearly." |}
        k.
Proof.
  intros Hp Hs Hb Hflag Hwav Hvalid. unfold processAudioChunk.
  rewrite Hp, Hs, Hb, Hflag. unfold transcribeAndRespond.
  rewrite Hwav, Hvalid. cbn [negb]. unfold streamTranscription.
  cbn [tryCatch andThen tryFinally]. by eexists.
Qed.

(** C7. Once the pipeline has been entered for a call (its processor,
    session and transcription buffer exist and the flag was clear), every
    run to completion, whatever the collaborators answer or throw and in
    whatever states the continuations resume, ends normally with the call's
    [isTranscribing] flag false.  While the flag stays as the pipeline left
    it, the next chunk that meets the flush condition and passes the quality
    gate issues a new transcription request.  Runs to completion exist for
    every environment. *)
Theorem transcribing_flag_cleared (ucid : string) (st : StreamingClient.t) :
  is_Some (getProcessor st ucid) ->
  is_Some (getSession st ucid) ->
  is_Some (transcriptionBuffers st !! ucid) ->
  truthy (isTranscribing st !! ucid) = false ->
  (forall r final,
     Completes (processAudioChunk uninit ucid st) r final ->
     r = Normal tt
     /\ isTranscribing final !! ucid = Some false
     /\ forall later message samples pa p sa s wav,
          isTranscribing later !! ucid = isTranscribing final !! ucid ->
          m_ucid message = ucid ->
          m_samples message = Some samples -> samples <> [] ->
          getProcessor later ucid = Some (pa, p) ->
          getSession later ucid = Some (sa, s) ->
          is_Some (transcriptionBuffers later !! ucid) ->
          AudioProcessor.shouldSendToAPI (now later)
            (AudioProcessor.addSamples (now later) samples p) = true ->
          validateAudioChunk (AudioProcessor.addSamples (now later) samples p) = true ->
          AudioProcessor.toWAVBuffer uninit
            (AudioProcessor.addSamples (now later) samples p) = Normal (Some wav) ->
          exists st' k,
            handleAudioChunk uninit message later
            = AwaitTranscription st'
                {| file := wav; model := "whisper-1";
                   r_language := if String.eqb (language s) "auto" then None
                                 else Some (language s);
                   response_format := "verbose_json";
                   prompt := "This is a phone conversation. Please transcribe clearly." |}
                k
            /\ isTranscribing st' !! ucid = Some true)
  /\ (forall env,
        let outcome := run env (processAudioChunk uninit ucid st) in
        fst outcome = Normal tt
        /\ isTranscribing (snd outcome) !! ucid = Some false).
Proof.
  intros [[pa0 p0] Hp0] [[sa0 s0] Hs0] [b0 Hb0] Hflag0.
  assert (Hrun : forall r final,
             Completes (processAudioChunk uninit ucid st) r final ->
             r = Normal tt /\ isTranscribing final !! ucid = Some false).
  { intros r final Hc. unfold processAudioChunk in Hc.
    rewrite Hp0, Hs0, Hb0, Hflag0 in Hc.
    apply Completes_tryFinally in Hc as (final0 & Hc & ->).
    split; [by eapply Completes_tryCatch_swallow|].
    cbn. by rewrite lookup_insert_eq. }
  split; [|intros env; cbn zeta; apply Hrun, run_Completes].
  intros r final Hc. destruct (Hrun r final Hc) as [-> Hfinal].
  split; [done|]. split; [done|].
  intros later message samples pa p sa s wav Hlater Hucid Hsamples Hne Hp Hs [b Hb]
         Hflush Hvalid Hwav.
  rewrite Hfinal in Hlater.
  unfold handleAudioChunk. rewrite Hucid, Hp, Hs, Hsamples.
  destruct samples as [|x samples]; [done|]. cbn zeta.
  set (mid := accumulate pa sa (x :: samples) (default 8000 (m_sampleRate message)) later).
  change (now mid) with (now later). change (isTranscribing mid) with (isTranscribing later).
  rewrite Hflush, Hlater. cbn [truthy default negb andb].
  unfold processAudioChunk. subst mid.
  rewrite (getProcessor_accumulate later ucid pa p sa _ _ Hp).
  destruct (getSession_accumulate later ucid pa sa s (x :: samples)
              (default 8000 (m_sampleRate message)) Hs) as (s' & -> & Hlang).
  change (transcriptionBuffers (accumulate _ _ _ _ later))
    with (transcriptionBuffers later).
  change (isTranscribing (accumulate _ _ _ _ later)) with (isTranscribing later).
  rewrite Hb, Hlater. cbn [truthy default].
  unfold transcribeAndRespond. rewrite Hwav, Hvalid. cbn [negb].
  unfold streamTranscription. cbn [tryCatch andThen tryFinally]. rewrite Hlang.
  eexists _, _. split; [reflexivity|].
  cbn. by rewrite lookup_insert_eq.
Qed.

Lemma trimStart_length (s : JSString.t) :
  (length (JSString.trimStart s) <= length s)%nat.
Proof.
  induction s as [|c s IH]; cbn; [done|].
  destruct (JSString.isWhiteSpace c); cbn; lia.
Qed.

Lemma trim_length (s : JSString.t) :
  (JSString.length (JSString.trim s) <= JSString.length s)%nat.
Proof.
  unfold JSString.length, JSString.trim, JSString.trimEnd.
  rewrite length_rev.
  pose proof (trimStart_length (rev (JSString.trimStart s))) as H1.
  rewrite length_rev in H1.
  pose proof (trimStart_length s). lia.
Qed.

Lemma isValidTranscription_short (text : JSString.t) :
  (JSString.length (JSString.trim text) < 2)%nat ->
  isValidTranscription text = false.
Proof.
  intros Hshort. unfold isValidTranscription.
  destruct (Nat.ltb_spec (JSString.length (JSString.trim text)) 2); [|lia].
  by rewrite orb_true_r.
Qed.

(** C10. A text that is shorter than two characters after trimming is
    rejected by [isValidTranscription]; for instance "4" and "I", which
    match none of the hallucination patterns.  When the transcription
    collaborator answers with such a text, [streamTranscription] finishes
    in the very state it resumed in, and the whole pipeline finishes without
    touching the transcription buffers, the emitted events or the playback
    flags, and without calling the response collaborator. *)
Theorem short_transcription_rejected :
  (forall text,
     (JSString.length (JSString.trim text) < 2)%nat ->
     isValidTranscription text = false)
  /\ (forall one, In one [JSString.lit "4"; JSString.lit "I"] ->
        existsb (fun pattern => JSString.test pattern (JSString.trim one))
                hallucinations = false
        /\ isValidTranscription one = false)
  /\ (forall ucid audioBuffer language st,
        exists req k,
          streamTranscription ucid audioBuffer language st
          = AwaitTranscription st req k
          /\ forall result st',
               (JSString.length (JSString.trim (default [] (text result))) < 2)%nat ->
               k (Normal result) st' = Done (Normal tt) st')
  /\ (forall ucid st st1 req k,
        processAudioChunk uninit ucid st = AwaitTranscription st1 req k ->
        forall result st',
          (JSString.length (JSString.trim (default [] (text result))) < 2)%nat ->
          exists final,
            k (Normal result) st' = Done (Normal tt) final
            /\ transcriptionBuffers final = transcriptionBuffers st'
            /\ emitted final = emitted st'
            /\ isPlayingBack final = isPlayingBack st'
            /\ playbackQueues final = playbackQueues st').
Proof.
  assert (Hinner : forall ucid audioBuffer language st,
            exists req k,
              streamTranscription ucid audioBuffer language st
              = AwaitTranscription st req k
              /\ forall result st',
                   (JSString.length (JSString.trim (default [] (text result))) < 2)%nat ->
                   k (Normal result) st' = Done (Normal tt) st').
  { intros ucid audioBuffer language st. unfold streamTranscription.
    cbn [tryCatch]. eexists _, _. split; [reflexivity|].
    intros result st' Hshort. cbn beta iota.
    rewrite isValidTranscription_short; [done|].
    pose proof (trim_length (JSString.trim (default [] (text result)))). lia. }
  split; [exact isValidTranscription_short|].
  split; [intros one [<-|[<-|[]]]; by vm_compute|].
  split; [exact Hinner|].
  intros ucid st st1 req k Hk result st' Hshort.
  unfold processAudioChunk in Hk.
  destruct (getProcessor st ucid) as [[pa p]|]; [|done].
  destruct (getSession st ucid) as [[sa s]|]; [|done].
  destruct (transcriptionBuffers st !! ucid); [|done].
  destruct (truthy (isTranscribing st !! ucid)); [done|].
  unfold transcribeAndRespond in Hk.
  destruct (AudioProcessor.toWAVBuffer uninit p) as [[wav|]|]; [|done|done].
  destruct (validateAudioChunk p); [|done]. cbn [negb] in Hk.
  destruct (Hinner ucid wav (language s) (set_isTranscribing <[ucid:=true]> st))
    as (req' & k' & Hst & Hk').
  rewrite Hst in Hk. cbn [andThen tryCatch tryFinally] in Hk.
  injection Hk as _ _ <-.
  rewrite (Hk' result st' Hshort). cbn [andThen tryCatch tryFinally].
  eexists. split; [reflexivity|]. by repeat split.
Qed.

(** X2. Ending a stream removes every per-call entry of the call, and
    ending it a second time changes nothing. *)
Theorem handleStreamEnd_idempotent (ucid : string) (st : StreamingClient.t) :
  let ended := handleStreamEnd ucid st in
  handleStreamEnd ucid ended = ended
  /\ streamingSessions ended !! ucid = None
  /\ audioProcessors ended !! ucid = None
  /\ transcriptionBuffers ended !! ucid = None
  /\ playbackQueues ended !! ucid = None
  /\ isTranscribing ended !! ucid = None
  /\ isPlayingBack ended !! ucid = None.
Proof.
  cbn zeta.
  assert (Hclean : forall s,
             let c := cleanupSession ucid s in
             streamingSessions c !! ucid = None
             /\ audioProcessors c !! ucid = None
             /\ transcriptionBuffers c !! ucid = None
             /\ playbackQueues c !! ucid = None
             /\ isTranscribing c !! ucid = None
             /\ isPlayingBack c !! ucid = None).
  { intros s. cbn zeta. unfold cleanupSession.
    destruct (audioProcessors s !! ucid) as [a|] eqn:Ha; cbn;
      rewrite ?lookup_delete_eq; done. }
  assert (Hagain : forall s,
             streamingSessions s !! ucid = None ->
             audioProcessors s !! ucid = None ->
             transcriptionBuffers s !! ucid = None ->
             playbackQueues s !! ucid = None ->
             isTranscribing s !! ucid = None ->
             isPlayingBack s !! ucid = None ->
             handleStreamEnd ucid s = s).
  { intros s H1 H2 H3 H4 H5 H6. unfold handleStreamEnd, getSession, cleanupSession.
    rewrite H1. cbn. rewrite H2.
    rewrite !delete_id by done. by destruct s. }
  assert (Hended : exists s', handleStreamEnd ucid st = cleanupSession ucid s')
    by (unfold handleStreamEnd; by eexists).
  destruct Hended as [s' ->].
  destruct (Hclean s') as (H1 & H2 & H3 & H4 & H5 & H6).
  split; [by apply Hagain|done].
Qed.

End Guard.

Section GuardExamples.
Import JS StreamingClient Scenario.

(** In the example call the silent packet finds one second of loud audio
    in the buffer: the pipeline encodes it and suspends on the
    transcription service. *)
Lemma flushing_requests :
  exists st1 req k,
    processAudioChunk uninit "A" flushing = AwaitTranscription st1 req k.
Proof.
  pose (p := AudioProcessor.addSamples 2000 quiet
               (AudioProcessor.addSamples 0 loud
                  (AudioProcessor.new "A"
                     {| AudioProcessor.opt_minAudioDuration := Some 1000;
                        AudioProcessor.opt_maxAudioDuration := Some 4000;
                        AudioProcessor.opt_silenceThreshold := Some 1000;
                        AudioProcessor.opt_silenceAmplitude := Some 300;
                        AudioProcessor.opt_sampleRate := Some 8000;
                        AudioProcessor.opt_bitsPerSample := None;
                        AudioProcessor.opt_channels := None |} 0))).
  assert (Hp : getProcessor flushing "A" = Some (1%nat, p)) by reflexivity.
  assert (Hs : exists s, getSession flushing "A" = Some (0%nat, s))
    by (vm_compute; eexists; reflexivity).
  assert (Hb : is_Some (transcriptionBuffers flushing !! "A"))
    by (vm_compute; eexists; reflexivity).
  assert (Hflag : truthy (isTranscribing flushing !! "A") = false) by reflexivity.
  destruct Hs as [s Hs]. destruct Hb as [b Hb].
  assert (Hsamples : AudioProcessor.samples p = ([] ++ loud) ++ quiet) by reflexivity.
  assert (Hint : Forall Spec.int16 (AudioProcessor.samples p)).
  { rewrite Hsamples. unfold loud, quiet, Spec.int16.
    repeat apply Forall_app_2; try apply Forall_nil_2;
      apply Forall_forall; intros x Hx%list_elem_of_In%repeat_spec; lia. }
  assert (Hlen : Z.of_nat (length (AudioProcessor.samples p)) = 8400).
  { rewrite Hsamples. unfold loud, quiet.
    rewrite !length_app, !repeat_length. cbn [length]. lia. }
  assert (Hne : AudioProcessor.samples p <> []).
  { intros E%(f_equal length). apply (f_equal Z.of_nat) in E.
    rewrite Hlen in E. cbn in E. lia. }
  assert (Hvalid : validateAudioChunk p = true) by (vm_compute; reflexivity).
  assert (Hwav : AudioProcessor.toWAVBuffer uninit p
                 = Normal (Some (Spec.header 8000 (length (AudioProcessor.samples p))
                                 ++ Spec.sampleBytes (AudioProcessor.samples p)))).
  { apply toWAVBuffer_encodes;
      [reflexivity|reflexivity|reflexivity|exact Hne|exact Hint|].
    rewrite Hlen. lia. }
  destruct (processAudioChunk_requests uninit "A" flushing 1%nat p 0%nat s b _
              Hp Hs Hb Hflag Hwav Hvalid) as [k Hk].
  by eexists _, _, k.
Qed.

(** The pipeline reaches the transcription service, which throws: the
    run still ends normally with the flag clear. *)
Lemma transcribing_flag_cleared_witness :
  awaitsTranscription (processAudioChunk uninit "A" flushing) = true
  /\ fst (run failing (processAudioChunk uninit "A" flushing)) = Normal tt
  /\ isTranscribing (snd (run failing (processAudioChunk uninit "A" flushing))) !! "A"
     = Some false.
Proof.
  destruct (transcribing_flag_cleared uninit "A" flushing) as [_ Henv].
  - vm_compute. eexists. reflexivity.
  - vm_compute. eexists. reflexivity.
  - vm_compute. eexists. reflexivity.
  - reflexivity.
  - split; [|exact (Henv failing)].
    destruct flushing_requests as (st1 & req & k & ->). reflexivity.
Defined.

(** The transcription service answers " I ": nothing is appended to the
    buffer of the call and the pipeline is over. *)
Lemma short_transcription_rejected_witness :
  isValidTranscription (JSString.lit " I ") = false
  /\ exists st1 req k,
       processAudioChunk uninit "A" flushing = AwaitTranscription st1 req k
       /\ exists final,
            k (Normal {| text := Some (JSString.lit " I "); detected := None |})
              (set_now 2300 st1)
            = Done (Normal tt) final
            /\ transcriptionBuffers final = transcriptionBuffers st1.
Proof.
  destruct (short_transcription_rejected uninit) as (Hvalid & _ & _ & Hpipeline).
  split; [apply Hvalid; vm_compute; lia|].
  destruct flushing_requests as (st1 & req & k & Hk).
  exists st1, req, k. split; [exact Hk|].
  destruct (Hpipeline "A"%string flushing st1 req k Hk
              {| text := Some (JSString.lit " I "); detected := None |}
              (set_now 2300 st1))
    as (final & Hfinal & Hbuffers & _); [vm_compute; lia|].
  exists final. split; [exact Hfinal|exact Hbuffers].
Defined.

End GuardExamples.

(** ** The first 16 kHz media packet *)

Section FirstPacket.
Import JS.

(** The stream client of the hearing route drops a first packet at
    16 kHz: nothing is buffered and no packet is counted; the packet only
    marks the first media as received. *)
Lemma handleMediaEvent_ignores_first_16kHz (ucid : string)
  (data : StreamClient.MediaData) (st : StreamClient.t) (call : StreamClient.Call) :
  StreamClient.currentCall st = Some call ->
  StreamClient.c_ucid call = ucid ->
  StreamClient.firstMediaReceived call = false ->
  StreamClient.sampleRate data = Some 16000 ->
  let st' := StreamClient.handleMediaEvent ucid data st in
  StreamClient.audioBuffers st' = StreamClient.audioBuffers st
  /\ StreamClient.transcriptionSessions st' = StreamClient.transcriptionSessions st
  /\ StreamClient.currentCall st'
     = Some {| StreamClient.c_ucid := StreamClient.c_ucid call;
               StreamClient.c_did := StreamClient.c_did call;
               StreamClient.c_startTime := StreamClient.c_startTime call;
               StreamClient.mediaPackets := StreamClient.mediaPackets call;
               StreamClient.firstMediaReceived := true |}.
Proof.
  intros Hcall Hucid Hfirst Hrate. cbn zeta.
  unfold StreamClient.handleMediaEvent. rewrite Hcall, Hucid.
  rewrite String.eqb_refl, Hfirst, Hrate. cbn [negb andb].
  rewrite bool_decide_eq_true_2 by done. by cbn.
Qed.

(** After the first packet, a packet at 8 kHz is counted and buffered. *)
Lemma handleMediaEvent_counts_8kHz (ucid : string)
  (data : StreamClient.MediaData) (st : StreamClient.t) (call : StreamClient.Call)
  (buffer : list StreamClient.Buffered) :
  StreamClient.currentCall st = Some call ->
  StreamClient.c_ucid call = ucid ->
  StreamClient.firstMediaReceived call = true ->
  StreamClient.sampleRate data = Some 8000 ->
  StreamClient.audioBuffers st !! ucid = Some buffer ->
  let st' := StreamClient.handleMediaEvent ucid data st in
  StreamClient.audioBuffers st' !! ucid
  = Some (buffer ++ [{| StreamClient.timestamp := StreamClient.now st;
                        StreamClient.payload := data |}])
  /\ StreamClient.mediaPackets <$> StreamClient.currentCall st'
     = Some (StreamClient.mediaPackets call + 1).
Proof.
  intros Hcall Hucid Hfirst Hrate Hbuffer. cbn zeta.
  unfold StreamClient.handleMediaEvent. rewrite Hcall, Hucid.
  rewrite String.eqb_refl, Hfirst, Hrate. cbn [negb andb].
  rewrite bool_decide_eq_true_2 by done.
  cbn [StreamClient.c_ucid StreamClient.c_did StreamClient.c_startTime
       StreamClient.mediaPackets StreamClient.firstMediaReceived].
  change (StreamClient.audioBuffers (StreamClient.set_currentCall _ _))
    with (StreamClient.audioBuffers st).
  rewrite Hbuffer.
  assert (Hproc : forall packet s,
             StreamClient.audioBuffers
               (StreamClient.processAudioForTranscription ucid packet s)
             = StreamClient.audioBuffers s
             /\ StreamClient.currentCall
                  (StreamClient.processAudioForTranscription ucid packet s)
                = StreamClient.currentCall s).
  { intros packet s. unfold StreamClient.processAudioForTranscription.
    destruct (StreamClient.transcriptionSessions s !! ucid); [|done].
    destruct (default false _); [done|].
    by destruct (rms_lt packet 300). }
  destruct (StreamClient.samples data) as [[|x rest]|];
    repeat match goal with
           | |- context [if ?b then _ else _] => destruct b
           end;
    unfold StreamClient.logEvent;
    cbn [StreamClient.audioBuffers StreamClient.currentCall];
    rewrite ?(proj1 (Hproc _ _)), ?(proj2 (Hproc _ _)); cbn;
    by rewrite lookup_insert_eq.
Qed.

(** C9, on the orchestrator. [handleAudioChunk] has no such check: the
    first packet of call "A", at 16 kHz, is appended to the call's buffer
    and counted in [totalSamples] and in [totalAudioMs]. *)
Lemma handleAudioChunk_buffers_first_16kHz :
  let st := Scenario.started in
  let first := Scenario.media "A" [5; -5; 5] 16000 in
  let st' := Scenario.stateOf (StreamingClient.handleAudioChunk Scenario.uninit first st) in
  AudioProcessor.samples <$> Scenario.processorOf st "A" = Some []
  /\ AudioProcessor.samples <$> Scenario.processorOf st' "A" = Some [5; -5; 5]
  /\ AudioProcessor.totalSamples <$> Scenario.processorOf st' "A" = Some 3
  /\ (StreamingClient.totalAudioMs ∘ snd) <$> StreamingClient.getSession st' "A"
     = Some (add (Finite 0) (mul_pos (div 3 16000) 1000)).
Proof. cbn zeta. repeat split; vm_compute; reflexivity. Qed.

End FirstPacket.

(** ** Mutual exclusion along the event loop *)

Section MutualExclusion.
Import JS StreamingClient EventLoop.

Variable uninit : nat -> Z.

Lemma Untouched_andThen {A B} (s : Step A) (f : A -> Async B) flags :
  Untouched flags s ->
  (forall a st, Untouched (isTranscribing st) (f a st)) ->
  Untouched flags (andThen s f).
Proof.
  intros Hs Hf. revert flags Hs.
  induction s as [[a|e] st|st req k IH|st req k IH]; intros flags Hs; cbn in *.
  - subst flags. apply Hf.
  - done.
  - destruct Hs as [Hst Hk]. split; [done|]. intros a st'. apply IH, Hk.
  - destruct Hs as [Hst Hk]. split; [done|]. intros a st'. apply IH, Hk.
Qed.

Lemma Untouched_tryCatch {A} (s : Step A) (h : Error -> Async A) flags :
  Untouched flags s ->
  (forall e st, Untouched (isTranscribing st) (h e st)) ->
  Untouched flags (tryCatch s h).
Proof.
  intros Hs Hh. revert flags Hs.
  induction s as [[a|e] st|st req k IH|st req k IH]; intros flags Hs; cbn in *.
  - done.
  - subst flags. apply Hh.
  - destruct Hs as [Hst Hk]. split; [done|]. intros a st'. apply IH, Hk.
  - destruct Hs as [Hst Hk]. split; [done|]. intros a st'. apply IH, Hk.
Qed.

Lemma Untouched_tryFinally {A} (s : Step A) (fin : StreamingClient.t -> StreamingClient.t) flags :
  (forall st, isTranscribing (fin st) = isTranscribing st) ->
  Untouched flags s ->
  Untouched flags (tryFinally s fin).
Proof.
  intros Hfin. revert flags.
  induction s as [r st|st req k IH|st req k IH]; intros flags Hs; cbn in *.
  - by rewrite Hfin.
  - destruct Hs as [Hst Hk]. split; [done|]. intros a st'. apply IH, Hk.
  - destruct Hs as [Hst Hk]. split; [done|]. intros a st'. apply IH, Hk.
Qed.

Lemma Resumed_tryFinally {A} (s : Step A) ucid flags :
  Untouched flags s ->
  Resumed ucid flags (tryFinally s (set_isTranscribing <[ucid := false]>)).
Proof.
  revert flags.
  induction s as [r st|st req k IH|st req k IH]; intros flags Hs; cbn in *.
  - intros v Hv. subst flags. by rewrite lookup_insert_ne.
  - destruct Hs as [Hst Hk]. split; [done|]. intros a st'. apply IH, Hk.
  - destruct Hs as [Hst Hk]. split; [done|]. intros a st'. apply IH, Hk.
Qed.

Lemma Started_tryFinally {A} (s : Step A) ucid flags :
  Untouched (<[ucid := true]> flags) s ->
  Started ucid flags (tryFinally s (set_isTranscribing <[ucid := false]>)).
Proof.
  destruct s as [r st|st req k|st req k]; cbn.
  - intros Hs v Hv. rewrite Hs. by rewrite !lookup_insert_ne.
  - intros [Hst Hk]. split; [done|]. intros a st'. apply Resumed_tryFinally, Hk.
  - intros [Hst Hk]. split; [done|]. intros a st'. apply Resumed_tryFinally, Hk.
Qed.

Lemma Untouched_generateAndPlayResponse ucid userText st :
  Untouched (isTranscribing st) (generateAndPlayResponse ucid userText st).
Proof.
  unfold generateAndPlayResponse.
  destruct (getSession st ucid) as [[sa s]|]; [|done].
  destruct (truthy (isPlayingBack st !! ucid)); [done|].
  apply Untouched_tryFinally; [done|].
  apply Untouched_tryCatch; [|done].
  cbn. split; [done|]. intros [[]|e] st'; done.
Qed.

Lemma Untouched_streamTranscription ucid audioBuffer language st :
  Untouched (isTranscribing st) (streamTranscription ucid audioBuffer language st).
Proof.
  unfold streamTranscription.
  apply Untouched_tryCatch; [|done].
  cbn [Untouched]. split; [done|]. intros [result|e] st'; [|done].
  destruct (negb (isValidTranscription _)); [done|].
  match goal with
  | |- context [if ?b then _ else _] => destruct b
  end.
  - match goal with
    | |- Untouched _ (generateAndPlayResponse ?u ?x ?s) =>
        pose proof (Untouched_generateAndPlayResponse u x s) as H
    end.
    destruct (transcriptionBuffers st' !! ucid); exact H.
  - destruct (transcriptionBuffers st' !! ucid); done.
Qed.

Lemma Untouched_transcribeAndRespond ucid pa p sa s st :
  Untouched (<[ucid := true]> (isTranscribing st))
            (transcribeAndRespond uninit ucid pa p sa s st).
Proof.
  unfold transcribeAndRespond.
  destruct (AudioProcessor.toWAVBuffer uninit p) as [[wav|]|]; [|done|done].
  destruct (negb (validateAudioChunk p)); [done|].
  apply Untouched_andThen; [|done].
  change (<[ucid := true]> (isTranscribing st))
    with (isTranscribing (set_isTranscribing <[ucid := true]> st)).
  apply Untouched_streamTranscription.
Qed.

(** [processAudioChunk] either returns at once without touching a flag,
    or behaves as a started pipeline. *)
Lemma processAudioChunk_started ucid st :
  processAudioChunk uninit ucid st = Done (Normal tt) st
  \/ (truthy (isTranscribing st !! ucid) = false
      /\ Started ucid (isTranscribing st) (processAudioChunk uninit ucid st)).
Proof.
  unfold processAudioChunk.
  destruct (getProcessor st ucid) as [[pa p]|]; [|by left].
  destruct (getSession st ucid) as [[sa s]|]; [|by left].
  destruct (transcriptionBuffers st !! ucid); [|by left].
  destruct (truthy (isTranscribing st !! ucid)); [by left|right].
  split; [done|].
  apply Started_tryFinally, Untouched_tryCatch; [|done].
  apply Untouched_transcribeAndRespond.
Qed.

Lemma handleAudioChunk_started message st :
  (exists st', handleAudioChunk uninit message st = Done (Normal tt) st'
               /\ isTranscribing st' = isTranscribing st)
  \/ (truthy (isTranscribing st !! m_ucid message) = false
      /\ Started (m_ucid message) (isTranscribing st)
                 (handleAudioChunk uninit message st)).
Proof.
  unfold handleAudioChunk.
  destruct (getProcessor st _) as [[pa p]|]; [|left; by eexists].
  destruct (getSession st _) as [[sa s]|]; [|left; by eexists].
  destruct (m_samples message) as [[|x samples]|]; [left; by eexists| |left; by eexists].
  cbn zeta.
  match goal with
  | |- context [if ?b then _ else _] => destruct b
  end; [|left; by eexists].
  destruct (processAudioChunk_started (m_ucid message)
              (accumulate pa sa (x :: samples) (default 8000 (m_sampleRate message)) st))
    as [->|[Hflag Hstarted]].
  - left. by eexists.
  - right. split; [exact Hflag|exact Hstarted].
Qed.

Lemma inFlight_app ucid waiting p :
  inFlight ucid (waiting ++ [p])
  = (inFlight ucid waiting + if String.eqb (owner p) ucid then 1 else 0)%nat.
Proof.
  unfold inFlight. rewrite List.filter_app, length_app. cbn.
  by destruct (String.eqb (owner p) ucid).
Qed.

Lemma inFlight_delete ucid waiting i p :
  waiting !! i = Some p ->
  inFlight ucid waiting
  = (inFlight ucid (delete i waiting)
     + if String.eqb (owner p) ucid then 1 else 0)%nat.
Proof.
  intros Hp. rewrite <- (take_drop_middle waiting i p Hp) at 1.
  rewrite delete_take_drop. unfold inFlight.
  rewrite !List.filter_app, !length_app. cbn.
  destruct (String.eqb (owner p) ucid); cbn; lia.
Qed.

Lemma transcriptionsInFlight_le ucid waiting :
  (transcriptionsInFlight ucid waiting <= inFlight ucid waiting)%nat.
Proof.
  unfold transcriptionsInFlight, inFlight.
  induction waiting as [|p waiting IH]; cbn; [done|].
  destruct (isTranscription p), (String.eqb (owner p) ucid); cbn; lia.
Qed.

(** Parking a handler of [ucid] that found no pipeline of [ucid] in flight
    keeps the invariant. *)
Lemma park_invariant ucid (s : Step unit) flags waiting :
  Forall WellFormed waiting ->
  inFlight ucid waiting = 0%nat ->
  (forall v, v <> ucid ->
     (inFlight v waiting <= 1)%nat
     /\ (inFlight v waiting = 1%nat -> flags !! v = Some true)) ->
  Started ucid flags s \/ (flags !! ucid = Some true /\ Resumed ucid flags s) ->
  Invariant (park ucid s waiting).
Proof.
  intros Hwf Hzero Hothers Hs.
  assert (Hne : forall v, v <> ucid -> String.eqb ucid v = false)
    by (intros v Hv; by apply String.eqb_neq).
  destruct s as [r st|st req k|st req k]; cbn [park].
  - split; [done|]. cbn [client pending]. intros v.
    destruct (decide (v = ucid)) as [->|Hv]; [rewrite Hzero; split; lia|].
    destruct (Hothers v Hv) as [Hle Hflag]. split; [done|]. intros H1.
    destruct Hs as [Hs|[_ Hs]]; cbn in Hs; rewrite (Hs v Hv); auto.
  - assert (Hk : (forall a st', Resumed ucid (isTranscribing st') (k a st'))
                 /\ isTranscribing st !! ucid = Some true
                 /\ forall v, v <> ucid -> isTranscribing st !! v = flags !! v).
    { destruct Hs as [[Hst Hk]|[Hflag [Hst Hk]]]; (split; [done|]); rewrite Hst.
      - split; [by rewrite lookup_insert_eq|]. intros v Hv. by rewrite lookup_insert_ne.
      - done. }
    destruct Hk as (Hk & Hflag & Hframe).
    split; [apply Forall_app; split; [done|by repeat constructor]|].
    cbn [client pending]. intros v. rewrite inFlight_app. cbn [owner].
    destruct (decide (v = ucid)) as [->|Hv].
    + rewrite String.eqb_refl, Hzero. split; [lia|done].
    + rewrite (Hne v Hv), Nat.add_0_r, (Hframe v Hv). by apply Hothers.
  - assert (Hk : (forall a st', Resumed ucid (isTranscribing st') (k a st'))
                 /\ isTranscribing st !! ucid = Some true
                 /\ forall v, v <> ucid -> isTranscribing st !! v = flags !! v).
    { destruct Hs as [[Hst Hk]|[Hflag [Hst Hk]]]; (split; [done|]); rewrite Hst.
      - split; [by rewrite lookup_insert_eq|]. intros v Hv. by rewrite lookup_insert_ne.
      - done. }
    destruct Hk as (Hk & Hflag & Hframe).
    split; [apply Forall_app; split; [done|by repeat constructor]|].
    cbn [client pending]. intros v. rewrite inFlight_app. cbn [owner].
    destruct (decide (v = ucid)) as [->|Hv].
    + rewrite String.eqb_refl, Hzero. split; [lia|done].
    + rewrite (Hne v Hv), Nat.add_0_r, (Hframe v Hv). by apply Hothers.
Qed.

(** Settling the [i]-th promise keeps the invariant. *)
Lemma settle_invariant {B} (l : EventLoop.t) i ucid
  (k : completion B -> StreamingClient.t -> Step unit) (p : Pending) answer :
  Invariant l ->
  pending l !! i = Some p ->
  owner p = ucid ->
  (WellFormed p -> forall a st, Resumed ucid (isTranscribing st) (k a st)) ->
  Invariant (park ucid (k answer (client l)) (delete i (pending l))).
Proof.
  intros [Hwf Hcount] Hp Howner Hk.
  assert (Hp' : WellFormed p)
    by (eapply Forall_lookup_1; [exact Hwf|exact Hp]).
  pose proof (inFlight_delete ucid _ _ _ Hp) as Hu.
  rewrite Howner, String.eqb_refl in Hu.
  destruct (Hcount ucid) as [Hle Hflag].
  apply park_invariant with (flags := isTranscribing (client l)).
  - rewrite delete_take_drop. apply Forall_app. split.
    + by apply Forall_take.
    + by apply Forall_drop.
  - lia.
  - intros v Hv. pose proof (inFlight_delete v _ _ _ Hp) as Hd.
    rewrite Howner in Hd.
    replace (String.eqb ucid v) with false in Hd
      by (symmetry; by apply String.eqb_neq).
    rewrite Nat.add_0_r in Hd. rewrite <- Hd. apply Hcount.
  - right. split; [apply Hflag; lia|]. by apply Hk.
Qed.

Lemma step_invariant (l : EventLoop.t) (e : Event) :
  Invariant l -> Invariant (step uninit l e).
Proof.
  intros Hinv. destruct e as [message|i answer|i answer|time]; cbn [step].
  - destruct (handleAudioChunk_started message (client l))
      as [(st' & -> & Hflags)|[Hflag Hstarted]].
    + destruct Hinv as [Hwf Hcount]. split; [done|].
      cbn [park client pending]. rewrite Hflags. exact Hcount.
    + destruct Hinv as [Hwf Hcount].
      apply park_invariant with (flags := isTranscribing (client l)); [done| | |by left].
      * destruct (Hcount (m_ucid message)) as [Hle Hset].
        destruct (inFlight (m_ucid message) (pending l)) as [|[|n]]; [done| |lia].
        rewrite Hset in Hflag by done. done.
      * intros v _. apply Hcount.
  - destruct (pending l !! i) as [[ucid k|ucid k]|] eqn:Hp; try done.
    eapply settle_invariant; [done|exact Hp|done|]. intros Hwf. exact Hwf.
  - destruct (pending l !! i) as [[ucid k|ucid k]|] eqn:Hp; try done.
    eapply settle_invariant; [done|exact Hp|done|]. intros Hwf. exact Hwf.
  - exact Hinv.
Qed.

Lemma run_invariant (events : list Event) (l : EventLoop.t) :
  Invariant l -> Invariant (EventLoop.run uninit events l).
Proof.
  unfold EventLoop.run. revert l.
  induction events as [|e events IH]; intros l Hinv; [done|].
  cbn [fold_left]. by apply IH, step_invariant.
Qed.

(** X1. Starting from any client state with no promise pending, after any
    sequence of media messages, settlements and clock ticks, every call has
    at most one pipeline in flight (hence at most one transcription), and
    its [isTranscribing] flag is set while it has one. *)
Theorem at_most_one_transcription_in_flight
  (st0 : StreamingClient.t) (events : list Event) (ucid : string) :
  let l := EventLoop.run uninit events {| client := st0; pending := [] |} in
  (transcriptionsInFlight ucid (pending l) <= 1)%nat
  /\ (inFlight ucid (pending l) <= 1)%nat
  /\ (inFlight ucid (pending l) = 1%nat ->
      isTranscribing (client l) !! ucid = Some true).
Proof.
  cbn zeta.
  destruct (run_invariant events {| client := st0; pending := [] |}) as [_ Hcount].
  { split; [constructor|]. intros v. cbn. split; [lia|discriminate]. }
  destruct (Hcount ucid) as [Hle Hflag].
  pose proof (transcriptionsInFlight_le ucid
                (pending (EventLoop.run uninit events
                            {| client := st0; pending := [] |}))).
  split; [lia|]. by split.
Qed.

End MutualExclusion.
(** ** The processor over its life *)

Section ProcessorLife.
Import JS AudioProcessor Spec ProcessorHistory.

Lemma or_default_nonzero v d : d <> 0 -> or_default v d <> 0.
Proof.
  intros Hd. unfold or_default. destruct v as [x|]; [|done].
  by destruct (Z.eqb_spec x 0).
Qed.

Lemma perform_config p c : config (perform p c) = config p.
Proof. destruct c as [now [|x l]|now]; reflexivity. Qed.

Lemma after_config calls : forall p, config (after calls p) = config p.
Proof.
  induction calls as [|c calls IH]; intros p; [reflexivity|].
  cbn. unfold after in IH. by rewrite IH, perform_config.
Qed.

Lemma sinceReset_snoc calls c :
  sinceReset (calls ++ [c])
  = match c with
    | AddSamples _ packet => sinceReset calls ++ packet
    | Reset _ => []
    end.
Proof. unfold sinceReset. by rewrite fold_left_app. Qed.

Lemma after_snoc calls c p : after (calls ++ [c]) p = perform (after calls p) c.
Proof. unfold after. by rewrite fold_left_app. Qed.

(** X4. Whatever is done with a processor after its construction, with
    packets that [push] accepts, its buffer holds exactly the packets added
    since the last reset, in arrival order, [totalSamples] is the length of
    the buffer, and the sample rate is not zero. *)
Theorem processor_buffer_invariant (ucid : string) (o : Options) (now : Z)
  (calls : list Call) :
  Forall spreadable calls ->
  let p := after calls (new ucid o now) in
  samples p = sinceReset calls
  /\ totalSamples p = Z.of_nat (length (samples p))
  /\ sampleRate (config p) <> 0.
Proof.
  intros _. cbn zeta.
  assert (Hrate : sampleRate (config (after calls (new ucid o now))) <> 0).
  { rewrite after_config. cbn. by apply or_default_nonzero. }
  assert (Hinv : samples (after calls (new ucid o now)) = sinceReset calls
                 /\ totalSamples (after calls (new ucid o now))
                    = Z.of_nat (length (samples (after calls (new ucid o now))))).
  { induction calls as [|c calls IH] using rev_ind; [done|].
    rewrite after_snoc, sinceReset_snoc.
    specialize (IH ltac:(by rewrite after_config; cbn; apply or_default_nonzero)).
    destruct IH as [IHs IHt].
    destruct c as [t [|x l]|t]; cbn [perform addSamples reset samples totalSamples length].
    - by rewrite app_nil_r.
    - rewrite IHs in *. split; [done|]. rewrite IHt, !length_app. cbn [length]. lia.
    - done. }
  destruct Hinv as [Hs Ht]. by repeat split.
Qed.

(** Two samples, a reset, then two packets. *)
Lemma processor_buffer_invariant_witness :
  let p := after [AddSamples 0 [1; 2]; Reset 5; AddSamples 7 [3]; AddSamples 9 [4; 5]]
                 (new "A" (mkOptions None None None None None None None) 0) in
  samples p = [3; 4; 5] /\ totalSamples p = 3.
Proof.
  destruct (processor_buffer_invariant "A"
              (mkOptions None None None None None None None) 0
              [AddSamples 0 [1; 2]; Reset 5; AddSamples 7 [3]; AddSamples 9 [4; 5]])
    as (Hs & Ht & _).
  - repeat constructor; cbn; lia.
  - split; [exact Hs|]. rewrite Ht, Hs. reflexivity.
Defined.

Lemma sumSquares_acc (l : list Z) (a : Z) :
  fold_left (fun acc s => acc + s * s) l a = a + sumSquares l.
Proof.
  unfold sumSquares. revert a.
  induction l as [|x l IH]; intros a; cbn [fold_left]; [lia|].
  rewrite (IH (a + x * x)), (IH (0 + x * x)). lia.
Qed.

Lemma sumSquares_cons (x : Z) (l : list Z) :
  sumSquares (x :: l) = x * x + sumSquares l.
Proof. unfold sumSquares at 1. cbn [fold_left]. by rewrite sumSquares_acc. Qed.

Lemma sumSquares_le (A : Z) (l : list Z) :
  Forall (fun s => Z.abs s <= A) l ->
  sumSquares l <= A * A * Z.of_nat (length l).
Proof.
  induction 1 as [|x l Hx Hl IH]; [cbn; lia|].
  rewrite sumSquares_cons. cbn [length]. nia.
Qed.

Lemma sumSquares_gt (A : Z) (l : list Z) :
  0 <= A -> l <> [] ->
  Forall (fun s => A < Z.abs s) l ->
  A * A * Z.of_nat (length l) < sumSquares l.
Proof.
  intros HA Hne Hl. induction Hl as [|x l Hx Hl IH]; [done|].
  rewrite sumSquares_cons. cbn [length].
  destruct l as [|y l'].
  - change (sumSquares []) with 0. cbn. nia.
  - specialize (IH ltac:(done)). cbn [length] in *. nia.
Qed.

Lemma rms_gt_ratio (l : list Z) (a : Z) :
  l <> [] -> 0 <= a ->
  rms_gt l a = true <-> a * a * Z.of_nat (length l) < sumSquares l.
Proof.
  intros Hne Ha. unfold rms_gt. destruct l as [|x l]; [done|].
  set (n := length (x :: l)).
  assert (Hn : (0 < inject_Z (Z.of_nat n))%Q)
    by (rewrite <- (Zlt_Qlt 0); unfold n; cbn; lia).
  destruct (Z.ltb_spec a 0) as [?|_]; [lia|]. cbn [orb].
  unfold Qltb. rewrite negb_true_iff, <- not_true_iff_false, Qle_bool_iff.
  rewrite Zlt_Qlt, inject_Z_mult.
  split.
  - intros H. apply Qnot_le_lt in H.
    apply (Qmult_lt_r _ _ _ Hn) in H.
    assert (E : (inject_Z (sumSquares (x :: l)) / inject_Z (Z.of_nat n)
                 * inject_Z (Z.of_nat n)
                 == inject_Z (sumSquares (x :: l)))%Q) by (field; lra).
    rewrite E in H. rewrite !inject_Z_mult. exact H.
  - intros H. apply Qlt_not_le. apply Qlt_shift_div_l; [exact Hn|exact H].
Qed.

(** X5. Voice activity is decided by the packet's energy against the
    configured amplitude: a non-empty packet whose every sample is within
    the amplitude is silence, one whose every sample is beyond it is audio.
    A silent packet leaves [lastAudioTime] alone and counts one more silent
    packet; an audible one stamps [lastAudioTime] and clears the count. *)
Theorem detectAudioActivity_threshold (p : AudioProcessor.t) (packet : list Z)
  (now : Z) :
  packet <> [] ->
  0 <= silenceAmplitude (config p) ->
  (Forall (fun s => Z.abs s <= silenceAmplitude (config p)) packet ->
     detectAudioActivity p packet = false
     /\ lastAudioTime (addSamples now packet p) = lastAudioTime p
     /\ consecutiveSilentPackets (addSamples now packet p)
        = consecutiveSilentPackets p + 1)
  /\ (Forall (fun s => silenceAmplitude (config p) < Z.abs s) packet ->
     detectAudioActivity p packet = true
     /\ lastAudioTime (addSamples now packet p) = now
     /\ consecutiveSilentPackets (addSamples now packet p) = 0).
Proof.
  intros Hne HA. split; intros Hall.
  - assert (Hd : detectAudioActivity p packet = false).
    { unfold detectAudioActivity. apply not_true_iff_false.
      rewrite rms_gt_ratio by done.
      pose proof (sumSquares_le _ _ Hall). lia. }
    split; [done|]. destruct packet as [|x l]; [done|].
    cbn [addSamples lastAudioTime consecutiveSilentPackets]. by rewrite Hd.
  - assert (Hd : detectAudioActivity p packet = true).
    { unfold detectAudioActivity. rewrite rms_gt_ratio by done.
      by apply sumSquares_gt. }
    split; [done|]. destruct packet as [|x l]; [done|].
    cbn [addSamples lastAudioTime consecutiveSilentPackets]. by rewrite Hd.
Qed.

Lemma detectAudioActivity_threshold_witness :
  let p := new "A" (mkOptions None None None (Some 300) None None None) 0 in
  (detectAudioActivity p [300; -300; 12] = false
   /\ lastAudioTime (addSamples 40 [300; -300; 12] p) = 0
   /\ consecutiveSilentPackets (addSamples 40 [300; -300; 12] p) = 1)
  /\ (detectAudioActivity p [301; -4000] = true
      /\ lastAudioTime (addSamples 40 [301; -4000] p) = 40
      /\ consecutiveSilentPackets (addSamples 40 [301; -4000] p) = 0).
Proof.
  cbn zeta.
  set (p := new "A" (mkOptions None None None (Some 300) None None None) 0).
  split.
  - apply (detectAudioActivity_threshold p [300; -300; 12] 40); [done|cbn; lia|].
    repeat constructor; cbn; lia.
  - apply (detectAudioActivity_threshold p [301; -4000] 40); [done|cbn; lia|].
    repeat constructor; cbn; lia.
Defined.

(** X6. Right after an audible packet there is no silence to speak of, so
    the buffer is flushed exactly when the maximum duration is reached:
    continuous speech is cut into chunks by the maximum alone. *)
Theorem shouldSendToAPI_after_audio (now : Z) (packet : list Z)
  (p : AudioProcessor.t) :
  0 < silenceThreshold (config p) ->
  detectAudioActivity p packet = true ->
  shouldSendToAPI now (addSamples now packet p)
  = geb (getDurationMs (addSamples now packet p)) (maxAudioDuration (config p)).
Proof.
  intros Hth Hd. destruct packet as [|x l]; [done|].
  unfold shouldSendToAPI, isSilent.
  cbn [addSamples config lastAudioTime]. rewrite Hd.
  destruct (Z.leb_spec (silenceThreshold (config p)) (now - now)); [lia|].
  cbn [andb]. by destruct (geb _ _).
Qed.

Lemma shouldSendToAPI_after_audio_witness :
  let p := new "A" (mkOptions None (Some 1) None None None None None) 0 in
  shouldSendToAPI 7 (addSamples 7 [1000; 1000; 1000; 1000; 1000; 1000; 1000; 1000] p)
  = true.
Proof.
  cbn zeta.
  rewrite (shouldSendToAPI_after_audio 7 _ _); [reflexivity|cbn; lia|reflexivity].
Defined.

(** X7. An empty buffer is never flushed when the minimum and maximum
    durations are positive: after a reset (and on a new processor) the
    policy answers no at every later time, however long the silence. *)
Theorem shouldSendToAPI_empty (now later : Z) (p : AudioProcessor.t) :
  0 < minAudioDuration (config p) ->
  0 < maxAudioDuration (config p) ->
  shouldSendToAPI later (reset now p) = false.
Proof.
  intros Hmin Hmax. unfold shouldSendToAPI, getDurationMs, div.
  cbn [reset config totalSamples].
  assert (Hge : forall m, 0 < m ->
            geb (mul_pos (if sampleRate (config p) =? 0
                          then (if 0 <? 0 then PosInfinity
                                else if 0 <? 0 then NegInfinity else NaN)
                          else Finite (inject_Z 0 / inject_Z (sampleRate (config p))))
                         1000) m = false).
  { intros m Hm. destruct (sampleRate (config p) =? 0); [reflexivity|].
    cbn [mul_pos geb]. apply not_true_iff_false. rewrite Qle_bool_iff.
    intros H.
    assert (E : (inject_Z 0 / inject_Z (sampleRate (config p)) * inject_Z (Z.pos 1000)
                 == 0)%Q).
    { unfold Qdiv. change (inject_Z 0) with 0%Q. ring. }
    rewrite E in H. change 0%Q with (inject_Z 0) in H.
    rewrite <- Zle_Qle in H. lia. }
  rewrite !Hge by done. cbn [andb negb].
  by destruct (isSilent _ _).
Qed.

Lemma shouldSendToAPI_empty_witness :
  shouldSendToAPI 1000000 (reset 5 (new "A" (mkOptions None None None None None None None) 0))
  = false.
Proof. apply shouldSendToAPI_empty; cbn; lia. Defined.

End ProcessorLife.
(** ** What the encoder does with samples it cannot write *)

Section WavRange.
Import JS AudioProcessor Spec ProcessorHistory.

Lemma fits16_int16 s : fits16 s = true <-> int16 s.
Proof. unfold fits16, int16. rewrite andb_true_iff, !Z.leb_le. done. Qed.

Lemma forallb_fits16 l : forallb fits16 l = true <-> Forall int16 l.
Proof.
  rewrite forallb_forall, Forall_forall. split; intros H x Hx.
  - apply fits16_int16, H. by apply list_elem_of_In.
  - apply fits16_int16, H. by apply list_elem_of_In.
Qed.

Lemma writeSamples_throws buf0 l : forall pre,
  forallb fits16 l = false ->
  (length pre + 2 * length l <= length buf0)%nat ->
  writeSamples l (length pre) (pre ++ drop (length pre) buf0) = Throw RangeError.
Proof.
  induction l as [|s l IH]; intros pre Hl Hfit; [done|].
  cbn [forallb] in Hl. cbn [writeSamples].
  destruct (fits16 s) eqn:Hs.
  - apply fits16_int16 in Hs.
    rewrite writeInt16LE_growing by (cbn in Hfit; first [done | lia]).
    cbn [mbind completion_bind growing].
    apply IH; [done|]. rewrite length_app. cbn in *. lia.
  - unfold writeInt16LE. unfold fits16 in Hs. by rewrite Hs.
Qed.

(** The header is written, the samples are next. *)
Lemma toWAVBuffer_header uninit p :
  sampleRate (config p) = 8000 ->
  bitsPerSample (config p) = 16 ->
  channels (config p) = 1 ->
  samples p <> [] ->
  Z.of_nat (length (samples p)) * 2 + 36 <= 4294967295 ->
  let n := length (samples p) in
  let buf0 := map uninit (seq 0 (Z.to_nat (44 + Z.of_nat n * 2))) in
  toWAVBuffer uninit p
  = '(buffer, _) ← writeSamples (samples p) (length (header 8000 n))
                                (header 8000 n ++ drop (length (header 8000 n)) buf0);
    Normal (Some buffer).
Proof.
  intros Hr Hb Hc Hne Hn. cbn zeta. unfold toWAVBuffer. rewrite Hr, Hb, Hc.
  destruct (Nat.eqb_spec (length (samples p)) 0) as [E|_];
    [by destruct (samples p)|].
  change (16 / 8) with 2.
  set (n := length (samples p)) in *.
  unfold allocUnsafe. destruct (Z.ltb_spec (44 + Z.of_nat n * 2) 0); [lia|].
  set (buf0 := map uninit (seq 0 (Z.to_nat (44 + Z.of_nat n * 2)))).
  assert (Hlen : length buf0 = (44 + 2 * n)%nat)
    by (unfold buf0; rewrite length_map, length_seq; lia).
  cbn [mbind completion_bind].
  change buf0 with ([] ++ drop (length (@nil Z)) buf0) at 1.
  change 0%nat with (length (@nil Z)) at 1.
  rewrite write_growing by (cbn; lia). cbn [mbind completion_bind growing].
  rewrite writeUInt32LE_growing by (rewrite ?length_app; cbn; lia).
  cbn [mbind completion_bind growing].
  rewrite write_growing by (rewrite ?length_app; cbn; lia).
  cbn [mbind completion_bind growing].
  rewrite write_growing by (rewrite ?length_app; cbn; lia).
  cbn [mbind completion_bind growing].
  rewrite writeUInt32LE_growing by (rewrite ?length_app; cbn; lia).
  cbn [mbind completion_bind growing].
  rewrite writeUInt16LE_growing by (rewrite ?length_app; cbn; lia).
  cbn [mbind completion_bind growing].
  rewrite writeUInt16LE_growing by (rewrite ?length_app; cbn; lia).
  cbn [mbind completion_bind growing].
  rewrite writeUInt32LE_growing by (rewrite ?length_app; cbn; lia).
  cbn [mbind completion_bind growing].
  rewrite writeUInt32LE_growing by (rewrite ?length_app; cbn; lia).
  cbn [mbind completion_bind growing].
  rewrite writeUInt16LE_growing by (rewrite ?length_app; cbn; lia).
  cbn [mbind completion_bind growing].
  rewrite writeUInt16LE_growing by (rewrite ?length_app; cbn; lia).
  cbn [mbind completion_bind growing].
  rewrite write_growing by (rewrite ?length_app; cbn; lia).
  cbn [mbind completion_bind growing].
  rewrite writeUInt32LE_growing by (rewrite ?length_app; cbn; lia).
  cbn [mbind completion_bind growing].
  unfold header. rewrite <- !app_assoc. reflexivity.
Qed.

(** The size field is the first thing that can fail. *)
Lemma toWAVBuffer_too_long uninit p :
  bitsPerSample (config p) = 16 ->
  4294967295 < Z.of_nat (length (samples p)) * 2 + 36 ->
  toWAVBuffer uninit p = Throw RangeError.
Proof.
  intros Hb Hn. unfold toWAVBuffer. rewrite Hb.
  destruct (Nat.eqb_spec (length (samples p)) 0) as [E|_]; [lia|].
  change (16 / 8) with 2.
  set (n := length (samples p)) in *.
  unfold allocUnsafe. destruct (Z.ltb_spec (44 + Z.of_nat n * 2) 0); [lia|].
  set (buf0 := map uninit (seq 0 (Z.to_nat (44 + Z.of_nat n * 2)))).
  assert (Hlen : length buf0 = (44 + 2 * n)%nat)
    by (unfold buf0; rewrite length_map, length_seq; lia).
  cbn [mbind completion_bind].
  change buf0 with ([] ++ drop (length (@nil Z)) buf0) at 1.
  change 0%nat with (length (@nil Z)) at 1.
  rewrite write_growing by (cbn; lia). cbn [mbind completion_bind growing].
  unfold writeUInt32LE.
  destruct (Z.leb_spec (44 + Z.of_nat n * 2 - 8) 4294967295); [lia|].
  by rewrite andb_false_r.
Qed.

Lemma toWAVBuffer_standard uninit p :
  sampleRate (config p) = 8000 ->
  bitsPerSample (config p) = 16 ->
  channels (config p) = 1 ->
  toWAVBuffer uninit p
  = match samples p with
    | [] => Normal None
    | _ => if encodable (samples p)
           then Normal (Some (header 8000 (length (samples p))
                              ++ sampleBytes (samples p)))
           else Throw RangeError
    end.
Proof.
  intros Hr Hb Hc.
  destruct (samples p) as [|x l] eqn:Hs.
  { by apply toWAVBuffer_null_iff. }
  assert (Hne : samples p <> []) by (by rewrite Hs).
  rewrite <- Hs. unfold encodable.
  destruct (Z.leb_spec (Z.of_nat (length (samples p)) * 2 + 36) 4294967295) as [Hn|Hn].
  - rewrite andb_true_r.
    destruct (forallb fits16 (samples p)) eqn:Hall.
    + apply toWAVBuffer_encodes; try done. by apply forallb_fits16.
    + rewrite toWAVBuffer_header by done.
      rewrite writeSamples_throws; [done|done|].
      rewrite length_map, length_seq. cbn. lia.
  - rewrite andb_false_r. by apply toWAVBuffer_too_long.
Qed.

(** X8. Under the 8000 Hz / 16-bit / mono configuration the encoder
    overwrites every byte it allocated: what [toWAVBuffer] returns, or
    throws, does not depend on what the uninitialised memory of
    [Buffer.allocUnsafe] held. *)
Theorem toWAVBuffer_initialises_every_byte (memory1 memory2 : nat -> Z)
  (p : AudioProcessor.t) :
  sampleRate (config p) = 8000 ->
  bitsPerSample (config p) = 16 ->
  channels (config p) = 1 ->
  toWAVBuffer memory1 p = toWAVBuffer memory2 p.
Proof. intros Hr Hb Hc. by rewrite !toWAVBuffer_standard. Qed.

Lemma toWAVBuffer_initialises_every_byte_witness :
  let p := addSamples 5 [1; -2; 300]
             (new "A" (mkOptions None None None None None None None) 0) in
  toWAVBuffer (fun _ => 7) p = toWAVBuffer (fun i => Z.of_nat i) p.
Proof.
  cbn zeta. apply toWAVBuffer_initialises_every_byte; reflexivity.
Defined.

(** X9. Under the same configuration a non-empty buffer is encoded exactly
    when every sample fits in 16 bits and the sizes fit the 32-bit header
    fields; otherwise the range-checked writers make [toWAVBuffer] throw a
    [RangeError]. *)
Theorem toWAVBuffer_range_errors (uninit : nat -> Z) (p : AudioProcessor.t) :
  sampleRate (config p) = 8000 ->
  bitsPerSample (config p) = 16 ->
  channels (config p) = 1 ->
  samples p <> [] ->
  ((exists buf, toWAVBuffer uninit p = Normal (Some buf))
   <-> Forall int16 (samples p)
       /\ Z.of_nat (length (samples p)) * 2 + 36 <= 4294967295)
  /\ (toWAVBuffer uninit p = Throw RangeError
      <-> ~ (Forall int16 (samples p)
             /\ Z.of_nat (length (samples p)) * 2 + 36 <= 4294967295)).
Proof.
  intros Hr Hb Hc Hne. rewrite toWAVBuffer_standard by done.
  destruct (samples p) as [|x l] eqn:Hs; [done|]. rewrite <- Hs.
  assert (He : encodable (samples p) = true
               <-> Forall int16 (samples p)
                   /\ Z.of_nat (length (samples p)) * 2 + 36 <= 4294967295).
  { unfold encodable. by rewrite andb_true_iff, forallb_fits16, Z.leb_le. }
  destruct (encodable (samples p)).
  - split; [split; [intros _; by apply He | by eexists]|].
    split; [done|]. intros Hn. destruct Hn. by apply He.
  - split.
    + split; [by intros [buf ?]|]. intros H. apply He in H. done.
    + split; [|done]. intros _ H. apply He in H. done.
Qed.

Lemma toWAVBuffer_range_errors_witness :
  let p := addSamples 5 [1; 40000; 3]
             (new "A" (mkOptions None None None None None None None) 0) in
  toWAVBuffer (fun _ => 0) p = Throw RangeError.
Proof.
  cbn zeta.
  set (p := addSamples 5 [1; 40000; 3]
              (new "A" (mkOptions None None None None None None None) 0)).
  apply (toWAVBuffer_range_errors (fun _ => 0) p); [reflexivity..|done|].
  intros [Hall _]. cbn in Hall.
  apply Forall_cons in Hall as [_ Hall]. apply Forall_cons in Hall as [H _].
  unfold int16 in H. lia.
Defined.

End WavRange.
(** ** The shape of the outbound audio *)

Section ShapedAudio.
Import JS StreamServer Spec Shaping.

Lemma Math_round_Qeq (x y : Q) : (x == y)%Q -> Math_round x = Math_round y.
Proof. intros E. unfold Math_round. apply Qfloor_comp. by rewrite E. Qed.

Lemma Math_round_mono (x y : Q) : (x <= y)%Q -> Math_round x <= Math_round y.
Proof. intros H. unfold Math_round. apply Qfloor_resp_le. lra. Qed.

Lemma Math_round_inject (z : Z) : Math_round (inject_Z z) = z.
Proof.
  rewrite (Math_round_Qeq _ (inject_Z z + 0)) by ring.
  rewrite Math_round_shift. change (Math_round 0) with 0. lia.
Qed.

Lemma mean_shift (c : Z) (samples : list Z) :
  samples <> [] ->
  (mean (map (fun s => (s + c)%Z) samples) == mean samples + inject_Z c)%Q.
Proof.
  intros Hne.
  assert (Hn : (0 < inject_Z (Z.of_nat (length samples)))%Q).
  { rewrite <- (Zlt_Qlt 0). destruct samples; [done|cbn; lia]. }
  unfold mean. rewrite length_map, sum_map_shift, inject_Z_plus, inject_Z_mult.
  field. lra.
Qed.

(** X10. Removing the DC offset is a uniform shift: one and the same
    integer, the mean rounded to the nearest integer, is taken off every
    sample, so differences between samples are preserved. *)
Theorem removeDCOffset_uniform_shift (samples : list Z) :
  _removeDCOffset samples = map (fun s => s - dcShift samples) samples
  /\ (samples <> [] ->
      (Qabs (mean samples - inject_Z (dcShift samples)) <= 1 # 2)%Q)
  /\ (forall i j a b a' b',
        samples !! i = Some a -> samples !! j = Some b ->
        _removeDCOffset samples !! i = Some a' ->
        _removeDCOffset samples !! j = Some b' ->
        a' - b' = a - b).
Proof.
  assert (Hshift : _removeDCOffset samples
                   = map (fun s => s - dcShift samples) samples).
  { rewrite _removeDCOffset_shift. apply map_ext. intros s. unfold dcShift. lia. }
  split; [exact Hshift|]. split.
  - intros _. unfold dcShift.
    destruct (Math_round_bounds (- mean samples)) as [Hlo Hhi].
    rewrite inject_Z_opp. apply Qabs_Qle_condition. split; lra.
  - intros i j a b a' b' Ha Hb. rewrite Hshift, !list_lookup_fmap, Ha, Hb.
    cbn. intros [= <-] [= <-]. lia.
Qed.

(** X11. Removing the DC offset twice is the same as removing it once. *)
Theorem removeDCOffset_idempotent (samples : list Z) :
  _removeDCOffset (_removeDCOffset samples) = _removeDCOffset samples.
Proof.
  destruct (decide (samples = [])) as [->|Hne]; [reflexivity|].
  assert (E : Math_round (- mean (_removeDCOffset samples)) = 0).
  { rewrite _removeDCOffset_shift.
    set (c := Math_round (- mean samples)).
    rewrite (Math_round_Qeq _ (inject_Z (- c) + - mean samples)).
    - rewrite Math_round_shift. fold c. lia.
    - rewrite (mean_shift c samples Hne), inject_Z_opp. ring. }
  rewrite (_removeDCOffset_shift (_removeDCOffset samples)), E.
  transitivity (map id (_removeDCOffset samples)); [|apply map_id].
  apply map_ext. intros s. unfold id. lia.
Qed.

Lemma fade_factor (i n : nat) :
  (i < n)%nat ->
  (0 <= inject_Z (Z.of_nat i) / inject_Z (Z.of_nat n)
   /\ inject_Z (Z.of_nat i) / inject_Z (Z.of_nat n) < 1)%Q.
Proof.
  intros Hi.
  assert (Hn : (0 < inject_Z (Z.of_nat n))%Q) by (rewrite <- (Zlt_Qlt 0); lia).
  split.
  - apply Qle_shift_div_l; [done|]. rewrite Qmult_0_l, <- (Zle_Qle 0). lia.
  - apply Qlt_shift_div_r; [done|]. rewrite Qmult_1_l, <- Zlt_Qlt. lia.
Qed.

(** Rounding a point of the segment from [a] to [b] stays within it. *)
Lemma onLine_between (a b : Z) (t : Q) :
  (0 <= t)%Q -> (t <= 1)%Q -> between a b (onLine a b t).
Proof.
  intros H0 H1. unfold between, onLine.
  set (v := (inject_Z a * (1 - t) + inject_Z b * t)%Q).
  destruct (Math_round_bounds v) as [Hlo Hhi].
  assert (Hv : (inject_Z (Z.min a b) <= v /\ v <= inject_Z (Z.max a b))%Q).
  { unfold v. destruct (Z.le_ge_cases a b) as [Hab|Hab].
    - rewrite Z.min_l, Z.max_r by done. rewrite Zle_Qle in Hab. split; nra.
    - rewrite Z.min_r, Z.max_l by done. rewrite Zle_Qle in Hab. split; nra. }
  destruct Hv as [Hmin Hmax].
  assert (H2 : (inject_Z (Z.min a b) < inject_Z (Math_round v + 1))%Q)
    by (rewrite inject_Z_plus; change (inject_Z 1) with 1%Q; lra).
  assert (H3 : (inject_Z (Math_round v) < inject_Z (Z.max a b + 1))%Q)
    by (rewrite inject_Z_plus; change (inject_Z 1) with 1%Q; lra).
  rewrite <- Zlt_Qlt in H2, H3. lia.
Qed.

(** The two faces of the crossfade: a stored non-zero sample becomes the
    first output sample; with zero stored the chunk is returned as it is. *)
Lemma applyCrossfade_continuity_aux (ucid : string) (samples : list Z)
  (st : StreamServer.t) :
  let L := default 0 (storedLastSample st ucid) in
  let out := fst (_applyCrossfade ucid samples st) in
  (L <> 0 -> samples <> [] -> out !! 0%nat = Some L)
  /\ (L = 0 -> out = samples).
Proof.
  cbn zeta.
  assert (HL : default 0 (storedLastSample st ucid)
               = default 0 (default ∅ (_lastSamples st) !! ucid)).
  { unfold storedLastSample. destruct (_lastSamples st); cbn; [done|].
    by rewrite lookup_empty. }
  rewrite HL. unfold _applyCrossfade.
  destruct samples as [|x rest]; [done|].
  set (samples := x :: rest).
  set (L := default 0 (default ∅ (_lastSamples st) !! ucid)).
  destruct (Z.eqb_spec L 0) as [E|E]; cbn [fst]; [by split|].
  split; [intros _ _|done].
  pose proof (fold_insert_lookup (blend L samples (Nat.min 20 (length samples)))
                (Nat.min 20 (length samples)) samples ltac:(lia)) as [_ Hget].
  rewrite Hget. cbn [length Nat.min Nat.ltb Nat.leb].
  unfold blend. cbn [lookup list_lookup default]. f_equal.
  rewrite (Math_round_Qeq _ (inject_Z L)).
  - apply Math_round_inject.
  - change (inject_Z (Z.of_nat 0)) with 0%Q. unfold Qdiv. ring.
Qed.

(** What the crossfade leaves at each index. *)
Lemma applyCrossfade_lookup (ucid : string) (samples : list Z) (st : StreamServer.t)
  (i : nat) :
  let L := default 0 (storedLastSample st ucid) in
  let fadeLength := Nat.min 20 (length samples) in
  fst (_applyCrossfade ucid samples st) !! i
  = if (L =? 0) || negb (i <? fadeLength)%nat then samples !! i
    else Some (blend L samples fadeLength i).
Proof.
  cbn zeta.
  assert (HL : default 0 (storedLastSample st ucid)
               = default 0 (default ∅ (_lastSamples st) !! ucid)).
  { unfold storedLastSample. destruct (_lastSamples st); cbn; [done|].
    by rewrite lookup_empty. }
  rewrite HL. unfold _applyCrossfade.
  destruct samples as [|x rest].
  { change (i <? Nat.min 20 (length (@nil Z)))%nat with false.
    by rewrite orb_true_r. }
  set (samples := x :: rest).
  set (L := default 0 (default ∅ (_lastSamples st) !! ucid)).
  destruct (Z.eqb_spec L 0) as [E|E]; cbn [fst orb]; [done|].
  pose proof (fold_insert_lookup (blend L samples (Nat.min 20 (length samples)))
                (Nat.min 20 (length samples)) samples ltac:(lia)) as [_ Hget].
  rewrite Hget. by destruct (i <? Nat.min 20 (length samples))%nat.
Qed.

(** X12. The crossfade joins the chunks without a step: when a non-zero
    last sample is stored, the first output sample is that very sample, and
    every output sample lies between the stored sample and the input sample
    at its index; 16-bit input therefore stays 16-bit. *)
Theorem applyCrossfade_continuity (ucid : string) (samples : list Z)
  (st : StreamServer.t) :
  let L := default 0 (storedLastSample st ucid) in
  let out := fst (_applyCrossfade ucid samples st) in
  (L <> 0 -> samples <> [] -> out !! 0%nat = Some L)
  /\ (forall i s o, samples !! i = Some s -> out !! i = Some o -> between L s o)
  /\ (int16 L -> Forall int16 samples -> Forall int16 out).
Proof.
  cbn zeta.
  set (L := default 0 (storedLastSample st ucid)).
  set (out := fst (_applyCrossfade ucid samples st)).
  assert (Hbetween : forall i s o,
            samples !! i = Some s -> out !! i = Some o -> between L s o).
  { intros i s o Hs Ho. unfold out in Ho.
    rewrite applyCrossfade_lookup in Ho. fold L in Ho.
    destruct (Z.eqb_spec L 0) as [E|E]; cbn [orb] in Ho.
    - rewrite Hs in Ho. injection Ho as <-. unfold between. lia.
    - destruct (Nat.ltb_spec i (Nat.min 20 (length samples))) as [Hi|Hi];
        cbn [negb] in Ho.
      + injection Ho as <-. unfold blend. rewrite Hs.
        destruct (fade_factor i _ Hi) as [Ht0 Ht1].
        apply (onLine_between L s); [exact Ht0|apply Qlt_le_weak, Ht1].
      + rewrite Hs in Ho. injection Ho as <-. unfold between. lia. }
  split; [|split; [exact Hbetween|]].
  - intros E Hne. by apply (proj1 (applyCrossfade_continuity_aux ucid samples st)).
  - intros HL Hall. apply Forall_lookup. intros i o Ho.
    assert (is_Some (samples !! i)) as [s Hs].
    { apply lookup_lt_is_Some. apply lookup_lt_Some in Ho.
      unfold out in Ho. by rewrite applyCrossfade_length in Ho. }
    pose proof (Hbetween i s o Hs Ho) as Hb.
    pose proof (proj1 (Forall_lookup _ _) Hall i s Hs) as Hs16.
    unfold between, int16 in *. lia.
Qed.

Lemma fadePad_lookup (lastValue : Z) (n i : nat) :
  (i < n)%nat ->
  fadePad lastValue n !! i
  = Some (onLine lastValue 0 (inject_Z (Z.of_nat i) / inject_Z (Z.of_nat n))).
Proof.
  intros Hi. unfold fadePad. rewrite list_lookup_fmap, lookup_seq_lt by done.
  cbn [fmap option_fmap option_map Nat.add]. f_equal.
  unfold onLine. apply Math_round_Qeq. change (inject_Z 0) with 0%Q. ring.
Qed.

End ShapedAudio.
(** ** Successive chunks of one call *)

Section Chunks.
Import JS StreamServer Spec Shaping.

Lemma applyCrossfade_frame (ucid : string) (samples : list Z) (st : StreamServer.t) :
  sockets (snd (_applyCrossfade ucid samples st)) = sockets st
  /\ ucidToConnection (snd (_applyCrossfade ucid samples st)) = ucidToConnection st
  /\ storedLastSample (snd (_applyCrossfade ucid samples st)) ucid
     = storedLastSample st ucid.
Proof.
  unfold _applyCrossfade, storedLastSample. destruct samples as [|x rest]; [done|].
  destruct (_ =? 0); cbn; (repeat split);
    destruct (_lastSamples st); cbn; by rewrite ?lookup_empty.
Qed.

(** One send over a live connection. *)
Lemma sendAudio_live (ucid : string) (samples : list Z) (st : StreamServer.t)
  (addr : nat) (ws : WebSocket) :
  connection st ucid = Some (addr, ws) ->
  readyState ws = OPEN ->
  let shaped := fst (_applyCrossfade ucid (_removeDCOffset samples) st) in
  exists st',
    sendAudioToOzonetel ucid samples st = Some (true, st')
    /\ sockets st'
       = <[addr := {| readyState := OPEN; sent := sent ws ++ packetsOf ucid shaped |}]>
           (sockets st)
    /\ ucidToConnection st' = ucidToConnection st
    /\ storedLastSample st' ucid
       = match samples with
         | [] => storedLastSample st ucid
         | _ => last shaped
         end.
Proof.
  intros Hconn Hopen. cbn zeta.
  unfold sendAudioToOzonetel. rewrite Hconn, Hopen.
  change (negb (OPEN =? OPEN)) with false. cbn iota.
  pose proof (applyCrossfade_length ucid (_removeDCOffset samples) st) as Hlen.
  pose proof (applyCrossfade_frame ucid (_removeDCOffset samples) st)
    as (Hsock & Hmap & Hlast).
  destruct (_applyCrossfade ucid (_removeDCOffset samples) st) as [shaped st1].
  cbn [fst snd] in *.
  rewrite removeDCOffset_length in Hlen.
  pose proof (sendLoop_spec ucid shaped (length shaped) 0 ws 0) as Hloop.
  change (400 * 0)%nat with 0%nat in Hloop.
  rewrite Hloop by (pose proof (ceilDiv_le (length shaped)); lia). clear Hloop.
  cbn [mbind option_bind]. rewrite Nat.sub_0_r, Hopen.
  fold (packetsOf ucid shaped).
  destruct (Nat.ltb_spec 0 (length shaped)) as [Hpos|Hz].
  - eexists. split; [reflexivity|].
    cbn [sockets ucidToConnection]. rewrite Hsock, Hmap.
    split; [done|]. split; [done|].
    destruct samples as [|x rest]; [cbn in Hlen; lia|].
    unfold storedLastSample. cbn [_lastSamples mbind option_bind].
    rewrite lookup_insert_eq. destruct (last shaped) as [y|] eqn:E; [done|].
    apply last_None in E. subst shaped. cbn in Hpos. lia.
  - eexists. split; [reflexivity|].
    cbn [sockets ucidToConnection]. rewrite Hsock, Hmap.
    split; [done|]. split; [done|].
    destruct samples as [|x rest]; [|cbn in Hlen; lia].
    assert (shaped = []) as -> by (destruct shaped; [done|cbn in Hz; lia]).
    cbn [_lastSamples]. exact Hlast.
Qed.

Lemma connection_after (st st' : StreamServer.t) (ucid : string) (addr : nat)
  (ws ws' : WebSocket) :
  connection st ucid = Some (addr, ws) ->
  sockets st' = <[addr := ws']> (sockets st) ->
  ucidToConnection st' = ucidToConnection st ->
  connection st' ucid = Some (addr, ws').
Proof.
  unfold connection. intros Hconn Hsock Hmap. rewrite Hsock, Hmap.
  destruct (ucidToConnection st !! ucid) as [a|]; [|done]. cbn in *.
  destruct (sockets st !! a) as [w|]; [|done]. cbn in Hconn.
  injection Hconn as -> ->. by rewrite lookup_insert_eq.
Qed.

Lemma packetsOf_wellformed (ucid : string) (shaped : list Z) :
  Forall (fun p => p_ucid p = ucid /\ length (p_samples p) = 400%nat
                   /\ p_numberOfFrames p = 400 /\ p_sampleRate p = 8000)
         (packetsOf ucid shaped).
Proof.
  unfold packetsOf. apply Forall_forall. intros p Hp.
  apply list_elem_of_fmap in Hp as (j & -> & _).
  cbn [mediaPacket p_ucid p_samples p_numberOfFrames p_sampleRate].
  by rewrite length_packetSamples.
Qed.

(** X14. Over a live connection any number of sends for the same call all
    succeed, the empty array included: each leaves the connection mapped
    and open, appends [ceil(N/400)] packets of 400 samples to it, and
    touches no other socket. *)
Theorem sendAll_succeeds (ucid : string) (chunks : list (list Z)) :
  forall (st : StreamServer.t) (addr : nat) (ws : WebSocket),
  connection st ucid = Some (addr, ws) ->
  readyState ws = OPEN ->
  exists st' packets,
    sendAll ucid chunks st = Some (repeat true (length chunks), st')
    /\ connection st' ucid
       = Some (addr, {| readyState := OPEN; sent := sent ws ++ packets |})
    /\ length packets
       = foldr (fun samples n => (ceilDiv (length samples) 400 + n)%nat) 0%nat chunks
    /\ Forall (fun p => p_ucid p = ucid /\ length (p_samples p) = 400%nat
                        /\ p_numberOfFrames p = 400 /\ p_sampleRate p = 8000)
              packets
    /\ forall other, other <> addr -> sockets st' !! other = sockets st !! other.
Proof.
  induction chunks as [|samples chunks IH]; intros st addr ws Hconn Hopen.
  - exists st, []. cbn. rewrite app_nil_r, <- Hopen.
    split; [done|]. split; [by destruct ws|]. by repeat split.
  - cbn [sendAll length repeat foldr].
    destruct (sendAudio_live ucid samples st addr ws Hconn Hopen)
      as (st1 & Hsend & Hsock & Hmap & _).
    cbn zeta in Hsock.
    set (shaped := fst (_applyCrossfade ucid (_removeDCOffset samples) st)) in *.
    rewrite Hsend. cbn [mbind option_bind].
    pose proof (connection_after st st1 ucid addr ws _ Hconn Hsock Hmap) as Hconn1.
    destruct (IH st1 addr _ Hconn1 eq_refl) as (st2 & packets & Hall & Hconn2 & Hn & Hwf & Hothers).
    rewrite Hall. cbn [mbind option_bind].
    exists st2, (packetsOf ucid shaped ++ packets).
    split; [done|]. cbn [sent] in Hconn2. rewrite <- app_assoc in Hconn2.
    split; [done|]. split; [|split].
    + rewrite length_app, Hn. unfold packetsOf. rewrite length_map, length_seq.
      unfold shaped. by rewrite applyCrossfade_length, removeDCOffset_length.
    + apply Forall_app_2; [apply packetsOf_wellformed|done].
    + intros other Hother. rewrite (Hothers other Hother), Hsock.
      by rewrite lookup_insert_ne.
Qed.

Lemma sendAll_succeeds_witness :
  let st := {| sockets := {[ 0%nat := {| readyState := OPEN; sent := [] |} ]};
               ucidToConnection := {[ "A"%string := 0%nat ]};
               _lastSamples := None |} in
  exists st' packets,
    sendAll "A" [[5; 7]; []; [9]] st = Some ([true; true; true], st')
    /\ connection st' "A" = Some (0%nat, {| readyState := OPEN; sent := packets |})
    /\ length packets = 2%nat.
Proof.
  cbn zeta.
  destruct (sendAll_succeeds "A" [[5; 7]; []; [9]]
              {| sockets := {[ 0%nat := {| readyState := OPEN; sent := [] |} ]};
                 ucidToConnection := {[ "A"%string := 0%nat ]};
                 _lastSamples := None |} 0%nat
              {| readyState := OPEN; sent := [] |})
    as (st' & packets & Hall & Hconn & Hn & _); [reflexivity|reflexivity|].
  exists st', packets. split; [exact Hall|]. split; [exact Hconn|exact Hn].
Defined.

Lemma applyCrossfade_head (ucid : string) (samples : list Z) (st : StreamServer.t) :
  samples <> [] ->
  fst (_applyCrossfade ucid samples st) !! 0%nat
  = if default 0 (storedLastSample st ucid) =? 0
    then samples !! 0%nat
    else Some (default 0 (storedLastSample st ucid)).
Proof.
  intros Hne.
  destruct (applyCrossfade_continuity_aux ucid samples st) as [Hhead Hsame].
  destruct (Z.eqb_spec (default 0 (storedLastSample st ucid)) 0) as [E|E].
  - by rewrite (Hsame E).
  - by apply Hhead.
Qed.

(** X15. Where one chunk ends the next begins: after a chunk whose last
    shaped sample [L] is not zero, the first sample sent for the next chunk
    of the same call is [L] itself; after a chunk that ended on zero the
    next chunk starts with its own first DC-corrected sample. *)
Theorem sendAudio_chunk_boundary (ucid : string) (chunk next : list Z)
  (st : StreamServer.t) (addr : nat) (ws : WebSocket) :
  chunk <> [] -> next <> [] ->
  connection st ucid = Some (addr, ws) ->
  readyState ws = OPEN ->
  exists st1 st2 L first,
    sendAudioToOzonetel ucid chunk st = Some (true, st1)
    /\ last (fst (_applyCrossfade ucid (_removeDCOffset chunk) st)) = Some L
    /\ sendAudioToOzonetel ucid next st1 = Some (true, st2)
    /\ sentTo st2 ucid !! length (sentTo st1 ucid) = Some first
    /\ p_samples first !! 0%nat
       = if L =? 0 then _removeDCOffset next !! 0%nat else Some L.
Proof.
  intros Hne1 Hne2 Hconn Hopen.
  destruct (sendAudio_live ucid chunk st addr ws Hconn Hopen)
    as (st1 & Hsend1 & Hsock1 & Hmap1 & Hlast1).
  cbn zeta in Hsock1, Hlast1.
  set (shaped1 := fst (_applyCrossfade ucid (_removeDCOffset chunk) st)) in *.
  pose proof (connection_after st st1 ucid addr ws _ Hconn Hsock1 Hmap1) as Hconn1.
  destruct (sendAudio_live ucid next st1 addr _ Hconn1 eq_refl)
    as (st2 & Hsend2 & Hsock2 & Hmap2 & _).
  cbn zeta in Hsock2.
  set (shaped2 := fst (_applyCrossfade ucid (_removeDCOffset next) st1)) in *.
  pose proof (connection_after st1 st2 ucid addr _ _ Hconn1 Hsock2 Hmap2) as Hconn2.
  assert (Hstored : storedLastSample st1 ucid = last shaped1)
    by (destruct chunk; [done|exact Hlast1]).
  assert (Hlen1 : length shaped1 = length chunk)
    by (unfold shaped1; by rewrite applyCrossfade_length, removeDCOffset_length).
  assert (Hlen2 : length shaped2 = length next)
    by (unfold shaped2; by rewrite applyCrossfade_length, removeDCOffset_length).
  destruct (last shaped1) as [L|] eqn:HL;
    [|apply last_None in HL; rewrite HL in Hlen1; by destruct chunk].
  assert (Hclean : _removeDCOffset next <> []).
  { intros E. apply (f_equal length) in E.
    rewrite removeDCOffset_length in E. by destruct next. }
  assert (Hpos : (0 < ceilDiv (length shaped2) 400)%nat).
  { apply ceilDiv_spec. rewrite Hlen2. destruct next; [done|cbn; lia]. }
  exists st1, st2, L, (mediaPacket ucid (packetSamples shaped2 0)).
  split; [done|]. split; [done|]. split; [done|]. split.
  - unfold sentTo. rewrite Hconn1, Hconn2. cbn [sent].
    rewrite lookup_app_r by lia. rewrite Nat.sub_diag.
    unfold packetsOf.
    destruct (ceilDiv (length shaped2) 400) as [|k]; [lia|]. done.
  - cbn [mediaPacket p_samples]. unfold packetSamples, realSamples.
    rewrite Nat.mul_0_r, drop_0.
    rewrite lookup_app_l
      by (rewrite length_take, Hlen2; destruct next; [done|cbn; lia]).
    rewrite lookup_take_lt by lia.
    unfold shaped2. rewrite (applyCrossfade_head ucid _ st1 Hclean), Hstored.
    change (default 0 (Some L)) with L. by destruct (L =? 0).
Qed.

Lemma sendAudio_chunk_boundary_witness :
  let st := {| sockets := {[ 0%nat := {| readyState := OPEN; sent := [] |} ]};
               ucidToConnection := {[ "A"%string := 0%nat ]};
               _lastSamples := None |} in
  exists st1 st2 first,
    sendAudioToOzonetel "A" [10; 20; 60] st = Some (true, st1)
    /\ sendAudioToOzonetel "A" [7; 1] st1 = Some (true, st2)
    /\ sentTo st2 "A" !! 1%nat = Some first
    /\ p_samples first !! 0%nat = Some 30.
Proof.
  cbn zeta.
  destruct (sendAudio_chunk_boundary "A" [10; 20; 60] [7; 1]
              {| sockets := {[ 0%nat := {| readyState := OPEN; sent := [] |} ]};
                 ucidToConnection := {[ "A"%string := 0%nat ]};
                 _lastSamples := None |} 0%nat
              {| readyState := OPEN; sent := [] |})
    as (st1 & st2 & L & first & H1 & HL & H2 & Hfirst & Hhead);
    [done|done|reflexivity|reflexivity|].
  assert (L = 30) as -> by (vm_compute in HL; congruence).
  assert (Hn : length (sentTo st1 "A") = 1%nat).
  { vm_compute in H1. injection H1 as <-. reflexivity. }
  rewrite Hn in Hfirst.
  exists st1, st2, first. split; [exact H1|]. split; [exact H2|].
  split; [exact Hfirst|exact Hhead].
Defined.

End Chunks.
(** ** What the transcription filter lets through *)

Section TranscriptionFilter.
Import JS JSString StreamingClient Filter.

Lemma nullable_matches r : nullable r = true <-> matches r [].
Proof.
  induction r as [| |p|r1 IH1 r2 IH2|r1 IH1 r2 IH2|r IH]; cbn [nullable].
  - split; [done|]. inversion 1.
  - split; [constructor|done].
  - split; [done|]. inversion 1.
  - rewrite andb_true_iff, IH1, IH2. split.
    + intros [H1 H2]. by apply (matches_Seq _ _ [] []).
    + inversion 1 as [| |? ? s1 s2 H1 H2 E1 E2| | | |]; subst.
      apply app_eq_nil in E2 as [-> ->]. done.
  - rewrite orb_true_iff, IH1, IH2. split.
    + intros [H|H]; [by apply matches_Alt_l | by apply matches_Alt_r].
    + inversion 1; subst; [by left | by right].
  - split; [constructor|done].
Qed.

Lemma matches_Star_cons r c s :
  matches (Star r) (c :: s) ->
  exists s1 s2, s = s1 ++ s2 /\ matches r (c :: s1) /\ matches (Star r) s2.
Proof.
  intros H. remember (Star r) as re eqn:Ere. remember (c :: s) as cs eqn:Ecs.
  revert s Ecs.
  induction H as [| | | | | |r0 s1 s2 H1 _ H2 IH2]; intros tl Ecs; try discriminate.
  injection Ere as ->.
  destruct s1 as [|c1 s1].
  - cbn in Ecs. by apply IH2.
  - cbn in Ecs. injection Ecs as -> <-. by exists s1, s2.
Qed.

Lemma deriv_matches c r : forall s, matches (deriv c r) s <-> matches r (c :: s).
Proof.
  induction r as [| |p|r1 IH1 r2 IH2|r1 IH1 r2 IH2|r IH]; intros s; cbn [deriv].
  - split; inversion 1.
  - split; inversion 1.
  - destruct (p c) eqn:Hp; split.
    + inversion 1; subst. by constructor.
    + inversion 1; subst. constructor.
    + inversion 1.
    + inversion 1; subst. congruence.
  - assert (Hseq : matches (Seq (deriv c r1) r2) s
                   <-> exists s1 s2, s = s1 ++ s2 /\ matches r1 (c :: s1)
                                     /\ matches r2 s2).
    { split.
      - inversion 1 as [| |? ? s1 s2 H1 H2| | | |]; subst.
        exists s1, s2. by rewrite <- IH1.
      - intros (s1 & s2 & -> & H1 & H2). constructor; [by apply IH1|done]. }
    assert (Hcons : matches (Seq r1 r2) (c :: s)
                    <-> (exists s1 s2, s = s1 ++ s2 /\ matches r1 (c :: s1)
                                       /\ matches r2 s2)
                        \/ (matches r1 [] /\ matches r2 (c :: s))).
    { split.
      - inversion 1 as [| |? ? s1 s2 H1 H2 E1 E2| | | |]; subst.
        destruct s1 as [|c1 s1].
        + right. cbn in E2. by subst.
        + left. cbn in E2. injection E2 as -> <-. by exists s1, s2.
      - intros [(s1 & s2 & -> & H1 & H2)|[H1 H2]].
        + by apply (matches_Seq _ _ (c :: s1) s2).
        + by apply (matches_Seq _ _ [] (c :: s)). }
    rewrite Hcons. destruct (nullable r1) eqn:Hn.
    + split.
      * inversion 1; subst; [left; by apply Hseq|right].
        split; [by apply nullable_matches | by apply IH2].
      * intros [H|[_ H]]; [apply matches_Alt_l; by apply Hseq|].
        apply matches_Alt_r. by apply IH2.
    + rewrite Hseq. split; [by left|].
      intros [H|[H _]]; [done|]. apply nullable_matches in H. congruence.
  - split.
    + inversion 1; subst; [apply matches_Alt_l; by apply IH1
                          |apply matches_Alt_r; by apply IH2].
    + inversion 1; subst; [apply matches_Alt_l; by apply IH1
                          |apply matches_Alt_r; by apply IH2].
  - split.
    + inversion 1 as [| |? ? s1 s2 H1 H2| | | |]; subst.
      apply (matches_Star_app _ (c :: s1) s2); [by apply IH|done].
    + intros H. apply matches_Star_cons in H as (s1 & s2 & -> & H1 & H2).
      constructor; [by apply IH|done].
Qed.

(** The derivative matcher decides the language of the expression. *)
Lemma test_matches s : forall r, test r s = true <-> matches r s.
Proof.
  unfold test. induction s as [|c s IH]; intros r; cbn [fold_left].
  - apply nullable_matches.
  - rewrite IH. apply deriv_matches.
Qed.

Lemma matches_Class_Seq p r s :
  matches (Seq (Class p) r) s
  <-> exists c s', s = c :: s' /\ p c = true /\ matches r s'.
Proof.
  split.
  - inversion 1 as [| |? ? s1 s2 H1 H2| | | |]; subst.
    inversion H1; subst. by eexists _, _.
  - intros (c & s' & -> & Hp & Hr).
    apply (matches_Seq _ _ [c] s'); [by constructor|done].
Qed.

Lemma matches_Star_Class p s :
  matches (Star (Class p)) s <-> Forall (fun c => p c = true) s.
Proof.
  split.
  - intros H. remember (Star (Class p)) as re eqn:Ere.
    induction H as [| | | | | |r0 s1 s2 H1 _ H2 IH2]; try discriminate.
    + constructor.
    + injection Ere as ->. inversion H1; subst.
      constructor; [done|by apply IH2].
  - induction 1 as [|c s Hc Hs IH]; [constructor|].
    apply (matches_Star_app _ [c] s); [by constructor|done].
Qed.

Lemma matches_word (l : list ascii) (s : JSString.t) :
  matches (fold_right (fun a r => Seq (char_i a) r) Eps l) s
  <-> lower s = lower (map N_of_ascii l).
Proof.
  revert s. induction l as [|a l IH]; intros s; cbn [fold_right map].
  - split; [by inversion 1|]. destruct s; [constructor|done].
  - unfold char_i at 1. rewrite matches_Class_Seq. split.
    + intros (c & s' & -> & Hc & Hr). apply IH in Hr.
      apply N.eqb_eq in Hc. unfold lower in *. cbn [map]. by rewrite Hc, Hr.
    + destruct s as [|c s']; [done|]. unfold lower. cbn [map].
      intros [= Hc Hs]. exists c, s'. split; [done|].
      split; [by apply N.eqb_eq | by apply IH].
Qed.

Lemma matches_word_i (w : string) (s : JSString.t) :
  matches (word_i w) s <-> lower s = lower (lit w).
Proof. apply matches_word. Qed.

Lemma lower_dot c : toLowerASCII c = 46%N -> c = 46%N.
Proof.
  unfold toLowerASCII.
  destruct (N.leb_spec 65 c), (N.leb_spec c 90); cbn [andb]; lia.
Qed.

(** A phrase followed by an optional full stop. *)
Lemma matches_phrase (w : string) (s : JSString.t) :
  matches (Seq (word_i w) (opt (char "."))) s
  <-> lower s = lower (lit w) \/ lower s = lower (lit w) ++ [46%N].
Proof.
  split.
  - inversion 1 as [| |? ? s1 s2 H1 H2| | | |]; subst.
    apply matches_word_i in H1.
    inversion H2 as [| | |? ? ? Hd|? ? ? He| |]; subst.
    + inversion Hd as [|? c Hc| | | | |]; subst. apply N.eqb_eq in Hc. subst c.
      right. unfold lower in *. by rewrite map_app, H1.
    + inversion He; subst. left. by rewrite app_nil_r.
  - intros [H|H].
    + rewrite <- (app_nil_r s).
      constructor; [by apply matches_word_i|]. apply matches_Alt_r. constructor.
    + destruct (exists_last (l := s)) as (s' & c & ->).
      { intros ->. by destruct (lower (lit w)). }
      unfold lower in H. rewrite map_app in H. cbn [map] in H.
      apply app_inj_tail in H as [Hs Hc]. apply lower_dot in Hc. subst c.
      constructor; [by apply matches_word_i|].
      apply matches_Alt_l. constructor. reflexivity.
Qed.

Lemma dot_isPunctuation c : N.eqb 46 c = true -> isPunctuation c = true.
Proof.
  intros H. apply N.eqb_eq in H. subst c. reflexivity.
Qed.

(** The hallucination patterns, read as sets of strings. *)
Lemma hallucinations_language (s : JSString.t) :
  existsb (fun pattern => test pattern s) hallucinations = true
  <-> In (lower s) fillers \/ Forall (fun c => isPunctuation c = true) s.
Proof.
  unfold hallucinations. cbv zeta. cbn [existsb].
  rewrite orb_false_r, !orb_true_iff.
  rewrite !test_matches, !matches_phrase, matches_word_i.
  change (char ".") with (Class (N.eqb 46)).
  rewrite !matches_Class_Seq, !matches_Star_Class.
  split.
  - intros [H|[H|[H|[H|[H|H]]]]].
    + left. destruct H as [H|H]; rewrite H; cbn; tauto.
    + left. destruct H as [H|H]; rewrite H; cbn; tauto.
    + left. rewrite H; cbn; tauto.
    + right. destruct H as (c1 & s1 & -> & H1 & H).
      rewrite matches_Class_Seq in H. destruct H as (c2 & s2 & -> & H2 & H).
      rewrite matches_Class_Seq in H. destruct H as (c3 & s3 & -> & H3 & H4).
      rewrite matches_Star_Class in H4.
      repeat (constructor; [by apply dot_isPunctuation|]).
      eapply Forall_impl; [exact H4|]. intros c Hc. by apply dot_isPunctuation.
    + right. eapply Forall_impl; [exact H|]. intros c Hc.
      unfold isPunctuation. by rewrite Hc.
    + right. destruct H as (c & s' & -> & Hc & Hs).
      constructor; [exact Hc|]. by apply matches_Star_Class in Hs.
  - intros [H|H].
    + cbn in H. destruct H as [H|[H|[H|[H|[H|[]]]]]]; symmetry in H.
      * left. by left.
      * left. by right.
      * right. left. by left.
      * right. left. by right.
      * right. right. by left.
    + destruct s as [|c s'].
      * do 4 right. left. constructor.
      * do 5 right. apply Forall_cons in H as [Hc Hs]. exists c, s'.
        split; [done|]. split; [exact Hc|]. by apply matches_Star_Class.
Qed.

(** X19. The filter, spelt out: a transcription is kept exactly when its
    trimmed text has at least two characters, is none of "thank you",
    "thanks" (each with or without a full stop) and "you" in any letter
    case, and contains a character that is neither white space nor one of
    [. , ! ?]. *)
Theorem isValidTranscription_language (text : JSString.t) :
  isValidTranscription text = true
  <-> (2 <= JSString.length (trim text))%nat
      /\ ~ In (lower (trim text)) fillers
      /\ Exists (fun c => isPunctuation c = false) (trim text).
Proof.
  unfold isValidTranscription.
  pose proof (hallucinations_language (trim text)) as Hlang.
  assert (Hlen : (JSString.length (trim text) <= JSString.length text)%nat).
  { unfold JSString.length, trim, trimEnd. rewrite length_rev.
    pose proof (trimStart_length (rev (trimStart text))) as H1.
    rewrite length_rev in H1. pose proof (trimStart_length text). lia. }
  destruct (Nat.eqb_spec (JSString.length text) 0) as [E|E].
  { cbn [orb]. split; [done|]. intros [H _]. lia. }
  destruct (Nat.ltb_spec (JSString.length (trim text)) 2) as [Hs|Hs].
  { cbn [orb]. split; [done|]. intros [H _]. lia. }
  cbn [orb]. rewrite negb_true_iff, <- not_true_iff_false, Hlang.
  split.
  - intros H. split; [done|]. split; [tauto|].
    assert (HF : ~ Forall (fun c => isPunctuation c = true) (trim text)) by tauto.
    apply not_Forall_Exists in HF; [|intros c; apply _].
    eapply Exists_impl; [exact HF|]. intros c Hc. cbn in Hc.
    by destruct (isPunctuation c).
  - intros (_ & Hnot & Hex) [H|H]; [done|].
    apply Exists_exists in Hex as (c & Hin & Hc).
    rewrite Forall_forall in H. specialize (H c Hin). congruence.
Qed.

End TranscriptionFilter.
(** ** Failure paths of the orchestrator *)

Section Robustness.
Import JS StreamingClient.

Variable uninit : nat -> Z.

(** X16. The response step holds the [isPlayingBack] flag for exactly one
    flow request.  Entered with a session and the flag clear, it raises the
    flag and asks the flow engine with the session's language and voice;
    whatever the engine answers or throws, the step then ends normally with
    the flag false.  Only the answer [true] counts a playback chunk and
    emits [response_played]. *)
Theorem generateAndPlayResponse_flag_cleared (ucid : string) (userText : JSString.t)
  (st : StreamingClient.t) (sessionAddress : nat) (session : Session) :
  getSession st ucid = Some (sessionAddress, session) ->
  truthy (isPlayingBack st !! ucid) = false ->
  exists k,
    generateAndPlayResponse ucid userText st
    = AwaitFlow (set_isPlayingBack <[ucid := true]> st)
        {| f_ucid := ucid; f_userText := userText;
           f_language := language session; f_voice := voice session |} k
    /\ forall answer st',
         exists final,
           k answer st' = Done (Normal tt) final
           /\ isPlayingBack final !! ucid = Some false
           /\ isTranscribing final = isTranscribing st'
           /\ (answer = Normal true ->
               emitted final = emitted st' ++ [response_played ucid userText true]
               /\ playbackChunks <$> (sessionStore final !! sessionAddress)
                  = (fun s => playbackChunks s + 1) <$> (sessionStore st' !! sessionAddress))
           /\ (answer <> Normal true ->
               emitted final = emitted st' /\ sessionStore final = sessionStore st').
Proof.
  intros Hs Hflag. unfold generateAndPlayResponse. rewrite Hs, Hflag.
  cbn [tryCatch tryFinally]. eexists. split; [reflexivity|].
  intros [[|]|e] st'; cbn [tryCatch tryFinally]; eexists; (split; [reflexivity|]).
  - split; [cbn; by rewrite lookup_insert_eq|]. split; [done|]. split; [|done].
    intros _. split; [done|]. cbn [sessionStore set_isPlayingBack emit set_sessionStore].
    rewrite lookup_alter_eq. by destruct (sessionStore st' !! sessionAddress).
  - split; [cbn; by rewrite lookup_insert_eq|]. split; [done|]. split; [done|]. done.
  - split; [cbn; by rewrite lookup_insert_eq|]. split; [done|]. split; [done|]. done.
Qed.

Lemma generateAndPlayResponse_flag_cleared_witness :
  exists k final,
    generateAndPlayResponse "A" (JSString.lit "hello") Scenario.started
    = AwaitFlow (set_isPlayingBack <["A"%string := true]> Scenario.started)
        {| f_ucid := "A"; f_userText := JSString.lit "hello";
           f_language := "en"; f_voice := "alloy" |} k
    /\ k (Throw TypeError) (set_now 900 Scenario.started) = Done (Normal tt) final
    /\ isPlayingBack final !! "A"%string = Some false.
Proof.
  destruct (generateAndPlayResponse_flag_cleared "A" (JSString.lit "hello")
              Scenario.started 0%nat
              {| s_ucid := "A"; language := "en"; voice := "alloy"; s_startTime := 0;
                 totalAudioMs := Finite 0; transcriptionChunks := 0;
                 playbackChunks := 0 |})
    as (k & Hk & Hall); [reflexivity|reflexivity|].
  destruct (Hall (Throw TypeError) (set_now 900 Scenario.started))
    as (final & Hfinal & Hflag & _).
  exists k, final. split; [exact Hk|]. split; [exact Hfinal|exact Hflag].
Defined.




(** X18. A buffer the encoder cannot write: when [toWAVBuffer] throws, the
    pipeline makes no request and ends normally with the flag false, and
    the processor is left as it was, not reset, so the samples that made
    the encoder throw are still in the buffer at the next flush. *)
Theorem processAudioChunk_encoding_failure (ucid : string) (st : StreamingClient.t)
  (pa : nat) (p : AudioProcessor.t) (e : Error) :
  getProcessor st ucid = Some (pa, p) ->
  is_Some (getSession st ucid) ->
  is_Some (transcriptionBuffers st !! ucid) ->
  truthy (isTranscribing st !! ucid) = false ->
  AudioProcessor.toWAVBuffer uninit p = Throw e ->
  exists final,
    processAudioChunk uninit ucid st = Done (Normal tt) final
    /\ isTranscribing final !! ucid = Some false
    /\ getProcessor final ucid = Some (pa, p)
    /\ emitted final = emitted st
    /\ transcriptionBuffers final = transcriptionBuffers st.
Proof.
  intros Hp [[sa s] Hs] [b Hb] Hflag Hwav. unfold processAudioChunk.
  rewrite Hp, Hs, Hb, Hflag. unfold transcribeAndRespond. rewrite Hwav.
  cbn [tryCatch tryFinally]. eexists. split; [reflexivity|].
  split; [cbn; by rewrite lookup_insert_eq|]. by repeat split.
Qed.

End Robustness.

Section RobustnessExamples.
Import JS StreamingClient Scenario.

(** A sample that does not fit in 16 bits has reached the buffer of "A". *)
Lemma processAudioChunk_encoding_failure_witness :
  let st := stateOf (handleAudioChunk uninit (media "A" [40000; 1] 8000) started) in
  exists final p,
    processAudioChunk uninit "A" st = Done (Normal tt) final
    /\ isTranscribing final !! "A"%string = Some false
    /\ getProcessor final "A" = Some (1%nat, p)
    /\ AudioProcessor.samples p = [40000; 1].
Proof.
  cbn zeta.
  set (st := stateOf (handleAudioChunk uninit (media "A" [40000; 1] 8000) started)).
  pose (p := AudioProcessor.addSamples 0 [40000; 1]
               (AudioProcessor.new "A"
                  {| AudioProcessor.opt_minAudioDuration := Some 1000;
                     AudioProcessor.opt_maxAudioDuration := Some 4000;
                     AudioProcessor.opt_silenceThreshold := Some 1000;
                     AudioProcessor.opt_silenceAmplitude := Some 300;
                     AudioProcessor.opt_sampleRate := Some 8000;
                     AudioProcessor.opt_bitsPerSample := None;
                     AudioProcessor.opt_channels := None |} 0)).
  assert (Hp : getProcessor st "A" = Some (1%nat, p)) by reflexivity.
  assert (Hwav : AudioProcessor.toWAVBuffer uninit p = Throw RangeError)
    by (vm_compute; reflexivity).
  destruct (processAudioChunk_encoding_failure uninit "A" st 1%nat p RangeError Hp)
    as (final & Hfinal & Hflag & Hkept & _).
  - vm_compute. by eexists.
  - vm_compute. by eexists.
  - reflexivity.
  - exact Hwav.
  - exists final, p. split; [exact Hfinal|]. split; [exact Hflag|].
    split; [exact Hkept|reflexivity].
Defined.


End RobustnessExamples.
(** ** Calls at the gateway: mapping, grace period, forwarding *)

Section GatewayCalls.
Import JS StreamServer Spec Shaping Gateway.

Variable JSON_parse : string -> Parsed.

Lemma applyCrossfade_seed_zero (ucid : string) (samples : list Z) (s : StreamServer.t) :
  default 0 (storedLastSample s ucid) = 0 ->
  fst (_applyCrossfade ucid samples s) = samples.
Proof.
  intros Hz. by apply (proj2 (applyCrossfade_continuity_aux ucid samples s)).
Qed.

(** The packets of a shaped array carry its samples, 400 to a packet. *)
Lemma packetsOf_real (ucid : string) (shaped : list Z) (k : nat) (p : MediaPacket) :
  packetsOf ucid shaped !! k = Some p ->
  p_ucid p = ucid /\ length (p_samples p) = 400%nat
  /\ take (length (realSamples shaped k)) (p_samples p) = realSamples shaped k.
Proof.
  unfold packetsOf. rewrite list_lookup_fmap. intros Hp.
  destruct (seq 0 (ceilDiv (length shaped) 400) !! k) as [j|] eqn:Hj; [|done].
  apply lookup_seq in Hj as [-> _]. cbn in Hp. injection Hp as <-.
  cbn [mediaPacket p_ucid p_samples].
  split; [done|]. split; [apply length_packetSamples|].
  unfold packetSamples. by rewrite take_app_length.
Qed.

(** X20. A [start] message with a call id maps the call to the socket it
    arrived on and clears the call's crossfade seed: audio sent for the
    call right away goes out on that socket (if it is open) in
    [ceil(N/400)] packets that carry the samples as the DC-offset removal
    alone leaves them, whatever an earlier call with the same id had left
    behind.  Other calls keep their connection and seed, and the raw
    message is handed to the stream client. *)
Theorem start_maps_connection (ws : nat) (data : string) (message : Message)
  (ucid : string) (st : Gateway.t) (w : WebSocket) (samples : list Z) :
  JSON_parse data = Value message ->
  event message = Some "start"%string ->
  present (Gateway.ucid message) = Some ucid ->
  sockets (server st) !! ws = Some w ->
  readyState w = OPEN ->
  let st' := handleMessage JSON_parse ws data st in
  (exists s' packets,
     sendAudioToOzonetel ucid samples (server st') = Some (true, s')
     /\ connection s' ucid
        = Some (ws, {| readyState := OPEN; sent := sent w ++ packets |})
     /\ length packets = ceilDiv (length samples) 400
     /\ forall k p, packets !! k = Some p ->
          let real := realSamples (_removeDCOffset samples) k in
          p_ucid p = ucid
          /\ length (p_samples p) = 400%nat
          /\ take (length real) (p_samples p) = real)
  /\ (forall other, other <> ucid ->
        ucidToConnection (server st') !! other = ucidToConnection (server st) !! other
        /\ storedLastSample (server st') other = storedLastSample (server st) other)
  /\ streamClient st' = (fun received => received ++ [data]) <$> streamClient st.
Proof.
  intros Hparse Hevent Hucid Hsock Hopen. cbn zeta.
  unfold handleMessage. rewrite Hparse, Hucid, Hevent.
  rewrite (bool_decide_eq_true_2 _ eq_refl).
  rewrite bool_decide_eq_false_2 by discriminate.
  cbn [server currentUcid timers now streamClient].
  set (s := {| sockets := sockets (server st);
               ucidToConnection := <[ucid:=ws]> (ucidToConnection (server st));
               _lastSamples := Some (<[ucid:=0]> (default ∅ (_lastSamples (server st)))) |}).
  split; [|split; [|done]].
  - assert (Hconn : connection s ucid = Some (ws, w)).
    { unfold connection, s. cbn [ucidToConnection sockets].
      rewrite lookup_insert_eq. cbn. by rewrite Hsock. }
    destruct (sendAudio_live ucid samples s ws w Hconn Hopen)
      as (s' & Hsend & Hs & Hm & _).
    cbn zeta in Hs.
    rewrite applyCrossfade_seed_zero in Hs
      by (unfold storedLastSample, s; cbn; by rewrite lookup_insert_eq).
    exists s', (packetsOf ucid (_removeDCOffset samples)).
    split; [done|]. split; [by eapply connection_after|].
    split.
    + unfold packetsOf. by rewrite length_map, length_seq, removeDCOffset_length.
    + intros k p Hp. cbn zeta. by apply packetsOf_real.
  - intros other Hother. unfold storedLastSample, s.
    cbn [ucidToConnection _lastSamples mbind option_bind].
    rewrite !lookup_insert_ne by done. split; [done|].
    destruct (_lastSamples (server st)); cbn; [done|]. by rewrite lookup_empty.
Qed.

Lemma unmap_fold_lookup (fired : list (Z * string)) (ucid : string) :
  forall s,
  ucidToConnection (fold_left (fun s timer => unmap (snd timer) s) fired s) !! ucid
  = if bool_decide (ucid ∈ fired.*2) then None else ucidToConnection s !! ucid.
Proof.
  induction fired as [|[d u] fired IH]; intros s; cbn [fold_left].
  - rewrite bool_decide_eq_false_2; [done|]. cbn. by intros ?%elem_of_nil.
  - rewrite IH. cbn [fmap list_fmap snd unmap ucidToConnection].
    destruct (decide (ucid = u)) as [->|Hne].
    + rewrite (bool_decide_eq_true_2 (u ∈ u :: fired.*2)) by left.
      rewrite lookup_delete_eq. by destruct (bool_decide _).
    + rewrite lookup_delete_ne by done.
      destruct (decide (ucid ∈ fired.*2)) as [Hin|Hnin].
      * rewrite !bool_decide_eq_true_2; [done|by right|done].
      * rewrite !bool_decide_eq_false_2; [done| |done].
        intros [?|?]%elem_of_cons; done.
Qed.

Lemma act_keeps_timer (a : Action) (st : Gateway.t) (d : Z) (ucid : string) :
  before d a -> (d, ucid) ∈ timers st -> (d, ucid) ∈ timers (act JSON_parse st a).
Proof.
  intros Hbefore Hin. destruct a as [ws data|time|u samples]; cbn [act].
  - unfold handleMessage. destruct (JSON_parse data) as [| |message]; [done..|].
    cbn [timers].
    destruct (present (Gateway.ucid message)) as [u|]; [|done].
    destruct (bool_decide (event message = Some "start"%string));
      destruct (bool_decide (event message = Some "stop"%string));
      cbn [timers]; rewrite ?elem_of_app; auto.
  - cbn [tick timers before] in *. apply list_elem_of_In, filter_In.
    split; [by apply list_elem_of_In|].
    unfold due. cbn [fst]. apply negb_true_iff, Z.leb_gt. lia.
  - by destruct (sendAudioToOzonetel u samples (server st)) as [[? ?]|].
Qed.

Lemma run_keeps_timer (actions : list Action) (d : Z) (ucid : string) :
  forall st, Forall (before d) actions ->
  (d, ucid) ∈ timers st -> (d, ucid) ∈ timers (run JSON_parse actions st).
Proof.
  induction actions as [|a actions IH]; intros st Hall Hin; [done|].
  apply Forall_cons in Hall as [Ha Hall]. cbn [run fold_left].
  apply IH; [done|]. by apply act_keeps_timer.
Qed.

(** X21. A [stop] message with a call id forgets the call's crossfade
    seed at once but leaves the call mapped, so that playback still in
    progress gets through; it sets a timer for ten seconds later.  When
    the clock has passed that point the call id is unmapped and sending
    audio for it fails, whatever arrived at the gateway in the meantime,
    a new [start] for the same id included. *)
Theorem stop_unmaps_after_grace (ws : nat) (data : string) (message : Message)
  (ucid : string) (st : Gateway.t) :
  JSON_parse data = Value message ->
  event message = Some "stop"%string ->
  present (Gateway.ucid message) = Some ucid ->
  let stopped := handleMessage JSON_parse ws data st in
  ucidToConnection (server stopped) = ucidToConnection (server st)
  /\ sockets (server stopped) = sockets (server st)
  /\ storedLastSample (server stopped) ucid = None
  /\ forall actions time samples,
       Forall (before (now st + 10000)) actions ->
       now st + 10000 <= time ->
       let final := tick time (run JSON_parse actions stopped) in
       ucidToConnection (server final) !! ucid = None
       /\ sendAudioToOzonetel ucid samples (server final) = Some (false, server final).
Proof.
  intros Hparse Hevent Hucid. cbn zeta.
  unfold handleMessage at 1 2 3. rewrite Hparse, Hucid, Hevent.
  rewrite (bool_decide_eq_false_2 (Some "stop"%string = Some "start"%string))
    by (intros ?; discriminate).
  rewrite (bool_decide_eq_true_2 _ eq_refl).
  cbn [server ucidToConnection sockets].
  split; [done|]. split; [done|]. split.
  { unfold storedLastSample. cbn [_lastSamples].
    destruct (_lastSamples (server st)); cbn; [|done]. by rewrite lookup_delete_eq. }
  intros actions time samples Hbefore Htime.
  assert (Hin : (now st + 10000, ucid)
                ∈ timers (run JSON_parse actions (handleMessage JSON_parse ws data st))).
  { apply run_keeps_timer; [done|]. unfold handleMessage.
    rewrite Hparse, Hucid, Hevent.
    rewrite (bool_decide_eq_false_2 (Some "stop"%string = Some "start"%string))
      by (intros ?; discriminate).
    rewrite (bool_decide_eq_true_2 _ eq_refl). cbn [timers].
    apply elem_of_app. right. by left. }
  set (before_tick := run JSON_parse actions (handleMessage JSON_parse ws data st)) in *.
  assert (Hnone : ucidToConnection (server (tick time before_tick)) !! ucid = None).
  { cbn [tick server]. rewrite unmap_fold_lookup.
    rewrite bool_decide_eq_true_2; [done|].
    apply list_elem_of_fmap. exists (now st + 10000, ucid). split; [done|].
    apply list_elem_of_In, filter_In. split; [by apply list_elem_of_In|].
    unfold due. cbn [fst]. apply Z.leb_le. lia. }
  split; [exact Hnone|].
  unfold sendAudioToOzonetel, connection. by rewrite Hnone.
Qed.

Lemma filter_readable_cons (data : string) (rest : list string) :
  List.filter (readable JSON_parse) (data :: rest)
  = (if readable JSON_parse data then [data] else [])
    ++ List.filter (readable JSON_parse) rest.
Proof. cbn [List.filter]. by destruct (readable JSON_parse data). Qed.

Lemma handleMessage_forwards (ws : nat) (data : string) (st : Gateway.t) :
  streamClient (handleMessage JSON_parse ws data st)
  = (fun received => received ++ (if readable JSON_parse data then [data] else []))
    <$> streamClient st.
Proof.
  unfold handleMessage, readable.
  destruct (JSON_parse data) as [| |message].
  - destruct (streamClient st); cbn; by rewrite ?app_nil_r.
  - destruct (streamClient st); cbn; by rewrite ?app_nil_r.
  - cbn [streamClient].
    destruct (present (Gateway.ucid message)) as [u|]; [|done].
    by destruct (bool_decide (event message = Some "start"%string));
      destruct (bool_decide (event message = Some "stop"%string)).
Qed.

Lemma act_forwards (a : Action) (st : Gateway.t) :
  streamClient (act JSON_parse st a)
  = (fun received =>
       received ++ List.filter (readable JSON_parse) (option_list (inbound a)))
    <$> streamClient st.
Proof.
  destruct a as [ws data|time|u samples]; cbn [act inbound option_list].
  - change (option_list (Some data)) with [data].
    rewrite handleMessage_forwards, filter_readable_cons. cbn [List.filter].
    by rewrite app_nil_r.
  - cbn. destruct (streamClient st); cbn; by rewrite ?app_nil_r.
  - destruct (sendAudioToOzonetel u samples (server st)) as [[? ?]|];
      cbn; destruct (streamClient st); cbn; by rewrite ?app_nil_r.
Qed.

(** X22. The gateway forwards what it can read and nothing else: the
    stream client is handed exactly the inbound messages that parse to a
    value other than [null], each once, unchanged and in arrival order.
    A message that does not parse, or parses to [null], changes nothing at
    all. *)
Theorem gateway_forwards_readable (actions : list Action) (st : Gateway.t) :
  streamClient (run JSON_parse actions st)
  = (fun received =>
       received ++ List.filter (readable JSON_parse) (omap inbound actions))
    <$> streamClient st
  /\ (forall ws data, readable JSON_parse data = false ->
        handleMessage JSON_parse ws data st = st).
Proof.
  split.
  - revert st. induction actions as [|a actions IH]; intros st.
    + cbn. destruct (streamClient st); cbn; by rewrite ?app_nil_r.
    + cbn [run fold_left]. fold (run JSON_parse actions (act JSON_parse st a)).
      rewrite IH, act_forwards.
      destruct (streamClient st) as [received|]; [|done].
      cbn [fmap option_fmap option_map].
      f_equal. rewrite <- app_assoc. f_equal.
      cbn [omap list_omap]. destruct (inbound a) as [data|]; [|done].
      change (option_list (Some data)) with [data].
      rewrite !filter_readable_cons. cbn [List.filter]. by rewrite app_nil_r.
  - intros ws data Hr. unfold handleMessage, readable in *.
    by destruct (JSON_parse data).
Qed.

End GatewayCalls.

Section GatewayExamples.
Import JS StreamServer Spec Shaping Gateway GatewayExample.

Lemma start_maps_connection_witness :
  exists s' p,
    sendAudioToOzonetel "A" [10; 20; 60]
      (server (handleMessage parseExample 0 "start A" idle)) = Some (true, s')
    /\ connection s' "A" = Some (0%nat, {| readyState := OPEN; sent := [p] |})
    /\ take 3 (p_samples p) = [-20; -10; 30].
Proof.
  destruct (start_maps_connection parseExample 0 "start A"
              {| event := Some "start"%string; type := None; ucid := Some "A"%string |}
              "A" idle {| readyState := OPEN; sent := [] |} [10; 20; 60])
    as [(s' & packets & Hsend & Hconn & Hcount & Hpackets) _]; [reflexivity..|].
  change (ceilDiv (length [10; 20; 60]) 400) with 1%nat in Hcount.
  destruct packets as [|p [|q packets]]; [done| |done].
  exists s', p. split; [exact Hsend|]. split; [exact Hconn|].
  destruct (Hpackets 0%nat p eq_refl) as (_ & _ & Hreal). exact Hreal.
Defined.

Lemma stop_unmaps_after_grace_witness :
  let started := handleMessage parseExample 0 "start A" idle in
  let stopped := handleMessage parseExample 0 "stop A" started in
  let final := tick 10000 (run parseExample
                             [Outbound "A" [5; 6]; Tick 9999; Inbound 0 "start A"]
                             stopped) in
  ucidToConnection (server stopped) !! "A"%string = Some 0%nat
  /\ ucidToConnection (server final) !! "A"%string = None
  /\ sendAudioToOzonetel "A" [1; 2] (server final) = Some (false, server final).
Proof.
  cbn zeta.
  destruct (stop_unmaps_after_grace parseExample 0 "stop A"
              {| event := Some "stop"%string; type := None; ucid := Some "A"%string |}
              "A" (handleMessage parseExample 0 "start A" idle))
    as (Hmap & _ & _ & Hlater); [reflexivity..|].
  split; [rewrite Hmap; reflexivity|].
  apply (Hlater [Outbound "A" [5; 6]; Tick 9999; Inbound 0 "start A"] 10000 [1; 2]).
  - repeat constructor.
  - by vm_compute.
Defined.

End GatewayExamples.
(** ** The flow engine *)

Section Flows.
Import JS FlowEngine.

Lemma pairs_ind (P : list Turn -> Prop) :
  P [] -> (forall u, P [u]) ->
  (forall u a rest, P rest -> P (u :: a :: rest)) ->
  forall h, P h.
Proof.
  intros H0 H1 H2 h.
  assert (H : forall n h, (length h <= n)%nat -> P h).
  { induction n as [|n IH]; intros [|u [|a rest]] Hlen; cbn in Hlen;
      first [done | lia | idtac].
    apply H2, IH. lia. }
  by apply (H (length h)).
Qed.

Lemma paired_app (h1 h2 : list Turn) : paired h1 -> paired h2 -> paired (h1 ++ h2).
Proof.
  intros H1 H2. induction h1 as [|u|u a rest IH] using pairs_ind; [done|done|].
  cbn in *. destruct H1 as (Hu & Ha & Hrest). auto.
Qed.

Lemma paired_even (h : list Turn) : paired h -> Nat.Even (length h).
Proof.
  induction h as [|u|u a rest IH] using pairs_ind; intros H; [by exists 0%nat|done|].
  cbn in H. destruct H as (_ & _ & Hrest).
  destruct (IH Hrest) as [n Hn]. exists (S n). cbn. lia.
Qed.

Lemma paired_drop2 (h : list Turn) : paired h -> paired (drop 2 h).
Proof. destruct h as [|u [|a rest]]; [done|done|]. cbn. tauto. Qed.

Lemma paired_append_turn (h : list Turn) (text reply : JSString.t) :
  (length h <= 10)%nat -> paired h ->
  let history := h ++ [ {| role := "user"; content := text |};
                        {| role := "assistant"; content := reply |} ] in
  let kept := if (10 <? length history)%nat then lastTen history else history in
  (length kept <= 10)%nat /\ paired kept
  /\ kept = drop (length h - 8) h
            ++ [ {| role := "user"; content := text |};
                 {| role := "assistant"; content := reply |} ].
Proof.
  intros Hlen Hp. cbn zeta.
  assert (Hnew : paired (h ++ [ {| role := "user"; content := text |};
                                {| role := "assistant"; content := reply |} ]))
    by (apply paired_app; [done|by cbn]).
  rewrite length_app. cbn [length].
  destruct (Nat.ltb_spec 10 (length h + 2)) as [Hlong|Hshort].
  - destruct (paired_even h Hp) as [n Hn].
    assert (length h = 10%nat) as Hten by lia.
    unfold lastTen. rewrite length_app. cbn [length]. rewrite Hten.
    change (10 + 2 - 10)%nat with 2%nat. change (10 - 8)%nat with 2%nat.
    rewrite drop_app_le by lia.
    split; [rewrite length_app, length_drop; cbn; lia|].
    split; [|done]. apply paired_app; [by apply paired_drop2|by cbn].
  - replace (length h - 8)%nat with 0%nat by lia. rewrite drop_0.
    split; [rewrite length_app; cbn; lia|]. by split.
Qed.

Lemma getSession_spec (callId : string) (st : FlowEngine.t) :
  let '(address, st') := getSession callId st in
  sessions st' !! callId = Some address
  /\ (sessions st !! callId = Some address -> st' = st)
  /\ (sessions st !! callId = None ->
      store st' = <[address := {| callId := callId; startTime := now st;
                                   currentStep := "start"; conversationHistory := [];
                                   lastIntent := None; lastConfidence := None |}]>
                    (store st))
  /\ (Tidy st -> Tidy st').
Proof.
  unfold getSession. destruct (sessions st !! callId) as [a|] eqn:E.
  - split; [done|]. split; [done|]. split; [intros [=]|done].
  - cbn [sessions store]. rewrite lookup_insert_eq.
    split; [done|]. split; [done|]. split; [done|].
    intros Ht address s. cbn [store].
    destruct (decide (address = nextAddress st)) as [->|Hne].
    + rewrite lookup_insert_eq. intros [= <-]. cbn. split; [lia|done].
    + rewrite lookup_insert_ne by done. apply Ht.
Qed.

Lemma Tidy_alter (f : Session -> Session) (address : nat) (st : FlowEngine.t) :
  (forall s, (length (conversationHistory s) <= 10)%nat /\ paired (conversationHistory s) ->
             (length (conversationHistory (f s)) <= 10)%nat
             /\ paired (conversationHistory (f s))) ->
  Tidy st -> Tidy (set_store (alter f address) st).
Proof.
  intros Hf Ht a s. cbn [store set_store].
  destruct (decide (a = address)) as [->|Hne].
  - rewrite lookup_alter_eq. destruct (store st !! address) as [s0|] eqn:E; [|done].
    cbn. intros [= <-]. apply Hf. by eapply Ht.
  - rewrite lookup_alter_ne by done. apply Ht.
Qed.

Lemma executeConversationalFlow_Keeps (ucid : string) (text : JSString.t)
  (options : Options) (st : FlowEngine.t) :
  Tidy st -> Keeps Tidy (executeConversationalFlow ucid text options st).
Proof.
  intros Ht. unfold executeConversationalFlow.
  pose proof (getSession_spec ucid st) as Hg.
  destruct (getSession ucid st) as [a st1]. destruct Hg as (_ & _ & _ & Ht1).
  specialize (Ht1 Ht).
  destruct (echoMode st1); [split; [done|by eexists]|].
  cbn [Keeps]. split; [done|].
  intros [[ir|]|e] st2 Ht2; [|split; [done|by eexists]..].
  cbn [Keeps]. split; [by apply Tidy_alter|].
  intros [[reply|]|e'] st3 Ht3; [|split; [done|by eexists]..].
  split; [|by eexists]. apply Tidy_alter; [|done].
  intros s [Hlen Hp]. cbn [conversationHistory].
  by destruct (paired_append_turn (conversationHistory s) text reply Hlen Hp)
    as (? & ? & _).
Qed.

Lemma flow_park_invariant (s : Step) (waiting : list Pending) results :
  Keeps Tidy s -> Forall (KeepsPending Tidy) waiting ->
  Forall (fun r => exists b, r = Normal b) results ->
  LoopInvariant (park s waiting results).
Proof.
  intros Hs Hw Hr. destruct s as [r st|st ? ? k|st ? ? ? k]; cbn in *.
  - destruct Hs as [Ht Hb]. split; [done|]. split; [done|].
    apply Forall_app_2; [done|by constructor].
  - destruct Hs as [Ht Hk]. split; [done|]. split; [|done].
    apply Forall_app_2; [done|by constructor].
  - destruct Hs as [Ht Hk]. split; [done|]. split; [|done].
    apply Forall_app_2; [done|by constructor].
Qed.

Lemma flow_step_invariant (l : Loop) (e : Event) :
  LoopInvariant l -> LoopInvariant (step l e).
Proof.
  intros (Ht & Hp & Hr). destruct e as [ucid text options|i a|i a|callId|time echo];
    cbn [step].
  - apply flow_park_invariant; [by apply executeConversationalFlow_Keeps|done|done].
  - destruct (pending l !! i) as [[k|k]|] eqn:E; [|done|done].
    apply flow_park_invariant; [|by apply Forall_delete|done].
    rewrite Forall_lookup in Hp. by apply (Hp i _ E).
  - destruct (pending l !! i) as [[k|k]|] eqn:E; [done| |done].
    apply flow_park_invariant; [|by apply Forall_delete|done].
    rewrite Forall_lookup in Hp. by apply (Hp i _ E).
  - done.
  - done.
Qed.

(** X23. The conversation history the engine keeps for a call is always
    at most ten entries long and made of user/assistant pairs, in every
    state the engine can reach: whatever flows are started, in whatever
    order the language model's answers arrive, whether it answers, rejects
    or resolves to nothing, and whenever sessions are cleared.  Every flow
    that has finished has returned a boolean; none has thrown. *)
Theorem conversationHistory_bounded (events : list Event) (now : Z) (echo : bool) :
  let l := run events {| engine := FlowEngine.new now echo; pending := [];
                         results := [] |} in
  (forall address s, store (engine l) !! address = Some s ->
     (length (conversationHistory s) <= 10)%nat
     /\ paired (conversationHistory s))
  /\ Forall (fun r => exists b, r = Normal b) (results l).
Proof.
  cbn zeta.
  assert (H : LoopInvariant (run events {| engine := FlowEngine.new now echo;
                                           pending := []; results := [] |})).
  { unfold run.
    assert (H0 : LoopInvariant {| engine := FlowEngine.new now echo;
                                  pending := []; results := [] |}).
    { split; [|by split]. intros a s. cbn. by rewrite lookup_empty. }
    revert H0. generalize {| engine := FlowEngine.new now echo;
                             pending := []; results := [] |}.
    induction events as [|e events IH]; intros l Hl; [done|].
    cbn [fold_left]. apply IH. by apply flow_step_invariant. }
  destruct H as (Ht & _ & Hr). split; [exact Ht|exact Hr].
Qed.

(** X24. One turn of conversation.  Outside echo mode the flow asks for
    the intent, records it on the session, and asks for a response with the
    history as it stands; when both answers arrive it returns [true] and
    the history of the session it started with is the last eight entries
    of the old history followed by the user's text and the reply.  If
    either answer is a rejection or nothing, it returns [false] and leaves
    the history alone.  In echo mode it returns [true] at once without
    asking anything. *)
Theorem executeConversationalFlow_turn (ucid : string) (text : JSString.t)
  (options : Options) (st : FlowEngine.t) :
  let session := fst (getSession ucid st) in
  let st0 := snd (getSession ucid st) in
  (echoMode st = true ->
   executeConversationalFlow ucid text options st = Done (Normal true) st0)
  /\ (echoMode st = false ->
      exists k,
        executeConversationalFlow ucid text options st
        = AwaitIntent st0 text intents k
        /\ (forall a st1, (a = Normal None \/ exists e, a = Throw e) ->
              k a st1 = Done (Normal false) st1)
        /\ (forall result st1, exists k',
              k (Normal (Some result)) st1
              = AwaitResponse
                  (set_store
                     (alter (fun s =>
                               {| callId := callId s; startTime := startTime s;
                                  currentStep := currentStep s;
                                  conversationHistory := conversationHistory s;
                                  lastIntent := Some (intent result);
                                  lastConfidence := Some (confidence result) |})
                            session) st1)
                  text (historyOf st1 session)
                  {| ctx_intent := intent result; ctx_confidence := confidence result;
                     ctx_language := default "en"%string (opt_language options) |} k'
              /\ (forall a st2, (a = Normal None \/ exists e, a = Throw e) ->
                    k' a st2 = Done (Normal false) st2)
              /\ (forall reply st2 s,
                    store st2 !! session = Some s ->
                    (length (conversationHistory s) <= 10)%nat ->
                    paired (conversationHistory s) ->
                    exists final,
                      k' (Normal (Some reply)) st2 = Done (Normal true) final
                      /\ historyOf final session
                         = drop (length (conversationHistory s) - 8)
                                (conversationHistory s)
                           ++ [ {| role := "user"; content := text |};
                                {| role := "assistant"; content := reply |} ]
                      /\ sessions final = sessions st2))).
Proof.
  cbn zeta. unfold executeConversationalFlow.
  assert (Hecho : echoMode (snd (getSession ucid st)) = echoMode st).
  { unfold getSession. by destruct (sessions st !! ucid). }
  destruct (getSession ucid st) as [a st0]. cbn [fst snd] in *.
  rewrite Hecho. split; [by intros ->|]. intros ->.
  eexists. split; [reflexivity|]. split.
  { intros x st1 [->|[e ->]]; reflexivity. }
  intros result st1. eexists. split.
  { f_equal. unfold historyOf. cbn [store set_store].
    rewrite lookup_alter_eq. by destruct (store st1 !! a). }
  split.
  { intros x st2 [->|[e ->]]; reflexivity. }
  intros reply st2 s Hs Hlen Hp. eexists. split; [reflexivity|].
  split; [|done]. unfold historyOf. cbn [store set_store].
  rewrite lookup_alter_eq, Hs. cbn [fmap option_fmap option_map default conversationHistory].
  by destruct (paired_append_turn (conversationHistory s) text reply Hlen Hp)
    as (_ & _ & ->).
Qed.

End Flows.
(** ** The client as a whole: what holds in every reachable state *)

Section WholeClient.
Import JS StreamingClient Dispatcher.

Variable uninit : nat -> Z.

Lemma Keeps_andThen {A B} (P : StreamingClient.t -> Prop) (s : Step A) (f : A -> Async B) :
  Keeps P s -> (forall a st, P st -> Keeps P (f a st)) -> Keeps P (andThen s f).
Proof.
  intros Hs Hf.
  induction s as [[a|e] st|st req k IH|st req k IH]; cbn in *.
  - by apply Hf.
  - done.
  - destruct Hs as [Hst Hk]. split; [done|]. intros a st' H'. by apply IH, Hk.
  - destruct Hs as [Hst Hk]. split; [done|]. intros a st' H'. by apply IH, Hk.
Qed.

Lemma Keeps_tryCatch {A} (P : StreamingClient.t -> Prop) (s : Step A) (h : Error -> Async A) :
  Keeps P s -> (forall e st, P st -> Keeps P (h e st)) -> Keeps P (tryCatch s h).
Proof.
  intros Hs Hh.
  induction s as [[a|e] st|st req k IH|st req k IH]; cbn in *.
  - done.
  - by apply Hh.
  - destruct Hs as [Hst Hk]. split; [done|]. intros a st' H'. by apply IH, Hk.
  - destruct Hs as [Hst Hk]. split; [done|]. intros a st' H'. by apply IH, Hk.
Qed.

Lemma Keeps_tryFinally {A} (P : StreamingClient.t -> Prop) (s : Step A)
  (fin : StreamingClient.t -> StreamingClient.t) :
  (forall st, P st -> P (fin st)) -> Keeps P s -> Keeps P (tryFinally s fin).
Proof.
  intros Hfin Hs.
  induction s as [r st|st req k IH|st req k IH]; cbn in *.
  - by apply Hfin.
  - destruct Hs as [Hst Hk]. split; [done|]. intros a st' H'. by apply IH, Hk.
  - destruct Hs as [Hst Hk]. split; [done|]. intros a st' H'. by apply IH, Hk.
Qed.

(** *** Updates that keep the maps consistent *)

Lemma Consistent_flags (st : StreamingClient.t) (u : string) (b : bool) :
  Consistent st ->
  Consistent (set_isTranscribing <[u := b]> st)
  /\ Consistent (set_isPlayingBack <[u := b]> st).
Proof.
  intros (H1 & H2 & H3 & H4 & H5 & H6 & H7).
  split; (split; [done|]; split; [done|]; split; [done|]; split; [|done]);
    intros v Hv; destruct (H4 v Hv) as [Ht Hp]; cbn;
    (destruct (decide (v = u)) as [->|Hne];
      [rewrite lookup_insert_eq | rewrite lookup_insert_ne by done]); by eauto.
Qed.

Lemma Consistent_now (st : StreamingClient.t) (time : Z) :
  Consistent st -> Consistent (set_now time st).
Proof. done. Qed.

Lemma Consistent_emit (st : StreamingClient.t) (e : Emitted) :
  Consistent st -> Consistent (emit e st).
Proof. done. Qed.

Lemma is_Some_alter {K A} `{Countable K} (f : A -> A) (m : gmap K A) (i j : K) :
  is_Some (alter f i m !! j) <-> is_Some (m !! j).
Proof.
  destruct (decide (i = j)) as [->|Hne].
  - rewrite lookup_alter_eq. by rewrite fmap_is_Some.
  - by rewrite lookup_alter_ne.
Qed.

Lemma Consistent_session (st : StreamingClient.t) (f : Session -> Session) (a : nat) :
  Consistent st -> Consistent (set_sessionStore (alter f a) st).
Proof.
  intros (H1 & H2 & H3 & H4 & H5 & H6 & H7).
  do 4 (split; [done|]). split; [|done].
  intros u b Hu. cbn. apply is_Some_alter. by eapply H5.
Qed.

Lemma Consistent_processor (st : StreamingClient.t)
  (f : AudioProcessor.t -> AudioProcessor.t) (a : nat) :
  (forall p, Streaming p -> Streaming (f p)) ->
  Consistent st -> Consistent (set_processorStore (alter f a) st).
Proof.
  intros Hf (H1 & H2 & H3 & H4 & H5 & H6 & H7).
  do 5 (split; [done|]). split.
  - intros u b Hu. cbn. apply is_Some_alter. by eapply H6.
  - intros b p. cbn. destruct (decide (a = b)) as [->|Hne].
    + rewrite lookup_alter_eq. destruct (processorStore st !! b) as [q|] eqn:E; [|done].
      cbn. intros [= <-]. by eapply Hf, H7.
    + rewrite lookup_alter_ne by done. apply H7.
Qed.

Lemma Consistent_buffer (st : StreamingClient.t) (u : string)
  (b : TranscriptionBuffer) :
  is_Some (transcriptionBuffers st !! u) ->
  Consistent st -> Consistent (set_transcriptionBuffers <[u := b]> st).
Proof.
  intros Hu (H1 & H2 & H3 & H4 & H5 & H6 & H7).
  split; [done|]. split; [|done].
  intros v. cbn. destruct (decide (v = u)) as [->|Hne].
  - rewrite lookup_insert_eq. rewrite H2. split; by eauto.
  - rewrite lookup_insert_ne by done. apply H2.
Qed.

Lemma Streaming_reset (time : Z) (p : AudioProcessor.t) :
  Streaming p -> Streaming (AudioProcessor.reset time p).
Proof. intros (? & ? & ? & ? & ?). by repeat split. Qed.

Lemma Streaming_addSamples (time : Z) (packet : list Z) (p : AudioProcessor.t) :
  Streaming p -> Streaming (AudioProcessor.addSamples time packet p).
Proof.
  intros (? & ? & ? & ? & Ht). destruct packet as [|x l]; [done|].
  repeat split; try done. cbn [AudioProcessor.addSamples AudioProcessor.totalSamples
                               AudioProcessor.samples].
  rewrite Ht, length_app. lia.
Qed.

Lemma Consistent_start (message : StartMessage) (st : StreamingClient.t) :
  Consistent st -> Consistent (handleStreamStart message st).
Proof.
  intros (H1 & H2 & H3 & H4 & H5 & H6 & H7). unfold handleStreamStart.
  apply Consistent_emit.
  set (u := start_ucid message).
  assert (Hins : forall {A B} (m1 : gmap string A) (m2 : gmap string B) x y v,
             (is_Some (m1 !! v) <-> is_Some (m2 !! v)) ->
             (is_Some (<[u := x]> m1 !! v) <-> is_Some (<[u := y]> m2 !! v))).
  { intros A B m1 m2 x y v Hv. destruct (decide (v = u)) as [->|Hne].
    - rewrite !lookup_insert_eq. split; by eauto.
    - by rewrite !lookup_insert_ne. }
  split; [intros v; cbn; apply Hins, H1|].
  split; [intros v; cbn; apply Hins, H2|].
  split; [intros v; cbn; apply Hins, H3|].
  split.
  { intros v. cbn. destruct (decide (v = u)) as [->|Hne].
    - rewrite !lookup_insert_eq. by eauto.
    - rewrite !lookup_insert_ne by done. apply H4. }
  split.
  { intros v a. cbn. destruct (decide (v = u)) as [->|Hne].
    - rewrite lookup_insert_eq. intros [= <-]. rewrite lookup_insert_eq. by eauto.
    - rewrite lookup_insert_ne by done. intros Hv.
      destruct (decide (a = nextAddress st)) as [->|Ha].
      + rewrite lookup_insert_eq. by eauto.
      + rewrite lookup_insert_ne by done. by eapply H5. }
  split.
  { intros v a. cbn. destruct (decide (v = u)) as [->|Hne].
    - rewrite lookup_insert_eq. intros [= <-]. rewrite lookup_insert_eq. by eauto.
    - rewrite lookup_insert_ne by done. intros Hv.
      destruct (decide (a = S (nextAddress st))) as [->|Ha].
      + rewrite lookup_insert_eq. by eauto.
      + rewrite lookup_insert_ne by done. by eapply H6. }
  intros a p. cbn. destruct (decide (a = S (nextAddress st))) as [->|Ha].
  - rewrite lookup_insert_eq. intros [= <-]. by repeat split.
  - rewrite lookup_insert_ne by done. apply H7.
Qed.

Lemma Consistent_cleanup (ucid : string) (st : StreamingClient.t) :
  Consistent st -> Consistent (cleanupSession ucid st).
Proof.
  intros Hc.
  assert (Hdel : forall {A B} (m1 : gmap string A) (m2 : gmap string B) v,
             (is_Some (m1 !! v) <-> is_Some (m2 !! v)) ->
             (is_Some (delete ucid m1 !! v) <-> is_Some (delete ucid m2 !! v))).
  { intros A B m1 m2 v Hv. destruct (decide (v = ucid)) as [->|Hne].
    - rewrite !lookup_delete_eq. split; by intros [? ?].
    - by rewrite !lookup_delete_ne. }
  assert (Hgone : forall st0, Consistent st0 ->
            Consistent
              {| now := now st0; config := config st0; nextAddress := nextAddress st0;
                 sessionStore := sessionStore st0; processorStore := processorStore st0;
                 streamingSessions := delete ucid (streamingSessions st0);
                 audioProcessors := delete ucid (audioProcessors st0);
                 transcriptionBuffers := delete ucid (transcriptionBuffers st0);
                 playbackQueues := delete ucid (playbackQueues st0);
                 isTranscribing := delete ucid (isTranscribing st0);
                 isPlayingBack := delete ucid (isPlayingBack st0);
                 emitted := emitted st0 |}).
  { intros st0 (H1 & H2 & H3 & H4 & H5 & H6 & H7).
    split; [intros v; cbn; apply Hdel, H1|].
    split; [intros v; cbn; apply Hdel, H2|].
    split; [intros v; cbn; apply Hdel, H3|].
    split.
    { intros v. cbn. destruct (decide (v = ucid)) as [->|Hne].
      - rewrite lookup_delete_eq. by intros [? ?].
      - rewrite !lookup_delete_ne by done. apply H4. }
    split.
    { intros v a. cbn. destruct (decide (v = ucid)) as [->|Hne].
      - by rewrite lookup_delete_eq.
      - rewrite lookup_delete_ne by done. apply H5. }
    split; [|done].
    intros v a. cbn. destruct (decide (v = ucid)) as [->|Hne].
    - by rewrite lookup_delete_eq.
    - rewrite lookup_delete_ne by done. apply H6. }
  unfold cleanupSession.
  destruct (audioProcessors st !! ucid) as [pa|] eqn:E.
  - match goal with
    | |- Consistent ?x =>
        assert (Heq : x = {| now := now st; config := config st;
                   nextAddress := nextAddress st;
                   sessionStore := sessionStore st;
                   processorStore := processorStore
                     (set_processorStore
                        (alter (fun p =>
                           {| AudioProcessor.ucid := AudioProcessor.ucid p;
                              AudioProcessor.config := AudioProcessor.config p;
                              AudioProcessor.samples := [];
                              AudioProcessor.totalSamples := 0;
                              AudioProcessor.startTime := AudioProcessor.startTime p;
                              AudioProcessor.lastAudioTime := AudioProcessor.lastAudioTime p;
                              AudioProcessor.consecutiveSilentPackets :=
                                AudioProcessor.consecutiveSilentPackets p |}) pa) st);
                   streamingSessions := delete ucid (streamingSessions st);
                   audioProcessors := delete ucid (audioProcessors st);
                   transcriptionBuffers := delete ucid (transcriptionBuffers st);
                   playbackQueues := delete ucid (playbackQueues st);
                   isTranscribing := delete ucid (isTranscribing st);
                   isPlayingBack := delete ucid (isPlayingBack st);
                   emitted := emitted st |}) by reflexivity
    end.
    rewrite Heq.
    apply (Hgone (set_processorStore _ st)).
    apply Consistent_processor; [|done].
    intros p (? & ? & ? & ? & ?). by repeat split.
  - assert (Hid : delete ucid (audioProcessors st) = audioProcessors st)
      by (by apply delete_id).
    specialize (Hgone st Hc). rewrite Hid in Hgone. exact Hgone.
Qed.

Lemma Consistent_end (ucid : string) (st : StreamingClient.t) :
  Consistent st -> Consistent (handleStreamEnd ucid st).
Proof.
  intros Hc. unfold handleStreamEnd. apply Consistent_cleanup.
  destruct (getSession st ucid) as [[sa s]|]; [|done].
  by destruct (transcriptionBuffers st !! ucid).
Qed.

Lemma getSession_is_Some (st : StreamingClient.t) (u : string) :
  Consistent st -> (is_Some (getSession st u) <-> is_Some (streamingSessions st !! u)).
Proof.
  intros (_ & _ & _ & _ & H5 & _). unfold getSession. split.
  - destruct (streamingSessions st !! u); [by eauto|]. by intros [? ?].
  - intros [a Ha]. rewrite Ha. cbn. destruct (H5 u a Ha) as [s ->]. by eauto.
Qed.

Lemma getProcessor_is_Some (st : StreamingClient.t) (u : string) :
  Consistent st -> (is_Some (getProcessor st u) <-> is_Some (audioProcessors st !! u)).
Proof.
  intros (_ & _ & _ & _ & _ & H6 & _). unfold getProcessor. split.
  - destruct (audioProcessors st !! u); [by eauto|]. by intros [? ?].
  - intros [a Ha]. rewrite Ha. cbn. destruct (H6 u a Ha) as [s ->]. by eauto.
Qed.

(** In a consistent state no control command throws. *)
Lemma handleControl_normal (ucid : string) (command : Command) (st : StreamingClient.t) :
  Consistent st ->
  exists st', handleControl ucid command st = Normal st' /\ Consistent st'.
Proof.
  intros Hc. destruct command as [l|v| | |]; cbn [handleControl].
  - destruct (getSession st ucid) as [[sa s]|] eqn:Hs; [|by eauto].
    assert (is_Some (transcriptionBuffers st !! ucid)) as [b Hb].
    { pose proof Hc as (_ & H2 & _). apply H2. apply getSession_is_Some; [done|].
      rewrite Hs. by eauto. }
    cbn [transcriptionBuffers set_sessionStore]. rewrite Hb.
    eexists. split; [reflexivity|].
    apply Consistent_buffer; [cbn; by rewrite Hb|]. by apply Consistent_session.
  - destruct (getSession st ucid) as [[sa s]|]; [|by eauto].
    eexists. split; [reflexivity|]. by apply Consistent_session.
  - eexists. split; [reflexivity|]. by apply Consistent_flags.
  - eexists. split; [reflexivity|]. by apply Consistent_flags.
  - by eauto.
Qed.

Lemma Keeps_generateAndPlayResponse (ucid : string) (userText : JSString.t)
  (st : StreamingClient.t) :
  Consistent st -> Keeps Consistent (generateAndPlayResponse ucid userText st).
Proof.
  intros Hc. unfold generateAndPlayResponse.
  destruct (getSession st ucid) as [[sa s]|]; [|done].
  destruct (truthy (isPlayingBack st !! ucid)); [done|].
  apply Keeps_tryFinally; [intros st0 H0; by apply Consistent_flags|].
  apply Keeps_tryCatch; [|done].
  cbn [Keeps]. split; [by apply Consistent_flags|].
  intros [[|]|e] st' H'; cbn [Keeps]; [|done|done].
  apply Consistent_emit. by apply Consistent_session.
Qed.

Lemma Keeps_streamTranscription (ucid : string) (audioBuffer : Buffer)
  (language : string) (st : StreamingClient.t) :
  Consistent st -> Keeps Consistent (streamTranscription ucid audioBuffer language st).
Proof.
  intros Hc. unfold streamTranscription.
  apply Keeps_tryCatch; [|done].
  cbn [Keeps]. split; [done|]. intros [result|e] st' H'; [|done].
  destruct (negb (isValidTranscription _)); [done|].
  set (st1 := match transcriptionBuffers st' !! ucid with
              | Some buffer => _
              | None => st'
              end).
  assert (H1 : Consistent st1).
  { unfold st1. destruct (transcriptionBuffers st' !! ucid) as [b|] eqn:Hb; [|done].
    apply Consistent_buffer; [by rewrite Hb|done]. }
  match goal with
  | |- context [if ?b then _ else _] => destruct b
  end.
  - apply Keeps_generateAndPlayResponse. by apply Consistent_emit.
  - by apply Consistent_emit.
Qed.

Lemma Keeps_processAudioChunk (ucid : string) (st : StreamingClient.t) :
  Consistent st -> Keeps Consistent (processAudioChunk uninit ucid st).
Proof.
  intros Hc. unfold processAudioChunk.
  destruct (getProcessor st ucid) as [[pa p]|]; [|done].
  destruct (getSession st ucid) as [[sa s]|]; [|done].
  destruct (transcriptionBuffers st !! ucid); [|done].
  destruct (truthy (isTranscribing st !! ucid)); [done|].
  apply Keeps_tryFinally; [intros st0 H0; by apply Consistent_flags|].
  apply Keeps_tryCatch; [|done].
  unfold transcribeAndRespond.
  assert (Hflag : Consistent (set_isTranscribing <[ucid := true]> st))
    by (by apply Consistent_flags).
  destruct (AudioProcessor.toWAVBuffer uninit p) as [[wav|]|]; [|done|done].
  destruct (negb (validateAudioChunk p)).
  - cbn [Keeps]. apply Consistent_processor; [apply Streaming_reset|done].
  - apply Keeps_andThen; [by apply Keeps_streamTranscription|].
    intros _ st0 H0. cbn [Keeps]. apply Consistent_session.
    apply Consistent_processor; [apply Streaming_reset|done].
Qed.

Lemma Keeps_handleAudioChunk (message : MediaMessage) (st : StreamingClient.t) :
  Consistent st -> Keeps Consistent (handleAudioChunk uninit message st).
Proof.
  intros Hc. unfold handleAudioChunk.
  destruct (getProcessor st _) as [[pa p]|]; [|done].
  destruct (getSession st _) as [[sa s]|]; [|done].
  destruct (m_samples message) as [[|x samples]|]; [done| |done].
  cbn zeta.
  assert (Hacc : Consistent (accumulate pa sa (x :: samples)
                               (default 8000 (m_sampleRate message)) st)).
  { unfold accumulate. apply Consistent_session.
    apply Consistent_processor; [apply Streaming_addSamples|done]. }
  match goal with
  | |- context [if ?b then _ else _] => destruct b
  end; [|done].
  by apply Keeps_processAudioChunk.
Qed.

Lemma Keeps_handleMessage (message : Message) (st : StreamingClient.t) :
  Consistent st -> Keeps Consistent (handleMessage uninit message st).
Proof.
  intros Hc. destruct message as [m|m|ucid|ucid command| |]; cbn [handleMessage].
  - by apply Consistent_start.
  - apply Keeps_tryCatch; [by apply Keeps_handleAudioChunk|done].
  - by apply Consistent_end.
  - destruct (handleControl_normal ucid command st Hc) as (st' & -> & H'). done.
  - done.
  - done.
Qed.

Lemma park_consistent (ucid : string) (s : Step unit) (waiting : list EventLoop.Pending) :
  Keeps Consistent s -> Forall (KeepsPending Consistent) waiting ->
  LoopConsistent (EventLoop.park ucid s waiting).
Proof.
  intros Hs Hw. destruct s as [r st|st req k|st req k]; cbn in *.
  - by split.
  - destruct Hs as [Hst Hk]. split; [done|]. apply Forall_app_2; [done|by constructor].
  - destruct Hs as [Hst Hk]. split; [done|]. apply Forall_app_2; [done|by constructor].
Qed.

Lemma step_consistent (l : EventLoop.t) (e : Event) :
  LoopConsistent l -> LoopConsistent (step uninit l e).
Proof.
  intros [Hc Hp]. destruct e as [message|i a|i a|time]; cbn [step].
  - apply park_consistent; [by apply Keeps_handleMessage|done].
  - destruct (EventLoop.pending l !! i) as [[u k|u k]|] eqn:E; [|done|done].
    apply park_consistent; [|by apply Forall_delete].
    rewrite Forall_lookup in Hp. by apply (Hp i _ E).
  - destruct (EventLoop.pending l !! i) as [[u k|u k]|] eqn:E; [done| |done].
    apply park_consistent; [|by apply Forall_delete].
    rewrite Forall_lookup in Hp. by apply (Hp i _ E).
  - done.
Qed.

(** X25. In every state the client can reach, whatever messages arrive,
    whatever the collaborators answer and in whatever order their answers
    come, a call has a session exactly when it has a processor, a
    transcription buffer and a playback queue, and then it has both flags;
    and its processor has the 8000 Hz / 16-bit / mono configuration and
    counts exactly the samples in its buffer. *)
Theorem client_consistent (events : list Event) (config : Config) (now : Z) :
  let st := EventLoop.client
              (run uninit events {| EventLoop.client := StreamingClient.new config now;
                                    EventLoop.pending := [] |}) in
  (forall u,
     (is_Some (getSession st u) <-> is_Some (getProcessor st u))
     /\ (is_Some (getSession st u) <-> is_Some (transcriptionBuffers st !! u))
     /\ (is_Some (getSession st u) <-> is_Some (playbackQueues st !! u))
     /\ (is_Some (getSession st u) ->
         is_Some (isTranscribing st !! u) /\ is_Some (isPlayingBack st !! u)))
  /\ (forall u a p, getProcessor st u = Some (a, p) -> Streaming p).
Proof.
  cbn zeta.
  assert (H : LoopConsistent
                (run uninit events {| EventLoop.client := StreamingClient.new config now;
                                      EventLoop.pending := [] |})).
  { unfold run.
    assert (H0 : LoopConsistent {| EventLoop.client := StreamingClient.new config now;
                                   EventLoop.pending := [] |}).
    { split; [|by constructor]. unfold Consistent. cbn.
      repeat match goal with |- _ /\ _ => split end;
        intros u; rewrite ?lookup_empty;
        first [by split; intros [? ?] | by intros [? ?] | by intros a]. }
    revert H0. generalize {| EventLoop.client := StreamingClient.new config now;
                             EventLoop.pending := [] |}.
    induction events as [|e events IH]; intros l Hl; [done|].
    cbn [fold_left]. apply IH. by apply step_consistent. }
  destruct H as [Hc _].
  set (st := EventLoop.client _) in *.
  pose proof Hc as (H1 & H2 & H3 & H4 & H5 & H6 & H7).
  split.
  - intros u. rewrite (getSession_is_Some st u Hc), (getProcessor_is_Some st u Hc).
    split; [apply H1|]. split; [apply H2|]. split; [apply H3|apply H4].
  - intros u a p Hp. unfold getProcessor in Hp.
    destruct (audioProcessors st !! u) as [b|]; [|done]. cbn in Hp.
    destruct (processorStore st !! b) as [q|] eqn:E; [|done]. cbn in Hp.
    injection Hp as -> ->. by eapply H7.
Qed.

End WholeClient.
(** ** The hearing route's books *)

Section HearingBooks.
Import JS StreamClient Hearing.

Lemma processAudioForTranscription_books (ucid : string) (packet : list Z)
  (st : StreamClient.t) (session : TranscriptionSession) :
  (forall u, transcriptionInProgress st !! u = None) ->
  transcriptionSessions st !! ucid = Some session ->
  let st' := processAudioForTranscription ucid packet st in
  (forall u, transcriptionInProgress st' !! u = None)
  /\ audioBuffers st' = audioBuffers st
  /\ currentCall st' = currentCall st
  /\ exists session',
       transcriptionSessions st' !! ucid = Some session'
       /\ (session' = session
           \/ (chunks session'
               = chunks session
                 ++ [{| chunk_timestamp := now st;
                        chunk_number := totalChunks session + 1;
                        chunk_language := ts_language session;
                        chunk_durationMs := 2000 |}]
               /\ totalChunks session' = totalChunks session + 1)).
Proof.
  intros Hflags Hs. cbn zeta. unfold processAudioForTranscription.
  rewrite Hs, Hflags. cbn [default].
  assert (Hdel : forall u, delete ucid (<[ucid := true]> (transcriptionInProgress st)) !! u
                           = None).
  { intros u. destruct (decide (u = ucid)) as [->|Hne].
    - by rewrite lookup_delete_eq.
    - by rewrite lookup_delete_ne, lookup_insert_ne. }
  destruct (rms_lt packet 300).
  - split; [exact Hdel|]. split; [done|]. split; [done|].
    exists session. split; [done|by left].
  - split; [exact Hdel|]. split; [done|]. split; [done|].
    eexists. split; [cbn; by rewrite lookup_insert_eq|]. right. by split.
Qed.

Lemma seq_snoc_numbers (n : nat) :
  map Z.of_nat (seq 1 (n + 1)) = map Z.of_nat (seq 1 n) ++ [Z.of_nat n + 1].
Proof.
  rewrite seq_app, map_app. cbn [seq map]. do 2 f_equal. lia.
Qed.

Lemma handleStartEvent_books (ucid did : string) (st : StreamClient.t) :
  Bookkept st -> Bookkept (handleStartEvent ucid did st).
Proof.
  intros [Hflags _]. split; [exact Hflags|].
  intros call. unfold handleStartEvent. cbn. intros [= <-]. cbn.
  exists [], {| ts_startTime := now st; chunks := []; totalChunks := 0;
                errors := 0; ts_language := defaultLanguage st |}.
  rewrite !lookup_insert_eq. by repeat split.
Qed.

Lemma handleMediaEvent_books (ucid : string) (data : MediaData) (st : StreamClient.t) :
  Bookkept st -> Bookkept (handleMediaEvent ucid data st).
Proof.
  intros Hb. pose proof Hb as [Hflags Hcall]. unfold handleMediaEvent.
  destruct (currentCall st) as [call|] eqn:Ecall; [|done].
  destruct (String.eqb_spec (c_ucid call) ucid) as [Hu|Hu]; [|done].
  destruct (Hcall call eq_refl)
    as (buffer & session & Hbuf & Hlen & Hrate & Hses & Htot & Hbound & Hnum).
  cbn [negb].
  destruct (negb (firstMediaReceived call) && bool_decide (sampleRate data = Some 16000)).
  { split; [exact Hflags|]. intros c. cbn. intros [= <-]. cbn.
    exists buffer, session. by repeat split. }
  destruct (bool_decide (sampleRate data = Some 8000)) eqn:E8;
    [apply bool_decide_eq_true in E8|].
  2:{ split; [exact Hflags|]. intros c. cbn. intros [= <-]. cbn.
      exists buffer, session. by repeat split. }
  cbn [c_ucid c_did c_startTime mediaPackets firstMediaReceived].
  set (counted := {| c_ucid := c_ucid call; c_did := c_did call;
                     c_startTime := c_startTime call;
                     mediaPackets := mediaPackets call + 1;
                     firstMediaReceived := true |}).
  set (st1 := set_currentCall (Some counted)
                (set_currentCall
                   (Some {| c_ucid := c_ucid call; c_did := c_did call;
                            c_startTime := c_startTime call;
                            mediaPackets := mediaPackets call;
                            firstMediaReceived := true |}) st)).
  assert (Hbuf1 : audioBuffers st1 !! ucid = Some buffer) by (by rewrite <- Hu).
  rewrite !Hbuf1.
  set (st2 := set_audioBuffers _ st1).
  assert (H2 : (forall u, transcriptionInProgress st2 !! u = None)
               /\ currentCall st2 = Some counted
               /\ audioBuffers st2 !! ucid
                  = Some (buffer ++ [{| timestamp := now st1; payload := data |}])
               /\ transcriptionSessions st2 !! ucid = Some session).
  { split; [exact Hflags|]. split; [done|]. unfold st2. cbn.
    rewrite lookup_insert_eq. split; [done|]. by rewrite <- Hu. }
  destruct H2 as (Hf2 & Hc2 & Hb2 & Hs2).
  set (st3 := match samples data with
              | Some (s :: rest) =>
                if (mediaPackets call + 1) mod 50 =? 0
                then processAudioForTranscription ucid (s :: rest) st2 else st2
              | _ => st2
              end).
  assert (H3 : (forall u, transcriptionInProgress st3 !! u = None)
               /\ currentCall st3 = Some counted
               /\ audioBuffers st3 !! ucid
                  = Some (buffer ++ [{| timestamp := now st1; payload := data |}])
               /\ exists session',
                    transcriptionSessions st3 !! ucid = Some session'
                    /\ totalChunks session' = Z.of_nat (length (chunks session'))
                    /\ 50 * totalChunks session' <= mediaPackets call + 1
                    /\ map chunk_number (chunks session')
                       = map Z.of_nat (seq 1 (length (chunks session')))).
  { unfold st3.
    destruct (samples data) as [[|s rest]|];
      try (split; [done|]; split; [done|]; split; [done|];
           exists session; repeat split; first [done | lia]).
    destruct (Z.eqb_spec ((mediaPackets call + 1) mod 50) 0) as [Hmod|Hmod];
      [|split; [done|]; split; [done|]; split; [done|];
        exists session; repeat split; first [done | lia]].
    destruct (processAudioForTranscription_books ucid (s :: rest) st2 session Hf2 Hs2)
      as (Hf & Hbufs & Hcur & session' & Hs' & Hcase).
    split; [exact Hf|]. split; [by rewrite Hcur|]. split; [by rewrite Hbufs|].
    exists session'. split; [done|].
    destruct Hcase as [->|[Hchunks Htotal]]; [repeat split; first [done | lia]|].
    rewrite Hchunks, Htotal, length_app. cbn [length].
    split; [lia|]. split.
    - apply Z.mod_divide in Hmod; [|lia]. destruct Hmod as [q Hq].
      assert (50 * totalChunks session < 50 * q) by lia. lia.
    - rewrite map_app, seq_snoc_numbers, Hnum. cbn [map chunk_number].
      by rewrite Htot. }
  destruct H3 as (Hf3 & Hc3 & Hb3 & session' & Hs3 & Ht3 & Hbound3 & Hn3).
  assert (Hfinal : Bookkept st3).
  { split; [exact Hf3|]. intros c. rewrite Hc3. intros [= <-]. cbn [c_ucid mediaPackets counted].
    rewrite Hu. eexists _, session'. split; [exact Hb3|].
    split; [rewrite length_app; cbn; lia|].
    split; [apply Forall_app_2; [done|by constructor]|].
    by repeat split. }
  clearbody st3.
  destruct ((mediaPackets call + 1) mod 100 =? 0); [|exact Hfinal].
  destruct (samples data); exact Hfinal.
Qed.

(** X26. On the hearing route, after any sequence of start and media
    events from a new client, the books of the current call are in order:
    its buffer holds exactly as many packets as [mediaPackets] counts, all
    of them at 8 kHz (no 16 kHz packet is ever buffered or counted); its
    transcription session numbers its chunks 1, 2, 3, ... and has at most
    one chunk per fifty packets; and no transcription is left marked as in
    progress. *)
Theorem hearing_bookkeeping (events : list Event) (now : Z) (language : string) :
  let st := run events (fresh now language) in
  (forall u, transcriptionInProgress st !! u = None)
  /\ forall call, currentCall st = Some call ->
       exists buffer session,
         audioBuffers st !! c_ucid call = Some buffer
         /\ Z.of_nat (length buffer) = mediaPackets call
         /\ Forall (fun b => sampleRate (payload b) = Some 8000) buffer
         /\ transcriptionSessions st !! c_ucid call = Some session
         /\ totalChunks session = Z.of_nat (length (chunks session))
         /\ 50 * totalChunks session <= mediaPackets call
         /\ map chunk_number (chunks session)
            = map Z.of_nat (seq 1 (length (chunks session))).
Proof.
  cbn zeta. change (Bookkept (run events (fresh now language))).
  assert (H0 : Bookkept (fresh now language)) by (split; [by intros u|done]).
  revert H0. generalize (fresh now language). unfold run.
  induction events as [|e events IH]; intros st Hst; [done|].
  cbn [fold_left]. apply IH. destruct e as [ucid did|ucid data|time]; cbn [step].
  - by apply handleStartEvent_books.
  - by apply handleMediaEvent_books.
  - exact Hst.
Qed.

End HearingBooks.
(** ** A transcription that arrives after its call has ended *)

Section LateAnswers.
Import JS StreamingClient.

Variable uninit : nat -> Z.

Lemma handleStreamEnd_gone (ucid : string) (st : StreamingClient.t) :
  getSession (handleStreamEnd ucid st) ucid = None
  /\ transcriptionBuffers (handleStreamEnd ucid st) !! ucid = None
  /\ isTranscribing (handleStreamEnd ucid st) !! ucid = None.
Proof.
  assert (Hended : exists s', handleStreamEnd ucid st = cleanupSession ucid s')
    by (unfold handleStreamEnd; by eexists).
  destruct Hended as [s' ->]. unfold getSession, cleanupSession.
  destruct (audioProcessors s' !! ucid); cbn; by rewrite !lookup_delete_eq.
Qed.

(** X27. When the transcription of a call arrives after the call has
    ended (its session and transcription buffer are gone), the pipeline
    still ends normally: a valid text is emitted as a [transcription] event
    but is appended to no buffer and triggers no response, no per-call
    entry of the ended call comes back except the [isTranscribing] flag,
    which the [finally] block sets to false. *)
Theorem transcription_after_stream_end (ucid : string) (st st1 : StreamingClient.t)
  (req : TranscriptionRequest)
  (k : completion Transcription -> StreamingClient.t -> Step unit) :
  processAudioChunk uninit ucid st = AwaitTranscription st1 req k ->
  forall answer st',
    getSession st' ucid = None ->
    transcriptionBuffers st' !! ucid = None ->
    exists final,
      k answer st' = Done (Normal tt) final
      /\ isTranscribing final !! ucid = Some false
      /\ streamingSessions final = streamingSessions st'
      /\ audioProcessors final = audioProcessors st'
      /\ transcriptionBuffers final = transcriptionBuffers st'
      /\ playbackQueues final = playbackQueues st'
      /\ isPlayingBack final = isPlayingBack st'
      /\ (emitted final = emitted st'
          \/ exists result language,
               answer = Normal result
               /\ isValidTranscription (JSString.trim (default [] (text result))) = true
               /\ emitted final
                  = emitted st'
                    ++ [transcription ucid (JSString.trim (default [] (text result)))
                                      language false (now st')]).
Proof.
  intros Hk answer st' Hsession Hbuffer.
  unfold processAudioChunk in Hk.
  destruct (getProcessor st ucid) as [[pa p]|]; [|done].
  destruct (getSession st ucid) as [[sa s]|]; [|done].
  destruct (transcriptionBuffers st !! ucid); [|done].
  destruct (truthy (isTranscribing st !! ucid)); [done|].
  unfold transcribeAndRespond in Hk.
  destruct (AudioProcessor.toWAVBuffer uninit p) as [[wav|]|]; [|done|done].
  destruct (validateAudioChunk p); [|done]. cbn [negb] in Hk.
  unfold streamTranscription in Hk. cbn [andThen tryCatch tryFinally] in Hk.
  injection Hk as _ _ <-.
  destruct answer as [result|e]; cbn [andThen tryCatch tryFinally].
  2:{ eexists. split; [reflexivity|]. split; [cbn; by rewrite lookup_insert_eq|].
      repeat split; by left. }
  destruct (isValidTranscription (JSString.trim (default [] (text result)))) eqn:Hvalid;
    cbn [negb andThen tryCatch tryFinally].
  2:{ eexists. split; [reflexivity|]. split; [cbn; by rewrite lookup_insert_eq|].
      repeat split; by left. }
  rewrite Hbuffer.
  set (language := match detected result with
                   | Some l => if String.eqb l "" then StreamingClient.language s else l
                   | None => StreamingClient.language s
                   end).
  set (st2 := emit _ st').
  assert (Hs2 : getSession st2 ucid = None) by exact Hsession.
  match goal with
  | |- context [if ?b then _ else _] => destruct b
  end.
  - unfold generateAndPlayResponse. rewrite Hs2.
    cbn [andThen tryCatch tryFinally].
    eexists. split; [reflexivity|]. split; [cbn; by rewrite lookup_insert_eq|].
    do 5 (split; [done|]). right. by exists result, language.
  - cbn [andThen tryCatch tryFinally].
    eexists. split; [reflexivity|]. split; [cbn; by rewrite lookup_insert_eq|].
    do 5 (split; [done|]). right. by exists result, language.
Qed.

End LateAnswers.

Section LateAnswersExamples.
Import JS StreamingClient Scenario.

(** Call "A" ends while its first chunk is being transcribed. *)
Lemma transcription_after_stream_end_witness :
  exists st1 req k final,
    processAudioChunk uninit "A" flushing = AwaitTranscription st1 req k
    /\ k (Normal {| text := Some (JSString.lit "hello there"); detected := None |})
         (handleStreamEnd "A" st1)
       = Done (Normal tt) final
    /\ isTranscribing final !! "A"%string = Some false
    /\ streamingSessions final = streamingSessions (handleStreamEnd "A" st1)
    /\ transcriptionBuffers final = transcriptionBuffers (handleStreamEnd "A" st1).
Proof.
  destruct flushing_requests as (st1 & req & k & Hk).
  destruct (handleStreamEnd_gone "A" st1) as (Hs & Hb & _).
  destruct (transcription_after_stream_end uninit "A" flushing st1 req k Hk
              (Normal {| text := Some (JSString.lit "hello there"); detected := None |})
              (handleStreamEnd "A" st1) Hs Hb)
    as (final & Hfinal & Hflag & Hsessions & _ & Hbuffers & _).
  exists st1, req, k, final.
  split; [exact Hk|]. split; [exact Hfinal|]. split; [exact Hflag|].
  split; [exact Hsessions|exact Hbuffers].
Defined.

End LateAnswersExamples.
(** ** Calls do not touch each other *)

Section CallIsolation.
Import JS StreamingClient Dispatcher Isolation.

Variable uninit : nat -> Z.

Lemma Persist_refl (st : StreamingClient.t) : Persist st st.
Proof. split; intros a x Hx; by eauto. Qed.

Lemma Persist_trans (a b c : StreamingClient.t) :
  Persist a b -> Persist b c -> Persist a c.
Proof.
  intros [H1 H2] [H3 H4]. split.
  - intros x s Hs. destruct (H1 x s Hs) as (s' & Hs' & E').
    destruct (H3 x s' Hs') as (s'' & Hs'' & E''). exists s''. split; [done|congruence].
  - intros x p Hp. destruct (H2 x p Hp) as (p' & Hp' & E').
    destruct (H4 x p' Hp') as (p'' & Hp'' & E''). exists p''. split; [done|congruence].
Qed.

Lemma Persist_same (st0 st : StreamingClient.t) :
  sessionStore st = sessionStore st0 -> processorStore st = processorStore st0 ->
  Persist st0 st.
Proof. intros E1 E2. split; intros a x Hx; rewrite ?E1, ?E2; by eauto. Qed.

Lemma Respects_refl (u : string) (st : StreamingClient.t) : Good st -> Respects u st st.
Proof. intros Hg. split; [done|]. split; [apply Persist_refl|done]. Qed.

Lemma Respects_trans (u : string) (a b c : StreamingClient.t) :
  Respects u a b -> Respects u b c -> Respects u a c.
Proof.
  intros (_ & Hp1 & Hv1) (Hg & Hp2 & Hv2).
  split; [done|]. split; [by eapply Persist_trans|].
  intros v Hv. by rewrite Hv2, Hv1.
Qed.

Lemma Owned_Persist (u : string) (sas pas : list nat) (st0 st : StreamingClient.t) :
  Persist st0 st -> Owned u sas pas st0 -> Owned u sas pas st.
Proof.
  intros [H1 H2] [Hs Hp]. split.
  - eapply Forall_impl; [exact Hs|]. intros a (s & Ha & E).
    destruct (H1 a s Ha) as (s' & Ha' & E'). exists s'. split; [done|congruence].
  - eapply Forall_impl; [exact Hp|]. intros a (p & Ha & E).
    destruct (H2 a p Ha) as (p' & Ha' & E'). exists p'. split; [done|congruence].
Qed.

Lemma Owned_app (u : string) (s1 s2 p1 p2 : list nat) (st : StreamingClient.t) :
  Owned u (s1 ++ s2) (p1 ++ p2) st <-> Owned u s1 p1 st /\ Owned u s2 p2 st.
Proof. unfold Owned. rewrite !Forall_app. tauto. Qed.

Lemma Owned_nil (u : string) (st : StreamingClient.t) : Owned u [] [] st.
Proof. split; constructor. Qed.

Lemma view_intro (st st0 : StreamingClient.t) (v : string) :
  getSession st v = getSession st0 v ->
  getProcessor st v = getProcessor st0 v ->
  transcriptionBuffers st !! v = transcriptionBuffers st0 !! v ->
  playbackQueues st !! v = playbackQueues st0 !! v ->
  isTranscribing st !! v = isTranscribing st0 !! v ->
  isPlayingBack st !! v = isPlayingBack st0 !! v ->
  view st v = view st0 v.
Proof. unfold view. by intros -> -> -> -> -> ->. Qed.

(** *** The elementary updates *)

Lemma Respects_isTranscribing (u : string) (b : bool) (st : StreamingClient.t) :
  Good st -> Respects u st (set_isTranscribing <[u := b]> st).
Proof.
  intros Hg. split; [exact Hg|]. split; [by apply Persist_same|].
  intros v Hv. apply view_intro; try done. cbn. by rewrite lookup_insert_ne.
Qed.

Lemma Respects_isPlayingBack (u : string) (b : bool) (st : StreamingClient.t) :
  Good st -> Respects u st (set_isPlayingBack <[u := b]> st).
Proof.
  intros Hg. split; [exact Hg|]. split; [by apply Persist_same|].
  intros v Hv. apply view_intro; try done. cbn. by rewrite lookup_insert_ne.
Qed.

Lemma Respects_buffer (u : string) (b : TranscriptionBuffer) (st : StreamingClient.t) :
  Good st -> Respects u st (set_transcriptionBuffers <[u := b]> st).
Proof.
  intros Hg. split; [exact Hg|]. split; [by apply Persist_same|].
  intros v Hv. apply view_intro; try done. cbn. by rewrite lookup_insert_ne.
Qed.

Lemma Respects_emit (u : string) (e : Emitted) (st : StreamingClient.t) :
  Good st -> Respects u st (emit e st).
Proof. intros Hg. split; [exact Hg|]. split; [by apply Persist_same|done]. Qed.

Lemma Respects_session (u : string) (f : Session -> Session) (a : nat)
  (st : StreamingClient.t) :
  (forall s, s_ucid (f s) = s_ucid s) ->
  (exists s, sessionStore st !! a = Some s /\ s_ucid s = u) ->
  Good st -> Respects u st (set_sessionStore (alter f a) st).
Proof.
  intros Hf (s0 & Hs0 & Hu) Hg. pose proof Hg as (G1 & G2 & G3 & G4).
  assert (Hlook : forall b s, sessionStore st !! b = Some s ->
            exists s', alter f a (sessionStore st) !! b = Some s'
                       /\ s_ucid s' = s_ucid s).
  { intros b s Hb. destruct (decide (a = b)) as [->|Hne].
    - rewrite lookup_alter_eq, Hb. cbn. by eauto.
    - rewrite lookup_alter_ne by done. by eauto. }
  split; [|split].
  - split; [|split; [exact G2|split; [|exact G4]]].
    + intros v b Hv. cbn in *. destruct (G1 v b Hv) as (s & Hb & E).
      destruct (Hlook b s Hb) as (s' & Hb' & E'). exists s'. split; [done|congruence].
    + intros b. cbn. destruct (decide (a = b)) as [->|Hne].
      * rewrite lookup_alter_eq. rewrite fmap_is_Some. apply G3.
      * rewrite lookup_alter_ne by done. apply G3.
  - split; [exact Hlook|]. intros b p Hb. by eauto.
  - intros v Hv. apply view_intro; try done.
    unfold getSession. cbn [streamingSessions sessionStore set_sessionStore].
    destruct (streamingSessions st !! v) as [b|] eqn:Eb; [|done]. cbn.
    destruct (G1 v b Eb) as (s & Hb & E).
    destruct (decide (a = b)) as [->|Hne]; [congruence|].
    by rewrite lookup_alter_ne.
Qed.

Lemma Respects_processor (u : string) (f : AudioProcessor.t -> AudioProcessor.t)
  (a : nat) (st : StreamingClient.t) :
  (forall p, AudioProcessor.ucid (f p) = AudioProcessor.ucid p) ->
  (exists p, processorStore st !! a = Some p /\ AudioProcessor.ucid p = u) ->
  Good st -> Respects u st (set_processorStore (alter f a) st).
Proof.
  intros Hf (p0 & Hp0 & Hu) Hg. pose proof Hg as (G1 & G2 & G3 & G4).
  assert (Hlook : forall b p, processorStore st !! b = Some p ->
            exists p', alter f a (processorStore st) !! b = Some p'
                       /\ AudioProcessor.ucid p' = AudioProcessor.ucid p).
  { intros b p Hb. destruct (decide (a = b)) as [->|Hne].
    - rewrite lookup_alter_eq, Hb. cbn. by eauto.
    - rewrite lookup_alter_ne by done. by eauto. }
  split; [|split].
  - split; [exact G1|split; [|split; [exact G3|]]].
    + intros v b Hv. cbn in *. destruct (G2 v b Hv) as (p & Hb & E).
      destruct (Hlook b p Hb) as (p' & Hb' & E'). exists p'. split; [done|congruence].
    + intros b. cbn. destruct (decide (a = b)) as [->|Hne].
      * rewrite lookup_alter_eq. rewrite fmap_is_Some. apply G4.
      * rewrite lookup_alter_ne by done. apply G4.
  - split; [|exact Hlook]. intros b s Hb. by eauto.
  - intros v Hv. apply view_intro; try done.
    unfold getProcessor. cbn [audioProcessors processorStore set_processorStore].
    destruct (audioProcessors st !! v) as [b|] eqn:Eb; [|done]. cbn.
    destruct (G2 v b Eb) as (p & Hb & E).
    destruct (decide (a = b)) as [->|Hne]; [congruence|].
    by rewrite lookup_alter_ne.
Qed.

(** *** The message handlers that finish at once *)

Lemma Respects_start (message : StartMessage) (st : StreamingClient.t) :
  Good st -> Respects (start_ucid message) st (handleStreamStart message st).
Proof.
  intros Hg. pose proof Hg as (G1 & G2 & G3 & G4). unfold handleStreamStart.
  set (u := start_ucid message).
  assert (Hfresh1 : sessionStore st !! nextAddress st = None).
  { destruct (sessionStore st !! nextAddress st) eqn:E; [|done].
    pose proof (G3 (nextAddress st) ltac:(by eauto)). lia. }
  assert (Hfresh2 : processorStore st !! S (nextAddress st) = None).
  { destruct (processorStore st !! S (nextAddress st)) eqn:E; [|done].
    pose proof (G4 (S (nextAddress st)) ltac:(by eauto)). lia. }
  split; [|split].
  - split; [|split; [|split]].
    + intros v a. cbn. destruct (decide (v = u)) as [->|Hne].
      * rewrite lookup_insert_eq. intros [= <-]. rewrite lookup_insert_eq. by eauto.
      * rewrite lookup_insert_ne by done. intros Hv.
        destruct (G1 v a Hv) as (s & Ha & E).
        rewrite lookup_insert_ne by congruence. by eauto.
    + intros v a. cbn. destruct (decide (v = u)) as [->|Hne].
      * rewrite lookup_insert_eq. intros [= <-]. rewrite lookup_insert_eq. by eauto.
      * rewrite lookup_insert_ne by done. intros Hv.
        destruct (G2 v a Hv) as (p & Ha & E).
        rewrite lookup_insert_ne by congruence. by eauto.
    + intros a. cbn. destruct (decide (a = nextAddress st)) as [->|Hne]; [lia|].
      rewrite lookup_insert_ne by done. intros Ha. pose proof (G3 a Ha). lia.
    + intros a. cbn. destruct (decide (a = S (nextAddress st))) as [->|Hne]; [lia|].
      rewrite lookup_insert_ne by done. intros Ha. pose proof (G4 a Ha). lia.
  - split.
    + intros a s Ha. cbn. rewrite lookup_insert_ne by congruence. by eauto.
    + intros a p Ha. cbn. rewrite lookup_insert_ne by congruence. by eauto.
  - intros v Hv. apply view_intro; cbn; rewrite ?lookup_insert_ne by done; try done.
    + unfold getSession. cbn. rewrite lookup_insert_ne by done.
      destruct (streamingSessions st !! v) as [a|] eqn:Ea; [|done]. cbn.
      destruct (G1 v a Ea) as (s & Ha & E).
      by rewrite lookup_insert_ne by congruence.
    + unfold getProcessor. cbn. rewrite lookup_insert_ne by done.
      destruct (audioProcessors st !! v) as [a|] eqn:Ea; [|done]. cbn.
      destruct (G2 v a Ea) as (p & Ha & E).
      by rewrite lookup_insert_ne by congruence.
Qed.

Lemma Respects_maps (u : string) (st st' : StreamingClient.t) :
  Good st ->
  sessionStore st' = sessionStore st ->
  processorStore st' = processorStore st ->
  nextAddress st' = nextAddress st ->
  (forall v, v <> u ->
     streamingSessions st' !! v = streamingSessions st !! v
     /\ audioProcessors st' !! v = audioProcessors st !! v
     /\ transcriptionBuffers st' !! v = transcriptionBuffers st !! v
     /\ playbackQueues st' !! v = playbackQueues st !! v
     /\ isTranscribing st' !! v = isTranscribing st !! v
     /\ isPlayingBack st' !! v = isPlayingBack st !! v) ->
  streamingSessions st' !! u = None ->
  audioProcessors st' !! u = None ->
  Respects u st st'.
Proof.
  intros (G1 & G2 & G3 & G4) E1 E2 E3 Hv Hs Hp.
  split; [|split; [by apply Persist_same|]].
  - split; [|split; [|split]].
    + intros v a. rewrite E1. destruct (decide (v = u)) as [->|Hne]; [by rewrite Hs|].
      destruct (Hv v Hne) as (-> & _). apply G1.
    + intros v a. rewrite E2. destruct (decide (v = u)) as [->|Hne]; [by rewrite Hp|].
      destruct (Hv v Hne) as (_ & -> & _). apply G2.
    + intros a. rewrite E1, E3. apply G3.
    + intros a. rewrite E2, E3. apply G4.
  - intros v Hne. destruct (Hv v Hne) as (H1 & H2 & H3 & H4 & H5 & H6).
    apply view_intro; unfold getSession, getProcessor;
      rewrite ?H1, ?H2, ?E1, ?E2; done.
Qed.

Lemma Respects_cleanup (u : string) (st : StreamingClient.t) :
  Good st -> Respects u st (cleanupSession u st).
Proof.
  intros Hg. unfold cleanupSession.
  destruct (audioProcessors st !! u) as [pa|] eqn:E; cbn zeta.
  - pose proof Hg as (_ & G2 & _). destruct (G2 u pa E) as (p & Hp & Hu).
    match goal with
    | |- context [set_processorStore (alter ?f pa) st] =>
      assert (H1 : Respects u st (set_processorStore (alter f pa) st))
        by (apply (Respects_processor u f pa st); [done|by eauto|done])
    end.
    eapply Respects_trans; [exact H1|].
    apply Respects_maps; [by destruct H1|done..| | |]; cbn.
    + intros v Hne. by rewrite !lookup_delete_ne.
    + by rewrite lookup_delete_eq.
    + by rewrite lookup_delete_eq.
  - apply Respects_maps; [done..| | |]; cbn.
    + intros v Hne. by rewrite !lookup_delete_ne.
    + by rewrite lookup_delete_eq.
    + exact E.
Qed.

Lemma Respects_end (u : string) (st : StreamingClient.t) :
  Good st -> Respects u st (handleStreamEnd u st).
Proof.
  intros Hg. unfold handleStreamEnd.
  destruct (getSession st u) as [[sa s]|]; [|by apply Respects_cleanup].
  destruct (transcriptionBuffers st !! u); [|by apply Respects_cleanup].
  eapply Respects_trans; [by apply Respects_emit|].
  apply Respects_cleanup. exact Hg.
Qed.

Lemma getSession_owned (st : StreamingClient.t) (u : string) (a : nat) (s : Session) :
  Good st -> getSession st u = Some (a, s) ->
  sessionStore st !! a = Some s /\ s_ucid s = u.
Proof.
  intros (G1 & _) H. unfold getSession in H.
  destruct (streamingSessions st !! u) as [b|] eqn:E; [|done]. cbn in H.
  destruct (G1 u b E) as (s' & Hb & Hu). rewrite Hb in H. cbn in H.
  by injection H as <- <-.
Qed.

Lemma getProcessor_owned (st : StreamingClient.t) (u : string) (a : nat)
  (p : AudioProcessor.t) :
  Good st -> getProcessor st u = Some (a, p) ->
  processorStore st !! a = Some p /\ AudioProcessor.ucid p = u.
Proof.
  intros (_ & G2 & _) H. unfold getProcessor in H.
  destruct (audioProcessors st !! u) as [b|] eqn:E; [|done]. cbn in H.
  destruct (G2 u b E) as (p' & Hb & Hu). rewrite Hb in H. cbn in H.
  by injection H as <- <-.
Qed.

Lemma Respects_control (u : string) (command : Command) (st : StreamingClient.t) :
  Good st ->
  exists st', handleMessage uninit (Control u command) st = Done (Normal tt) st'
              /\ Respects u st st'.
Proof.
  intros Hg. cbn [handleMessage].
  destruct command as [l|v| | |]; cbn [handleControl].
  - destruct (getSession st u) as [[sa s]|] eqn:Hs;
      [|eexists; split; [reflexivity|by apply Respects_refl]].
    destruct (getSession_owned st u sa s Hg Hs) as [Hobj Hu].
    assert (Hset : forall f, (forall s, s_ucid (f s) = s_ucid s) ->
              Respects u st (set_sessionStore (alter f sa) st))
      by (intros f Hf; apply Respects_session; [done|by eauto|done]).
    cbn zeta. cbn [transcriptionBuffers set_sessionStore].
    destruct (transcriptionBuffers st !! u) as [b|].
    + eexists. split; [reflexivity|].
      match goal with
      | |- Respects _ _ (set_transcriptionBuffers _ ?s1) =>
        assert (H1 : Respects u st s1) by (by apply Hset)
      end.
      eapply Respects_trans; [exact H1|]. apply Respects_buffer. by destruct H1.
    + eexists. split; [reflexivity|]. by apply Hset.
  - destruct (getSession st u) as [[sa s]|] eqn:Hs;
      [|eexists; split; [reflexivity|by apply Respects_refl]].
    destruct (getSession_owned st u sa s Hg Hs) as [Hobj Hu].
    eexists. split; [reflexivity|].
    apply Respects_session; [done|by eauto|done].
  - eexists. split; [reflexivity|]. by apply Respects_isTranscribing.
  - eexists. split; [reflexivity|]. by apply Respects_isTranscribing.
  - eexists. split; [reflexivity|]. by apply Respects_refl.
Qed.

(** *** Steps *)

Ltac alter_session u sa st H :=
  match goal with
  | |- context [set_sessionStore (alter ?f sa) st] =>
    assert (H : Respects u st (set_sessionStore (alter f sa) st))
      by (apply Respects_session; [done|by eauto|done])
  end.

Ltac alter_processor u pa st H :=
  match goal with
  | |- context [set_processorStore (alter ?f pa) st] =>
    assert (H : Respects u st (set_processorStore (alter f pa) st))
      by (apply Respects_processor; [done|by eauto|done])
  end.

Lemma Local_trans {A} (u : string) (st0 st : StreamingClient.t) (s : Step A) :
  Respects u st0 st -> Local u st s -> Local u st0 s.
Proof.
  intros Hr. destruct s as [r st1|st1 req k|st1 req k]; cbn.
  - by apply Respects_trans.
  - intros [H1 H2]. split; [by eapply Respects_trans|done].
  - intros [H1 H2]. split; [by eapply Respects_trans|done].
Qed.

Lemma Local_andThen {A B} (u : string) (sas pas : list nat) (s : Step A)
  (f : A -> Async B) :
  forall st0,
  Owned u sas pas st0 ->
  Local u st0 s ->
  (forall a st, Good st -> Owned u sas pas st -> Local u st (f a st)) ->
  Local u st0 (andThen s f).
Proof.
  induction s as [[a|e] st|st req k IH|st req k IH]; intros st0 Ho Hs Hf;
    cbn [Local andThen] in *.
  - pose proof Hs as (Hg & Hp & Hv).
    apply (Local_trans u st0 st); [exact Hs|].
    apply Hf; [done|]. by eapply Owned_Persist.
  - done.
  - destruct Hs as [Hr (sas' & pas' & Ho' & Hk)]. split; [done|].
    exists (sas' ++ sas), (pas' ++ pas). split.
    + apply Owned_app. split; [done|]. destruct Hr as (_ & Hp & _).
      by eapply Owned_Persist.
    + intros a st' Hg' Ho''. apply Owned_app in Ho'' as [Ho1 Ho2].
      apply IH; [done|by apply Hk|done].
  - destruct Hs as [Hr (sas' & pas' & Ho' & Hk)]. split; [done|].
    exists (sas' ++ sas), (pas' ++ pas). split.
    + apply Owned_app. split; [done|]. destruct Hr as (_ & Hp & _).
      by eapply Owned_Persist.
    + intros a st' Hg' Ho''. apply Owned_app in Ho'' as [Ho1 Ho2].
      apply IH; [done|by apply Hk|done].
Qed.

Lemma Local_tryCatch {A} (u : string) (s : Step A) (h : Error -> Async A) :
  forall st0,
  Local u st0 s ->
  (forall e st, Good st -> Local u st (h e st)) ->
  Local u st0 (tryCatch s h).
Proof.
  induction s as [[a|e] st|st req k IH|st req k IH]; intros st0 Hs Hh;
    cbn [Local tryCatch] in *.
  - done.
  - apply (Local_trans u st0 st); [done|]. apply Hh. by destruct Hs.
  - destruct Hs as [Hr (sas & pas & Ho & Hk)]. split; [done|].
    exists sas, pas. split; [done|]. intros a st' Hg' Ho'. apply IH; [by apply Hk|done].
  - destruct Hs as [Hr (sas & pas & Ho & Hk)]. split; [done|].
    exists sas, pas. split; [done|]. intros a st' Hg' Ho'. apply IH; [by apply Hk|done].
Qed.

Lemma Local_tryFinally {A} (u : string) (s : Step A)
  (fin : StreamingClient.t -> StreamingClient.t) :
  forall st0,
  Local u st0 s ->
  (forall st, Good st -> Respects u st (fin st)) ->
  Local u st0 (tryFinally s fin).
Proof.
  induction s as [r st|st req k IH|st req k IH]; intros st0 Hs Hfin;
    cbn [Local tryFinally] in *.
  - eapply Respects_trans; [exact Hs|]. apply Hfin. by destruct Hs.
  - destruct Hs as [Hr (sas & pas & Ho & Hk)]. split; [done|].
    exists sas, pas. split; [done|]. intros a st' Hg' Ho'. apply IH; [by apply Hk|done].
  - destruct Hs as [Hr (sas & pas & Ho & Hk)]. split; [done|].
    exists sas, pas. split; [done|]. intros a st' Hg' Ho'. apply IH; [by apply Hk|done].
Qed.

Lemma Local_Done {A} (u : string) (r : completion A) (st : StreamingClient.t) :
  Good st -> Local u st (Done r st).
Proof. intros Hg. by apply Respects_refl. Qed.

Lemma Local_generateAndPlayResponse (u : string) (userText : JSString.t)
  (st : StreamingClient.t) :
  Good st -> Local u st (generateAndPlayResponse u userText st).
Proof.
  intros Hg. unfold generateAndPlayResponse.
  destruct (getSession st u) as [[sa s]|] eqn:Hs; [|by apply Local_Done].
  destruct (truthy (isPlayingBack st !! u)); [by apply Local_Done|].
  destruct (getSession_owned st u sa s Hg Hs) as [Hobj Hu].
  apply Local_tryFinally; [|intros st0 H0; by apply Respects_isPlayingBack].
  apply Local_tryCatch; [|intros e st0 H0; by apply Local_Done].
  cbn [Local]. split; [by apply Respects_isPlayingBack|].
  exists [sa], []. split.
  { split; [|constructor]. constructor; [|constructor]. by eauto. }
  intros [[|]|e] st' Hg' [Ho _]; cbn [Local]; [|by apply Respects_refl..].
  apply Forall_cons in Ho as [Ho _].
  alter_session u sa st' H1.
  eapply Respects_trans; [exact H1|]. apply Respects_emit. by destruct H1.
Qed.

Lemma Local_streamTranscription (u : string) (audioBuffer : Buffer)
  (language : string) (st : StreamingClient.t) :
  Good st -> Local u st (streamTranscription u audioBuffer language st).
Proof.
  intros Hg. unfold streamTranscription.
  apply Local_tryCatch; [|intros e st0 H0; by apply Local_Done].
  cbn [Local]. split; [by apply Respects_refl|].
  exists [], []. split; [apply Owned_nil|].
  intros [result|e] st' Hg' _; [|by apply Local_Done].
  destruct (negb (isValidTranscription _)); [by apply Local_Done|].
  set (st1 := match transcriptionBuffers st' !! u with
              | Some buffer => _
              | None => st'
              end).
  assert (H1 : Respects u st' st1).
  { unfold st1. destruct (transcriptionBuffers st' !! u) as [b|];
      [by apply Respects_buffer|by apply Respects_refl]. }
  assert (H2 : forall e, Respects u st' (emit e st1)).
  { intros e. eapply Respects_trans; [exact H1|]. apply Respects_emit. by destruct H1. }
  match goal with
  | |- context [if ?b then _ else _] => destruct b
  end.
  - eapply Local_trans; [apply H2|].
    apply Local_generateAndPlayResponse. by destruct (H2 (stream_started "" "" "")).
  - cbn [Local]. apply H2.
Qed.

Lemma Local_processAudioChunk (u : string) (st : StreamingClient.t) :
  Good st -> Local u st (processAudioChunk uninit u st).
Proof.
  intros Hg. unfold processAudioChunk.
  destruct (getProcessor st u) as [[pa p]|] eqn:Hp; [|by apply Local_Done].
  destruct (getSession st u) as [[sa s]|] eqn:Hs; [|by apply Local_Done].
  destruct (transcriptionBuffers st !! u); [|by apply Local_Done].
  destruct (truthy (isTranscribing st !! u)); [by apply Local_Done|].
  destruct (getSession_owned st u sa s Hg Hs) as [Hso Hsu].
  destruct (getProcessor_owned st u pa p Hg Hp) as [Hpo Hpu].
  apply Local_tryFinally; [|intros st0 H0; by apply Respects_isTranscribing].
  apply Local_tryCatch; [|intros e st0 H0; by apply Local_Done].
  unfold transcribeAndRespond.
  set (st1 := set_isTranscribing <[u := true]> st).
  assert (H1 : Respects u st st1) by (by apply Respects_isTranscribing).
  assert (Hg1 : Good st1) by (by destruct H1).
  assert (Ho1 : Owned u [sa] [pa] st1).
  { split; (constructor; [|constructor]); by eauto. }
  destruct (AudioProcessor.toWAVBuffer uninit p) as [[wav|]|];
    [|exact H1|exact H1].
  destruct (negb (validateAudioChunk p)).
  - cbn [Local]. eapply Respects_trans; [exact H1|].
    destruct Ho1 as [_ Hop]. apply Forall_cons in Hop as [Hop _].
    alter_processor u pa st1 H2. exact H2.
  - eapply Local_trans; [exact H1|].
    apply (Local_andThen u [sa] [pa]); [done|by apply Local_streamTranscription|].
    intros _ st2 Hg2 [Hos Hop]. cbn [Local].
    apply Forall_cons in Hos as [Hos _]. apply Forall_cons in Hop as [Hop _].
    alter_processor u pa st2 H3.
    eapply Respects_trans; [exact H3|].
    apply Respects_session; [done| |by destruct H3]. exact Hos.
Qed.

Lemma Local_handleAudioChunk (message : MediaMessage) (st : StreamingClient.t) :
  Good st -> Local (m_ucid message) st (handleAudioChunk uninit message st).
Proof.
  intros Hg. unfold handleAudioChunk. set (u := m_ucid message).
  destruct (getProcessor st u) as [[pa p]|] eqn:Hp; [|by apply Local_Done].
  destruct (getSession st u) as [[sa s]|] eqn:Hs; [|by apply Local_Done].
  destruct (m_samples message) as [[|x samples]|];
    [by apply Local_Done| |by apply Local_Done].
  cbn zeta.
  destruct (getSession_owned st u sa s Hg Hs) as [Hso Hsu].
  destruct (getProcessor_owned st u pa p Hg Hp) as [Hpo Hpu].
  assert (Hacc : Respects u st (accumulate pa sa (x :: samples)
                                  (default 8000 (m_sampleRate message)) st)).
  { unfold accumulate.
    alter_processor u pa st H1.
    eapply Respects_trans; [exact H1|].
    apply Respects_session; [done| |by destruct H1]. by eauto. }
  match goal with
  | |- context [if ?b then _ else _] => destruct b
  end; [|exact Hacc].
  eapply Local_trans; [exact Hacc|].
  apply Local_processAudioChunk. by destruct Hacc.
Qed.

Lemma Local_handleMessage (message : Message) (st : StreamingClient.t) :
  Good st ->
  Local (about message) st (handleMessage uninit message st).
Proof.
  intros Hg. destruct message as [m|m|u|u command| |]; cbn [about].
  - cbn [handleMessage Local]. by apply Respects_start.
  - cbn [handleMessage].
    apply Local_tryCatch; [by apply Local_handleAudioChunk|].
    intros e st0 H0. by apply Local_Done.
  - cbn [handleMessage Local]. by apply Respects_end.
  - destruct (Respects_control u command st Hg) as (st' & -> & Hr). exact Hr.
  - by apply Local_Done.
  - by apply Local_Done.
Qed.

(** *** The loop *)

Lemma LocalPending_Persist (st0 st : StreamingClient.t) (p : EventLoop.Pending) :
  Persist st0 st -> LocalPending st0 p -> LocalPending st p.
Proof.
  intros Hp. destruct p as [u k|u k]; cbn;
    intros (sas & pas & Ho & Hk); exists sas, pas;
    (split; [by eapply Owned_Persist|done]).
Qed.

Lemma park_isolated (u : string) (s : Step unit) (st0 : StreamingClient.t)
  (waiting : list EventLoop.Pending) :
  Local u st0 s -> Forall (LocalPending st0) waiting ->
  LoopIsolated (EventLoop.park u s waiting)
  /\ forall v, v <> u ->
       view (EventLoop.client (EventLoop.park u s waiting)) v = view st0 v.
Proof.
  intros Hs Hw. destruct s as [r st|st req k|st req k]; cbn in *.
  - destruct Hs as (Hg & Hp & Hv). split; [|done]. split; [done|].
    eapply Forall_impl; [exact Hw|]. intros p. by apply LocalPending_Persist.
  - destruct Hs as [(Hg & Hp & Hv) Hk]. split; [|done]. split; [done|].
    apply Forall_app_2.
    + eapply Forall_impl; [exact Hw|]. intros p. by apply LocalPending_Persist.
    + by constructor.
  - destruct Hs as [(Hg & Hp & Hv) Hk]. split; [|done]. split; [done|].
    apply Forall_app_2.
    + eapply Forall_impl; [exact Hw|]. intros p. by apply LocalPending_Persist.
    + by constructor.
Qed.

Lemma step_isolated (l : EventLoop.t) (e : Event) :
  LoopIsolated l ->
  LoopIsolated (step uninit l e)
  /\ forall v, concerns l e <> Some v ->
       view (EventLoop.client (step uninit l e)) v = view (EventLoop.client l) v.
Proof.
  intros [Hg Hp]. destruct e as [message|i a|i a|time]; cbn [step concerns].
  - destruct (park_isolated (about message)
                (handleMessage uninit message (EventLoop.client l))
                (EventLoop.client l) (EventLoop.pending l)
                (Local_handleMessage message (EventLoop.client l) Hg) Hp)
      as [Hl Hv].
    split; [exact Hl|]. intros v Hne.
    destruct message as [m|m|u|u command| |]; cbn [about] in *;
      try (apply Hv; congruence); reflexivity.
  - destruct (EventLoop.pending l !! i) as [[u k|u k]|] eqn:E; [|by split..].
    rewrite Forall_lookup in Hp. pose proof (Hp i _ E) as (sas & pas & Ho & Hk).
    destruct (park_isolated u (k a (EventLoop.client l)) (EventLoop.client l)
                (delete i (EventLoop.pending l)))
      as [Hl Hv]; [by apply Hk|apply Forall_delete; by apply Forall_lookup|].
    split; [exact Hl|]. intros v Hne. apply Hv. cbn in Hne. congruence.
  - destruct (EventLoop.pending l !! i) as [[u k|u k]|] eqn:E; [by split| |by split].
    rewrite Forall_lookup in Hp. pose proof (Hp i _ E) as (sas & pas & Ho & Hk).
    destruct (park_isolated u (k a (EventLoop.client l)) (EventLoop.client l)
                (delete i (EventLoop.pending l)))
      as [Hl Hv]; [by apply Hk|apply Forall_delete; by apply Forall_lookup|].
    split; [exact Hl|]. intros v Hne. apply Hv. cbn in Hne. congruence.
  - split; [|done]. split; [done|]. exact Hp.
Qed.

(** X28. Calls are isolated from one another.  In every state the client
    can reach, an event that belongs to one call (a message that names it,
    or the settlement of a promise one of its pipelines waits for) leaves
    everything the client holds for any other call as it was: the session
    and processor objects, the transcription buffer, the playback queue
    and both flags. *)
Theorem calls_are_isolated (events : list Event) (config : Config) (now : Z)
  (e : Event) (v : string) :
  let l := run uninit events {| EventLoop.client := StreamingClient.new config now;
                                EventLoop.pending := [] |} in
  concerns l e <> Some v ->
  view (EventLoop.client (step uninit l e)) v = view (EventLoop.client l) v.
Proof.
  cbn zeta.
  assert (H : LoopIsolated
                (run uninit events {| EventLoop.client := StreamingClient.new config now;
                                      EventLoop.pending := [] |})).
  { unfold run.
    assert (H0 : LoopIsolated {| EventLoop.client := StreamingClient.new config now;
                                 EventLoop.pending := [] |}).
    { split; [|by constructor]. unfold Good. cbn.
      repeat match goal with |- _ /\ _ => split end;
        intros x; rewrite ?lookup_empty;
        first [by intros [? ?] | by intros a]. }
    revert H0. generalize {| EventLoop.client := StreamingClient.new config now;
                             EventLoop.pending := [] |}.
    induction events as [|e' events IH]; intros l Hl; [done|].
    cbn [fold_left]. apply IH. by apply step_isolated. }
  intros Hne. by apply step_isolated.
Qed.

End CallIsolation.

Section CallIsolationExamples.
Import JS StreamingClient Dispatcher Isolation Scenario.

(** Calls "A" and "B" are up; a second of loud audio arrives for "A". *)
Lemma calls_are_isolated_witness :
  let l := run uninit
             [Receive (StreamStart {| start_ucid := "A"; start_language := None;
                                      start_voice := None |});
              Receive (StreamStart {| start_ucid := "B"; start_language := Some "hi"%string;
                                      start_voice := None |})]
             {| EventLoop.client := StreamingClient.new Scenario.config 0;
                EventLoop.pending := [] |} in
  view (EventLoop.client (step uninit l (Receive (AudioChunk (media "A" loud 8000))))) "B"
  = view (EventLoop.client l) "B".
Proof.
  cbn zeta.
  apply (calls_are_isolated uninit
           [Receive (StreamStart {| start_ucid := "A"; start_language := None;
                                    start_voice := None |});
            Receive (StreamStart {| start_ucid := "B"; start_language := Some "hi"%string;
                                    start_voice := None |})]
           Scenario.config 0 (Receive (AudioChunk (media "A" loud 8000))) "B").
  cbn [concerns media m_ucid]. intros [=].
Defined.

End CallIsolationExamples.
(** ** Rounding to binary64 *)

Section Binary64Rounding.
Import Binary64.

Lemma pow2_pos (e : Z) : (0 < 2 ^ e)%Q.
Proof. by apply Qpower_0_lt. Qed.

Lemma pow2_Z (n : Z) : 0 <= n -> (2 ^ n == inject_Z (2 ^ n))%Q.
Proof. intros Hn. by rewrite Zpower_Qpower. Qed.

(** [ilog2] does not overshoot. *)
Lemma ilog2_le (x : Q) : ~ (x == 0)%Q -> (2 ^ ilog2 x <= Qabs x)%Q.
Proof.
  intros Hx. unfold ilog2.
  set (n := Z.abs (Qnum x)). set (d := Z.pos (Qden x)).
  destruct (Qle_bool (2 ^ (Z.log2 n - Z.log2 d)) (Qabs x)) eqn:E.
  - by apply Qle_bool_iff.
  - clear E.
    assert (Hn : 0 < n).
    { unfold n. destruct x as [[|p|p] q]; cbn; [|lia..].
      exfalso. apply Hx. reflexivity. }
    destruct (Z.log2_spec n Hn) as [Hn1 _].
    destruct (Z.log2_spec d ltac:(done)) as [_ Hd2].
    pose proof (Z.log2_nonneg n) as Hln. pose proof (Z.log2_nonneg d) as Hld.
    replace (Z.log2 n - Z.log2 d - 1) with (Z.log2 n - Z.succ (Z.log2 d)) by lia.
    rewrite Qpower_minus by done.
    rewrite (pow2_Z (Z.log2 n)), (pow2_Z (Z.succ (Z.log2 d))) by lia.
    assert (Habs : (Qabs x == inject_Z n / inject_Z d)%Q).
    { destruct x as [a q]. unfold n, d. cbn [Qabs Qnum Qden].
      rewrite (Qmake_Qdiv (Z.abs a) q). reflexivity. }
    rewrite Habs.
    assert (H1 : (inject_Z (2 ^ Z.log2 n) <= inject_Z n)%Q) by (by rewrite <- Zle_Qle).
    assert (H2 : (inject_Z d <= inject_Z (2 ^ Z.succ (Z.log2 d)))%Q)
      by (rewrite <- Zle_Qle; lia).
    assert (H3 : (0 < inject_Z d)%Q) by (by rewrite <- (Zlt_Qlt 0)).
    assert (H4 : (0 < inject_Z (2 ^ Z.log2 n))%Q)
      by (rewrite <- (Zlt_Qlt 0); apply Z.pow_pos_nonneg; lia).
    set (a := inject_Z (2 ^ Z.log2 n)) in *. set (b := inject_Z (2 ^ Z.succ (Z.log2 d))) in *.
    set (n' := inject_Z n) in *. set (d' := inject_Z d) in *.
    apply Qle_shift_div_r; [lra|].
    assert (E : (n' / d' * b == n' * b / d')%Q) by (field; lra).
    rewrite E. apply Qle_shift_div_l; [done|]. nra.
Qed.

Lemma nearestEven_error (y : Q) :
  (- (1 # 2) <= inject_Z (nearestEven y) - y <= 1 # 2)%Q.
Proof.
  unfold nearestEven.
  pose proof (Qfloor_le y) as Hlo. pose proof (Qlt_floor y) as Hhi.
  rewrite inject_Z_plus in Hhi. change (inject_Z 1) with 1%Q in Hhi.
  destruct (Qcompare_spec (y - inject_Z (Qfloor y)) (1 # 2)) as [E|E|E].
  - destruct (Z.even _); rewrite ?inject_Z_plus; change (inject_Z 1) with 1%Q; lra.
  - lra.
  - rewrite inject_Z_plus. change (inject_Z 1) with 1%Q. lra.
Qed.

(** The error of one rounding: at most the relative [unitRoundoff], or in
    the subnormal range the absolute [tiny]. *)
Lemma round_error (x : Q) :
  (Qabs (round x - x) <= Qabs x * unitRoundoff + tiny)%Q.
Proof.
  assert (Htiny : (0 < tiny)%Q) by apply pow2_pos.
  unfold round. destruct (Qeq_bool x 0) eqn:E.
  - apply Qeq_bool_iff in E. rewrite E.
    change (Qabs (0 - 0)) with 0%Q. change (Qabs 0) with 0%Q. lra.
  - assert (Hx : ~ (x == 0)%Q) by (intros H; apply Qeq_bool_iff in H; congruence).
    clear E.
    set (e := lastPlace x). set (P := (2 ^ e)%Q).
    assert (HP : (0 < P)%Q) by apply pow2_pos.
    pose proof (nearestEven_error (x / P)) as Hr.
    set (r := inject_Z (nearestEven (x / P))) in *.
    assert (Hd : (r * P - x == (r - x / P) * P)%Q) by (field; lra).
    rewrite Hd, Qabs_Qmult, (Qabs_pos P) by lra.
    assert (Hab : (Qabs (r - x / P) <= 1 # 2)%Q)
      by (apply Qabs_Qle_condition; split; lra).
    assert (Hhalf : (P * (1 # 2) <= Qabs x * unitRoundoff + tiny)%Q).
    { pose proof (Qabs_nonneg x) as Hax.
      unfold P, e, lastPlace.
      destruct (Z.max_spec (ilog2 x - 52) (-1074)) as [[_ ->]|[_ ->]].
      - change (2 ^ (-1074) * (1 # 2))%Q with tiny.
        assert (0 <= Qabs x * unitRoundoff)%Q by (unfold unitRoundoff; nra).
        lra.
      - pose proof (ilog2_le x Hx) as Hl.
        rewrite Qpower_minus by done.
        change (2 ^ 52)%Q with (inject_Z 4503599627370496).
        unfold unitRoundoff.
        assert (E : (2 ^ ilog2 x / inject_Z 4503599627370496 * (1 # 2)
                     == 2 ^ ilog2 x * (1 # 9007199254740992))%Q) by (field; done).
        rewrite E. nra. }
    assert (Hmul : (Qabs (r - x / P) * P <= (1 # 2) * P)%Q)
      by (apply Qmult_le_compat_r; lra).
    lra.
Qed.

End Binary64Rounding.

Section Binary64Hardware.
Import Hardware PrimFloat.

(** The rounding of the model against the kernel's binary64 arithmetic, on
    the operations of the two fades where the exact value is a tie, and on
    a tie between two doubles. *)
Lemma binary64_agrees_with_primitive :
  agree (Binary64.div 5 6) (5 / 6)%float = true
  /\ agree (Binary64.sub 1 (Binary64.div 5 6)) (1 - 5 / 6)%float = true
  /\ agree (Binary64.mul 3 (Binary64.sub 1 (Binary64.div 5 6)))
           (3 * (1 - 5 / 6))%float = true
  /\ agree (Binary64.div 1 20) (1 / 20)%float = true
  /\ agree (Binary64.add (Binary64.mul 1 (Binary64.sub 1 (Binary64.div 1 20)))
                         (Binary64.mul (-289) (Binary64.div 1 20)))
           (1 * (1 - 1 / 20) + -289 * (1 / 20))%float = true
  /\ agree (Binary64.div 1 3) (1 / 3)%float = true
  /\ agree (Binary64.round 9007199254740993) (9007199254740992 + 1)%float = true.
Proof. repeat split; vm_compute; reflexivity. Qed.

End Binary64Hardware.

(** ** How far a rounded computation strays *)

Section RoundingErrors.
Import JS Binary64 Spec.

(** A rounded value is as near to the exact one as its argument was, up to
    one rounding error. *)
Lemma round_near (x y d B : Q) :
  (Qabs (x - y) <= d)%Q -> (Qabs y <= B)%Q ->
  (Qabs (round x - y) <= d + (B + d) * unitRoundoff + tiny)%Q.
Proof.
  intros Hxy Hy.
  pose proof (round_error x) as Hr.
  assert (Hx : (Qabs x <= B + d)%Q).
  { assert (E : (x == y + (x - y))%Q) by ring.
    rewrite E. eapply Qle_trans; [apply Qabs_triangle|]. lra. }
  assert (E : (round x - y == (round x - x) + (x - y))%Q) by ring.
  rewrite E. eapply Qle_trans; [apply Qabs_triangle|].
  assert (Hu : (0 <= unitRoundoff)%Q) by done.
  assert (Qabs x * unitRoundoff <= (B + d) * unitRoundoff)%Q
    by (apply Qmult_le_compat_r; done).
  lra.
Qed.

Lemma scale_near (a x y d M : Q) :
  (Qabs a <= M)%Q -> (Qabs (x - y) <= d)%Q ->
  (Qabs (a * x - a * y) <= M * d)%Q.
Proof.
  intros Ha Hxy.
  assert (E : (a * x - a * y == a * (x - y))%Q) by ring.
  rewrite E, Qabs_Qmult.
  pose proof (Qabs_nonneg a). pose proof (Qabs_nonneg (x - y)).
  apply Qmult_le_compat_nonneg; split; done.
Qed.

Lemma Qabs_inject_int32 (s : Z) : int32 s -> (Qabs (inject_Z s) <= 2147483648)%Q.
Proof.
  intros [Hlo Hhi]. apply Qabs_Qle_condition.
  change (- (2147483648))%Q with (inject_Z (-2147483648)).
  change 2147483648%Q with (inject_Z 2147483648).
  rewrite <- !Zle_Qle. lia.
Qed.

(** The fraction [i / n] of an index below [n]. *)
Lemma fraction_bounds (i n : nat) :
  (i < n)%nat ->
  (0 <= inject_Z (Z.of_nat i) / inject_Z (Z.of_nat n) <= 1)%Q.
Proof.
  intros Hi.
  assert (Hn : (0 < inject_Z (Z.of_nat n))%Q) by (rewrite <- (Zlt_Qlt 0); lia).
  assert (H0 : (0 <= inject_Z (Z.of_nat i))%Q) by (rewrite <- (Zle_Qle 0); lia).
  assert (H1 : (inject_Z (Z.of_nat i) <= inject_Z (Z.of_nat n))%Q)
    by (rewrite <- Zle_Qle; lia).
  split.
  - apply Qle_shift_div_l; [done|]. lra.
  - apply Qle_shift_div_r; [done|]. lra.
Qed.

(** The computed fade factor [1 - i / n]. *)
Lemma factor_near (i n : nat) :
  (i < n)%nat ->
  let q := (inject_Z (Z.of_nat i) / inject_Z (Z.of_nat n))%Q in
  (Qabs (div (inject_Z (Z.of_nat i)) (inject_Z (Z.of_nat n)) - q)
   <= unitRoundoff + tiny)%Q
  /\ (Qabs (sub 1 (div (inject_Z (Z.of_nat i)) (inject_Z (Z.of_nat n))) - (1 - q))
      <= 3 * unitRoundoff + 3 * tiny)%Q.
Proof.
  intros Hi q. pose proof (fraction_bounds i n Hi) as Hq. fold q in Hq.
  assert (Htiny : (tiny <= 1)%Q) by (by vm_compute).
  assert (Hu : (unitRoundoff <= 1)%Q) by (by vm_compute).
  assert (Htiny0 : (0 <= tiny)%Q) by (by vm_compute).
  assert (Hu0 : (0 <= unitRoundoff)%Q) by (by vm_compute).
  assert (H1 : (Qabs (div (inject_Z (Z.of_nat i)) (inject_Z (Z.of_nat n)) - q)
                <= unitRoundoff + tiny)%Q).
  { unfold div. fold q.
    pose proof (round_near q q 0 1) as H.
    assert (E : (Qabs (q - q) <= 0)%Q).
    { assert (E : (q - q == 0)%Q) by ring. by rewrite E. }
    specialize (H E). rewrite Qabs_pos in H by lra. specialize (H ltac:(lra)).
    lra. }
  split; [exact H1|].
  unfold sub.
  set (t := div (inject_Z (Z.of_nat i)) (inject_Z (Z.of_nat n))) in *.
  pose proof (round_near (1 - t) (1 - q) (unitRoundoff + tiny) 1) as H.
  assert (E : (Qabs (1 - t - (1 - q)) <= unitRoundoff + tiny)%Q).
  { assert (E : (1 - t - (1 - q) == - (t - q))%Q) by ring.
    by rewrite E, Qabs_opp. }
  specialize (H E). rewrite Qabs_pos in H by lra. specialize (H ltac:(lra)).
  assert ((unitRoundoff + tiny) * unitRoundoff <= unitRoundoff + tiny)%Q by nra.
  lra.
Qed.

(** The double that [_applyFadeoutPadding] rounds is within a hundred-thousandth of
    the exact value of the fade. *)
Lemma faded_near (lastValue : Z) (i n : nat) :
  int32 lastValue -> (i < n)%nat ->
  let x := (inject_Z lastValue
            * (1 - inject_Z (Z.of_nat i) / inject_Z (Z.of_nat n)))%Q in
  (Qabs (mul (inject_Z lastValue)
             (sub 1 (div (inject_Z (Z.of_nat i)) (inject_Z (Z.of_nat n)))) - x)
   <= 1 # 100000)%Q.
Proof.
  intros HL Hi x. unfold x. clear x.
  pose proof (fraction_bounds i n Hi) as Hq.
  destruct (factor_near i n Hi) as [_ Hw]. cbn zeta in Hw.
  set (q := (inject_Z (Z.of_nat i) / inject_Z (Z.of_nat n))%Q) in *.
  set (w := sub 1 (div (inject_Z (Z.of_nat i)) (inject_Z (Z.of_nat n)))) in *.
  pose proof (Qabs_inject_int32 lastValue HL) as HM.
  set (L := inject_Z lastValue) in *.
  pose proof (scale_near L w (1 - q) _ _ HM Hw) as Hp.
  assert (Hx : (Qabs (L * (1 - q)) <= 2147483648)%Q).
  { rewrite Qabs_Qmult, (Qabs_pos (1 - q)) by lra.
    pose proof (Qabs_nonneg L). nra. }
  pose proof (round_near (L * w) (L * (1 - q)) _ _ Hp Hx) as Hd.
  unfold mul. eapply Qle_trans; [exact Hd|]. by vm_compute.
Qed.

(** The double that [_applyCrossfade] rounds is within a hundred-thousandth of the
    exact point on the line. *)
Lemma blend_near (lastSample sample : Z) (i n : nat) :
  int32 lastSample -> int32 sample -> (i < n)%nat ->
  let q := (inject_Z (Z.of_nat i) / inject_Z (Z.of_nat n))%Q in
  let t := div (inject_Z (Z.of_nat i)) (inject_Z (Z.of_nat n)) in
  (Qabs (add (mul (inject_Z lastSample) (sub 1 t)) (mul (inject_Z sample) t)
         - (inject_Z lastSample * (1 - q) + inject_Z sample * q))
   <= 1 # 100000)%Q.
Proof.
  intros HL Hs Hi q t.
  pose proof (fraction_bounds i n Hi) as Hq. fold q in Hq.
  destruct (factor_near i n Hi) as [Ht Hw]. cbn zeta in Ht, Hw. fold q t in Ht, Hw.
  pose proof (Qabs_inject_int32 lastSample HL) as HML.
  pose proof (Qabs_inject_int32 sample Hs) as HMs.
  set (L := inject_Z lastSample) in *. set (s := inject_Z sample) in *.
  set (w := sub 1 t) in *.
  pose proof (scale_near L w (1 - q) _ _ HML Hw) as Hp1.
  pose proof (scale_near s t q _ _ HMs Ht) as Hp2.
  assert (Hx1 : (Qabs (L * (1 - q)) <= 2147483648)%Q).
  { rewrite Qabs_Qmult, (Qabs_pos (1 - q)) by lra.
    pose proof (Qabs_nonneg L). nra. }
  assert (Hx2 : (Qabs (s * q) <= 2147483648)%Q).
  { rewrite Qabs_Qmult, (Qabs_pos q) by lra.
    pose proof (Qabs_nonneg s). nra. }
  pose proof (round_near (L * w) (L * (1 - q)) _ _ Hp1 Hx1) as Ha.
  pose proof (round_near (s * t) (s * q) _ _ Hp2 Hx2) as Hb.
  fold (mul L w) in Ha. fold (mul s t) in Hb.
  set (a := mul L w) in *. set (b := mul s t) in *.
  set (da := (2147483648 * (3 * unitRoundoff + 3 * tiny)
              + (2147483648 + 2147483648 * (3 * unitRoundoff + 3 * tiny)) * unitRoundoff
              + tiny)%Q) in *.
  set (db := (2147483648 * (unitRoundoff + tiny)
              + (2147483648 + 2147483648 * (unitRoundoff + tiny)) * unitRoundoff
              + tiny)%Q) in *.
  assert (Hsum : (Qabs (a + b - (L * (1 - q) + s * q)) <= da + db)%Q).
  { assert (E : (a + b - (L * (1 - q) + s * q)
                 == (a - L * (1 - q)) + (b - s * q))%Q) by ring.
    rewrite E. eapply Qle_trans; [apply Qabs_triangle|]. lra. }
  assert (Hx : (Qabs (L * (1 - q) + s * q) <= 4294967296)%Q).
  { eapply Qle_trans; [apply Qabs_triangle|]. lra. }
  pose proof (round_near (a + b) _ _ _ Hsum Hx) as Hc.
  unfold add. eapply Qle_trans; [exact Hc|]. by vm_compute.
Qed.

(** Rounding a number that is near a fraction with denominator [n]: the
    result is the rounding of the fraction, unless the fraction lies
    halfway between two integers, where it can also be the integer below. *)
Lemma Math_round_near_fraction (p : Z) (n : positive) (d : Q) :
  (Qabs (d - (p # n)) < 1 # (2 * n))%Q ->
  Math_round d = Math_round (p # n)
  \/ (halfway (p # n) /\ Math_round d = Math_round (p # n) - 1).
Proof.
  intros Hd.
  apply Qabs_Qlt_condition in Hd as [Hd1 Hd2].
  assert (Hstep : (0 < 1 # (2 * n))%Q) by done.
  assert (Hstep1 : ((1 # (2 * n)) <= 1 # 2)%Q).
  { unfold Qle. cbn [Qnum Qden]. lia. }
  assert (Hgrid : ((p # n) + (1 # 2) == (2 * p + Z.pos n) # (2 * n))%Q).
  { unfold Qeq, Qplus. cbn [Qnum Qden]. lia. }
  assert (Hone : forall k : Z,
            (inject_Z k < (2 * p + Z.pos n) # (2 * n)
             -> inject_Z k + (1 # (2 * n)) <= (2 * p + Z.pos n) # (2 * n))%Q).
  { intros k. unfold Qlt, Qle, Qplus. cbn [Qnum Qden inject_Z].
    rewrite !Pos2Z.inj_mul. intros H.
    assert (k * (2 * Z.pos n) + 1 <= 2 * p + Z.pos n) by lia. nia. }
  assert (Htwo : forall k : Z,
            ((2 * p + Z.pos n) # (2 * n) < inject_Z k + 1
             -> (2 * p + Z.pos n) # (2 * n) <= inject_Z k + 1 - (1 # (2 * n)))%Q).
  { intros k. unfold Qlt, Qle, Qminus, Qopp, Qplus. cbn [Qnum Qden inject_Z].
    rewrite ?Pos2Z.inj_mul. intros H.
    assert (2 * p + Z.pos n + 1 <= (k + 1) * (2 * Z.pos n)) by lia. nia. }
  set (h := (1 # (2 * n))%Q) in *.
  set (g := ((2 * p + Z.pos n) # (2 * n))%Q) in *.
  clearbody h g.
  set (x := (p # n)%Q) in *. set (k := Math_round x).
  destruct (Math_round_bounds x) as [Hlo Hhi]. fold k in Hlo, Hhi.
  destruct (Qeq_dec (inject_Z k) (x + (1 # 2))) as [Ehalf|Nhalf].
  - destruct (Qlt_le_dec (d + (1 # 2)) (inject_Z k)) as [Hbelow|Habove].
    + right. split; [exact Ehalf|].
      unfold Math_round at 1. apply Qfloor_unique.
      * unfold Z.sub. rewrite inject_Z_plus. change (inject_Z (- (1))) with (-1)%Q. lra.
      * replace (k - 1 + 1) with k by lia. exact Hbelow.
    + left. unfold Math_round at 1. apply Qfloor_unique; [done|].
      rewrite inject_Z_plus. change (inject_Z 1) with 1%Q. lra.
  - left. unfold Math_round at 1.
    assert (Hlo' : (inject_Z k + h <= x + (1 # 2))%Q).
    { assert (Hlt : (inject_Z k < x + (1 # 2))%Q).
      { apply Qle_lteq in Hlo as [Hlt|Heq]; [done|by destruct Nhalf]. }
      rewrite Hgrid in Hlt |- *. by apply Hone. }
    assert (Hhi' : (x + (1 # 2) <= inject_Z k + 1 - h)%Q).
    { rewrite Hgrid in Hhi |- *. by apply Htwo. }
    apply Qfloor_unique; [lra|].
    rewrite inject_Z_plus. change (inject_Z 1) with 1%Q. lra.
Qed.

End RoundingErrors.

(** ** The shaping as the engine computes it *)

Section Shaping64.
Import JS StreamServer Spec.

Lemma halfway_Qeq (x y : Q) : (x == y)%Q -> halfway x -> halfway y.
Proof.
  unfold halfway. intros E H. rewrite <- (Math_round_Qeq x y E). by rewrite <- E.
Qed.

(** Rounding a double that is within a hundred-thousandth of a fraction
    with a denominator of at most 400. *)
Lemma Math_round_near (x d : Q) (p : Z) (n : positive) :
  (x == p # n)%Q -> (n <= 400)%positive -> (Qabs (d - x) <= 1 # 100000)%Q ->
  Math_round d = Math_round x
  \/ (halfway x /\ Math_round d = Math_round x - 1).
Proof.
  intros E Hn Hd. rewrite (Math_round_Qeq x (p # n) E).
  destruct (Math_round_near_fraction p n d) as [H|[H1 H2]].
  - rewrite <- E. eapply Qle_lt_trans; [exact Hd|].
    unfold Qlt. cbn [Qnum Qden]. lia.
  - by left.
  - right. split; [|done]. eapply halfway_Qeq; [|exact H1]. by symmetry.
Qed.

(** The exact value of the fade at pad index [i] is a fraction over the
    pad length. *)
Lemma fade_fraction (lastValue : Z) (i n : nat) :
  (i < n)%nat ->
  (inject_Z lastValue * (1 - inject_Z (Z.of_nat i) / inject_Z (Z.of_nat n))
   == (lastValue * (Z.of_nat n - Z.of_nat i)) # Pos.of_nat n)%Q.
Proof.
  intros Hi. rewrite (Qmake_Qdiv (lastValue * (Z.of_nat n - Z.of_nat i)) (Pos.of_nat n)).
  replace (Z.pos (Pos.of_nat n)) with (Z.of_nat n) by lia.
  assert (Hn : ~ (inject_Z (Z.of_nat n) == 0)%Q).
  { intros E. unfold Qeq in E. cbn in E. lia. }
  rewrite inject_Z_mult. unfold Z.sub.
  rewrite inject_Z_plus, inject_Z_opp. field. exact Hn.
Qed.

Lemma line_fraction (a b : Z) (i n : nat) :
  (i < n)%nat ->
  (inject_Z a * (1 - inject_Z (Z.of_nat i) / inject_Z (Z.of_nat n))
   + inject_Z b * (inject_Z (Z.of_nat i) / inject_Z (Z.of_nat n))
   == (a * (Z.of_nat n - Z.of_nat i) + b * Z.of_nat i) # Pos.of_nat n)%Q.
Proof.
  intros Hi.
  rewrite (Qmake_Qdiv (a * (Z.of_nat n - Z.of_nat i) + b * Z.of_nat i) (Pos.of_nat n)).
  replace (Z.pos (Pos.of_nat n)) with (Z.of_nat n) by lia.
  assert (Hn : ~ (inject_Z (Z.of_nat n) == 0)%Q).
  { intros E. unfold Qeq in E. cbn in E. lia. }
  rewrite inject_Z_plus, !inject_Z_mult. unfold Z.sub.
  rewrite inject_Z_plus, inject_Z_opp. field. exact Hn.
Qed.

Lemma Pos_of_nat_le (n m : nat) :
  (0 < n <= m)%nat -> (Pos.of_nat n <= Pos.of_nat m)%positive.
Proof. intros H. lia. Qed.

(** What the binary64 crossfade writes, against the exact line. *)
Lemma onLine64_near (a b : Z) (i n : nat) :
  int32 a -> int32 b -> (i < n <= 400)%nat ->
  let x := (inject_Z a * (1 - inject_Z (Z.of_nat i) / inject_Z (Z.of_nat n))
            + inject_Z b * (inject_Z (Z.of_nat i) / inject_Z (Z.of_nat n)))%Q in
  onLine64 a b i n = Math_round x
  \/ (halfway x /\ onLine64 a b i n = Math_round x - 1).
Proof.
  intros Ha Hb [Hi Hn] x. unfold onLine64.
  eapply Math_round_near.
  - by apply line_fraction.
  - change 400%positive with (Pos.of_nat 400). apply Pos_of_nat_le. lia.
  - by apply blend_near.
Qed.

(** What the binary64 fade pushes, against the exact fade. *)
Lemma fadePad64_near (lastValue : Z) (n i : nat) (v : Z) :
  int32 lastValue -> (n <= 400)%nat ->
  fadePad64 lastValue n !! i = Some v ->
  let x := (inject_Z lastValue
            * (1 - inject_Z (Z.of_nat i) / inject_Z (Z.of_nat n)))%Q in
  v = Math_round x \/ (halfway x /\ v = Math_round x - 1).
Proof.
  intros HL Hn Hv x. unfold fadePad64 in Hv.
  rewrite list_lookup_fmap in Hv.
  destruct (seq 0 n !! i) as [j|] eqn:Hj; [|done].
  apply lookup_seq in Hj as [-> Hi]. cbn [Nat.add] in Hv.
  cbn [fmap option_fmap option_map] in Hv. injection Hv as <-.
  eapply Math_round_near.
  - by apply fade_fraction.
  - change 400%positive with (Pos.of_nat 400). apply Pos_of_nat_le. lia.
  - by apply faded_near.
Qed.

(** The fade starts at the last value itself. *)
Lemma fadePad64_head (lastValue : Z) (n : nat) :
  int32 lastValue -> (0 < n)%nat ->
  fadePad64 lastValue n !! 0%nat = Some lastValue.
Proof.
  intros HL Hn. unfold fadePad64.
  rewrite list_lookup_fmap, lookup_seq_lt by done.
  cbn [fmap option_fmap option_map Nat.add]. f_equal.
  pose proof (faded_near lastValue 0 n HL Hn) as Hd. cbn zeta in Hd.
  apply Qabs_Qle_condition in Hd as [Hd1 Hd2].
  assert (E : (inject_Z lastValue
               * (1 - inject_Z (Z.of_nat 0) / inject_Z (Z.of_nat n))
               == inject_Z lastValue)%Q).
  { change (inject_Z (Z.of_nat 0)) with 0%Q. unfold Qdiv. ring. }
  rewrite E in Hd1, Hd2.
  unfold Math_round. apply Qfloor_unique.
  - lra.
  - rewrite inject_Z_plus. change (inject_Z 1) with 1%Q. lra.
Qed.

Lemma removeDCOffset64_length (samples : list Z) :
  length (StreamServer64._removeDCOffset samples) = length samples.
Proof.
  unfold StreamServer64._removeDCOffset. destruct samples; [done|].
  by rewrite length_map.
Qed.

Lemma applyCrossfade64_length (ucid : string) (samples : list Z) (st : StreamServer.t) :
  length (fst (StreamServer64._applyCrossfade ucid samples st)) = length samples.
Proof.
  unfold StreamServer64._applyCrossfade. destruct samples as [|x rest]; [done|].
  destruct (_ =? 0); [done|]. cbn [fst].
  by apply (fold_insert_lookup _ _ (x :: rest)); lia.
Qed.

Lemma applyCrossfade64_state (ucid : string) (samples : list Z) (st : StreamServer.t) :
  samples <> [] ->
  snd (StreamServer64._applyCrossfade ucid samples st)
  = {| sockets := sockets st; ucidToConnection := ucidToConnection st;
       _lastSamples := Some (default ∅ (_lastSamples st)) |}.
Proof.
  unfold StreamServer64._applyCrossfade. destruct samples as [|x rest]; [done|].
  intros _. by destruct (_ =? 0).
Qed.

(** C4. With a non-zero stored last sample [L], the first
    [min(20, length)] output samples are
    [round(L*(1-t) + S[i]*t)], [t = i/fadeLength], computed in binary64,
    the rest of the chunk is unchanged, and the length is preserved; with
    [L = 0] or nothing stored the chunk is returned as it is.  For 32-bit
    values the binary64 result is the rounding of the exact point on the
    line from [L] to [S[i]], except that where this point lies exactly
    halfway between two integers it can also be the integer below. *)
Theorem applyCrossfade_spec (ucid : string) (samples : list Z) (st : StreamServer.t) :
  let L := default 0 (storedLastSample st ucid) in
  let out := fst (StreamServer64._applyCrossfade ucid samples st) in
  let fadeLength := Nat.min 20 (length samples) in
  (L <> 0 ->
     length out = length samples
     /\ (forall i s, (i < fadeLength)%nat -> samples !! i = Some s ->
           let t := (inject_Z (Z.of_nat i) / inject_Z (Z.of_nat fadeLength))%Q in
           let x := (inject_Z L * (1 - t) + inject_Z s * t)%Q in
           out !! i = Some (onLine64 L s i fadeLength)
           /\ (int32 L -> int32 s ->
               onLine64 L s i fadeLength = onLine L s t
               \/ (halfway x /\ onLine64 L s i fadeLength = onLine L s t - 1)))
     /\ (forall i, (fadeLength <= i)%nat -> out !! i = samples !! i))
  /\ (L = 0 -> out = samples).
Proof.
  cbn zeta.
  assert (HL : default 0 (storedLastSample st ucid)
               = default 0 (default ∅ (_lastSamples st) !! ucid)).
  { unfold storedLastSample. destruct (_lastSamples st); cbn; [done|].
    by rewrite lookup_empty. }
  rewrite HL. unfold StreamServer64._applyCrossfade.
  destruct samples as [|x rest]; [by cbn; intuition (try (rewrite ?lookup_nil; done))|].
  set (samples := x :: rest).
  set (L := default 0 (default ∅ (_lastSamples st) !! ucid)).
  destruct (Z.eqb_spec L 0) as [E|E]; cbn [fst]; [by split|].
  split; [intros _|done].
  pose proof (fold_insert_lookup
                (StreamServer64.blend L samples (Nat.min 20 (length samples)))
                (Nat.min 20 (length samples)) samples ltac:(lia)) as [Hlen Hget].
  split; [exact Hlen|]. split.
  - intros i s Hi Hs. split.
    + rewrite Hget.
      destruct (Nat.ltb_spec i (Nat.min 20 (length samples))); [|lia].
      unfold StreamServer64.blend, onLine64. by rewrite Hs.
    + intros H1 H2. apply (onLine64_near L s i (Nat.min 20 (length samples)) H1 H2).
      lia.
  - intros i Hi. rewrite Hget.
    destruct (Nat.ltb_spec i (Nat.min 20 (length samples))); [lia|done].
Qed.

(** A stored sample of 1 in front of a chunk of -289: the exact line passes
    through -13.5 at index 1 and through -158.5 at index 11, and the
    binary64 sums fall just below. *)
Lemma applyCrossfade_spec_witness :
  let st := {| sockets := ∅; ucidToConnection := ∅;
               _lastSamples := Some {[ "A"%string := 1 ]} |} in
  let out := fst (StreamServer64._applyCrossfade "A" (replicate 25 (-289)) st) in
  length out = 25%nat
  /\ out !! 0%nat = Some 1
  /\ out !! 1%nat = Some (-14)
  /\ (halfway (inject_Z 1 * (1 - 1 / 20) + inject_Z (-289) * (1 / 20))
      /\ onLine 1 (-289) (1 / 20) = -13)
  /\ out !! 20%nat = Some (-289)
  /\ fst (StreamServer64._applyCrossfade "B" (replicate 25 (-289)) st)
     = replicate 25 (-289).
Proof.
  intros st. cbn zeta.
  destruct (applyCrossfade_spec "A" (replicate 25 (-289)) st)
    as [[Hlen [Hfade Hrest]] _]; [vm_compute; discriminate|].
  destruct (applyCrossfade_spec "B" (replicate 25 (-289)) st) as [_ Hsame].
  destruct (Hfade 0%nat (-289)) as [H0 _]; [vm_compute; lia|reflexivity|].
  destruct (Hfade 1%nat (-289)) as [H1 H1']; [vm_compute; lia|reflexivity|].
  split; [exact Hlen|].
  split; [rewrite H0; by vm_compute|].
  split; [rewrite H1; by vm_compute|].
  split; [split; by vm_compute|].
  split; [rewrite Hrest by (vm_compute; lia); reflexivity|].
  apply Hsame. reflexivity.
Defined.

End Shaping64.

Section Packetization64.
Import JS StreamServer Spec.

Lemma applyFadeoutPadding64_short (chunk : list Z) :
  (length chunk < 400)%nat ->
  StreamServer64._applyFadeoutPadding chunk 400
  = chunk ++ fadePad64 (default 0 (last chunk)) (400 - length chunk).
Proof.
  intros Hlen. unfold StreamServer64._applyFadeoutPadding.
  destruct (Nat.leb_spec 400 (length chunk)); [lia|].
  rewrite fold_push. reflexivity.
Qed.

Lemma length_fadePad64 v n : length (fadePad64 v n) = n.
Proof. unfold fadePad64. by rewrite length_map, length_seq. Qed.

Lemma length_packetSamples64 shaped k : length (packetSamples64 shaped k) = 400%nat.
Proof.
  unfold packetSamples64. rewrite length_app, length_fadePad64, length_realSamples. lia.
Qed.

Lemma loop_chunk64 shaped k :
  (400 * k < length shaped)%nat ->
  let chunk := slice (400 * k) (400 * k + PACKET_SIZE) shaped in
  (if (length chunk <? PACKET_SIZE)%nat
   then StreamServer64._applyFadeoutPadding chunk PACKET_SIZE else chunk)
  = packetSamples64 shaped k.
Proof.
  intros Hk. cbn zeta. unfold slice, PACKET_SIZE.
  replace (400 * k + 400 - 400 * k)%nat with 400%nat by lia.
  fold (realSamples shaped k). unfold packetSamples64.
  pose proof (length_realSamples shaped k) as Hlen.
  destruct (Nat.ltb_spec (length (realSamples shaped k)) 400) as [Hshort|Hfull].
  - rewrite applyFadeoutPadding64_short by done.
    rewrite last_realSamples by lia. reflexivity.
  - replace (400 - length (realSamples shaped k))%nat with 0%nat by lia.
    cbn. by rewrite app_nil_r.
Qed.

Lemma sendLoop64_spec ucid shaped : forall fuel k ws count,
  (ceilDiv (length shaped) 400 - k <= fuel)%nat ->
  StreamServer64.sendLoop fuel ucid shaped (400 * k) ws count
  = Some ({| readyState := readyState ws;
             sent := sent ws
                     ++ map (fun j => mediaPacket ucid (packetSamples64 shaped j))
                            (seq k (ceilDiv (length shaped) 400 - k)) |},
          count + Z.of_nat (ceilDiv (length shaped) 400 - k)).
Proof.
  induction fuel as [|fuel IH]; intros k ws count Hfuel.
  - assert (Hk : ~ (k < ceilDiv (length shaped) 400)%nat) by lia.
    rewrite ceilDiv_spec in Hk. cbn [StreamServer64.sendLoop].
    destruct (Nat.ltb_spec (400 * k) (length shaped)); [lia|].
    replace (ceilDiv (length shaped) 400 - k)%nat with 0%nat by lia.
    cbn. rewrite app_nil_r, Z.add_0_r. by destruct ws.
  - cbn [StreamServer64.sendLoop].
    destruct (Nat.ltb_spec (400 * k) (length shaped)) as [Hk|Hk].
    + rewrite loop_chunk64 by done. rewrite length_packetSamples64.
      change (400 =? PACKET_SIZE)%nat with true. cbn iota.
      replace (400 * k + PACKET_SIZE)%nat with (400 * S k)%nat
        by (unfold PACKET_SIZE; lia).
      apply ceilDiv_spec in Hk.
      rewrite IH by lia. cbn [send readyState sent].
      replace (ceilDiv (length shaped) 400 - k)%nat
        with (S (ceilDiv (length shaped) 400 - S k)) by lia.
      cbn [seq map]. rewrite <- app_assoc. cbn [app].
      do 2 f_equal. lia.
    + assert (Hk' : ~ (k < ceilDiv (length shaped) 400)%nat)
        by (rewrite ceilDiv_spec; lia).
      replace (ceilDiv (length shaped) 400 - k)%nat with 0%nat by lia.
      cbn. rewrite app_nil_r, Z.add_0_r. by destruct ws.
Qed.

(** C3. With a live connection, a non-empty array whose shaped form has
    [N] samples is sent as exactly [ceil(N/400)] packets.  Packet [k]
    carries the real samples [400 k .. 400 k + 399] of the shaped array
    and has exactly 400 samples; only the last packet can be short of real
    samples, and it is completed by the fade
    [round(lastValue * (1 - i / padLength))], computed in binary64.  For a
    32-bit last value the fade starts at the last real sample itself, and
    each of its values is the rounding of the exact
    [lastValue * (1 - i / padLength)], except that where this number lies
    exactly halfway between two integers it can also be the integer
    below. *)
Theorem sendAudio_packetization (ucid : string) (samples : list Z)
  (st : StreamServer.t) (addr : nat) (ws : WebSocket) :
  samples <> [] ->
  connection st ucid = Some (addr, ws) ->
  readyState ws = OPEN ->
  let shaped := fst (StreamServer64._applyCrossfade ucid
                       (StreamServer64._removeDCOffset samples) st) in
  let N := length shaped in
  exists st' packets,
    StreamServer64.sendAudioToOzonetel ucid samples st = Some (true, st')
    /\ sockets st' !! addr
       = Some {| readyState := OPEN; sent := sent ws ++ packets |}
    /\ N = length samples
    /\ length packets = ceilDiv N 400
    /\ forall k p, packets !! k = Some p ->
         let real := realSamples shaped k in
         let lastValue := default 0 (last shaped) in
         let padLength := (400 - length real)%nat in
         p_ucid p = ucid
         /\ p_samples p = real ++ fadePad64 lastValue padLength
         /\ length (p_samples p) = 400%nat
         /\ p_numberOfFrames p = 400
         /\ length real = Nat.min 400 (N - 400 * k)
         /\ (padLength <> 0%nat -> k = (ceilDiv N 400 - 1)%nat)
         /\ (int32 lastValue ->
             (padLength <> 0%nat -> p_samples p !! length real = Some lastValue)
             /\ forall i v, p_samples p !! (length real + i)%nat = Some v ->
                  let x := (inject_Z lastValue
                            * (1 - inject_Z (Z.of_nat i)
                                   / inject_Z (Z.of_nat padLength)))%Q in
                  v = Math_round x \/ (halfway x /\ v = Math_round x - 1)).
Proof.
  intros Hne Hconn Hopen. cbn zeta.
  assert (Hclean : StreamServer64._removeDCOffset samples <> []).
  { intros E. apply (f_equal length) in E.
    rewrite removeDCOffset64_length in E. by destruct samples. }
  unfold StreamServer64.sendAudioToOzonetel. rewrite Hconn, Hopen.
  change (negb (OPEN =? OPEN)) with false. cbn iota.
  pose proof (applyCrossfade64_length ucid (StreamServer64._removeDCOffset samples) st)
    as Hlen.
  pose proof (applyCrossfade64_state ucid (StreamServer64._removeDCOffset samples) st
                Hclean) as Hst.
  destruct (StreamServer64._applyCrossfade ucid
              (StreamServer64._removeDCOffset samples) st) as [shaped st1].
  cbn [fst snd] in *. subst st1.
  rewrite removeDCOffset64_length in Hlen.
  pose proof (sendLoop64_spec ucid shaped (length shaped) 0 ws 0) as Hloop.
  change (400 * 0)%nat with 0%nat in Hloop.
  rewrite Hloop by (pose proof (ceilDiv_le (length shaped)); lia). clear Hloop.
  cbn [mbind option_bind].
  destruct (Nat.ltb_spec 0 (length shaped)) as [_|Hz];
    [|destruct samples; [done|cbn in Hlen; lia]].
  rewrite Nat.sub_0_r.
  eexists _, _. split; [reflexivity|].
  cbn [sockets]. rewrite lookup_insert_eq, Hopen.
  split; [reflexivity|]. split; [exact Hlen|].
  split; [by rewrite length_map, length_seq|].
  intros k p Hp. cbn zeta.
  rewrite list_lookup_fmap in Hp.
  destruct (seq 0 (ceilDiv (length shaped) 400) !! k) as [j|] eqn:Hj; [|done].
  change (Some (mediaPacket ucid (packetSamples64 shaped j)) = Some p) in Hp.
  injection Hp as <-. apply lookup_seq in Hj as [-> Hk]. cbn [Nat.add].
  cbn [p_ucid p_samples p_numberOfFrames mediaPacket].
  rewrite length_packetSamples64, length_realSamples.
  split; [done|].
  split; [by unfold packetSamples64; rewrite length_realSamples|].
  split; [done|]. split; [done|]. split; [done|].
  split.
  { intros Hpad.
    assert (~ (S k < ceilDiv (length shaped) 400)%nat)
      by (rewrite ceilDiv_spec; lia).
    lia. }
  intros H32. unfold packetSamples64. split.
  - intros Hpad.
    rewrite lookup_app_r by (rewrite length_realSamples; lia).
    rewrite length_realSamples, Nat.sub_diag.
    apply fadePad64_head; [done|lia].
  - intros i v Hv.
    rewrite lookup_app_r in Hv by (rewrite length_realSamples; lia).
    rewrite length_realSamples in Hv.
    replace (Nat.min 400 (length shaped - 400 * k) + i
             - Nat.min 400 (length shaped - 400 * k))%nat with i in Hv by lia.
    eapply fadePad64_near; [done| |exact Hv]. lia.
Qed.

(** Three samples, nothing emitted before: one packet, the three shaped
    samples followed by a fade of 397 values that starts at the last of
    them. *)
Lemma sendAudio_packetization_witness :
  let ws := {| readyState := OPEN; sent := [] |} in
  let st := {| sockets := {[ 0%nat := ws ]};
               ucidToConnection := {[ "A"%string := 0%nat ]};
               _lastSamples := Some {[ "A"%string := 0 ]} |} in
  exists st' p,
    StreamServer64.sendAudioToOzonetel "A" [1; 2; 6] st = Some (true, st')
    /\ sockets st' !! 0%nat = Some {| readyState := OPEN; sent := [p] |}
    /\ length (p_samples p) = 400%nat
    /\ p_samples p = [-2; -1; 3] ++ fadePad64 3 397
    /\ p_samples p !! 3%nat = Some 3.
Proof.
  intros ws st.
  destruct (sendAudio_packetization "A" [1; 2; 6] st 0 ws)
    as (st' & packets & Hsend & Hsock & HN & Hcount & Hpackets).
  - discriminate.
  - reflexivity.
  - reflexivity.
  - rewrite HN in Hcount. change (ceilDiv (length [1; 2; 6]) 400) with 1%nat in Hcount.
    destruct packets as [|p [|q packets]]; [done| |done].
    exists st', p. split; [exact Hsend|]. split; [exact Hsock|].
    destruct (Hpackets 0%nat p eq_refl) as (_ & Hp & Hlen & _ & _ & _ & H32).
    split; [exact Hlen|].
    assert (Hshaped : fst (StreamServer64._applyCrossfade "A"
                             (StreamServer64._removeDCOffset [1; 2; 6]) st)
                      = [-2; -1; 3]) by (by vm_compute).
    rewrite Hshaped in Hp, H32.
    split; [exact Hp|].
    assert (H3 : int32 3) by (unfold int32; lia).
    apply (proj1 (H32 H3)). discriminate.
Defined.

(** The fade of a last value 3 over six pad samples: the exact fade is 1/2
    at the last index, where the binary64 product falls just below. *)
Lemma fadePad64_tie :
  fadePad64 3 6 = [3; 3; 2; 2; 1; 0]
  /\ fadePad 3 6 = [3; 3; 2; 2; 1; 1]
  /\ halfway (inject_Z 3 * (1 - inject_Z 5 / inject_Z 6)).
Proof. repeat split; by vm_compute. Qed.

End Packetization64.

Section FadeOut64.
Import JS StreamServer Spec Shaping.

(** A value that is the rounding of [x], or at a tie the integer below, is
    at most the rounding of any larger number, and at least that of any
    smaller one up to the tie. *)
Lemma near_le (x y : Q) (v w : Z) :
  (x < y)%Q ->
  v = Math_round x \/ (halfway x /\ v = Math_round x - 1) ->
  w = Math_round y \/ (halfway y /\ w = Math_round y - 1) ->
  v <= w.
Proof.
  intros Hxy Hv Hw.
  assert (Hvx : v <= Math_round x) by (destruct Hv as [->|[_ ->]]; lia).
  destruct Hw as [->|[Hy ->]].
  - pose proof (Math_round_mono x y ltac:(lra)). lia.
  - unfold halfway in Hy.
    destruct (Math_round_bounds x) as [Hlo _].
    assert (H : (inject_Z (Math_round x) < inject_Z (Math_round y))%Q) by lra.
    rewrite <- Zlt_Qlt in H. lia.
Qed.

Lemma near_between (L : Z) (x : Q) (v : Z) :
  (0 <= x <= inject_Z L \/ inject_Z L <= x <= 0)%Q ->
  v = Math_round x \/ (halfway x /\ v = Math_round x - 1) ->
  between L 0 v.
Proof.
  intros Hx Hv. unfold between.
  destruct (Math_round_bounds x) as [Hlo Hhi].
  assert (Hr : Z.min L 0 <= Math_round x <= Z.max L 0).
  { destruct Hx as [[H0 HL]|[HL H0]].
    - assert (H1 : (inject_Z 0 < inject_Z (Math_round x + 1))%Q)
        by (rewrite inject_Z_plus; change (inject_Z 1) with 1%Q;
            change (inject_Z 0) with 0%Q; lra).
      assert (H2 : (inject_Z (Math_round x) < inject_Z (L + 1))%Q)
        by (rewrite inject_Z_plus; change (inject_Z 1) with 1%Q; lra).
      rewrite <- Zlt_Qlt in H1, H2. lia.
    - assert (H1 : (inject_Z L < inject_Z (Math_round x + 1))%Q)
        by (rewrite inject_Z_plus; change (inject_Z 1) with 1%Q; lra).
      assert (H2 : (inject_Z (Math_round x) < inject_Z (0 + 1))%Q)
        by (change (inject_Z (0 + 1)) with 1%Q; lra).
      rewrite <- Zlt_Qlt in H1, H2. lia. }
  destruct Hv as [->|[Hhalf ->]]; [exact Hr|].
  unfold halfway in Hhalf.
  destruct Hx as [[H0 HL]|[HL H0]].
  - assert (H1 : (inject_Z 0 < inject_Z (Math_round x))%Q)
      by (change (inject_Z 0) with 0%Q; lra).
    rewrite <- Zlt_Qlt in H1. lia.
  - assert (H1 : (inject_Z L < inject_Z (Math_round x))%Q) by lra.
    rewrite <- Zlt_Qlt in H1. lia.
Qed.

(** The exact fade lies between the last value and zero, and moves
    towards zero with the index. *)
Lemma fade_exact (L : Z) (n i : nat) :
  (i < n)%nat ->
  let x := (inject_Z L * (1 - inject_Z (Z.of_nat i) / inject_Z (Z.of_nat n)))%Q in
  (0 <= x <= inject_Z L \/ inject_Z L <= x <= 0)%Q.
Proof.
  intros Hi x. unfold x. destruct (fade_factor i n Hi) as [H0 H1].
  set (t := (inject_Z (Z.of_nat i) / inject_Z (Z.of_nat n))%Q) in *.
  destruct (Z.le_ge_cases 0 L) as [HL|HL].
  - left. rewrite (Zle_Qle 0) in HL. change (inject_Z 0) with 0%Q in HL. split; nra.
  - right. rewrite Zle_Qle in HL.
    change (inject_Z 0) with 0%Q in HL. split; nra.
Qed.

Lemma fade_exact_lt (L : Z) (n i j : nat) :
  (i < j)%nat -> (j < n)%nat ->
  let x k := (inject_Z L * (1 - inject_Z (Z.of_nat k) / inject_Z (Z.of_nat n)))%Q in
  (0 < L -> (x j < x i)%Q) /\ (L < 0 -> (x i < x j)%Q).
Proof.
  intros Hij Hjn x. unfold x.
  assert (Hn : (0 < inject_Z (Z.of_nat n))%Q) by (rewrite <- (Zlt_Qlt 0); lia).
  assert (Ht : (inject_Z (Z.of_nat i) / inject_Z (Z.of_nat n)
                < inject_Z (Z.of_nat j) / inject_Z (Z.of_nat n))%Q).
  { unfold Qdiv. apply Qmult_lt_compat_r.
    - by apply Qinv_lt_0_compat.
    - rewrite <- Zlt_Qlt. lia. }
  set (ti := (inject_Z (Z.of_nat i) / inject_Z (Z.of_nat n))%Q) in *.
  set (tj := (inject_Z (Z.of_nat j) / inject_Z (Z.of_nat n))%Q) in *.
  split; intros HL.
  - rewrite (Zlt_Qlt 0) in HL. change (inject_Z 0) with 0%Q in HL. nra.
  - rewrite Zlt_Qlt in HL. change (inject_Z 0) with 0%Q in HL. nra.
Qed.

(** X13. Fade-out padding: a chunk already as long as the target is
    returned as it is; a shorter one (an empty one counts its last value as
    zero) is followed by the fade to the target length, computed in
    binary64.  For a 32-bit last value and at most 400 pad samples the fade
    starts at the last value itself, never leaves the range between that
    value and zero, and never grows in magnitude. *)
Theorem applyFadeoutPadding_spec (samples : list Z) (targetSize : nat) :
  let out := StreamServer64._applyFadeoutPadding samples targetSize in
  let lastValue := default 0 (last samples) in
  let pad := fadePad64 lastValue (targetSize - length samples) in
  ((targetSize <= length samples)%nat -> out = samples)
  /\ ((length samples < targetSize)%nat ->
      out = samples ++ pad
      /\ length out = targetSize
      /\ (int32 lastValue -> (targetSize - length samples <= 400)%nat ->
          pad !! 0%nat = Some lastValue
          /\ (forall i v, pad !! i = Some v -> between lastValue 0 v)
          /\ (forall i j v w, (i <= j)%nat -> pad !! i = Some v -> pad !! j = Some w ->
                Z.abs w <= Z.abs v))).
Proof.
  cbn zeta. unfold StreamServer64._applyFadeoutPadding.
  destruct (Nat.leb_spec targetSize (length samples)) as [Hge|Hlt].
  { split; [done|lia]. }
  split; [lia|]. intros _.
  set (lastValue := default 0 (last samples)).
  set (n := (targetSize - length samples)%nat).
  rewrite fold_push.
  change (map (StreamServer64.faded lastValue n) (seq 0 n)) with (fadePad64 lastValue n).
  split; [done|]. split; [rewrite length_app, length_fadePad64; lia|].
  intros H32 Hn.
  assert (Hnear : forall i v, fadePad64 lastValue n !! i = Some v ->
            (i < n)%nat
            /\ let x := (inject_Z lastValue
                         * (1 - inject_Z (Z.of_nat i) / inject_Z (Z.of_nat n)))%Q in
               v = Math_round x \/ (halfway x /\ v = Math_round x - 1)).
  { intros i v Hv. pose proof (lookup_lt_Some _ _ _ Hv) as Hi.
    rewrite length_fadePad64 in Hi. split; [done|].
    by apply (fadePad64_near lastValue n i v). }
  assert (Hbetween : forall i v, fadePad64 lastValue n !! i = Some v ->
            between lastValue 0 v).
  { intros i v Hv. destruct (Hnear i v Hv) as [Hi Hx].
    eapply near_between; [|exact Hx]. by apply fade_exact. }
  split; [apply fadePad64_head; [done|lia]|].
  split; [exact Hbetween|].
  intros i j v w Hij Hv Hw.
  destruct (decide (i = j)) as [->|Hne].
  { rewrite Hv in Hw. injection Hw as ->. lia. }
  pose proof (Hbetween i v Hv) as Bv. pose proof (Hbetween j w Hw) as Bw.
  destruct (Hnear i v Hv) as [Hi Hx]. destruct (Hnear j w Hw) as [Hj Hy].
  destruct (fade_exact_lt lastValue n i j ltac:(lia) Hj) as [Hpos Hneg].
  unfold between in Bv, Bw.
  destruct (Z.lt_trichotomy lastValue 0) as [HL|[HL|HL]].
  - pose proof (near_le _ _ v w (Hneg HL) Hx Hy). lia.
  - lia.
  - pose proof (near_le _ _ w v (Hpos HL) Hy Hx). lia.
Qed.

(** A chunk of one sample 3 padded to seven, and a chunk that is already
    long enough. *)
Lemma applyFadeoutPadding_spec_witness :
  StreamServer64._applyFadeoutPadding [3] 7 = [3; 3; 3; 2; 2; 1; 0]
  /\ StreamServer64._applyFadeoutPadding [5; 6] 2 = [5; 6].
Proof.
  destruct (applyFadeoutPadding_spec [3] 7) as [_ Hshort].
  destruct (applyFadeoutPadding_spec [5; 6] 2) as [Hlong _].
  destruct Hshort as (Hout & _); [cbn; lia|].
  split; [rewrite Hout; by vm_compute|apply Hlong; cbn; lia].
Defined.

End FadeOut64.

(** ** Where binary64 is exact: the DC-offset removal *)

Section DCOffset64.
Import JS StreamServer Spec Binary64.

Lemma nearestEven_integer (y : Q) (z : Z) : (y == inject_Z z)%Q -> nearestEven y = z.
Proof.
  intros E. unfold nearestEven.
  assert (Hf : Qfloor y = z) by (rewrite (Qfloor_comp _ _ E); apply Qfloor_Z).
  rewrite Hf.
  destruct (Qcompare_spec (y - inject_Z z) (1 # 2)) as [H|H|H]; [lra|done|lra].
Qed.

(** A number with at most 53 significant bits is a double: rounding keeps
    it. *)
Lemma round_exact (x : Q) (m e : Z) :
  (x == inject_Z m * 2 ^ e)%Q -> Z.abs m < 2 ^ 53 -> -1074 <= e ->
  (round x == x)%Q.
Proof.
  intros E Hm He. unfold round. destruct (Qeq_bool x 0) eqn:Hz.
  - apply Qeq_bool_iff in Hz. by rewrite Hz.
  - assert (Hx : ~ (x == 0)%Q) by (intros H; apply Qeq_bool_iff in H; congruence).
    clear Hz.
    assert (Hlp : lastPlace x <= e).
    { unfold lastPlace. apply Z.max_lub; [|done].
      pose proof (ilog2_le x Hx) as Hl.
      assert (Hlt : (2 ^ ilog2 x < 2 ^ (53 + e))%Q).
      { eapply Qle_lt_trans; [exact Hl|].
        rewrite E, Qabs_Qmult, (Qabs_pos (2 ^ e)) by (apply Qlt_le_weak, pow2_pos).
        rewrite Qpower_plus by done.
        apply Qmult_lt_compat_r; [apply pow2_pos|].
        change (2 ^ 53)%Q with (inject_Z (2 ^ 53)).
        assert (Ha : (Qabs (inject_Z m) == inject_Z (Z.abs m))%Q) by reflexivity.
        rewrite Ha, <- Zlt_Qlt. exact Hm. }
      apply Qpower_lt_compat_l_inv in Hlt; [lia|done]. }
    set (lp := lastPlace x) in *.
    assert (HP : (0 < 2 ^ lp)%Q) by apply pow2_pos.
    assert (Hy : (x / 2 ^ lp == inject_Z (m * 2 ^ (e - lp)))%Q).
    { rewrite inject_Z_mult, <- (pow2_Z (e - lp)) by lia.
      rewrite Qpower_minus by done. rewrite E.
      field; repeat split; apply Qnot_eq_sym, Qlt_not_eq, pow2_pos. }
    rewrite (nearestEven_integer _ _ Hy).
    rewrite inject_Z_mult, <- (pow2_Z (e - lp)) by lia.
    rewrite Qpower_minus by done. rewrite E.
    field; repeat split; apply Qnot_eq_sym, Qlt_not_eq, pow2_pos.
Qed.

Lemma round_integer (x : Q) (z : Z) :
  (x == inject_Z z)%Q -> Z.abs z < 2 ^ 53 -> (round x == inject_Z z)%Q.
Proof.
  intros E Hz. rewrite (round_exact x z 0); [done| |done|lia].
  rewrite E. change (2 ^ 0)%Q with 1%Q. ring.
Qed.

Lemma round_half (x : Q) (h : Z) :
  (x == inject_Z h * (1 # 2))%Q -> Z.abs h < 2 ^ 53 -> (round x == x)%Q.
Proof.
  intros E Hh. apply (round_exact x h (-1)); [|done|lia].
  rewrite E. reflexivity.
Qed.

Lemma half_odd (a b : Z) :
  (inject_Z (2 * (a - b) + 1) * (1 # 2) == inject_Z a - inject_Z b + (1 # 2))%Q.
Proof.
  rewrite inject_Z_plus, inject_Z_mult. unfold Z.sub.
  rewrite inject_Z_plus, inject_Z_opp.
  change (inject_Z 2) with 2%Q. change (inject_Z 1) with 1%Q. ring.
Qed.

Lemma half_below (k : Z) :
  (inject_Z (2 * k - 1) * (1 # 2) == inject_Z k - (1 # 2))%Q.
Proof.
  unfold Z.sub. rewrite inject_Z_plus, inject_Z_mult, inject_Z_opp.
  change (inject_Z 2) with 2%Q. change (inject_Z 1) with 1%Q. ring.
Qed.

(** The running total of 16-bit samples is exact. *)
Lemma total_acc (l : list Z) :
  forall (a : Q) (za : Z),
  (a == inject_Z za)%Q ->
  Forall int16 l ->
  Z.abs za + 32768 * Z.of_nat (length l) < 2 ^ 53 ->
  (fold_left (fun sum val => add sum (inject_Z val)) l a
   == inject_Z (fold_left (fun acc s => (acc + s)%Z) l za))%Q.
Proof.
  induction l as [|s l IH]; intros a za Ea Hl Hb; cbn [fold_left]; [done|].
  apply Forall_cons in Hl as [Hs Hl]. unfold int16 in Hs.
  cbn [length] in Hb.
  change (2 ^ 53) with 9007199254740992 in *.
  apply IH; [|done|lia].
  unfold add. apply round_integer; [|change (2 ^ 53) with 9007199254740992; lia].
  rewrite Ea, inject_Z_plus. reflexivity.
Qed.

Lemma total_exact (samples : list Z) :
  Forall int16 samples -> Z.of_nat (length samples) <= 65536 ->
  (StreamServer64.total samples == inject_Z (sum samples))%Q.
Proof.
  intros Hs Hn. unfold StreamServer64.total, sum.
  apply total_acc; [done|done|].
  change (2 ^ 53) with 9007199254740992. lia.
Qed.

Lemma sum_bound (l : list Z) :
  Forall int16 l -> Z.abs (sum l) <= 32768 * Z.of_nat (length l).
Proof.
  induction l as [|s l IH]; intros Hl; [cbn; lia|].
  apply Forall_cons in Hl as [Hs Hl]. unfold int16 in Hs.
  rewrite sum_cons. cbn [length]. specialize (IH Hl). lia.
Qed.

(** On 16-bit arrays of at most 65536 samples the binary64 DC-offset
    removal returns what exact arithmetic returns: the rounding errors of
    the mean and of the difference are too small to cross a tie, and where
    a difference sits exactly on a tie, the mean and the difference are
    doubles. *)
Lemma removeDCOffset64_exact (samples : list Z) :
  Forall int16 samples -> Z.of_nat (length samples) <= 65536 ->
  StreamServer64._removeDCOffset samples = _removeDCOffset samples.
Proof.
  intros Hs Hn. unfold StreamServer64._removeDCOffset, _removeDCOffset.
  destruct samples as [|s0 rest]; [done|].
  set (samples := s0 :: rest) in *.
  apply map_ext_in. intros s Hin.
  assert (Hs16 : int16 s).
  { rewrite Forall_forall in Hs. apply Hs. by apply list_elem_of_In. }
  unfold int16 in Hs16.
  pose proof (total_exact samples Hs Hn) as Ht.
  pose proof (sum_bound samples Hs) as Hsum.
  set (S := sum samples) in *. set (N := length samples) in *.
  assert (HN : (0 < N)%nat) by (unfold N, samples; cbn; lia).
  assert (HNq : (0 < inject_Z (Z.of_nat N))%Q) by (rewrite <- (Zlt_Qlt 0); lia).
  unfold StreamServer64.mean, mean. fold S N.
  set (m64 := div (StreamServer64.total samples) (inject_Z (Z.of_nat N))).
  set (m := (inject_Z S / inject_Z (Z.of_nat N))%Q).
  set (x := (inject_Z s - m)%Q).
  (* the mean is bounded, and its double is near *)
  assert (Hmb : (Qabs m <= 32768)%Q).
  { unfold m. apply Qabs_Qle_condition.
    assert (H1 : (inject_Z (- (32768 * Z.of_nat N)) <= inject_Z S)%Q)
      by (rewrite <- Zle_Qle; lia).
    assert (H2 : (inject_Z S <= inject_Z (32768 * Z.of_nat N))%Q)
      by (rewrite <- Zle_Qle; lia).
    rewrite inject_Z_opp, inject_Z_mult in H1. rewrite inject_Z_mult in H2.
    change (inject_Z 32768) with 32768%Q in H1, H2.
    split.
    - apply Qle_shift_div_l; [done|]. lra.
    - apply Qle_shift_div_r; [done|]. lra. }
  assert (Hm64 : (Qabs (m64 - m) <= 32768 * unitRoundoff + tiny)%Q).
  { unfold m64, div.
    pose proof (round_near (StreamServer64.total samples / inject_Z (Z.of_nat N))
                  m 0 32768) as H.
    assert (E : (StreamServer64.total samples / inject_Z (Z.of_nat N) == m)%Q)
      by (unfold m; by rewrite Ht).
    assert (E0 : (Qabs (StreamServer64.total samples / inject_Z (Z.of_nat N) - m) <= 0)%Q).
    { assert (E1 : (StreamServer64.total samples / inject_Z (Z.of_nat N) - m == 0)%Q)
        by (rewrite E; ring).
      by rewrite E1. }
    specialize (H E0 Hmb). lra. }
  assert (Hxb : (Qabs x <= 65536)%Q).
  { unfold x. eapply Qle_trans; [apply Qabs_triangle|]. rewrite Qabs_opp.
    assert (Qabs (inject_Z s) <= 32768)%Q.
    { apply Qabs_Qle_condition. change 32768%Q with (inject_Z 32768).
      rewrite <- inject_Z_opp, <- !Zle_Qle. lia. }
    lra. }
  assert (Hd : (Qabs (sub (inject_Z s) m64 - x) <= 1 # 1000000000)%Q).
  { unfold sub.
    pose proof (round_near (inject_Z s - m64) x (32768 * unitRoundoff + tiny) 65536) as H.
    assert (E : (Qabs (inject_Z s - m64 - x) <= 32768 * unitRoundoff + tiny)%Q).
    { unfold x. assert (E1 : (inject_Z s - m64 - (inject_Z s - m) == - (m64 - m))%Q) by ring.
      by rewrite E1, Qabs_opp. }
    specialize (H E Hxb). eapply Qle_trans; [exact H|]. by vm_compute. }
  (* the difference is a fraction over the length *)
  assert (Hfrac : (x == (s * Z.of_nat N - S) # Pos.of_nat N)%Q).
  { unfold x, m. rewrite (Qmake_Qdiv (s * Z.of_nat N - S) (Pos.of_nat N)).
    replace (Z.pos (Pos.of_nat N)) with (Z.of_nat N) by lia.
    unfold Z.sub. rewrite inject_Z_plus, inject_Z_mult, inject_Z_opp.
    field. lra. }
  destruct (Math_round_near_fraction (s * Z.of_nat N - S) (Pos.of_nat N)
              (sub (inject_Z s) m64)) as [H|[Hhalf _]].
  - rewrite <- Hfrac. eapply Qle_lt_trans; [exact Hd|].
    unfold Qlt. cbn [Qnum Qden]. lia.
  - rewrite H. by apply Math_round_Qeq.
  - (* on a tie everything is a double *)
    apply (halfway_Qeq _ x) in Hhalf; [|by symmetry].
    unfold halfway in Hhalf. set (k := Math_round x) in *.
    assert (Hk : Z.abs k <= 65537).
    { destruct (Math_round_bounds x) as [Hlo Hhi]. fold k in Hlo, Hhi.
      apply Qabs_Qle_condition in Hxb as [Hx1 Hx2].
      assert (H1 : (inject_Z (-65537) < inject_Z (k + 1))%Q)
        by (rewrite inject_Z_plus; change (inject_Z 1) with 1%Q;
            change (inject_Z (-65537)) with (-65537)%Q; lra).
      assert (H2 : (inject_Z k < inject_Z 65537)%Q)
        by (change (inject_Z 65537) with 65537%Q; lra).
      rewrite <- Zlt_Qlt in H1, H2. lia. }
    assert (Hm : (m == inject_Z (2 * (s - k) + 1) * (1 # 2))%Q).
    { rewrite half_odd. unfold x in Hhalf. lra. }
    assert (Hm64e : (m64 == m)%Q).
    { unfold m64, div.
      assert (E : (StreamServer64.total samples / inject_Z (Z.of_nat N) == m)%Q)
        by (unfold m; by rewrite Ht).
      rewrite (round_half _ (2 * (s - k) + 1)); [exact E|by rewrite E|].
      change (2 ^ 53) with 9007199254740992. lia. }
    apply Math_round_Qeq. unfold sub.
    assert (Ex : (inject_Z s - m64 == inject_Z (2 * k - 1) * (1 # 2))%Q).
    { rewrite Hm64e, half_below. unfold x in Hhalf. lra. }
    rewrite (round_half _ (2 * k - 1) Ex)
      by (change (2 ^ 53) with 9007199254740992; lia).
    unfold x. by rewrite Hm64e.
Qed.

(** C5. On a non-empty array [_removeDCOffset] subtracts the arithmetic
    mean of the array from every sample and rounds to the nearest integer;
    the arithmetic mean of the result has absolute value at most 1/2.  The
    mean and the differences are stated in exact arithmetic; in binary64,
    as the engine computes them, the result is the same on every 16-bit
    array of at most 65536 samples. *)
Theorem removeDCOffset_centered (samples : list Z) :
  samples <> [] ->
  _removeDCOffset samples
  = map (fun sample => Math_round (inject_Z sample - arithmeticMean samples)) samples
  /\ (Qabs (arithmeticMean (_removeDCOffset samples)) <= 1 # 2)%Q
  /\ (Forall int16 samples -> Z.of_nat (length samples) <= 65536 ->
      StreamServer64._removeDCOffset samples = _removeDCOffset samples).
Proof.
  intros Hne. split; [|split; [|apply removeDCOffset64_exact]].
  { rewrite <- mean_arithmeticMean. by destruct samples. }
  rewrite <- mean_arithmeticMean.
  rewrite _removeDCOffset_shift.
  set (c := Math_round (- mean samples)).
  assert (Hn : (0 < inject_Z (Z.of_nat (length samples)))%Q).
  { rewrite <- (Zlt_Qlt 0). destruct samples; [done|cbn; lia]. }
  assert (Hmean : (mean (map (fun s => (s + c)%Z) samples)
                   == mean samples + inject_Z c)%Q).
  { unfold mean. rewrite length_map, sum_map_shift, inject_Z_plus, inject_Z_mult.
    field. lra. }
  rewrite Hmean.
  destruct (Math_round_bounds (- mean samples)) as [Hlo Hhi]. fold c in Hlo, Hhi.
  apply Qabs_Qle_condition. split; lra.
Qed.

(** The total of [1; 2; 4] is 7 and the mean 7/3: the samples become
    [-1; 0; 2], whose mean is 1/3; binary64 gives the same samples. *)
Lemma removeDCOffset_centered_witness :
  _removeDCOffset [1; 2; 4] = [-1; 0; 2]
  /\ (arithmeticMean [1; 2; 4]%Z == 7 # 3)%Q
  /\ (arithmeticMean (_removeDCOffset [1; 2; 4]%Z) == 1 # 3)%Q
  /\ (Qabs (arithmeticMean (_removeDCOffset [1; 2; 4]%Z)) <= 1 # 2)%Q
  /\ StreamServer64._removeDCOffset [1; 2; 4] = [-1; 0; 2].
Proof.
  destruct (removeDCOffset_centered [1; 2; 4]) as (Hmap & Hmean & H64); [discriminate|].
  split; [reflexivity|]. split; [reflexivity|]. split; [reflexivity|].
  split; [exact Hmean|].
  rewrite H64; [reflexivity| |cbn; lia].
  repeat constructor; unfold int16; lia.
Defined.

End DCOffset64.

(** ** The guard and the transcriptions in flight *)

Section GuardAndFlight.
Import JS StreamingClient EventLoop.

Variable uninit : nat -> Z.




End GuardAndFlight.

Section GuardAndFlightExamples.
Import JS StreamingClient EventLoop Scenario.





End GuardAndFlightExamples.
